(** * BrianScheme runtime core: root stacks, collector and bytecode VM

    A shallow embedding of [gc.c] and [vm.c].  Pointers are machine
    addresses ([Z], with [NULL = 0]); C arrays are lists read and written
    by index; a computation that leaves the defined behaviour of C (a read
    outside an array, a dereference of [NULL] or of an address that holds
    no cell) yields [None]. *)

From stdpp Require Import gmap list.
From Stdlib Require Import ZArith Lia.

Local Open Scope Z_scope.

(** ** Machine integers and results *)

Definition NULL : Z := 0.

(** [int] is 32 bits wide, [long] 64 bits, [char] 8 bits (LP64). *)
Definition wrap_int (z : Z) : Z := (z + 2 ^ 31) mod 2 ^ 32 - 2 ^ 31.
Definition wrap_long (z : Z) : Z := (z + 2 ^ 63) mod 2 ^ 64 - 2 ^ 63.
Definition wrap_char (z : Z) : Z := (z + 2 ^ 7) mod 2 ^ 8 - 2 ^ 7.

Definition INT_MAX : Z := 2 ^ 31 - 1.

(** What a call that may end the process produces: a value, [exit(code)],
    or nothing defined. *)
Inductive result (A : Type) : Type :=
| Ok (a : A)
| Exit (code : Z)
| Undefined.
Arguments Ok {A} a.
Arguments Exit {A} code.
Arguments Undefined {A}.

Definition of_option {A} (o : option A) : result A :=
  match o with Some a => Ok a | None => Undefined end.

Definition rbind {A B} (r : result A) (k : A → result B) : result B :=
  match r with
  | Ok a => k a
  | Exit c => Exit c
  | Undefined => Undefined
  end.

(** C array subscripts. *)
Definition aget {A} (a : list A) (i : Z) : option A :=
  if decide (0 ≤ i) then a !! Z.to_nat i else None.

Definition aset {A} (a : list A) (i : Z) (x : A) : option (list A) :=
  if decide (0 ≤ i < Z.of_nat (length a)) then Some (<[Z.to_nat i := x]> a)
  else None.

(** ** [stack_set]: the growable pointer stacks of gc.c *)

Module StackSet.

Record stack_set : Type := mk_stack_set {
  objs : list Z;
  top : Z;
  size : Z
}.

(** The entries the stack holds, bottom first: [objs[0 .. top)]. *)
Definition live (ss : stack_set) : list Z := take (Z.to_nat (top ss)) (objs ss).

(** [0 <= top <= size] and [objs] has [size] slots. *)
Definition stack_ok (ss : stack_set) : Prop :=
  0 ≤ top ss ≤ size ss ∧ Z.of_nat (length (objs ss)) = size ss.

(** [make_stack_set]: the slots come from [MALLOC] and are never read
    before they are written; they are shown as [NULL]. *)
Definition make_stack_set (initial_size : Z) : stack_set :=
  {| objs := replicate (Z.to_nat initial_size) NULL; top := 0;
     size := initial_size |}.

Definition clear_stack_set (ss : stack_set) : stack_set :=
  {| objs := objs ss; top := 0; size := size ss |}.

(** [stack_set_push]: doubles the array when it is full ([REALLOC] copies
    the old slots into a new block), then stores at [top++]. *)
Definition stack_set_push (ss : stack_set) (value : Z) : option stack_set :=
  let ss1 :=
    if decide (top ss = size ss) then
      let old_size := size ss in
      let new_size := wrap_long (size ss * 2) in
      {| objs := objs ss ++ replicate (Z.to_nat (new_size - old_size)) NULL;
         top := top ss; size := new_size |}
    else ss in
  a ← aset (objs ss1) (top ss1) value;
  Some {| objs := a; top := wrap_long (top ss1 + 1); size := size ss1 |}.

(** The [for] loop of [stack_set_pop], entered with [idx = k - 1] and
    [done = 0]: every visited slot receives the value carried down from
    the slot above it. *)
Fixpoint scan_back (k : nat) (a : list Z) (last value : Z)
  : option (bool * list Z) :=
  match k with
  | O => Some (false, a)
  | S idx =>
      temp ← a !! idx;
      let a' := <[idx := last]> a in
      if decide (temp = value) then Some (true, a')
      else scan_back idx a' temp value
  end.

Definition stack_set_pop (ss : stack_set) (value : Z)
  : option (bool * stack_set) :=
  let top' := wrap_long (top ss - 1) in
  x ← aget (objs ss) top';
  if decide (x ≠ value) then
    let idx := wrap_int (top' - 1) in
    last ← aget (objs ss) top';
    '(done, a) ← scan_back (Z.to_nat (idx + 1)) (objs ss) last value;
    Some (done, {| objs := a; top := top'; size := size ss |})
  else Some (true, {| objs := objs ss; top := top'; size := size ss |}).

(** [push_root] / [pop_root] on the [Root_Objects] stack; [throw_gc]
    prints and calls [exit(2)]. *)
Definition push_root (roots : stack_set) (root : Z) : option stack_set :=
  stack_set_push roots root.

Definition pop_root (roots : stack_set) (root : Z) : result stack_set :=
  match stack_set_pop roots root with
  | None => Undefined
  | Some (true, roots') => Ok roots'
  | Some (false, _) => Exit 2
  end.

End StackSet.

(** ** gc.c: the object heap and the collector *)

Module GC.
Import StackSet.

(** The variant tag of an object together with the part of its [data]
    union that the tag selects.  A cell fresh from [MALLOC] has no
    determinate tag. *)
Inductive payload : Type :=
| PAIR (car cdr : Z)
| COMPOUND_PROC (env parameters body : Z)
| SYNTAX_PROC (env parameters body : Z)
| VECTOR (objects : list Z)
| COMPILED_PROC (bytecode env : Z)
| COMPILED_SYNTAX_PROC (bytecode env : Z)
| META_PROC (proc meta : Z)
| HASH_TABLE (entries : list (Z * Z))
| STRING (value : list Z)
| FIXNUM (value : Z)
| CHARACTER (value : Z)
| SYMBOL (name : list Z)
| PRIMITIVE_PROC (fn : Z)
| BOOLEAN (value : bool)
| THE_EMPTY_LIST
| UNINITIALISED.

(** [struct object]: object pointers count cells, so [&new_heap[i]] is
    [new_heap + i]. *)
Record object : Type := mk_object {
  data : payload;
  color : Z;
  next : Z;
  prev : Z
}.

Definition set_color (o : object) (c : Z) : object :=
  {| data := data o; color := c; next := next o; prev := prev o |}.
Definition set_next (o : object) (n : Z) : object :=
  {| data := data o; color := color o; next := n; prev := prev o |}.
Definition set_prev (o : object) (p : Z) : object :=
  {| data := data o; color := color o; next := next o; prev := p |}.

Record doubly_linked_list : Type := mk_dll {
  head : Z;
  tail : Z;
  num_objects : Z
}.

(** Memory accesses through an object pointer. *)
Definition load (h : gmap Z object) (p : Z) : option object :=
  if decide (p = NULL) then None else h !! p.

Definition store_color (h : gmap Z object) (p c : Z) : option (gmap Z object) :=
  o ← load h p; Some (<[p := set_color o c]> h).
Definition store_next (h : gmap Z object) (p n : Z) : option (gmap Z object) :=
  o ← load h p; Some (<[p := set_next o n]> h).
Definition store_prev (h : gmap Z object) (p q : Z) : option (gmap Z object) :=
  o ← load h p; Some (<[p := set_prev o q]> h).

(** The object memory with the two lists [move_object_to_head] works on. *)
Record lists : Type := mk_lists {
  mem : gmap Z object;
  src_list : doubly_linked_list;
  dest_list : doubly_linked_list
}.

Definition move_object_to_head (obj : Z) (s : lists) : option lists :=
  let h := mem s in
  let src := src_list s in
  let dest := dest_list s in
  (* unlink from the old list *)
  o ← load h obj;
  '(src, h) ←
    (if decide (prev o = NULL) then
       Some ({| head := next o; tail := tail src;
                num_objects := num_objects src |}, h)
     else h' ← store_next h (prev o) (next o); Some (src, h'));
  o ← load h obj;
  '(src, h) ←
    (if decide (next o = NULL) then
       Some ({| head := head src; tail := prev o;
                num_objects := num_objects src |}, h)
     else h' ← store_prev h (next o) (prev o); Some (src, h'));
  let src := {| head := head src; tail := tail src;
                num_objects := wrap_long (num_objects src - 1) |} in
  (* link into new list *)
  '(dest, h) ←
    (if decide (head dest = NULL) then
       h ← store_next h obj NULL;
       h ← store_prev h obj NULL;
       Some ({| head := obj; tail := obj; num_objects := num_objects dest |}, h)
     else
       h ← store_prev h obj NULL;
       h ← store_next h obj (head dest);
       o ← load h obj;
       h ← store_prev h (next o) obj;
       Some ({| head := obj; tail := tail dest;
                num_objects := num_objects dest |}, h));
  let dest := {| head := head dest; tail := tail dest;
                 num_objects := wrap_long (num_objects dest + 1) |} in
  Some {| mem := h; src_list := src; dest_list := dest |}.

(** [append_to_tail(dest, src)]; the result lists are [(dest, src)]. *)
Definition append_to_tail (h : gmap Z object) (dest src : doubly_linked_list)
  : option (gmap Z object * doubly_linked_list * doubly_linked_list) :=
  let emptied := {| head := NULL; tail := NULL; num_objects := 0 |} in
  if decide (tail dest = NULL) then
    Some (h, {| head := head src; tail := tail src;
                num_objects := wrap_long (num_objects dest + num_objects src) |},
          emptied)
  else if decide (head src = NULL) then Some (h, dest, src)
  else
    h ← store_next h (tail dest) (head src);
    t ← load h (tail dest);
    h ← store_prev h (next t) (tail dest);
    Some (h, {| head := head dest; tail := tail src;
                num_objects := wrap_long (num_objects dest + num_objects src) |},
          emptied).

(** [for (int i = lo; i < hi; ++i) body]: [n] iterations are left to run
    from [i]; incrementing an [int] past [INT_MAX] is not defined. *)
Fixpoint for_int {S : Type} (n : nat) (i : Z) (body : Z → S → option S) (s : S)
  : option S :=
  match n with
  | O => Some s
  | Datatypes.S n' =>
      s' ← body i s;
      if decide (i + 1 ≤ INT_MAX) then for_int n' (i + 1) body s' else None
  end.

Definition for_up {S : Type} (lo hi : Z) (body : Z → S → option S) (s : S)
  : option S :=
  for_int (Z.to_nat (hi - lo)) lo body s.

(** The macro [maybe_move(obj)] of [move_reachable]; [src_list] is
    [Active_Heap_Objects] and [dest_list] is [to_set]. *)
Definition maybe_move (current_color : Z) (obj : Z) (s : lists) : option lists :=
  let temp := obj in
  o ← load (mem s) temp;
  if decide (color o ≠ current_color) then
    s ← move_object_to_head temp s;
    h ← store_color (mem s) temp current_color;
    Some {| mem := h; src_list := src_list s; dest_list := dest_list s |}
  else Some s.

(** The [HASH_TABLE] case: the iterator yields the entries one by one and
    shows a [NULL] key when none is left. *)
Fixpoint scan_entries (current_color : Z) (entries : list (Z * Z)) (s : lists)
  : option lists :=
  match entries with
  | [] => Some s
  | (key, value) :: entries' =>
      if decide (key ≠ NULL) then
        s ← maybe_move current_color key s;
        s ← maybe_move current_color value s;
        scan_entries current_color entries' s
      else Some s
  end.

(** The [switch (scan_iter->type)] of [move_reachable]. *)
Definition scan_fields (current_color : Z) (d : payload) (s : lists)
  : option lists :=
  match d with
  | PAIR car cdr =>
      s ← maybe_move current_color car s;
      maybe_move current_color cdr s
  | COMPOUND_PROC env parameters body
  | SYNTAX_PROC env parameters body =>
      s ← maybe_move current_color env s;
      s ← maybe_move current_color parameters s;
      maybe_move current_color body s
  | VECTOR objects =>
      for_up 0 (Z.of_nat (length objects))
        (λ ii s, x ← aget objects ii; maybe_move current_color x s) s
  | COMPILED_PROC bytecode env
  | COMPILED_SYNTAX_PROC bytecode env =>
      s ← maybe_move current_color bytecode s;
      maybe_move current_color env s
  | META_PROC proc meta =>
      s ← maybe_move current_color proc s;
      maybe_move current_color meta s
  | HASH_TABLE entries => scan_entries current_color entries s
  | UNINITIALISED => None
  | _ => Some s
  end.

(** The [while (scan_iter != NULL)] loop of [move_reachable]; [fuel] bounds
    the number of iterations, and running out of it yields [None]. *)
Fixpoint scan_loop (fuel : nat) (current_color : Z) (scan_iter : Z) (s : lists)
  : option lists :=
  if decide (scan_iter = NULL) then Some s
  else
    match fuel with
    | O => None
    | S fuel' =>
        o ← load (mem s) scan_iter;
        s ← scan_fields current_color (data o) s;
        o ← load (mem s) scan_iter;
        scan_loop fuel' current_color (prev o) s
    end.

Definition move_reachable (fuel : nat) (current_color : Z) (root : Z) (s : lists)
  : option lists :=
  if decide (root = NULL) then Some s
  else
    o ← load (mem s) root;
    if decide (color o = current_color) then Some s
    else
      h ← store_color (mem s) root current_color;
      s ← move_object_to_head root
            {| mem := h; src_list := src_list s; dest_list := dest_list s |};
      let scan_iter := head (dest_list s) in
      scan_loop fuel current_color scan_iter s.

(** The process-wide state of gc.c.  [pinned] is the memory that holds the
    references whose addresses are on [Root_Objects]; [finalize_calls]
    records each call of [finalize_object] and [htb_destroyed] each table
    handed to [htb_destroy], oldest first; [pool_brk] is the first address
    the pool has not handed out yet. *)
Record gc_state : Type := mk_gc_state {
  heap : gmap Z object;
  Active_Heap_Objects : doubly_linked_list;
  Old_Heap_Objects : doubly_linked_list;
  Next_Free_Object : Z;
  Root_Objects : stack_set;
  Finalizable_Objects : stack_set;
  Finalizable_Objects_Next : stack_set;
  current_color : Z;
  Next_Heap_Extension : Z;
  pinned : gmap Z Z;
  finalize_calls : list Z;
  htb_destroyed : list Z;
  pool_brk : Z
}.

Definition with_lists (st : gc_state) (s : lists) : gc_state :=
  {| heap := mem s; Active_Heap_Objects := src_list s;
     Old_Heap_Objects := dest_list s;
     Next_Free_Object := Next_Free_Object st; Root_Objects := Root_Objects st;
     Finalizable_Objects := Finalizable_Objects st;
     Finalizable_Objects_Next := Finalizable_Objects_Next st;
     current_color := current_color st;
     Next_Heap_Extension := Next_Heap_Extension st;
     pinned := pinned st; finalize_calls := finalize_calls st;
     htb_destroyed := htb_destroyed st; pool_brk := pool_brk st |}.

Definition lists_of (st : gc_state) : lists :=
  {| mem := heap st; src_list := Active_Heap_Objects st;
     dest_list := Old_Heap_Objects st |}.

Definition with_color (st : gc_state) (c : Z) : gc_state :=
  {| heap := heap st; Active_Heap_Objects := Active_Heap_Objects st;
     Old_Heap_Objects := Old_Heap_Objects st;
     Next_Free_Object := Next_Free_Object st; Root_Objects := Root_Objects st;
     Finalizable_Objects := Finalizable_Objects st;
     Finalizable_Objects_Next := Finalizable_Objects_Next st;
     current_color := c;
     Next_Heap_Extension := Next_Heap_Extension st;
     pinned := pinned st; finalize_calls := finalize_calls st;
     htb_destroyed := htb_destroyed st; pool_brk := pool_brk st |}.

Definition with_finalizable (st : gc_state) (f fnext : stack_set)
  (calls destroyed : list Z) : gc_state :=
  {| heap := heap st; Active_Heap_Objects := Active_Heap_Objects st;
     Old_Heap_Objects := Old_Heap_Objects st;
     Next_Free_Object := Next_Free_Object st; Root_Objects := Root_Objects st;
     Finalizable_Objects := f;
     Finalizable_Objects_Next := fnext;
     current_color := current_color st;
     Next_Heap_Extension := Next_Heap_Extension st;
     pinned := pinned st; finalize_calls := calls;
     htb_destroyed := destroyed; pool_brk := pool_brk st |}.

Definition with_next_free (st : gc_state) (p : Z) : gc_state :=
  {| heap := heap st; Active_Heap_Objects := Active_Heap_Objects st;
     Old_Heap_Objects := Old_Heap_Objects st;
     Next_Free_Object := p; Root_Objects := Root_Objects st;
     Finalizable_Objects := Finalizable_Objects st;
     Finalizable_Objects_Next := Finalizable_Objects_Next st;
     current_color := current_color st;
     Next_Heap_Extension := Next_Heap_Extension st;
     pinned := pinned st; finalize_calls := finalize_calls st;
     htb_destroyed := htb_destroyed st; pool_brk := pool_brk st |}.

(** [finalize_object]: [FREE] does nothing; a hash table goes to
    [htb_destroy]. *)
Definition finalize_object (obj : Z) (st : gc_state) : option gc_state :=
  o ← load (heap st) obj;
  let destroyed :=
    match data o with
    | STRING _ => Some (htb_destroyed st)
    | VECTOR _ => Some (htb_destroyed st)
    | HASH_TABLE _ => Some (htb_destroyed st ++ [obj])
    | UNINITIALISED => None
    | _ => Some (htb_destroyed st)
    end in
  d ← destroyed;
  Some (with_finalizable st (Finalizable_Objects st)
          (Finalizable_Objects_Next st) (finalize_calls st ++ [obj]) d).

(** The root loop of [baker_collect]. *)
Definition mark_roots (fuel : nat) (st : gc_state) : option gc_state :=
  for_up 0 (top (Root_Objects st))
    (λ ii st,
       next ← aget (objs (Root_Objects st)) ii;
       root ← pinned st !! next;
       s ← move_reachable fuel (current_color st) root (lists_of st);
       Some (with_lists st s))
    st.

(** The finalizer loop of [baker_collect] ([idx] is a [long]). *)
Fixpoint finalize_loop (n : nat) (idx : Z) (st : gc_state) : option gc_state :=
  match n with
  | O => Some st
  | S n' =>
      obj ← aget (objs (Finalizable_Objects st)) idx;
      o ← load (heap st) obj;
      st ← (if decide (color o ≠ current_color st) then finalize_object obj st
            else
              fnext ← stack_set_push (Finalizable_Objects_Next st) obj;
              Some (with_finalizable st (Finalizable_Objects st) fnext
                      (finalize_calls st) (htb_destroyed st)));
      finalize_loop n' (wrap_long (idx + 1)) st
  end.

Definition baker_collect (fuel : nat) (st : gc_state) : option (Z * gc_state) :=
  (* merge everything into one big heap *)
  '(h, active, old) ← append_to_tail (heap st) (Active_Heap_Objects st)
                        (Old_Heap_Objects st);
  let st := with_lists st {| mem := h; src_list := active; dest_list := old |} in
  (* move everything reachable from a root into the old set *)
  let st := with_color st (wrap_char (current_color st + 1)) in
  st ← mark_roots fuel st;
  (* now finalize anything that needs it *)
  st ← finalize_loop (Z.to_nat (top (Finalizable_Objects st))) 0 st;
  (* now swap the stacks and clear the old one *)
  let temp := Finalizable_Objects st in
  let st := with_finalizable st (Finalizable_Objects_Next st)
              (clear_stack_set temp) (finalize_calls st) (htb_destroyed st) in
  let st := with_color st (wrap_char (current_color st + 1)) in
  (* now everything left in Active is garbage and can be reused *)
  let st := with_next_free st (head (Active_Heap_Objects st)) in
  let num_free := num_objects (Active_Heap_Objects st) in
  Some (num_free, st).

(** [MALLOC(sizeof(object) * n)].  Modelled from the spec: the pool
    (pool.h) is not part of the sources; it is taken to hand out the next
    [n] cell addresses, never [NULL] (exhaustion, which ends the process
    with code 1, is left out).  The fields of a fresh cell are
    indeterminate; they are shown as zero and [UNINITIALISED]. *)
Definition fresh_cell : object :=
  {| data := UNINITIALISED; color := 0; next := 0; prev := 0 |}.

Fixpoint fresh_cells (n : nat) (base : Z) (h : gmap Z object) : gmap Z object :=
  match n with
  | O => h
  | S n' => <[base := fresh_cell]> (fresh_cells n' (base + 1) h)
  end.

Definition with_pool (st : gc_state) (h : gmap Z object) (brk : Z) : gc_state :=
  {| heap := h; Active_Heap_Objects := Active_Heap_Objects st;
     Old_Heap_Objects := Old_Heap_Objects st;
     Next_Free_Object := Next_Free_Object st; Root_Objects := Root_Objects st;
     Finalizable_Objects := Finalizable_Objects st;
     Finalizable_Objects_Next := Finalizable_Objects_Next st;
     current_color := current_color st;
     Next_Heap_Extension := Next_Heap_Extension st;
     pinned := pinned st; finalize_calls := finalize_calls st;
     htb_destroyed := htb_destroyed st; pool_brk := brk |}.

Definition with_extension (st : gc_state) (n : Z) : gc_state :=
  {| heap := heap st; Active_Heap_Objects := Active_Heap_Objects st;
     Old_Heap_Objects := Old_Heap_Objects st;
     Next_Free_Object := Next_Free_Object st; Root_Objects := Root_Objects st;
     Finalizable_Objects := Finalizable_Objects st;
     Finalizable_Objects_Next := Finalizable_Objects_Next st;
     current_color := current_color st;
     Next_Heap_Extension := n;
     pinned := pinned st; finalize_calls := finalize_calls st;
     htb_destroyed := htb_destroyed st; pool_brk := pool_brk st |}.

Definition MALLOC_objects (n : Z) (st : gc_state) : Z * gc_state :=
  (pool_brk st,
   with_pool st (fresh_cells (Z.to_nat n) (pool_brk st) (heap st))
     (pool_brk st + Z.max n 0)).

Definition extend_heap (extension : Z) (st : gc_state) : option gc_state :=
  let '(new_heap, st) := MALLOC_objects extension st in
  let cc := current_color st in
  h ← store_prev (heap st) (new_heap + 0) NULL;
  h ← store_next h (new_heap + 0) (new_heap + 1);
  h ← store_color h (new_heap + 0) cc;
  h ← for_up 1 (extension - 1)
         (λ ii h,
            h ← store_next h (new_heap + ii) (new_heap + (ii + 1));
            h ← store_prev h (new_heap + ii) (new_heap + (ii - 1));
            store_color h (new_heap + ii) cc) h;
  let last := extension - 1 in
  let active := Active_Heap_Objects st in
  h ← store_next h (new_heap + last) (head active);
  h ← store_prev h (new_heap + last) (new_heap + (last - 1));
  '(h, active) ←
    (if decide (head active ≠ NULL) then
       h ← store_prev h (head active) (new_heap + last); Some (h, active)
     else
       (* this is the first heap allocation *)
       Some (h, {| head := head active; tail := new_heap + last;
                   num_objects := num_objects active |}));
  h ← store_color h (new_heap + last) cc;
  let active := {| head := new_heap; tail := tail active;
                   num_objects := num_objects active |} in
  (* bump next free back *)
  let st := with_next_free st new_heap in
  let active := {| head := head active; tail := tail active;
                   num_objects := wrap_long (num_objects active + extension) |} in
  Some (with_lists st {| mem := h; src_list := active;
                         dest_list := Old_Heap_Objects st |}).

Definition with_heap_fin (st : gc_state) (h : gmap Z object) (f : stack_set)
  : gc_state :=
  {| heap := h; Active_Heap_Objects := Active_Heap_Objects st;
     Old_Heap_Objects := Old_Heap_Objects st;
     Next_Free_Object := Next_Free_Object st; Root_Objects := Root_Objects st;
     Finalizable_Objects := f;
     Finalizable_Objects_Next := Finalizable_Objects_Next st;
     current_color := current_color st;
     Next_Heap_Extension := Next_Heap_Extension st;
     pinned := pinned st; finalize_calls := finalize_calls st;
     htb_destroyed := htb_destroyed st; pool_brk := pool_brk st |}.

(** [alloc_object]; the C division [Next_Heap_Extension / freed] truncates
    ([Z.quot]) and is not evaluated when [freed == 0]. *)
Definition alloc_object (fuel : nat) (needs_finalization : bool) (st : gc_state)
  : result (Z * gc_state) :=
  rbind
    (if decide (Next_Free_Object st = NULL) then
       rbind (of_option (baker_collect fuel st)) (λ '(freed, st),
       (* did we free enough? *)
       rbind
         (if decide (freed = 0 ∨ Z.quot (Next_Heap_Extension st) freed > 2) then
            rbind (of_option (extend_heap (Next_Heap_Extension st) st)) (λ st,
            Ok (with_extension st (wrap_long (Next_Heap_Extension st * 3))))
          else Ok st) (λ st,
       if decide (Next_Free_Object st = NULL) then Exit 2 (* throw_gc *)
       else Ok st))
     else Ok st) (λ st,
  let obj := Next_Free_Object st in
  rbind (of_option (store_color (heap st) obj (current_color st))) (λ h,
  rbind (if needs_finalization
         then of_option (stack_set_push (Finalizable_Objects st) obj)
         else Ok (Finalizable_Objects st)) (λ fin,
  let st := with_heap_fin st h fin in
  rbind (of_option (load (heap st) obj)) (λ o,
  Ok (obj, with_next_free st (next o)))))).

End GC.

(** ** vm.c: the bytecode interpreter *)

Module VM.
Import GC.

(** The registers of [vm_execute] together with the object memory it works
    on.  The collector never moves an object, so the interpreter sees the
    memory as a map from addresses to what the cells hold ([payload]). *)
Record vm : Type := mk_vm {
  objects : gmap Z payload;
  globals : gmap Z Z;
  roots : StackSet.stack_set;
  fn : Z;
  env : Z;
  top : Z;
  stack : Z;
  stack_top : Z;
  n_args : Z;
  pc : Z;
  initial_top : Z
}.

Definition set_objects (st : vm) (h : gmap Z payload) : vm :=
  {| objects := h; globals := globals st; roots := roots st; fn := fn st;
     env := env st; top := top st; stack := stack st;
     stack_top := stack_top st; n_args := n_args st; pc := pc st;
     initial_top := initial_top st |}.
Definition set_globals (st : vm) (g : gmap Z Z) : vm :=
  {| objects := objects st; globals := g; roots := roots st; fn := fn st;
     env := env st; top := top st; stack := stack st;
     stack_top := stack_top st; n_args := n_args st; pc := pc st;
     initial_top := initial_top st |}.
Definition set_roots (st : vm) (r : StackSet.stack_set) : vm :=
  {| objects := objects st; globals := globals st; roots := r; fn := fn st;
     env := env st; top := top st; stack := stack st;
     stack_top := stack_top st; n_args := n_args st; pc := pc st;
     initial_top := initial_top st |}.
Definition set_fn (st : vm) (x : Z) : vm :=
  {| objects := objects st; globals := globals st; roots := roots st; fn := x;
     env := env st; top := top st; stack := stack st;
     stack_top := stack_top st; n_args := n_args st; pc := pc st;
     initial_top := initial_top st |}.
Definition set_env (st : vm) (x : Z) : vm :=
  {| objects := objects st; globals := globals st; roots := roots st;
     fn := fn st; env := x; top := top st; stack := stack st;
     stack_top := stack_top st; n_args := n_args st; pc := pc st;
     initial_top := initial_top st |}.
Definition set_top (st : vm) (x : Z) : vm :=
  {| objects := objects st; globals := globals st; roots := roots st;
     fn := fn st; env := env st; top := x; stack := stack st;
     stack_top := stack_top st; n_args := n_args st; pc := pc st;
     initial_top := initial_top st |}.
Definition set_stack (st : vm) (x : Z) : vm :=
  {| objects := objects st; globals := globals st; roots := roots st;
     fn := fn st; env := env st; top := top st; stack := x;
     stack_top := stack_top st; n_args := n_args st; pc := pc st;
     initial_top := initial_top st |}.
Definition set_stack_top (st : vm) (x : Z) : vm :=
  {| objects := objects st; globals := globals st; roots := roots st;
     fn := fn st; env := env st; top := top st; stack := stack st;
     stack_top := x; n_args := n_args st; pc := pc st;
     initial_top := initial_top st |}.
Definition set_n_args (st : vm) (x : Z) : vm :=
  {| objects := objects st; globals := globals st; roots := roots st;
     fn := fn st; env := env st; top := top st; stack := stack st;
     stack_top := stack_top st; n_args := x; pc := pc st;
     initial_top := initial_top st |}.
Definition set_pc (st : vm) (x : Z) : vm :=
  {| objects := objects st; globals := globals st; roots := roots st;
     fn := fn st; env := env st; top := top st; stack := stack st;
     stack_top := stack_top st; n_args := n_args st; pc := x;
     initial_top := initial_top st |}.

(** A computation of the interpreter: it reads and updates the registers
    and the memory, and ends with a value, with [exit], or undefined. *)
Definition M (A : Type) : Type := vm → result (A * vm).

Definition ret {A} (a : A) : M A := λ st, Ok (a, st).
Definition bind {A B} (m : M A) (k : A → M B) : M B :=
  λ st, match m st with
        | Ok (a, st') => k a st'
        | Exit c => Exit c
        | Undefined => Undefined
        end.
Definition gets {A} (f : vm → A) : M A := λ st, Ok (f st, st).
Definition modify (f : vm → vm) : M unit := λ st, Ok (tt, f st).
Definition lift {A} (o : option A) : M A :=
  λ st, match o with Some a => Ok (a, st) | None => Undefined end.
Definition undefined {A} : M A := λ _, Undefined.

Notation "x <~ m ;; k" := (bind m (λ x, k))
  (at level 100, m at next level, right associativity).
Notation "m ;;; k" := (bind m (λ _, k))
  (at level 100, right associativity).

(** Where control goes after an instruction: [goto vm_begin],
    [goto vm_fn_begin], or [return]. *)
Inductive control : Type :=
| Next
| Enter
| Return (val : Z).

(** The opcode numbering of [enum opcodes]. *)
Definition _args_ : Z := 0.
Definition _argsdot_ : Z := 1.
Definition _return_ : Z := 2.
Definition _const_ : Z := 3.
Definition _fn_ : Z := 4.
Definition _fjump_ : Z := 5.
Definition _tjump_ : Z := 6.
Definition _jump_ : Z := 7.
Definition _fcallj_ : Z := 8.
Definition _callj_ : Z := 9.
Definition _lvar_ : Z := 10.
Definition _save_ : Z := 11.
Definition _gvar_ : Z := 12.
Definition _lset_ : Z := 13.
Definition _gset_ : Z := 14.
Definition _setcc_ : Z := 15.
Definition _cc_ : Z := 16.
Definition _pop_ : Z := 17.
Definition INVALID_BYTECODE : Z := 18.

(** What the interpreter takes from the rest of the runtime: the
    singletons ([false_object] is the object the sources call [false]), the
    continuation program built by [vm_init], what [->data.pair.car] yields
    on an object that is not a pair (the layout of the union is in types.h,
    which is not part of the sources), the native function of each
    primitive procedure, called with [(stack, n_args, stack_top)], and the
    addresses of the pinned C locals of [vm_execute]: [&fn], [&env],
    [&top], and the block-local references an instruction may pin. *)
Record runtime : Type := mk_runtime {
  the_empty_list : Z;
  false_object : Z;
  the_empty_vector : Z;
  error_sym : Z;
  cc_bytecode : Z;
  union_car : payload → option Z;
  primitive_fn : Z → gmap Z payload → Z → Z → Z → option (Z * gmap Z payload);
  addr_fn : Z;
  addr_env : Z;
  addr_top : Z;
  addr_local : Z;
  addr_local2 : Z
}.

Section Machine.

Variable rt : runtime.

(** *** Objects.  Modelled from the spec: the constructors and accessors of
    types.h / types.c are not part of the sources.  A constructor takes a
    cell that holds no object yet; an accessor reads the member that the
    tag selects and is undefined on another variant ([car] apart). *)

Definition deref (p : Z) : M payload :=
  λ st, if decide (p = NULL) then Undefined
        else of_option ((λ o, (o, st)) <$> objects st !! p).

Definition alloc (o : payload) : M Z :=
  λ st, let p := fresh ({[NULL]} ∪ dom (objects st)) in
        Ok (p, set_objects st (<[p := o]> (objects st))).

Definition assign (p : Z) (o : payload) : M unit :=
  _ <~ deref p ;; modify (λ st, set_objects st (<[p := o]> (objects st))).

Definition cons (a d : Z) : M Z := alloc (PAIR a d).
Definition make_vector (fill : Z) (n : Z) : M Z :=
  alloc (VECTOR (replicate (Z.to_nat n) fill)).
Definition make_fixnum (n : Z) : M Z := alloc (FIXNUM n).
Definition make_compiled_proc (bytecode env : Z) : M Z :=
  alloc (COMPILED_PROC bytecode env).

Definition car (p : Z) : M Z :=
  o <~ deref p ;;
  match o with PAIR a _ => ret a | _ => lift ((union_car rt) o) end.
Definition cdr (p : Z) : M Z :=
  o <~ deref p ;; match o with PAIR _ d => ret d | _ => undefined end.
Definition set_car (p v : Z) : M unit :=
  o <~ deref p ;;
  match o with PAIR _ d => assign p (PAIR v d) | _ => undefined end.
Definition set_cdr (p v : Z) : M unit :=
  o <~ deref p ;;
  match o with PAIR a _ => assign p (PAIR a v) | _ => undefined end.
Definition VARRAY (p : Z) : M (list Z) :=
  o <~ deref p ;; match o with VECTOR l => ret l | _ => undefined end.
Definition VSIZE (p : Z) : M Z :=
  l <~ VARRAY p ;; ret (Z.of_nat (length l)).
Definition vector_ref (p i : Z) : M Z :=
  l <~ VARRAY p ;; lift (aget l i).
Definition vector_set (p i v : Z) : M unit :=
  l <~ VARRAY p ;; l' <~ lift (aset l i v) ;; assign p (VECTOR l').
Definition LONG (p : Z) : M Z :=
  o <~ deref p ;; match o with FIXNUM v => ret v | _ => undefined end.
Definition CHAR (p : Z) : M Z :=
  o <~ deref p ;; match o with CHARACTER c => ret c | _ => undefined end.
Definition BYTECODE (p : Z) : M Z :=
  o <~ deref p ;;
  match o with
  | COMPILED_PROC b _ | COMPILED_SYNTAX_PROC b _ => ret b
  | _ => undefined
  end.
Definition CENV (p : Z) : M Z :=
  o <~ deref p ;;
  match o with
  | COMPILED_PROC _ e | COMPILED_SYNTAX_PROC _ e => ret e
  | _ => undefined
  end.
Definition METAPROC (p : Z) : M Z :=
  o <~ deref p ;; match o with META_PROC f _ => ret f | _ => undefined end.

Definition is_compiled_proc (p : Z) : M bool :=
  o <~ deref p ;; ret (match o with COMPILED_PROC _ _ => true | _ => false end).
Definition is_compiled_syntax_proc (p : Z) : M bool :=
  o <~ deref p ;;
  ret (match o with COMPILED_SYNTAX_PROC _ _ => true | _ => false end).
Definition is_primitive_proc (p : Z) : M bool :=
  o <~ deref p ;; ret (match o with PRIMITIVE_PROC _ => true | _ => false end).
Definition is_meta (p : Z) : M bool :=
  o <~ deref p ;; ret (match o with META_PROC _ _ => true | _ => false end).
Definition is_the_empty_list (p : Z) : bool := bool_decide (p = (the_empty_list rt)).
Definition is_falselike (p : Z) : bool := bool_decide (p = (false_object rt)).

Definition ARG1 (instr : Z) : M Z := d <~ cdr instr ;; car d.
Definition ARG2 (instr : Z) : M Z := d <~ cdr instr ;; d <~ cdr d ;; car d.

(** Modelled from the spec: the global environment (interp.c) maps a
    symbol to its binding. *)
Definition lookup_global_value (sym : Z) : M Z :=
  g <~ gets globals ;; lift (g !! sym).
Definition define_global_variable (sym val : Z) : M unit :=
  modify (λ st, set_globals st (<[sym := val]> (globals st))).

(** *** The root pins *)

Definition push_root (root : Z) : M unit :=
  r <~ gets roots ;; r' <~ lift (StackSet.push_root r root) ;;
  modify (λ st, set_roots st r').

Definition pop_root (root : Z) : M unit :=
  λ st, match StackSet.pop_root (roots st) root with
        | Ok r' => Ok (tt, set_roots st r')
        | Exit c => Exit c
        | Undefined => Undefined
        end.

(** *** The value stack *)

(** [old_size * 1.8], truncated to a [long]. *)
Definition grown_size (old_size : Z) : Z := Z.quot (old_size * 9) 5.

Definition vector_push (stack thing top : Z) : M unit :=
  size <~ VSIZE stack ;;
  (if decide (top = size) then
     l <~ VARRAY stack ;;
     let old_size := size in
     let new_size := grown_size old_size in
     assign stack
       (VECTOR (l ++ replicate (Z.to_nat (new_size - old_size)) (the_empty_list rt)))
   else ret tt) ;;;
  vector_set stack top thing.

Definition vector_pop (stack top : Z) : M Z :=
  old <~ vector_ref stack (top - 1) ;;
  vector_set stack (top - 1) (the_empty_list rt) ;;;
  ret old.

(** Modelled from the spec: the macros [VPUSH] and [VPOP] of vm.h (not
    part of the sources) apply [vector_push] / [vector_pop] to the live
    stack and step [stack_top]. *)
Definition VPUSH (obj : Z) : M unit :=
  s <~ gets stack ;; t <~ gets stack_top ;;
  vector_push s obj t ;;;
  modify (λ st, set_stack_top st (wrap_long (t + 1))).

Definition VPOP : M Z :=
  s <~ gets stack ;; t <~ gets stack_top ;;
  old <~ vector_pop s t ;;
  modify (λ st, set_stack_top st (wrap_long (t - 1))) ;;;
  ret old.

(** [VPOP(top, stack, stack_top)] *)
Definition VPOP_top : M unit :=
  v <~ VPOP ;; modify (λ st, set_top st v).

(** *** Leaving the interpreter *)

Definition VM_RETURN (obj : Z) : M control :=
  pop_root (addr_top rt) ;;;
  pop_root (addr_env rt) ;;;
  pop_root (addr_fn rt) ;;;
  ret (Return obj).

(** [VM_ASSERT(test, msg)] with a false [test]: print, then
    [VM_RETURN((error_sym rt))]. *)
Definition VM_ASSERT_failed : M control := VM_RETURN (error_sym rt).

Definition RETURN_OPCODE_INSTRUCTIONS : M control :=
  t <~ gets stack_top ;; t0 <~ gets initial_top ;;
  if decide (t = t0 + 1) then
    val <~ VPOP ;; VM_RETURN val
  else
    val <~ VPOP ;;
    ret_addr <~ VPOP ;;
    (* retore what we stashed away in save *)
    d <~ cdr ret_addr ;; f <~ car d ;; modify (λ st, set_fn st f) ;;;
    a <~ car ret_addr ;; k <~ LONG a ;; modify (λ st, set_pc st k) ;;;
    d <~ cdr ret_addr ;; e <~ cdr d ;; modify (λ st, set_env st e) ;;;
    (* setup for the next loop *)
    VPUSH val ;;;
    ret Enter.

(** *** The instructions *)

(** [for (int ii = i; ii < i + n; ++ii) body] *)
Fixpoint for_int_M (n : nat) (i : Z) (body : Z → M unit) : M unit :=
  match n with
  | O => ret tt
  | S n' =>
      body i ;;;
      if decide (i + 1 ≤ INT_MAX) then for_int_M n' (i + 1) body else undefined
  end.

(** [for (long ii = 0; ii < n; ++ii) body] *)
Fixpoint repeat_M (n : nat) (body : M unit) : M unit :=
  match n with
  | O => ret tt
  | S n' => body ;;; repeat_M n' body
  end.

(** [for (ii = k - 1; ii >= 0; --ii) { VPOP(top, ...); vdata[ii] = top; }] *)
Fixpoint pop_into (k : nat) (vector : Z) : M unit :=
  match k with
  | O => ret tt
  | S ii =>
      VPOP_top ;;;
      t <~ gets top ;;
      vector_set vector (Z.of_nat ii) t ;;;
      pop_into ii vector
  end.

(** [while (env_num-- > 0) next = cdr(next);] *)
Fixpoint env_walk (env_num : nat) (next : Z) : M Z :=
  match env_num with
  | O => ret next
  | S n => d <~ cdr next ;; env_walk n d
  end.

Definition exec_args (instr : Z) : M control :=
  a <~ ARG1 instr ;; expected <~ LONG a ;;
  n <~ gets n_args ;;
  if decide (n ≠ expected) then VM_ASSERT_failed
  else
    let num_args := wrap_int expected in
    (* resize the top frame if we need to *)
    e <~ gets env ;; frame <~ car e ;; size <~ VSIZE frame ;;
    (if decide (num_args > size) then
       v <~ make_vector (the_empty_list rt) num_args ;; set_car e v
     else ret tt) ;;;
    vector <~ car e ;;
    _ <~ VARRAY vector ;;
    pop_into (Z.to_nat (wrap_int (num_args - 1) + 1)) vector ;;;
    ret Next.

Definition exec_argsdot (instr : Z) : M control :=
  a <~ ARG1 instr ;; required <~ LONG a ;;
  n <~ gets n_args ;;
  if decide (¬ (n >= required)) then VM_ASSERT_failed
  else
    let req_args := required in
    let array_size := wrap_long (req_args + 1) in
    (* resize the top frame if we need to *)
    e <~ gets env ;; frame <~ car e ;; size <~ VSIZE frame ;;
    (if decide (array_size > size) then
       v <~ make_vector (the_empty_list rt) array_size ;; set_car e v
     else ret tt) ;;;
    vector <~ car e ;;
    _ <~ VARRAY vector ;;
    (* push the excess args onto the last position, top is protected *)
    vector_set vector (array_size - 1) (the_empty_list rt) ;;;
    for_int_M (Z.to_nat (n - req_args)) 0
      (λ _,
         VPOP_top ;;;
         t <~ gets top ;;
         rest <~ vector_ref vector (array_size - 1) ;;
         c <~ cons t rest ;;
         vector_set vector (array_size - 1) c) ;;;
    (* now pop off the required args into their positions *)
    pop_into (Z.to_nat (wrap_int (req_args - 1) + 1)) vector ;;;
    ret Next.

Definition exec_fjump (instr : Z) : M control :=
  VPOP_top ;;;
  t <~ gets top ;;
  (if is_falselike t then
     a <~ ARG1 instr ;; k <~ LONG a ;; modify (λ st, set_pc st k)
   else ret tt) ;;;
  ret Next.

Definition exec_tjump (instr : Z) : M control :=
  VPOP_top ;;;
  t <~ gets top ;;
  (if negb (is_falselike t) then
     a <~ ARG1 instr ;; k <~ LONG a ;; modify (λ st, set_pc st k)
   else ret tt) ;;;
  ret Next.

Definition exec_jump (instr : Z) : M control :=
  a <~ ARG1 instr ;; k <~ LONG a ;; modify (λ st, set_pc st k) ;;;
  ret Next.

Definition exec_fn (instr : Z) : M control :=
  fn_arg <~ ARG1 instr ;;
  b <~ BYTECODE fn_arg ;; e <~ gets env ;;
  new_fn <~ make_compiled_proc b e ;;
  push_root (addr_local rt) ;;;
  VPUSH new_fn ;;;
  pop_root (addr_local rt) ;;;
  ret Next.

(** The call of a primitive, shared by [fcallj] and [callj]. *)
Definition call_primitive (pfn args_for_call : Z) : M control :=
  push_root (addr_local rt) ;;;
  o <~ deref pfn ;;
  f <~ (match o with PRIMITIVE_PROC f => ret f | _ => undefined end) ;;
  s <~ gets stack ;; t <~ gets stack_top ;;
  r <~ (λ st, match (primitive_fn rt) f (objects st) s args_for_call t with
               | Some (r, h) => Ok (r, set_objects st h)
               | None => Undefined
               end) ;;
  modify (λ st, set_top st r) ;;;
  (* unwind the stack since primitives don't clean up after themselves *)
  repeat_M (Z.to_nat args_for_call) (_ <~ VPOP ;; ret tt) ;;;
  t <~ gets top ;;
  VPUSH t ;;;
  pop_root (addr_local rt) ;;;
  RETURN_OPCODE_INSTRUCTIONS.

(** [if (is_meta(top)) top = METAPROC(top);] *)
Definition unwrap_meta : M unit :=
  t <~ gets top ;; m <~ is_meta t ;;
  if m then f <~ METAPROC t ;; modify (λ st, set_top st f) else ret tt.

(** [fcallj], up to the test of the callee: pop it, unwrap it, read the
    argument count. *)
Definition fcallj_callee (instr : Z) : M Z :=
  VPOP_top ;;;
  unwrap_meta ;;;
  a <~ ARG1 instr ;; LONG a.

Definition fcallj_dispatch (args_for_call : Z) : M control :=
  t <~ gets top ;;
  c <~ is_compiled_proc t ;; cs <~ is_compiled_syntax_proc t ;;
  if c || cs then
    modify (λ st, set_fn st t) ;;;
    modify (λ st, set_pc st 0) ;;;
    modify (λ st, set_n_args st args_for_call) ;;;
    (* generate a fresh frame for the callee *)
    f <~ gets fn ;; e <~ CENV f ;; modify (λ st, set_env st e) ;;;
    n <~ gets n_args ;;
    newframe <~ make_vector (the_empty_list rt) (wrap_long (n + 1)) ;;
    push_root (addr_local rt) ;;;
    e <~ gets env ;; e' <~ cons newframe e ;; modify (λ st, set_env st e') ;;;
    pop_root (addr_local rt) ;;;
    ret Enter
  else
    p <~ is_primitive_proc t ;;
    if p then call_primitive t args_for_call
    else VM_ASSERT_failed.

Definition exec_fcallj (instr : Z) : M control :=
  args_for_call <~ fcallj_callee instr ;; fcallj_dispatch args_for_call.

(** The [apply] case of [callj]: spread the argument list over the
    stack; [fuel] bounds the length of the list. *)
Fixpoint splat (fuel : nat) (args_for_call : Z) : M Z :=
  t <~ gets top ;;
  if is_the_empty_list t then ret args_for_call
  else
    match fuel with
    | O => undefined
    | S fuel' =>
        a <~ car t ;; VPUSH a ;;;
        d <~ cdr t ;; modify (λ st, set_top st d) ;;;
        splat fuel' (wrap_long (args_for_call + 1))
    end.

(** [callj], up to the test of the callee. *)
Definition callj_callee (fuel : nat) (instr : Z) : M Z :=
  VPOP_top ;;;
  unwrap_meta ;;;
  a <~ ARG1 instr ;; args_for_call <~ LONG a ;;
  (* special case for apply (which will always be callj) *)
  if decide (args_for_call = -1) then
    (* function is on the top of the stack (as usual) *)
    target_fn <~ gets top ;;
    push_root (addr_local rt) ;;;
    (* and the args are in a list next, expand those *)
    VPOP_top ;;;
    n <~ splat fuel 0 ;;
    (* and put back the fn for the dispatch *)
    modify (λ st, set_top st target_fn) ;;;
    pop_root (addr_local rt) ;;;
    ret n
  else ret args_for_call.

Definition callj_dispatch (args_for_call : Z) : M control :=
  t <~ gets top ;;
  c <~ is_compiled_proc t ;; cs <~ is_compiled_syntax_proc t ;;
  if c || cs then
    modify (λ st, set_fn st t) ;;;
    modify (λ st, set_pc st 0) ;;;
    modify (λ st, set_n_args st args_for_call) ;;;
    (* we can reuse the cons and frame from our environment to build the
       new one *)
    f <~ gets fn ;; fn_env <~ CENV f ;;
    e <~ gets env ;; set_cdr e fn_env ;;;
    ret Enter
  else
    p <~ is_primitive_proc t ;;
    if p then call_primitive t args_for_call
    else VM_ASSERT_failed.

Definition exec_callj (fuel : nat) (instr : Z) : M control :=
  args_for_call <~ callj_callee fuel instr ;; callj_dispatch args_for_call.

Definition exec_lvar (instr : Z) : M control :=
  a1 <~ ARG1 instr ;; v1 <~ LONG a1 ;;
  a2 <~ ARG2 instr ;; v2 <~ LONG a2 ;;
  let env_num := wrap_int v1 in
  let idx := wrap_int v2 in
  e <~ gets env ;;
  next <~ env_walk (Z.to_nat env_num) e ;;
  frame <~ car next ;;
  data <~ vector_ref frame idx ;;
  VPUSH data ;;;
  ret Next.

Definition exec_lset (instr : Z) : M control :=
  a1 <~ ARG1 instr ;; v1 <~ LONG a1 ;;
  a2 <~ ARG2 instr ;; v2 <~ LONG a2 ;;
  let env_num := wrap_int v1 in
  let idx := wrap_int v2 in
  e <~ gets env ;;
  next <~ env_walk (Z.to_nat env_num) e ;;
  s <~ gets stack ;; t <~ gets stack_top ;;
  v <~ vector_ref s (t - 1) ;;
  frame <~ car next ;;
  vector_set frame idx v ;;;
  ret Next.

Definition exec_gvar (instr : Z) : M control :=
  sym <~ ARG1 instr ;;
  var <~ lookup_global_value sym ;;
  push_root (addr_local rt) ;;;
  VPUSH var ;;;
  pop_root (addr_local rt) ;;;
  ret Next.

Definition exec_gset (instr : Z) : M control :=
  var <~ ARG1 instr ;;
  s <~ gets stack ;; t <~ gets stack_top ;;
  val <~ vector_ref s (t - 1) ;;
  define_global_variable var val ;;;
  ret Next.

Definition exec_setcc : M control :=
  new_stack <~ VPOP ;;
  new_stack_top <~ VPOP ;;
  s <~ gets stack ;; s' <~ car s ;; modify (λ st, set_stack st s') ;;;
  k <~ LONG new_stack_top ;; modify (λ st, set_stack_top st k) ;;;
  ret Next.

(** [for (idx = 0; idx < stack_top; ++idx) new_stack[idx] = stack[idx];] *)
Fixpoint copy_stack (n : nat) (idx : Z) (new_stack : Z) : M unit :=
  match n with
  | O => ret tt
  | S n' =>
      s <~ gets stack ;;
      v <~ vector_ref s idx ;;
      vector_set new_stack idx v ;;;
      copy_stack n' (wrap_long (idx + 1)) new_stack
  end.

Definition exec_cc : M control :=
  cc_env <~ make_vector (the_empty_list rt) 2 ;;
  push_root (addr_local rt) ;;;
  (* copy the stack *)
  s <~ gets stack ;; size <~ VSIZE s ;;
  new_stack <~ make_vector (the_empty_list rt) size ;;
  push_root (addr_local2 rt) ;;;
  t <~ gets stack_top ;;
  copy_stack (Z.to_nat t) 0 new_stack ;;;
  (* insert it into the environment *)
  vector_set cc_env 0 new_stack ;;;
  k <~ make_fixnum t ;;
  vector_set cc_env 1 k ;;;
  pop_root (addr_local2 rt) ;;;
  cc_env <~ cons cc_env (the_empty_list rt) ;;
  cc_fn <~ make_compiled_proc (cc_bytecode rt) cc_env ;;
  pop_root (addr_local rt) ;;;
  VPUSH cc_fn ;;;
  ret Next.

Definition exec_pop : M control := VPOP_top ;;; ret Next.

Definition exec_save (instr : Z) : M control :=
  f <~ gets fn ;; e <~ gets env ;;
  ret_addr <~ cons f e ;;
  push_root (addr_local rt) ;;;
  a <~ ARG1 instr ;;
  ret_addr <~ cons a ret_addr ;;
  VPUSH ret_addr ;;;
  pop_root (addr_local rt) ;;;
  ret Next.

Definition exec_const (instr : Z) : M control :=
  a <~ ARG1 instr ;; VPUSH a ;;; ret Next.

(** The fetch at [vm_begin].  The guard is
    [if (pc >= num_codes) { VM_ASSERT(false, ...); }], and [false] there is
    the false object, a pointer: the assertion fails only if that pointer
    is nil.  Otherwise control falls through to [instr = codes[pc++]], a
    read that is outside the code vector when [pc] is.  [None] stands for
    the failed assertion, else the result is the instruction and its
    opcode character. *)
Definition fetch : M (option (Z * Z)) :=
  f <~ gets fn ;; code_array <~ BYTECODE f ;;
  codes <~ VARRAY code_array ;;
  let num_codes := Z.of_nat (length codes) in
  k <~ gets pc ;;
  if decide (k >= num_codes ∧ false_object rt = NULL) then ret None
  else
    instr <~ lift (aget codes k) ;;
    modify (λ st, set_pc st (wrap_long (k + 1))) ;;;
    opcode <~ car instr ;;
    c <~ CHAR opcode ;;
    ret (Some (instr, c)).

(** The [switch (CHAR(opcode))]. *)
Definition execute (fuel : nat) (instr c : Z) : M control :=
  if decide (c = _args_) then exec_args instr
  else if decide (c = _argsdot_) then exec_argsdot instr
  else if decide (c = _fjump_) then exec_fjump instr
  else if decide (c = _tjump_) then exec_tjump instr
  else if decide (c = _jump_) then exec_jump instr
  else if decide (c = _fn_) then exec_fn instr
  else if decide (c = _fcallj_) then exec_fcallj instr
  else if decide (c = _callj_) then exec_callj fuel instr
  else if decide (c = _lvar_) then exec_lvar instr
  else if decide (c = _lset_) then exec_lset instr
  else if decide (c = _gvar_) then exec_gvar instr
  else if decide (c = _gset_) then exec_gset instr
  else if decide (c = _setcc_) then exec_setcc
  else if decide (c = _cc_) then exec_cc
  else if decide (c = _pop_) then exec_pop
  else if decide (c = _save_) then exec_save instr
  else if decide (c = _return_) then RETURN_OPCODE_INSTRUCTIONS
  else if decide (c = _const_) then exec_const instr
  else (* strange opcode *) VM_ASSERT_failed.

(** [vm_begin]: fetch, decode and run one instruction. *)
Definition vm_begin (fuel : nat) : M control :=
  r <~ fetch ;;
  match r with
  | None => (* the assertion on the false object failed *) VM_ASSERT_failed
  | Some (instr, c) => execute fuel instr c
  end.

(** [vm_fn_begin]: the function register must hold a compiled procedure. *)
Definition vm_fn_begin (fuel : nat) : M control :=
  f <~ gets fn ;;
  c <~ is_compiled_proc f ;; cs <~ is_compiled_syntax_proc f ;;
  if c || cs then vm_begin fuel else VM_ASSERT_failed.

(** The dispatch loop; [fuel] bounds the number of instructions. *)
Fixpoint run (fuel : nat) (entered : bool) : M Z :=
  match fuel with
  | O => undefined
  | S fuel' =>
      c <~ (if entered then vm_fn_begin fuel' else vm_begin fuel') ;;
      match c with
      | Next => run fuel' false
      | Enter => run fuel' true
      | Return val => ret val
      end
  end.

(** One turn of the dispatch loop, from [vm_fn_begin] or from [vm_begin]. *)
Definition turn (fuel : nat) (entered : bool) : M control :=
  if entered then vm_fn_begin fuel else vm_begin fuel.

(** The registers when [vm_execute(fn, stack, stack_top, n_args)] is
    entered, on a memory with its globals and root stack. *)
Definition vm_start (objects0 : gmap Z payload) (globals0 : gmap Z Z)
    (roots0 : StackSet.stack_set) (fn0 stack0 stack_top0 n_args0 : Z) : vm :=
  {| objects := objects0; globals := globals0; roots := roots0; fn := fn0;
     env := NULL; top := NULL; stack := stack0; stack_top := stack_top0;
     n_args := n_args0; pc := 0;
     initial_top := wrap_long (stack_top0 - n_args0) |}.

(** [vm_execute] up to the label [vm_fn_begin]. *)
Definition vm_enter : M unit :=
  f <~ gets fn ;; e <~ CENV f ;;
  (* bootstrap an empty frame for this function since the callj opcode
     won't have built one for us *)
  e <~ cons (the_empty_vector rt) e ;;
  modify (λ st, set_env st e) ;;;
  modify (λ st, set_top st (the_empty_list rt)) ;;;
  push_root (addr_fn rt) ;;;
  push_root (addr_env rt) ;;;
  push_root (addr_top rt).

(** [vm_execute]. *)
Definition vm_execute (fuel : nat) (objects0 : gmap Z payload)
    (globals0 : gmap Z Z) (roots0 : StackSet.stack_set)
    (fn0 stack0 stack_top0 n_args0 : Z) : result (Z * vm) :=
  (vm_enter ;;; run fuel true)
    (vm_start objects0 globals0 roots0 fn0 stack0 stack_top0 n_args0).

End Machine.
End VM.

(** ** Representation predicates for the collector *)

Module GCInv.
Import StackSet GC.

(** [lseg h p l n]: the cells [l] are chained in this order through [next]
    and [prev]; the first one has [prev = p], the last one [next = n]. *)
Fixpoint lseg (h : gmap Z object) (p : Z) (l : list Z) (n : Z) : Prop :=
  match l with
  | [] => True
  | x :: l' =>
      x ≠ NULL
      ∧ (∃ o, h !! x = Some o ∧ prev o = p ∧ next o = hd n l')
      ∧ lseg h x l' n
  end.

(** The list [d] holds exactly the cells [l], head first (the structural
    invariants that [debug_validate] asserts). *)
Definition dll_rep (h : gmap Z object) (d : doubly_linked_list) (l : list Z)
  : Prop :=
  NoDup l ∧ lseg h NULL l NULL
  ∧ head d = hd NULL l ∧ tail d = default NULL (last l)
  ∧ num_objects d = Z.of_nat (length l).

(** [x] is on the list [d]. *)
Definition on_list (h : gmap Z object) (d : doubly_linked_list) (x : Z) : Prop :=
  ∃ l, dll_rep h d l ∧ x ∈ l.

(** The references that the scan of [move_reachable] follows, per variant. *)
Definition fields (d : payload) : list Z :=
  match d with
  | PAIR car cdr => [car; cdr]
  | COMPOUND_PROC env parameters body
  | SYNTAX_PROC env parameters body => [env; parameters; body]
  | VECTOR objects => objects
  | COMPILED_PROC bytecode env
  | COMPILED_SYNTAX_PROC bytecode env => [bytecode; env]
  | META_PROC proc meta => [proc; meta]
  | HASH_TABLE entries => flat_map (λ e, [e.1; e.2]) entries
  | _ => []
  end.

(** The objects referenced through the addresses on [Root_Objects]. *)
Definition root_objects (st : gc_state) : list Z :=
  omap (λ a, pinned st !! a) (live (Root_Objects st)).

(** Reachability from the roots along the scanned fields. *)
Inductive reach (h : gmap Z object) (roots : list Z) : Z → Prop :=
| reach_root r : r ∈ roots → r ≠ NULL → reach h roots r
| reach_field x o f :
    reach h roots x → h !! x = Some o → f ∈ fields (data o) →
    reach h roots f.

Definition reachable (st : gc_state) (x : Z) : Prop :=
  reach (heap st) (root_objects st) x.

Definition color_of (st : gc_state) (x : Z) : option Z :=
  color <$> heap st !! x.

(** A payload the scan can walk: the tag is set and a vector fits an
    [int] index. *)
Definition scannable (d : payload) : Prop :=
  d ≠ UNINITIALISED
  ∧ match d with
    | VECTOR objects => Z.of_nat (length objects) ≤ INT_MAX
    | _ => True
    end.

(** A pointer stack that can still grow. *)
Definition stack_fits (ss : stack_set) : Prop :=
  stack_ok ss ∧ 1 ≤ size ss ≤ 2 ^ 62 ∧ top ss ≤ 2 ^ 61.

(** The state between two collections: both lists are well formed and
    share no cell; every address on the root stack is that of a pinned
    reference; every reachable object is a cell of the heap with a
    scannable payload and does not carry the next mark color; the
    finalizable stack lists cells of the heap, each once, none of them
    with the next mark color, and the scratch stack is empty. *)
Record gc_ok (st : gc_state) (A O : list Z) : Prop := mk_gc_ok {
  ok_active : dll_rep (heap st) (Active_Heap_Objects st) A;
  ok_old : dll_rep (heap st) (Old_Heap_Objects st) O;
  ok_disjoint : NoDup (A ++ O);
  ok_cells : Z.of_nat (length (A ++ O)) ≤ 2 ^ 61;
  ok_roots : stack_ok (Root_Objects st) ∧ top (Root_Objects st) ≤ INT_MAX;
  ok_pinned : ∀ a, a ∈ live (Root_Objects st) → is_Some (pinned st !! a);
  ok_reach : ∀ x, reachable st x →
     x ∈ A ++ O
     ∧ ∃ o, heap st !! x = Some o ∧ scannable (data o)
            ∧ color o ≠ wrap_char (current_color st + 1);
  ok_fin : stack_fits (Finalizable_Objects st)
           ∧ NoDup (live (Finalizable_Objects st));
  ok_fin_cells : ∀ x, x ∈ live (Finalizable_Objects st) →
     x ≠ NULL ∧ ∃ o, heap st !! x = Some o ∧ data o ≠ UNINITIALISED
                     ∧ color o ≠ wrap_char (current_color st + 1);
  ok_fin_next : stack_fits (Finalizable_Objects_Next st)
                ∧ top (Finalizable_Objects_Next st) = 0
}.


(** The links of a cell. *)
Definition links (h : gmap Z object) (x : Z) : option (Z * Z) :=
  (λ o, (prev o, next o)) <$> h !! x.

(** What the list operations leave alone: tag, payload and color. *)
Definition marks (h : gmap Z object) (x : Z) : option (payload * Z) :=
  (λ o, (data o, color o)) <$> h !! x.

(** The field scan as one list traversal. *)
Fixpoint move_list (cc : Z) (l : list Z) (s : lists) : option lists :=
  match l with
  | [] => Some s
  | f :: l' => s' ← maybe_move cc f s; move_list cc l' s'
  end.

(** The invariant of the mark phase: [A] is what is left on the source
    list, [O] what has been moved; moved cells carry the mark color and are
    reachable, the other cells have kept their color, and no payload has
    changed. *)
Record mark_inv (R : Z → Prop) (cc : Z) (h0 : gmap Z object) (cells : list Z)
    (s : lists) (A O : list Z) : Prop := mk_mark_inv {
  mi_active : dll_rep (mem s) (src_list s) A;
  mi_old : dll_rep (mem s) (dest_list s) O;
  mi_perm : A ++ O ≡ₚ cells;
  mi_data : ∀ y, data <$> mem s !! y = data <$> h0 !! y;
  mi_color_old : ∀ y, y ∈ O → color <$> mem s !! y = Some cc;
  mi_color_rest : ∀ y, y ∉ O → color <$> mem s !! y = color <$> h0 !! y;
  mi_reach : ∀ y, y ∈ O → R y
}.

(** All fields of [y] are among [O]. *)
Definition closed_at (h0 : gmap Z object) (O : list Z) (y : Z) : Prop :=
  ∀ o f, h0 !! y = Some o → f ∈ fields (data o) → f ∈ O.

Arguments mi_active {_ _ _ _ _ _ _} _.
Arguments mi_old {_ _ _ _ _ _ _} _.
Arguments mi_perm {_ _ _ _ _ _ _} _.
Arguments mi_data {_ _ _ _ _ _ _} _ _.
Arguments mi_color_old {_ _ _ _ _ _ _} _ _ _.
Arguments mi_color_rest {_ _ _ _ _ _ _} _ _ _.
Arguments mi_reach {_ _ _ _ _ _ _} _ _ _.

(** [x] carries the mark color of the running collection. *)
Definition marked (st : gc_state) (x : Z) : Prop :=
  color_of st x = Some (current_color st).

Global Instance marked_dec st x : Decision (marked st x).
Proof. unfold marked. apply _. Defined.

(** What one collection establishes. *)
Record collect_post (st st' : gc_state) (A O A' O' : list Z) : Prop :=
  mk_collect_post {
  cp_ok : gc_ok st' A' O';
  cp_perm : A' ++ O' ≡ₚ A ++ O;
  cp_old : ∀ y, y ∈ O' ↔ reachable st y;
  cp_data : ∀ y, data <$> heap st' !! y = data <$> heap st !! y;
  cp_color_old : ∀ y, y ∈ O' →
     color_of st' y = Some (wrap_char (current_color st + 1));
  cp_color_rest : ∀ y, y ∉ O' → color_of st' y = color_of st y;
  cp_color :
     current_color st' = wrap_char (wrap_char (current_color st + 1) + 1);
  cp_next_free : Next_Free_Object st' = head (Active_Heap_Objects st');
  cp_roots : Root_Objects st' = Root_Objects st ∧ pinned st' = pinned st;
  cp_extension : Next_Heap_Extension st' = Next_Heap_Extension st
                 ∧ pool_brk st' = pool_brk st;
  cp_fin : live (Finalizable_Objects st')
           = filter (λ x, x ∈ O') (live (Finalizable_Objects st));
  cp_fin_next : live (Finalizable_Objects_Next st') = [];
  cp_calls : finalize_calls st'
             = finalize_calls st
               ++ filter (λ x, x ∉ O') (live (Finalizable_Objects st))
}.

(** Every cell of [h0] is still a cell of [h]. *)
Definition covers (h0 h : gmap Z object) : Prop :=
  ∀ p, is_Some (h0 !! p) → is_Some (h !! p).


End GCInv.

(** ** A concrete heap *)

Module GCExample.
Import StackSet GC.

(** A heap of five cells between two collections.  The pair at 1 is
    pinned through the reference stored at address 100; it holds the
    fixnum at 2 and the string at 3.  The vector at 4 was allocated since
    the last collection and is no longer referenced; cell 5 is free.  The
    string and the vector asked for finalization. *)
Definition example_heap : gmap Z object :=
  list_to_map
    [ (1, {| data := PAIR 2 3; color := 1; next := 2; prev := 0 |});
      (2, {| data := FIXNUM 7; color := 1; next := 3; prev := 1 |});
      (3, {| data := STRING [104; 105]; color := 1; next := 0; prev := 2 |});
      (4, {| data := VECTOR [2]; color := 2; next := 5; prev := 0 |});
      (5, {| data := UNINITIALISED; color := 0; next := 0; prev := 4 |}) ].

Definition example_gc : gc_state :=
  {| heap := example_heap;
     Active_Heap_Objects := {| head := 4; tail := 5; num_objects := 2 |};
     Old_Heap_Objects := {| head := 1; tail := 3; num_objects := 3 |};
     Next_Free_Object := 5;
     Root_Objects := {| objs := [100; 0]; top := 1; size := 2 |};
     Finalizable_Objects := {| objs := [3; 4]; top := 2; size := 2 |};
     Finalizable_Objects_Next := {| objs := [0; 0]; top := 0; size := 2 |};
     current_color := 2;
     Next_Heap_Extension := 1000;
     pinned := {[ 100 := 1 ]};
     finalize_calls := [];
     htb_destroyed := [];
     pool_brk := 6 |}.

(** The same heap with every cell handed out: the free pointer is nil. *)
Definition example_full : gc_state := with_next_free example_gc NULL.

(** A state whose Active list claims five cells but has no head. *)
Definition example_headless : gc_state :=
  {| heap := ∅;
     Active_Heap_Objects := {| head := 0; tail := 0; num_objects := 5 |};
     Old_Heap_Objects := {| head := 0; tail := 0; num_objects := 0 |};
     Next_Free_Object := 0;
     Root_Objects := {| objs := [0]; top := 0; size := 1 |};
     Finalizable_Objects := {| objs := [0]; top := 0; size := 1 |};
     Finalizable_Objects_Next := {| objs := [0]; top := 0; size := 1 |};
     current_color := 0;
     Next_Heap_Extension := 10;
     pinned := ∅;
     finalize_calls := [];
     htb_destroyed := [];
     pool_brk := 1 |}.

End GCExample.

(** ** What the claims about the interpreter speak of *)

Module VMInv.
Import GC VM.

(** The callee of a call instruction is none of the three kinds of
    procedure the dispatch knows. *)
Definition not_callable (st : vm) : Prop :=
  top st ≠ NULL
  ∧ ∃ o, objects st !! top st = Some o
         ∧ match o with
           | COMPILED_PROC _ _ | COMPILED_SYNTAX_PROC _ _ | PRIMITIVE_PROC _ =>
               False
           | _ => True
           end.

(** The function register holds an object that is no compiled procedure. *)
Definition not_compiled (st : vm) : Prop :=
  fn st ≠ NULL
  ∧ ∃ o, objects st !! fn st = Some o
         ∧ match o with
           | COMPILED_PROC _ _ | COMPILED_SYNTAX_PROC _ _ => False
           | _ => True
           end.

(** The malformed-bytecode conditions that [vm_execute] checks:
    [malformed rt fuel entered st st2] holds when the turn of the dispatch
    loop that starts in [st] (at [vm_fn_begin] when [entered]) fails one of
    the assertions, and [st2] is the state in which it fails.  (The guard
    on [pc] is not among them, see [fetch].) *)
Inductive malformed (rt : runtime) (fuel : nat) (entered : bool) (st : vm)
  : vm → Prop :=
| bad_fn :
    entered = true → not_compiled st → malformed rt fuel entered st st
| bad_opcode instr c st1 :
    fetch rt st = Ok (Some (instr, c), st1) →
    ¬ (0 ≤ c < INVALID_BYTECODE) →
    malformed rt fuel entered st st1
| bad_args instr st1 a expected :
    fetch rt st = Ok (Some (instr, _args_), st1) →
    ARG1 rt instr st1 = Ok (a, st1) → LONG a st1 = Ok (expected, st1) →
    n_args st1 ≠ expected →
    malformed rt fuel entered st st1
| bad_argsdot instr st1 a required :
    fetch rt st = Ok (Some (instr, _argsdot_), st1) →
    ARG1 rt instr st1 = Ok (a, st1) → LONG a st1 = Ok (required, st1) →
    n_args st1 < required →
    malformed rt fuel entered st st1
| bad_fcallj instr st1 n st2 :
    fetch rt st = Ok (Some (instr, _fcallj_), st1) →
    fcallj_callee rt instr st1 = Ok (n, st2) →
    not_callable st2 →
    malformed rt fuel entered st st2
| bad_callj instr st1 n st2 :
    fetch rt st = Ok (Some (instr, _callj_), st1) →
    callj_callee rt fuel instr st1 = Ok (n, st2) →
    not_callable st2 →
    malformed rt fuel entered st st2.

(** [reaches rt fuel b st fuel' b' st']: the dispatch loop, started with
    [fuel] turns to go in [st] (at [vm_fn_begin] when [b]), arrives after
    some instructions in [st'] with [fuel'] turns to go. *)
Inductive reaches (rt : runtime)
  : nat → bool → vm → nat → bool → vm → Prop :=
| reaches_here fuel b st : reaches rt fuel b st fuel b st
| reaches_next fuel b st st1 fuel' b' st' :
    turn rt fuel b st = Ok (Next, st1) →
    reaches rt fuel false st1 fuel' b' st' →
    reaches rt (S fuel) b st fuel' b' st'
| reaches_enter fuel b st st1 fuel' b' st' :
    turn rt fuel b st = Ok (Enter, st1) →
    reaches rt fuel true st1 fuel' b' st' →
    reaches rt (S fuel) b st fuel' b' st'.

(** The root stack holds the pins [pins] and has room for [n] more below
    the [int] bound of the scan index. *)
Definition pinned (n : nat) (pins : list Z) (r : StackSet.stack_set)
  : Prop :=
  StackSet.stack_ok r ∧ StackSet.live r = pins
  ∧ 1 ≤ StackSet.size r ≤ 2 ^ 32 ∧ StackSet.top r + Z.of_nat n ≤ 2 ^ 31.

(** [st'] differs from [st] at most in the contents of the stack vector,
    in [top], [stack_top] and the root stack. *)
Definition stack_only (st st' : vm) : Prop :=
  env st' = env st ∧ stack st' = stack st ∧ fn st' = fn st
  ∧ globals st' = globals st
  ∧ (∀ p, p ≠ stack st → objects st' !! p = objects st !! p)
  ∧ (∀ l, objects st !! stack st = Some (VECTOR l) →
          ∃ l', objects st' !! stack st = Some (VECTOR l')).

(** Every successful run of [m] relates its two states by [R]. *)
Definition preserves {A} (R : vm → vm → Prop) (m : M A) : Prop :=
  ∀ st a st', m st = Ok (a, st') → R st st'.

(** [t] is a compiled procedure (or compiled syntax procedure) whose
    captured environment is [ce]. *)
Definition compiled (st : vm) (t ce : Z) : Prop :=
  t ≠ NULL
  ∧ ∃ b, objects st !! t = Some (COMPILED_PROC b ce)
         ∨ objects st !! t = Some (COMPILED_SYNTAX_PROC b ce).

(** The root stack can take one more pin and give it back. *)
Definition roots_fit (r : StackSet.stack_set) : Prop :=
  StackSet.stack_ok r ∧ 1 ≤ StackSet.size r ≤ 2 ^ 62 ∧ StackSet.top r < 2 ^ 31.

(** [p] is a proper list of the elements [xs]: a chain of pairs that ends
    in the empty list. *)
Fixpoint is_list (rt : runtime) (h : gmap Z payload) (p : Z) (xs : list Z)
  : Prop :=
  match xs with
  | [] => p = the_empty_list rt
  | x :: xs' =>
      p ≠ the_empty_list rt
      ∧ ∃ d, h !! p = Some (PAIR x d) ∧ is_list rt h d xs'
  end.

(** The live stack holds [below ++ xs ++ above] with [stack_top] just
    above [xs]. *)
Definition stack_holds (st : vm) (below xs above : list Z) : Prop :=
  stack st ≠ NULL
  ∧ objects st !! stack st = Some (VECTOR (below ++ xs ++ above))
  ∧ stack_top st = Z.of_nat (length (below ++ xs))
  ∧ Z.of_nat (length (below ++ xs ++ above)) ≤ 2 ^ 62.

(** [m] leaves the root stack as it is. *)
Definition keeps_roots {A} (m : M A) : Prop :=
  preserves (λ st st', roots st' = roots st) m.

(** Whenever [m] completes from a root stack that satisfies [P], its
    result and the root stack it leaves satisfy [Q]. *)
Definition pins_hoare {A} (P : StackSet.stack_set → Prop) (m : M A)
    (Q : A → StackSet.stack_set → Prop) : Prop :=
  ∀ st a st', m st = Ok (a, st') → P (roots st) → Q a (roots st').

(** After a turn that does not return, the pins are as before it. *)
Definition turn_post (pins : list Z) (c : control) (r : StackSet.stack_set)
  : Prop :=
  match c with Return _ => True | _ => pinned 2 pins r end.

(** The specification's reading of these conditions: an execution of
    [vm_execute] that arrives at a malformed instruction ends the process
    with a non-zero exit code. *)
Definition malformed_is_fatal (rt : runtime) : Prop :=
  ∀ fuel objects0 globals0 roots0 fn0 stack0 stack_top0 n_args0
    st0 fuel' entered st st2,
    vm_enter rt (vm_start objects0 globals0 roots0 fn0 stack0 stack_top0
                   n_args0) = Ok (tt, st0) →
    reaches rt fuel true st0 (S fuel') entered st →
    malformed rt fuel' entered st st2 →
    ∃ code, code ≠ 0
            ∧ vm_execute rt fuel objects0 globals0 roots0 fn0 stack0
                stack_top0 n_args0 = Exit code.

End VMInv.

(** ** A small machine state *)

Module VMExample.
Import GC VM.

(** A runtime whose singletons are the cells 1 to 5.  Reading the [car]
    member of a vector yields the address 99 of its storage, which is no
    object; no primitive is installed. *)
Definition example_rt : runtime :=
  {| the_empty_list := 1; false_object := 2; the_empty_vector := 3;
     error_sym := 4; cc_bytecode := 5;
     union_car := λ o, match o with VECTOR _ => Some 99 | _ => None end;
     primitive_fn := λ _ _ _ _ _, None;
     addr_fn := 1001; addr_env := 1002; addr_top := 1003;
     addr_local := 1004; addr_local2 := 1005 |}.

(** The heap of the examples.  Cell 10 is the value stack with the
    contents [cells]; 11 is the environment cons with the two-slot top
    frame 12; 40 is a compiled procedure with the code vector 41 and the
    captured environment 42; 50 is the instruction [(opcode 2)]; 61 to 63
    are arguments; 70 is a captured stack and 71 its captured top. *)
Definition example_objects (opcode : Z) (cells : list Z) : gmap Z payload :=
  list_to_map
    [(1, THE_EMPTY_LIST); (2, BOOLEAN false); (3, VECTOR []);
     (4, SYMBOL [101; 114; 114]); (5, VECTOR []);
     (10, VECTOR cells);
     (11, PAIR 12 1); (12, VECTOR [1; 1]);
     (40, COMPILED_PROC 41 42); (41, VECTOR [50]);
     (42, PAIR 43 1); (43, VECTOR []);
     (50, PAIR 51 52); (51, CHARACTER opcode);
     (52, PAIR 53 54); (53, FIXNUM 2); (54, PAIR 1 1);
     (61, FIXNUM 7); (62, FIXNUM 8); (63, FIXNUM 9);
     (70, VECTOR [61; 1; 1; 1]); (71, FIXNUM 1)].

(** [vm_execute] has pinned [&fn], [&env] and [&top]. *)
Definition example_pins : StackSet.stack_set :=
  {| StackSet.objs := [1001; 1002; 1003; 0]; StackSet.top := 3;
     StackSet.size := 4 |}.

Definition example_vm (opcode : Z) (cells : list Z) (t n : Z) : vm :=
  {| objects := example_objects opcode cells; globals := ∅;
     roots := example_pins; fn := 40; env := 11; top := 1; stack := 10;
     stack_top := t; n_args := n; pc := 0; initial_top := 0 |}.

(** The state an instruction leaves, or the state itself when the
    instruction does not complete. *)
Definition state_after {A} (m : M A) (st : vm) : vm :=
  match m st with Ok (_, st') => st' | _ => st end.

(** [setcc] with the captured stack 70 on top of its captured top 71. *)
Definition example_setcc : vm := example_vm _setcc_ [61; 71; 70; 1] 3 0.

(** A call of the procedure 40 with two arguments. *)
Definition example_call (opcode : Z) : vm :=
  example_vm opcode [61; 62; 40; 1] 3 0.

(** [argsdot 2] entered with three arguments, and with one. *)
Definition example_argsdot (n : Z) : vm :=
  example_vm _argsdot_ [61; 62; 63; 40; 1; 1] 3 n.

End VMExample.

(** ** Start-up, allocation in a row, and the list check of the debug build *)

Module GCSetup.
Import StackSet GC.


(** The [n] cells of a block that starts at [base], in address order. *)
Definition block_cells (base : Z) (n : nat) : list Z :=
  (λ i : nat, base + Z.of_nat i) <$> seq 0 n.
Global Arguments block_cells : simpl never.

(** [gc_init]: the three pointer stacks, two empty lists, and a first block
    of 1000 cells, all of them free.  [pool_start] is the first cell
    address of the pool ([create_pool]); the statics [current_color] and
    [Next_Heap_Extension] have their initial values 0 and 1000. *)
Definition gc_init (pool_start : Z) (pinned0 : gmap Z Z) : option gc_state :=
  let empty := {| head := NULL; tail := NULL; num_objects := 0 |} in
  let st :=
    {| heap := ∅; Active_Heap_Objects := empty; Old_Heap_Objects := empty;
       Next_Free_Object := NULL;
       Root_Objects := make_stack_set 400;
       Finalizable_Objects := make_stack_set 400;
       Finalizable_Objects_Next := make_stack_set 400;
       current_color := 0; Next_Heap_Extension := 1000;
       pinned := pinned0; finalize_calls := []; htb_destroyed := [];
       pool_brk := pool_start |} in
  st ← extend_heap 1000 st;
  (* everything is free right now *)
  Some (with_next_free st (head (Active_Heap_Objects st))).

(** [n] calls of [alloc_object] in a row, with the cells they return. *)
Fixpoint alloc_objects (fuel n : nat) (needs_finalization : bool)
    (st : gc_state) : result (list Z * gc_state) :=
  match n with
  | O => Ok ([], st)
  | S n' =>
      rbind (alloc_object fuel needs_finalization st) (λ '(obj, st),
      rbind (alloc_objects fuel n' needs_finalization st) (λ '(objs, st),
      Ok (obj :: objs, st)))
  end.

(** [assert_gc(test, msg)] of the [DEBUG_GC] build: a false [test] goes to
    [throw_gc_va], which prints and calls [exit(2)]. *)
Definition assert_gc (test : bool) : result unit :=
  if test then Ok tt else Exit 2.

(** The [while (iter != list->tail)] loop of [debug_validate] and the
    checks of the tail that follow it; [fuel] bounds the iterations. *)
Fixpoint validate_from (fuel : nat) (h : gmap Z object)
    (list : doubly_linked_list) (iter last idx : Z) : result unit :=
  if decide (iter ≠ tail list) then
    match fuel with
    | O => Undefined
    | S fuel' =>
        rbind (of_option (load h iter)) (λ o,
        rbind (assert_gc (bool_decide (prev o ≠ NULL))) (λ _,
        rbind (assert_gc (bool_decide (next o ≠ NULL))) (λ _,
        rbind (if decide (last ≠ NULL)
               then assert_gc (bool_decide (prev o = last))
               else Ok tt) (λ _,
        validate_from fuel' h list (next o) iter (wrap_long (idx + 1))))))
    end
  else
    let idx := wrap_long (idx + 1) in
    rbind (of_option (load h iter)) (λ o,
    rbind (assert_gc (bool_decide (next o = NULL))) (λ _,
    rbind (assert_gc (bool_decide (prev o ≠ NULL))) (λ _,
    rbind (assert_gc (bool_decide (prev o = last))) (λ _,
    assert_gc (bool_decide (idx = num_objects list)))))).

(** [debug_validate] of the [DEBUG_GC] build. *)
Definition debug_validate (fuel : nat) (h : gmap Z object)
    (list : doubly_linked_list) : result unit :=
  (* verify the structure of a linked list *)
  if decide (head list = NULL ∨ tail list = NULL) then
    rbind (assert_gc (bool_decide (head list = NULL)
                      && bool_decide (tail list = NULL))) (λ _,
    assert_gc (bool_decide (num_objects list = 0)))
  else
    rbind (of_option (load h (head list))) (λ ho,
    rbind (assert_gc (bool_decide (prev ho = NULL))) (λ _,
    if decide (head list = tail list) then
      rbind (assert_gc (bool_decide (num_objects list = 1))) (λ _,
      rbind (assert_gc (bool_decide (next ho = NULL))) (λ _,
      rbind (of_option (load h (tail list))) (λ to,
      assert_gc (bool_decide (prev to = NULL)))))
    else
      rbind (assert_gc (bool_decide (next ho ≠ NULL))) (λ _,
      validate_from fuel h list (next ho) NULL 1))).


End GCSetup.

(** ** The block of [extend_heap] while it is linked *)

Module GCBlock.
Import StackSet GC.

(** The cell [i] of a new block at [base] once the loop of [extend_heap]
    has passed it. *)
Definition linked_cell (base cc i : Z) : object :=
  {| data := UNINITIALISED; color := cc; next := base + (i + 1);
     prev := if decide (i = 0) then NULL else base + (i - 1) |}.

(** The memory while [extend_heap] links its block: the first [k] cells
    are linked, the others are as [MALLOC] gave them, and no other cell
    has changed. *)
Definition block_inv (st : gc_state) (extension k : Z) (h : gmap Z object)
  : Prop :=
  (∀ i, 0 ≤ i < k →
     h !! (pool_brk st + i)
     = Some (linked_cell (pool_brk st) (current_color st) i))
  ∧ (∀ i, k ≤ i < extension → h !! (pool_brk st + i) = Some fresh_cell)
  ∧ (∀ p, ¬ (pool_brk st ≤ p < pool_brk st + extension) →
          h !! p = heap st !! p).

End GCBlock.

(** ** Instructions, environments and frames in the object store *)

Module VMShape.
Import GC VM.

(** [instr] is the instruction [(op a1 a2)], a list of three conses as
    [make_instr] builds it. *)
Definition instr_is (h : gmap Z payload) (instr op a1 a2 : Z) : Prop :=
  instr ≠ NULL
  ∧ ∃ d1 d2 d3,
      h !! instr = Some (PAIR op d1)
      ∧ d1 ≠ NULL ∧ h !! d1 = Some (PAIR a1 d2)
      ∧ d2 ≠ NULL ∧ h !! d2 = Some (PAIR a2 d3).

(** [p] is the fixnum [k]. *)
Definition fixnum_at (h : gmap Z payload) (p k : Z) : Prop :=
  p ≠ NULL ∧ h !! p = Some (FIXNUM k).

(** The environment [e] is a chain of conses whose cars are the frames
    [frames], innermost first, and whose last cdr is [rest]. *)
Fixpoint env_chain (h : gmap Z payload) (e : Z) (frames : list Z) (rest : Z)
  : Prop :=
  match frames with
  | [] => e = rest
  | f :: fs =>
      e ≠ NULL ∧ ∃ d, h !! e = Some (PAIR f d) ∧ env_chain h d fs rest
  end.

(** [h'] has every cell of [h] that is not a vector, unchanged. *)
Definition keeps_scalars (h h' : gmap Z payload) : Prop :=
  ∀ q o, h !! q = Some o → (∀ l, o ≠ VECTOR l) → h' !! q = Some o.

(** The root stack can take two more pins and give them back. *)
Definition roots_fit2 (r : StackSet.stack_set) : Prop :=
  StackSet.stack_ok r ∧ 1 ≤ StackSet.size r ≤ 2 ^ 61
  ∧ StackSet.top r + 1 < 2 ^ 31.

(** What [VPUSH] and [VPOP] leave alone. *)
Definition off_stack (st st' : vm) : Prop :=
  stack st' = stack st ∧ env st' = env st ∧ fn st' = fn st
  ∧ roots st' = roots st
  ∧ ∀ q, q ≠ stack st → objects st' !! q = objects st !! q.

End VMShape.

(** ** More sample states *)

Module MoreExamples.
Import StackSet GC VM GCExample VMExample.

(** A root stack whose two slots are taken. *)
Definition example_full_roots : stack_set :=
  {| StackSet.objs := [11; 22]; StackSet.top := 2; StackSet.size := 2 |}.

(** The two lists of the example heap as the list operations take them:
    Active is the source, Old the destination. *)
Definition example_lists : lists :=
  {| mem := example_heap;
     src_list := Active_Heap_Objects example_gc;
     dest_list := Old_Heap_Objects example_gc |}.

(** The example heap with both cells of the Active list free. *)
Definition example_free : gc_state := with_next_free example_gc 4.

(** A machine with two values on the stack. *)
Definition example_stack : vm := example_vm _cc_ [61; 62; 1; 1] 2 0.


(** A machine whose stack holds one value above [initial_top]. *)
Definition example_return : vm := example_vm _return_ [61; 1; 1; 1] 1 0.

(** [apply]: the instruction 50 rewritten to [(callj -1)], with the
    callee 40 on top of the list 80 of the two arguments 61 and 62. *)
Definition example_apply : vm :=
  set_objects (example_vm _callj_ [80; 40; 1; 1] 2 0)
    (<[53 := FIXNUM (-1)]>
       (<[80 := PAIR 61 81]>
          (<[81 := PAIR 62 1]> (example_objects _callj_ [80; 40; 1; 1])))).

(** The runtime of the examples with one primitive installed: whatever
    its arguments, it returns the object 62 and leaves the heap alone. *)
Definition example_rt_prim : runtime :=
  {| the_empty_list := 1; false_object := 2; the_empty_vector := 3;
     error_sym := 4; cc_bytecode := 5;
     union_car := λ o, match o with VECTOR _ => Some 99 | _ => None end;
     primitive_fn := λ _ h _ _ _, Some (62, h);
     addr_fn := 1001; addr_env := 1002; addr_top := 1003;
     addr_local := 1004; addr_local2 := 1005 |}.

(** A call of the primitive at cell 45 with the two arguments 61 and 62. *)
Definition example_prim : vm :=
  set_objects (example_vm _fcallj_ [61; 62; 1; 1] 2 0)
    (<[45 := PRIMITIVE_PROC 7]> (example_objects _fcallj_ [61; 62; 1; 1])).

(** The instruction 50 rewritten to [(lset 0 1)]: frame 0, slot 1. *)
Definition example_lset : vm :=
  set_objects (example_vm _lset_ [61; 1; 1; 1] 1 0)
    (<[53 := FIXNUM 0]>
       (<[54 := PAIR 55 1]>
          (<[55 := FIXNUM 1]> (example_objects _lset_ [61; 1; 1; 1])))).

(** The root stack as [gc_init] makes it: 400 slots, none in use. *)
Definition example_no_roots : stack_set := make_stack_set 400.

(** A root stack that holds no pin. *)
Definition example_no_pins : stack_set :=
  {| StackSet.objs := [0; 0; 0; 0]; StackSet.top := 0; StackSet.size := 4 |}.

(** The heap of the examples with the code vector of procedure 40 made
    [(const 61)] followed by an instruction whose opcode is past the last
    one. *)
Definition example_program : gmap Z payload :=
  <[41 := VECTOR [55; 50]]>
    (<[55 := PAIR 56 57]>
       (<[56 := CHARACTER _const_]>
          (<[57 := PAIR 61 1]>
             (example_objects INVALID_BYTECODE [1; 1; 1; 1])))).

(** [vm_execute] entered on that procedure with an empty stack. *)
Definition example_entry : vm :=
  vm_start example_program ∅ example_no_pins 40 10 0 0.

(** The states of that execution: at the first [vm_fn_begin], after the
    [const], and where the unknown opcode has been fetched. *)
Definition example_entered : vm :=
  state_after (vm_enter example_rt) example_entry.
Definition example_after_const : vm :=
  state_after (turn example_rt 1 true) example_entered.
Definition example_at_bad : vm :=
  state_after (fetch example_rt) example_after_const.

End MoreExamples.

(** * Proofs *)

(** ** Machine integers *)

Lemma wrap_long_id z : - 2 ^ 63 ≤ z < 2 ^ 63 → wrap_long z = z.
Proof. intros H. unfold wrap_long. rewrite Z.mod_small; lia. Qed.

Lemma wrap_int_id z : - 2 ^ 31 ≤ z < 2 ^ 31 → wrap_int z = z.
Proof. intros H. unfold wrap_int. rewrite Z.mod_small; lia. Qed.

Lemma aget_nat {A} (a : list A) (n : nat) : aget a (Z.of_nat n) = a !! n.
Proof. unfold aget. rewrite decide_True by lia. by rewrite Nat2Z.id. Qed.

(** ** The root stack: [stack_set_pop] and [pop_root] *)

Module StackSetFacts.
Import StackSet.

(** The scan stops at the first slot (from the top) that holds [value]; the
    slots above it have each moved down by one. *)
Lemma scan_back_found (l1 l2 rest : list Z) (last value : Z) :
  value ∉ l2 →
  scan_back (length (l1 ++ value :: l2)) (l1 ++ value :: l2 ++ rest) last value
  = Some (true, l1 ++ l2 ++ last :: rest).
Proof.
  revert rest last. induction l2 as [|x l2 IH] using rev_ind; intros rest last Hnin.
  - rewrite length_app, Nat.add_comm. simpl.
    rewrite lookup_app_r, Nat.sub_diag by lia. simpl.
    rewrite decide_True by done.
    by rewrite insert_app_r_alt, Nat.sub_diag by lia.
  - apply not_elem_of_app in Hnin as [Hnin Hx].
    assert (x ≠ value) as Hne by (intros ->; apply Hx; by left).
    replace (length (l1 ++ value :: l2 ++ [x]))
      with (S (length (l1 ++ value :: l2)))
      by (repeat (rewrite length_app; simpl); lia).
    simpl.
    replace (l1 ++ value :: (l2 ++ [x]) ++ rest)
      with ((l1 ++ value :: l2) ++ x :: rest)
      by (by rewrite <- ?app_assoc; simpl; rewrite <- ?app_assoc).
    rewrite lookup_app_r, Nat.sub_diag by lia. simpl.
    rewrite decide_False by done.
    rewrite insert_app_r_alt, Nat.sub_diag by lia. simpl.
    rewrite <- app_assoc. simpl. rewrite IH by done.
    by rewrite <- !app_assoc.
Qed.

(** When [value] is in none of the scanned slots the scan reaches the
    bottom and reports failure. *)
Lemma scan_back_absent (l rest : list Z) (last value : Z) :
  value ∉ l →
  ∃ a, scan_back (length l) (l ++ rest) last value = Some (false, a).
Proof.
  revert rest last. induction l as [|x l IH] using rev_ind; intros rest last Hnin.
  - simpl. eauto.
  - apply not_elem_of_app in Hnin as [Hnin Hx].
    assert (x ≠ value) as Hne by (intros ->; apply Hx; by left).
    rewrite length_app, Nat.add_comm. simpl.
    rewrite <- app_assoc. simpl.
    rewrite lookup_app_r, Nat.sub_diag by lia. simpl.
    rewrite decide_False by done.
    rewrite insert_app_r_alt, Nat.sub_diag by lia. simpl.
    apply IH. done.
Qed.

Lemma live_split (ss : stack_set) :
  stack_ok ss →
  objs ss = live ss ++ drop (Z.to_nat (top ss)) (objs ss)
  ∧ Z.of_nat (length (live ss)) = top ss.
Proof.
  intros [Htop Hlen]. unfold live. split.
  - by rewrite take_drop.
  - rewrite length_take. lia.
Qed.

(** Popping a value that the stack holds: the topmost occurrence goes, the
    entries above it keep their order, one slot lower. *)
Lemma stack_set_pop_present (ss : stack_set) (value : Z) (l1 l2 : list Z) :
  stack_ok ss → top ss ≤ 2 ^ 31 →
  live ss = l1 ++ value :: l2 → value ∉ l2 →
  ∃ ss', stack_set_pop ss value = Some (true, ss')
         ∧ live ss' = l1 ++ l2 ∧ top ss' = top ss - 1 ∧ size ss' = size ss
         ∧ stack_ok ss'.
Proof.
  intros Hok Hint Hlive Hnin.
  destruct (live_split ss Hok) as [Hobjs Hlen].
  pose proof Hok as [Htop Hsz].
  set (rest := drop (Z.to_nat (top ss)) (objs ss)) in *.
  rewrite Hlive in Hobjs, Hlen.
  assert (Z.of_nat (length l1) + 1 + Z.of_nat (length l2) = top ss) as Hlen'.
  { rewrite length_app in Hlen. simpl in Hlen. lia. }
  unfold stack_set_pop.
  rewrite wrap_long_id by lia.
  destruct l2 as [|t l2 _] using rev_ind.
  - (* fast path: the value is on top *)
    simpl in Hlen'.
    replace (top ss - 1) with (Z.of_nat (length l1)) by lia.
    rewrite aget_nat, Hobjs.
    rewrite lookup_app_l by (rewrite length_app; simpl; lia).
    rewrite lookup_app_r, Nat.sub_diag by lia. simpl.
    rewrite decide_False by (intros H; by apply H).
    eexists. split; [done|]. unfold live, stack_ok. simpl.
    rewrite Nat2Z.id, <- app_assoc, take_app_length, app_nil_r.
    rewrite app_assoc, <- Hobjs. repeat split; lia.
  - (* scan: the value is below the top entry [t] *)
    apply not_elem_of_app in Hnin as [Hnin Ht].
    assert (t ≠ value) as Hne by (intros ->; apply Ht; by left).
    rewrite length_app in Hlen'. simpl in Hlen'.
    assert (top ss - 1 = Z.of_nat (length (l1 ++ value :: l2))) as Htop'.
    { rewrite length_app. simpl. lia. }
    rewrite Htop', aget_nat, Hobjs.
    replace ((l1 ++ value :: l2 ++ [t]) ++ rest)
      with ((l1 ++ value :: l2) ++ t :: rest)
      by (by rewrite <- ?app_assoc; simpl; rewrite <- ?app_assoc).
    rewrite lookup_app_r, Nat.sub_diag by lia. simpl.
    rewrite decide_True by done.
    rewrite wrap_int_id by lia.
    replace (Z.to_nat (Z.of_nat (length (l1 ++ value :: l2)) - 1 + 1))
      with (length (l1 ++ value :: l2)) by lia.
    rewrite <- app_assoc. simpl.
    rewrite scan_back_found by done. simpl.
    eexists. split; [done|]. unfold live, stack_ok. simpl.
    rewrite Nat2Z.id.
    assert (length (l1 ++ value :: l2) = length (l1 ++ l2 ++ [t])) as Hl
      by (repeat (rewrite length_app; simpl); lia).
    split.
    { rewrite Hl.
      replace (l1 ++ l2 ++ t :: t :: rest) with ((l1 ++ l2 ++ [t]) ++ t :: rest)
        by (by rewrite <- ?app_assoc; simpl; rewrite <- ?app_assoc).
      apply take_app_length. }
    split; [lia|]. split; [done|].
    rewrite <- Hsz, Hobjs. rewrite Hobjs in Hsz.
    rewrite !length_app in *. simpl in *. rewrite !length_app in *. simpl in *.
    lia.
Qed.

(** Popping a value that a non-empty stack does not hold reports failure. *)
Lemma stack_set_pop_absent (ss : stack_set) (value : Z) :
  stack_ok ss → 0 < top ss ≤ 2 ^ 31 →
  value ∉ live ss →
  ∃ ss', stack_set_pop ss value = Some (false, ss').
Proof.
  intros Hok Hint Hnin.
  destruct (live_split ss Hok) as [Hobjs Hlen].
  set (rest := drop (Z.to_nat (top ss)) (objs ss)) in *.
  destruct (live ss) as [|t l _] using rev_ind; [simpl in Hlen; lia|].
  apply not_elem_of_app in Hnin as [Hnin Ht].
  assert (t ≠ value) as Hne by (intros ->; apply Ht; by left).
  rewrite length_app in Hlen. simpl in Hlen.
  unfold stack_set_pop.
  rewrite wrap_long_id by lia.
  replace (top ss - 1) with (Z.of_nat (length l)) by lia.
  rewrite aget_nat, Hobjs, <- app_assoc. simpl.
  rewrite lookup_app_r, Nat.sub_diag by lia. simpl.
  rewrite decide_True by done.
  rewrite wrap_int_id by lia.
  replace (Z.to_nat (Z.of_nat (length l) - 1 + 1)) with (length l) by lia.
  destruct (scan_back_absent l (t :: rest) t value Hnin) as [a ->].
  simpl. eauto.
Qed.

(** Every list that holds [value] splits at its last occurrence. *)
Lemma split_last_occurrence (l : list Z) (value : Z) :
  value ∈ l → ∃ l1 l2, l = l1 ++ value :: l2 ∧ value ∉ l2.
Proof.
  induction l as [|x l IH]; intros Hin; [by apply elem_of_nil in Hin|].
  destruct (decide (value ∈ l)) as [Hl|Hl].
  - destruct (IH Hl) as (l1 & l2 & -> & Hnin). by exists (x :: l1), l2.
  - apply elem_of_cons in Hin as [->|Hin]; [|done]. by exists [], l.
Qed.

End StackSetFacts.

(** ** The collector: lists, marking, finalizers *)

Module GCFacts.
Import StackSet GC GCInv.

Lemma hd_app_default {A} (n : A) (l1 l2 : list A) :
  hd n (l1 ++ l2) = hd (hd n l2) l1.
Proof. by destruct l1. Qed.

Lemma last_cons_default {A} (p x : A) (l : list A) :
  default p (last (x :: l)) = default x (last l).
Proof.
  revert p x. induction l as [|y l IH]; intros p x; [done|].
  by rewrite last_cons_cons, (IH p y), (IH x y).
Qed.

Lemma lseg_app h p l1 l2 n :
  lseg h p (l1 ++ l2) n ↔ lseg h p l1 (hd n l2) ∧ lseg h (default p (last l1)) l2 n.
Proof.
  revert p. induction l1 as [|x l1 IH]; intros p.
  - simpl. tauto.
  - rewrite last_cons_default. simpl. rewrite IH, hd_app_default. tauto.
Qed.


Lemma lseg_links h h' p l n :
  (∀ x, x ∈ l → links h' x = links h x) → lseg h p l n → lseg h' p l n.
Proof.
  revert p. induction l as [|x l IH]; intros p Hl; [done|].
  simpl. intros (Hx & (o & Ho & Hp & Hn) & Hrest).
  split; [done|]. split.
  - specialize (Hl x (list_elem_of_here _ _)). unfold links in Hl.
    rewrite Ho in Hl. simpl in Hl.
    destruct (h' !! x) as [o'|]; [|done]. simpl in Hl.
    exists o'. split; [done|]. injection Hl as Hl1 Hl2. split; congruence.
  - apply IH; [|done]. intros y Hy. apply Hl. by right.
Qed.

Lemma lseg_not_null h p l n x : lseg h p l n → x ∈ l → x ≠ NULL.
Proof.
  revert p. induction l as [|y l IH]; intros p; simpl.
  - intros _ Hx. by apply elem_of_nil in Hx.
  - intros (Hy & _ & Hrest) Hx. apply elem_of_cons in Hx as [->|Hx]; [done|].
    by eapply IH.
Qed.

(** The cell in the middle of a chain, with its two neighbours. *)
Lemma lseg_middle h p l1 x l2 n :
  lseg h p (l1 ++ x :: l2) n →
  x ≠ NULL ∧ ∃ o, h !! x = Some o ∧ prev o = default p (last l1)
                  ∧ next o = hd n l2.
Proof. rewrite lseg_app. simpl. intros (_ & Hx & Ho & _). done. Qed.

(** Redirecting [next] of the last cell of a chain. *)
Lemma lseg_set_last_next h p l x n n' o :
  x ∉ l → h !! x = Some o →
  lseg h p (l ++ [x]) n → lseg (<[x := set_next o n']> h) p (l ++ [x]) n'.
Proof.
  intros Hnin Ho. rewrite !lseg_app. simpl. intros (Hl & Hx & (o' & Ho' & Hp & _) & _).
  split; [|split; [done|split; [|done]]].
  - apply (lseg_links h); [|done]. intros y Hy. unfold links.
    rewrite lookup_insert_ne; [done|]. intros ->. done.
  - rewrite lookup_insert_eq. eexists. split; [done|]. simpl.
    split; [congruence|done].
Qed.

(** Redirecting [prev] of the first cell of a chain. *)
Lemma lseg_set_head_prev h p p' l x n o :
  x ∉ l → h !! x = Some o →
  lseg h p (x :: l) n → lseg (<[x := set_prev o p']> h) p' (x :: l) n.
Proof.
  intros Hnin Ho. simpl. intros (Hx & (o' & Ho' & _ & Hn) & Hl).
  split; [done|]. split.
  - rewrite lookup_insert_eq. eexists. split; [done|]. simpl.
    split; [done|congruence].
  - apply (lseg_links h); [|done]. intros y Hy. unfold links.
    rewrite lookup_insert_ne; [done|]. intros ->. done.
Qed.

Lemma default_last_app_cons {A} (p : A) (l1 : list A) (x : A) (l2 : list A) :
  default p (last (l1 ++ x :: l2)) = default p (last (x :: l2)).
Proof.
  rewrite last_app. destruct (last (x :: l2)) as [y|] eqn:Hl; [done|].
  apply last_None in Hl. done.
Qed.


Lemma load_Some h p o : p ≠ NULL → h !! p = Some o → load h p = Some o.
Proof. intros Hp Ho. unfold load. by rewrite decide_False. Qed.

Lemma marks_set_next h x o n y :
  h !! x = Some o → marks (<[x := set_next o n]> h) y = marks h y.
Proof.
  intros Ho. unfold marks. destruct (decide (x = y)) as [->|Hne].
  - by rewrite lookup_insert_eq, Ho.
  - by rewrite lookup_insert_ne.
Qed.

Lemma marks_set_prev h x o n y :
  h !! x = Some o → marks (<[x := set_prev o n]> h) y = marks h y.
Proof.
  intros Ho. unfold marks. destruct (decide (x = y)) as [->|Hne].
  - by rewrite lookup_insert_eq, Ho.
  - by rewrite lookup_insert_ne.
Qed.

Lemma links_insert_ne h x o y : x ≠ y → links (<[x := o]> h) y = links h y.
Proof. intros Hne. unfold links. by rewrite lookup_insert_ne. Qed.

Lemma move_object_to_head_spec s A1 x A2 O :
  dll_rep (mem s) (src_list s) (A1 ++ x :: A2) →
  dll_rep (mem s) (dest_list s) O →
  NoDup ((A1 ++ x :: A2) ++ O) →
  Z.of_nat (length ((A1 ++ x :: A2) ++ O)) ≤ 2 ^ 61 →
  ∃ s', move_object_to_head x s = Some s'
        ∧ dll_rep (mem s') (src_list s') (A1 ++ A2)
        ∧ dll_rep (mem s') (dest_list s') (x :: O)
        ∧ (∀ y, marks (mem s') y = marks (mem s) y).
Proof.
  destruct s as [h src dest]. simpl.
  intros (HndA & HsegA & HhdA & HtlA & HnumA) (HndO & HsegO & HhdO & HtlO & HnumO)
    Hnd Hlen.
  (* the pieces of the source chain *)
  pose proof HsegA as Hmid. apply lseg_middle in Hmid as (Hx & o & Ho & Hprev & Hnext).
  apply lseg_app in HsegA as [Hseg1 Hseg2]. simpl in Hseg1, Hseg2.
  destruct Hseg2 as (_ & _ & Hseg2).
  (* separation facts *)
  apply NoDup_app in Hnd as (_ & HAO & _).
  apply NoDup_app in HndA as (Hnd1 & H1x2 & Hndx2).
  apply NoDup_cons in Hndx2 as [Hx2 Hnd2].
  assert (x ∉ A1) as Hx1 by (intros H; apply (H1x2 x H); by left).
  assert (x ∉ O) as HxO by (apply HAO, elem_of_app; right; by left).
  assert (∀ y, y ∈ A1 → y ∉ A2) as H12
    by (intros y Hy Hy2; apply (H1x2 y Hy); by right).
  assert (∀ y, y ∈ A1 → y ∉ O) as H1O
    by (intros y Hy; apply HAO, elem_of_app; by left).
  assert (∀ y, y ∈ A2 → y ∉ O) as H2O
    by (intros y Hy; apply HAO, elem_of_app; right; by right).
  rewrite !length_app in Hlen. simpl in Hlen. rewrite length_app in HnumA.
  simpl in HnumA.
  unfold move_object_to_head. simpl.
  rewrite (load_Some _ _ _ Hx Ho). simpl.
  (* step 1: the cell before [x], or the head of the source *)
  assert (∃ src1 h1,
    (if decide (prev o = NULL)
     then Some ({| head := next o; tail := tail src;
                   num_objects := num_objects src |}, h)
     else h' ← store_next h (prev o) (next o); Some (src, h')) = Some (src1, h1)
    ∧ head src1 = hd NULL (A1 ++ A2) ∧ tail src1 = tail src
    ∧ num_objects src1 = num_objects src
    ∧ lseg h1 NULL A1 (hd NULL A2) ∧ lseg h1 x A2 NULL ∧ lseg h1 NULL O NULL
    ∧ h1 !! x = Some o ∧ (∀ y, marks h1 y = marks h y))
    as (src1 & h1 & -> & Hhd1 & Htl1 & Hnum1 & Hs1 & Hs2 & HsO & Ho1 & Hm1).
  { destruct A1 as [|a A1 _] using rev_ind.
    - simpl in Hprev. rewrite decide_True by done.
      eexists _, _. split; [done|]. simpl. by rewrite Hnext.
    - rewrite last_snoc in Hprev. simpl in Hprev.
      pose proof (lseg_middle _ _ _ _ _ _ Hseg1) as (Ha & oa & Hoa & _ & _).
      rewrite decide_False by congruence.
      unfold store_next. rewrite Hprev, (load_Some _ _ _ Ha Hoa). simpl.
      eexists _, _. split; [done|].
      assert (a ≠ x) as Hax by (intros ->; apply Hx1, elem_of_app; right; by left).
      assert (a ∈ A1 ++ [a]) as Hain by (apply elem_of_app; right; by left).
      split; [rewrite HhdA; by destruct A1|]. split; [done|]. split; [done|].
      split.
      { rewrite Hnext. apply (lseg_set_last_next h NULL A1 a x); [|done|done].
        apply NoDup_app in Hnd1 as (_ & Hd & _). intros Hin. apply (Hd a Hin). by left. }
      split.
      { apply (lseg_links h); [|done]. intros y Hy. apply links_insert_ne.
        intros ->. by apply (H12 y). }
      split.
      { apply (lseg_links h); [|done]. intros y Hy. apply links_insert_ne.
        intros ->. by apply (H1O y). }
      split; [by rewrite lookup_insert_ne|].
      intros y. by apply marks_set_next. }
  simpl. rewrite (load_Some _ _ _ Hx Ho1). simpl.
  (* step 2: the cell after [x], or the tail of the source *)
  assert (∃ src2 h2,
    (if decide (next o = NULL)
     then Some ({| head := head src1; tail := prev o;
                   num_objects := num_objects src1 |}, h1)
     else h' ← store_prev h1 (next o) (prev o); Some (src1, h')) = Some (src2, h2)
    ∧ head src2 = hd NULL (A1 ++ A2) ∧ tail src2 = default NULL (last (A1 ++ A2))
    ∧ num_objects src2 = num_objects src
    ∧ lseg h2 NULL (A1 ++ A2) NULL ∧ lseg h2 NULL O NULL
    ∧ h2 !! x = Some o ∧ (∀ y, marks h2 y = marks h y))
    as (src2 & h2 & -> & Hhd2 & Htl2 & Hnum2 & Hs12 & HsO2 & Ho2 & Hm2).
  { destruct A2 as [|b A2].
    - simpl in Hnext. rewrite decide_True by done.
      eexists _, _. split; [done|]. simpl. rewrite app_nil_r in *.
      repeat split; try done.
    - simpl in Hnext. pose proof Hs2 as (Hb & (ob & Hob & _ & _) & _).
      rewrite decide_False by congruence.
      unfold store_prev. rewrite Hnext, (load_Some _ _ _ Hb Hob). simpl.
      eexists _, _. split; [done|].
      assert (b ≠ x) as Hbx by (intros ->; apply Hx2; by left).
      split; [done|]. split.
      { by rewrite Htl1, HtlA, !last_app. }
      split; [done|]. split.
      { apply lseg_app. split.
        - apply (lseg_links h1); [|done]. intros y Hy. apply links_insert_ne.
          intros ->. apply (H12 y Hy). by left.
        - rewrite Hprev. apply NoDup_cons in Hnd2 as [Hb2 _].
          by apply (lseg_set_head_prev _ x). }
      split.
      { apply (lseg_links h1); [|done]. intros y Hy. apply links_insert_ne.
        intros ->. apply (H2O y); [by left|done]. }
      split; [by rewrite lookup_insert_ne|].
      intros y. rewrite <- Hm1. by apply marks_set_prev. }
  simpl.
  (* step 3: in front of the destination *)
  assert (∃ dest3 h3,
    (if decide (head dest = NULL)
     then h0 ← store_next h2 x NULL;
          h4 ← store_prev h0 x NULL;
          Some ({| head := x; tail := x; num_objects := num_objects dest |}, h4)
     else h0 ← store_prev h2 x NULL;
          h4 ← store_next h0 x (head dest);
          o0 ← load h4 x;
          h5 ← store_prev h4 (next o0) x;
          Some ({| head := x; tail := tail dest;
                   num_objects := num_objects dest |}, h5)) = Some (dest3, h3)
    ∧ head dest3 = x ∧ tail dest3 = default NULL (last (x :: O))
    ∧ num_objects dest3 = num_objects dest
    ∧ lseg h3 NULL (A1 ++ A2) NULL ∧ lseg h3 NULL (x :: O) NULL
    ∧ (∀ y, marks h3 y = marks h y))
    as (dest3 & h3 & -> & Hhd3 & Htl3 & Hnum3 & Hs3 & HsO3 & Hm3).
  { assert (x ∉ A1 ++ A2) as Hx12
      by (intros [H|H]%elem_of_app; [by apply Hx1|by apply Hx2]).
    destruct O as [|c O].
    - simpl in HhdO. rewrite decide_True by done.
      unfold store_next, store_prev. rewrite (load_Some _ _ _ Hx Ho2). simpl.
      rewrite (load_Some _ _ (set_next o NULL) Hx) by apply lookup_insert_eq.
      simpl. eexists _, _. split; [done|]. simpl.
      split; [done|]. split; [done|]. split; [done|]. split.
      { apply (lseg_links h2); [|done]. intros y Hy.
        rewrite !links_insert_ne; [done|congruence..]. }
      split.
      { split; [done|]. split; [|done]. rewrite lookup_insert_eq. by eexists. }
      intros y. rewrite insert_insert_eq. rewrite <- Hm2.
      unfold marks. destruct (decide (x = y)) as [->|Hne].
      + by rewrite lookup_insert_eq, Ho2.
      + by rewrite lookup_insert_ne.
    - simpl in HhdO. pose proof HsegO as (Hc & (oc & Hoc & _ & _) & _).
      assert (h2 !! c = Some oc ∨ True) as _ by (by right).
      pose proof HsO2 as (_ & (oc2 & Hoc2 & Hpc2 & Hnc2) & HsO2').
      rewrite decide_False by congruence.
      assert (x ≠ c) as Hxc by (intros ->; apply HxO; by left).
      unfold store_next, store_prev. rewrite (load_Some _ _ _ Hx Ho2). simpl.
      rewrite (load_Some _ _ (set_prev o NULL) Hx) by apply lookup_insert_eq.
      simpl. rewrite insert_insert_eq.
      rewrite (load_Some _ _ (set_next (set_prev o NULL) (head dest)) Hx)
        by apply lookup_insert_eq.
      simpl. rewrite HhdO.
      rewrite (load_Some _ _ oc2 Hc) by (by rewrite lookup_insert_ne).
      simpl. eexists _, _. split; [done|]. cbn [head tail num_objects].
      split; [done|]. split.
      { by rewrite HtlO. }
      split; [done|]. split.
      { apply (lseg_links h2); [|done]. intros y Hy.
        rewrite !links_insert_ne; [done|..].
        - intros ->. by apply Hx12.
        - intros ->. apply elem_of_app in Hy as [Hy|Hy].
          + apply (H1O y Hy). by left.
          + apply (H2O y Hy). by left. }
      split.
      { split; [done|]. split.
        - rewrite lookup_insert_ne by done. rewrite lookup_insert_eq.
          eexists. split; [done|]. done.
        - apply NoDup_cons in HndO as [HcO _].
          apply (lseg_set_head_prev _ NULL); [done|by rewrite lookup_insert_ne|].
          apply (lseg_links h2); [|done]. intros y Hy.
          apply links_insert_ne. intros ->. by apply HxO. }
      intros y. rewrite <- Hm2. unfold marks.
      destruct (decide (c = y)) as [->|Hcy].
      + rewrite lookup_insert_eq. by rewrite Hoc2.
      + rewrite lookup_insert_ne by done.
        destruct (decide (x = y)) as [->|Hxy].
        * by rewrite lookup_insert_eq, Ho2.
        * by rewrite lookup_insert_ne. }
  simpl. eexists. split; [done|]. simpl.
  assert (NoDup (A1 ++ A2)) as Hnd12.
  { apply NoDup_app. split; [done|]. split; [|done]. intros y Hy. by apply H12. }
  split.
  { split; [done|]. split; [done|]. split; [done|]. split; [done|].
    cbn [num_objects]. rewrite Hnum2, HnumA, length_app. rewrite wrap_long_id; lia. }
  split.
  { split; [by apply NoDup_cons|]. split; [done|]. split; [done|].
    split; [done|]. cbn [num_objects]. rewrite Hnum3, HnumO.
    rewrite wrap_long_id; simpl length; lia. }
  done.
Qed.

Lemma dll_rep_links h h' d l :
  (∀ y, y ∈ l → links h' y = links h y) → dll_rep h d l → dll_rep h' d l.
Proof.
  intros Hl (Hnd & Hseg & Hrest). split; [done|]. split; [|done].
  by apply (lseg_links h).
Qed.

Lemma dll_rep_not_null h d l x : dll_rep h d l → x ∈ l → x ≠ NULL.
Proof. intros (_ & Hseg & _). by apply (lseg_not_null h NULL l NULL). Qed.

Lemma append_to_tail_spec h dest src A O :
  dll_rep h dest A → dll_rep h src O → NoDup (A ++ O) →
  Z.of_nat (length (A ++ O)) ≤ 2 ^ 61 →
  ∃ h' dest' src',
    append_to_tail h dest src = Some (h', dest', src')
    ∧ dll_rep h' dest' (A ++ O) ∧ dll_rep h' src' []
    ∧ (∀ y, marks h' y = marks h y).
Proof.
  intros HrA HrO Hnd Hlen.
  pose proof HrA as (HndA & HsegA & HhdA & HtlA & HnumA).
  pose proof HrO as (HndO & HsegO & HhdO & HtlO & HnumO).
  rewrite length_app in Hlen.
  assert (dll_rep h {| head := NULL; tail := NULL; num_objects := 0 |} [])
    as Hempty by (repeat split; constructor).
  unfold append_to_tail.
  destruct A as [|a A _] using rev_ind.
  - (* the destination is empty *)
    simpl in HtlA. rewrite decide_True by done.
    eexists _, _, _. split; [done|]. split; [|done]. simpl.
    split; [done|]. split; [done|]. split; [done|]. split; [done|].
    cbn [num_objects]. rewrite HnumA, HnumO. simpl. rewrite wrap_long_id; lia.
  - rewrite last_snoc in HtlA. simpl in HtlA.
    pose proof (lseg_middle _ _ _ _ _ _ HsegA) as (Ha & oa & Hoa & _ & Hna).
    simpl in Hna.
    rewrite decide_False by congruence.
    destruct O as [|c O].
    + (* nothing to append *)
      simpl in HhdO. rewrite decide_True by done.
      eexists _, _, _. split; [done|]. rewrite app_nil_r.
      split; [done|]. split; [|done]. done.
    + simpl in HhdO. pose proof HsegO as (Hc & (oc & Hoc & _ & _) & _).
      rewrite decide_False by congruence.
      apply NoDup_app in Hnd as (_ & HAO & _).
      assert (a ≠ c) as Hac.
      { intros ->. apply (HAO c); [apply elem_of_app; right|]; by left. }
      unfold store_next, store_prev. rewrite HtlA, HhdO.
      rewrite (load_Some _ _ _ Ha Hoa). simpl.
      rewrite (load_Some _ _ (set_next oa c) Ha) by apply lookup_insert_eq.
      simpl. rewrite (load_Some _ _ oc Hc) by (by rewrite lookup_insert_ne).
      simpl. eexists _, _, _. split; [done|]. split; [|split].
      * split.
        { apply NoDup_app. split; [done|]. split; [|done]. done. }
        split.
        { apply lseg_app. split.
          - apply (lseg_links (<[a:=set_next oa c]> h)).
            + intros y Hy. apply links_insert_ne. intros ->.
              apply (HAO y); [done|by left].
            + apply NoDup_app in HndA as (_ & Hd & _).
              apply (lseg_set_last_next h NULL A a NULL); [|done|done].
              intros Hin. apply (Hd a Hin). by left.
          - rewrite last_snoc. simpl.
            apply NoDup_cons in HndO as [HcO _].
            apply (lseg_set_head_prev _ NULL);
              [done|by rewrite lookup_insert_ne|].
            apply (lseg_links h); [|done]. intros y Hy.
            apply links_insert_ne. intros ->.
            apply (HAO y); [apply elem_of_app; right; by left|done]. }
        split; [cbn [head]; rewrite HhdA; by destruct A|].
        split; [cbn [tail]; by rewrite HtlO, default_last_app_cons|].
        cbn [num_objects]. rewrite HnumA, HnumO, (length_app (A ++ [a])).
        rewrite wrap_long_id; lia.
      * repeat split; constructor.
      * intros y. unfold marks.
        destruct (decide (c = y)) as [->|Hcy].
        { rewrite lookup_insert_eq. by rewrite Hoc. }
        rewrite lookup_insert_ne by done.
        destruct (decide (a = y)) as [->|Hay].
        { by rewrite lookup_insert_eq, Hoa. }
        by rewrite lookup_insert_ne.
Qed.


Lemma for_int_move_list cc (pre l : list Z) s :
  Z.of_nat (length (pre ++ l)) ≤ INT_MAX →
  for_int (length l) (Z.of_nat (length pre))
    (λ ii s, x ← aget (pre ++ l) ii; maybe_move cc x s) s
  = move_list cc l s.
Proof.
  revert pre s. induction l as [|x l IH]; intros pre s Hlen; [done|].
  simpl. rewrite aget_nat, lookup_app_r, Nat.sub_diag by lia. simpl.
  destruct (maybe_move cc x s) as [s'|]; [|done]. simpl.
  rewrite length_app in Hlen. simpl in Hlen.
  rewrite decide_True by lia.
  specialize (IH (pre ++ [x]) s').
  rewrite <- app_assoc in IH. simpl in IH.
  replace (Z.of_nat (length pre) + 1) with (Z.of_nat (length (pre ++ [x])))
    by (rewrite length_app; simpl; lia).
  apply IH. rewrite length_app. simpl. lia.
Qed.

Lemma move_list_app cc l1 l2 s :
  move_list cc (l1 ++ l2) s = s' ← move_list cc l1 s; move_list cc l2 s'.
Proof.
  revert s. induction l1 as [|x l1 IH]; intros s; [done|].
  simpl. destruct (maybe_move cc x s); [|done]. simpl. apply IH.
Qed.

Lemma scan_entries_move_list cc entries s :
  (∀ f, f ∈ fields (HASH_TABLE entries) → f ≠ NULL) →
  scan_entries cc entries s = move_list cc (fields (HASH_TABLE entries)) s.
Proof.
  revert s. induction entries as [|[k v] es IH]; intros s Hnn; [done|].
  simpl in *. rewrite decide_True by (apply Hnn; by left).
  destruct (maybe_move cc k s) as [s1|]; [|done]. simpl.
  destruct (maybe_move cc v s1) as [s2|]; [|done]. simpl.
  apply IH. intros f Hf. apply Hnn. by do 2 right.
Qed.

Lemma scan_fields_move_list cc d s :
  scannable d → (∀ f, f ∈ fields d → f ≠ NULL) →
  scan_fields cc d s = move_list cc (fields d) s.
Proof.
  intros [Hinit Hvec] Hnn. destruct d; simpl; try done;
    repeat (match goal with
            | |- context [maybe_move ?c ?f ?s] =>
                destruct (maybe_move c f s); simpl; try done
            end).
  - unfold for_up. rewrite Z.sub_0_r, Nat2Z.id.
    by apply (for_int_move_list cc []).
  - by apply scan_entries_move_list.
Qed.

Lemma marks_data h h' y : marks h' y = marks h y → data <$> h' !! y = data <$> h !! y.
Proof.
  unfold marks. destruct (h' !! y), (h !! y); simpl; try done. by intros [= -> _].
Qed.

Lemma marks_color h h' y :
  marks h' y = marks h y → color <$> h' !! y = color <$> h !! y.
Proof.
  unfold marks. destruct (h' !! y), (h !! y); simpl; try done. by intros [= _ ->].
Qed.

Lemma links_set_color h x o c y :
  h !! x = Some o → links (<[x := set_color o c]> h) y = links h y.
Proof.
  intros Ho. unfold links. destruct (decide (x = y)) as [->|Hne].
  - by rewrite lookup_insert_eq, Ho.
  - by rewrite lookup_insert_ne.
Qed.

Section Marking.
Variables (R : Z → Prop) (cc : Z) (h0 : gmap Z object) (cells : list Z).
Hypothesis cells_nodup : NoDup cells.
Hypothesis cells_len : Z.of_nat (length cells) ≤ 2 ^ 61.
Hypothesis R_cell : ∀ y, R y →
  y ∈ cells ∧ ∃ o, h0 !! y = Some o ∧ scannable (data o) ∧ color o ≠ cc.
Hypothesis R_closed : ∀ y o f,
  R y → h0 !! y = Some o → f ∈ fields (data o) → R f.

Local Abbreviation mark_inv := (GCInv.mark_inv R cc h0 cells).
Local Abbreviation closed_at := (GCInv.closed_at h0).


Lemma mark_inv_nodup s A O : mark_inv s A O → NoDup (A ++ O).
Proof. intros Hi. by rewrite (mi_perm Hi). Qed.

Lemma mark_inv_len s A O :
  mark_inv s A O → Z.of_nat (length (A ++ O)) ≤ 2 ^ 61.
Proof. intros Hi. by rewrite (mi_perm Hi). Qed.

Lemma mark_inv_cell s A O y :
  mark_inv s A O → R y →
  y ≠ NULL ∧ y ∈ A ++ O
  ∧ ∃ o o0, mem s !! y = Some o ∧ h0 !! y = Some o0 ∧ data o = data o0
            ∧ scannable (data o0) ∧ (color o = cc ↔ y ∈ O).
Proof.
  intros Hi Hy. destruct (R_cell y Hy) as (Hc & o0 & Ho0 & Hscan & Hcol).
  rewrite <- (mi_perm Hi) in Hc.
  assert (y ≠ NULL) as Hnn.
  { apply elem_of_app in Hc as [Hc|Hc].
    - by apply (dll_rep_not_null _ _ _ _ (mi_active Hi)).
    - by apply (dll_rep_not_null _ _ _ _ (mi_old Hi)). }
  split; [done|]. split; [done|].
  pose proof (mi_data Hi y) as Hd. rewrite Ho0 in Hd.
  destruct (mem s !! y) as [o|] eqn:Ho; [|done]. simpl in Hd.
  exists o, o0. split; [done|]. split; [done|]. split; [congruence|].
  split; [done|]. split.
  - intros Hcc. destruct (decide (y ∈ O)) as [|Hn]; [done|].
    pose proof (mi_color_rest Hi y Hn) as Hr. rewrite Ho, Ho0 in Hr.
    simpl in Hr. congruence.
  - intros Hin. pose proof (mi_color_old Hi y Hin) as Hr.
    rewrite Ho in Hr. simpl in Hr. congruence.
Qed.

(** Moving one cell from the source list to the front of the destination
    keeps the invariant, whichever of the two writes comes first. *)
Lemma mark_inv_move s s' A1 f A2 O :
  mark_inv s (A1 ++ f :: A2) O → R f →
  dll_rep (mem s') (src_list s') (A1 ++ A2) →
  dll_rep (mem s') (dest_list s') (f :: O) →
  (∀ y, y ≠ f → marks (mem s') y = marks (mem s) y) →
  data <$> mem s' !! f = data <$> mem s !! f →
  color <$> mem s' !! f = Some cc →
  mark_inv s' (A1 ++ A2) (f :: O).
Proof.
  intros Hi Hf HA HO Hm Hd Hc. split; try done.
  - rewrite <- (mi_perm Hi). rewrite <- !app_assoc. simpl.
    by rewrite Permutation_middle.
  - intros y. destruct (decide (y = f)) as [->|Hne].
    + rewrite Hd. apply (mi_data Hi).
    + rewrite (marks_data _ _ _ (Hm y Hne)). apply (mi_data Hi).
  - intros y [->|Hy]%elem_of_cons; [done|].
    assert (y ≠ f) as Hne.
    { intros ->. pose proof (mark_inv_nodup _ _ _ Hi) as Hnd.
      apply NoDup_app in Hnd as (_ & Hd' & _).
      apply (Hd' f); [|done]. apply elem_of_app. right. by left. }
    rewrite (marks_color _ _ _ (Hm y Hne)). by apply (mi_color_old Hi).
  - intros y Hy. apply not_elem_of_cons in Hy as [Hne Hy].
    rewrite (marks_color _ _ _ (Hm y Hne)). by apply (mi_color_rest Hi).
  - intros y [->|Hy]%elem_of_cons; [done|]. by apply (mi_reach Hi).
Qed.

Lemma maybe_move_spec s A O f :
  mark_inv s A O → R f →
  ∃ s' A' N,
    maybe_move cc f s = Some s' ∧ mark_inv s' A' (N ++ O)
    ∧ f ∈ N ++ O ∧ (length A' + length N = length A)%nat.
Proof.
  intros Hi Hf.
  destruct (mark_inv_cell _ _ _ _ Hi Hf)
    as (Hnn & Hin & o & o0 & Ho & Ho0 & Hd & Hscan & Hcol).
  unfold maybe_move. rewrite (load_Some _ _ _ Hnn Ho). simpl.
  destruct (decide (color o ≠ cc)) as [Hne|Heq].
  - assert (f ∉ O) as HfO by (intros H; by apply Hne, Hcol).
    apply elem_of_app in Hin as [HfA|]; [|done].
    apply list_elem_of_split in HfA as (A1 & A2 & ->).
    destruct (move_object_to_head_spec s A1 f A2 O)
      as (s1 & -> & HA1 & HO1 & Hm1);
      [apply Hi|apply Hi|by eapply mark_inv_nodup|by eapply mark_inv_len|].
    simpl.
    assert (marks (mem s1) f = Some (data o, color o)) as Hmf
      by (rewrite Hm1; unfold marks; by rewrite Ho).
    unfold marks in Hmf. destruct (mem s1 !! f) as [o1|] eqn:Ho1; [|done].
    simpl in Hmf. injection Hmf as Hd1 Hc1.
    unfold store_color. rewrite (load_Some _ _ _ Hnn Ho1). simpl.
    eexists _, (A1 ++ A2), [f]. split; [done|]. split; [|split].
    + apply (mark_inv_move s _ A1 f A2 O); simpl; try done.
      * apply (dll_rep_links (mem s1)); [|done]. intros y _.
        by apply links_set_color.
      * apply (dll_rep_links (mem s1)); [|done]. intros y _.
        by apply links_set_color.
      * intros y Hy. rewrite <- Hm1. unfold marks.
        by rewrite lookup_insert_ne.
      * rewrite lookup_insert_eq, Ho. simpl. by rewrite Hd1.
      * by rewrite lookup_insert_eq.
    + by left.
    + rewrite !length_app. simpl. lia.
  - apply dec_stable in Heq.
    exists s, A, []. split; [done|]. split; [done|]. split; [by apply Hcol|].
    simpl. lia.
Qed.

Lemma move_list_spec l s A O :
  mark_inv s A O → (∀ f, f ∈ l → R f) →
  ∃ s' A' N,
    move_list cc l s = Some s' ∧ mark_inv s' A' (N ++ O)
    ∧ (∀ f, f ∈ l → f ∈ N ++ O) ∧ (length A' + length N = length A)%nat.
Proof.
  revert s A O. induction l as [|f l IH]; intros s A O Hi Hl.
  - exists s, A, []. split; [done|]. split; [done|]. split; [|simpl; lia].
    intros f Hf. by apply elem_of_nil in Hf.
  - simpl.
    destruct (maybe_move_spec s A O f Hi) as (s1 & A1 & N1 & -> & Hi1 & Hf1 & Hlen1);
      [apply Hl; by left|].
    simpl.
    destruct (IH s1 A1 (N1 ++ O) Hi1) as (s2 & A2 & N2 & -> & Hi2 & Hf2 & Hlen2);
      [intros g Hg; apply Hl; by right|].
    exists s2, A2, (N2 ++ N1). rewrite <- app_assoc.
    split; [done|]. split; [done|]. split.
    + intros g [->|Hg]%elem_of_cons; [|by apply Hf2].
      apply elem_of_app. by right.
    + rewrite length_app. lia.
Qed.

Lemma scan_loop_spec fuel s A Q D :
  mark_inv s A (Q ++ D) →
  (∀ y, y ∈ D → closed_at (Q ++ D) y) →
  (length Q + length A ≤ fuel)%nat →
  ∃ s' A' O',
    scan_loop fuel cc (default NULL (last Q)) s = Some s'
    ∧ mark_inv s' A' O'
    ∧ (∀ y, y ∈ O' → closed_at O' y)
    ∧ (∀ y, y ∈ Q ++ D → y ∈ O')
    ∧ (length A' ≤ length A)%nat.
Proof.
  revert s A Q D. induction fuel as [|fuel IH]; intros s A Q D Hi Hcl Hfuel.
  - assert (Q = []) as -> by (destruct Q; [done|simpl in Hfuel; lia]).
    simpl. exists s, A, D. split; [done|]. split; [done|]. split; [done|].
    split; [done|lia].
  - destruct Q as [|x Q _] using rev_ind.
    { simpl. exists s, A, D. split; [done|]. split; [done|]. split; [done|].
      split; [done|lia]. }
    rewrite last_snoc. simpl default.
    assert (x ∈ (Q ++ [x]) ++ D) as HxO
      by (apply elem_of_app; left; apply elem_of_app; right; by left).
    pose proof (mi_reach Hi x HxO) as HRx.
    destruct (mark_inv_cell _ _ _ _ Hi HRx)
      as (Hnn & _ & o & o0 & Ho & Ho0 & Hd & Hscan & _).
    cbn [scan_loop]. rewrite decide_False by done.
    rewrite (load_Some _ _ _ Hnn Ho). simpl.
    assert (∀ f, f ∈ fields (data o0) → R f) as HRf
      by (intros f Hf; by apply (R_closed x o0 f)).
    rewrite Hd, scan_fields_move_list; [|done|].
    2:{ intros f Hf. by destruct (mark_inv_cell _ _ _ _ Hi (HRf f Hf)). }
    destruct (move_list_spec _ s A _ Hi HRf)
      as (s1 & A1 & N & -> & Hi1 & Hf1 & Hlen1).
    simpl.
    replace (N ++ (Q ++ [x]) ++ D) with ((N ++ Q) ++ x :: D) in Hi1, Hf1
      by (by rewrite <- !app_assoc).
    pose proof (mi_old Hi1) as (_ & Hseg1 & _).
    apply lseg_middle in Hseg1 as (_ & o1 & Ho1 & Hprev1 & _).
    rewrite (load_Some _ _ _ Hnn Ho1). simpl. rewrite Hprev1.
    replace ((N ++ Q) ++ x :: D) with ((N ++ Q) ++ (x :: D)) in Hi1 by done.
    destruct (IH s1 A1 (N ++ Q) (x :: D) Hi1)
      as (s2 & A2 & O2 & -> & Hi2 & Hcl2 & Hsub2 & Hlen2).
    + intros y [->|Hy]%elem_of_cons.
      * intros o' f Ho' Hf. apply Hf1. congruence.
      * intros o' f Ho' Hf. specialize (Hcl y Hy o' f Ho' Hf).
        revert Hcl. rewrite !elem_of_app, !elem_of_cons, elem_of_nil. tauto.
    + rewrite length_app in *. simpl in Hfuel. lia.
    + exists s2, A2, O2. split; [done|]. split; [done|]. split; [done|].
      split; [|lia].
      intros y Hy. apply Hsub2.
      revert Hy. rewrite !elem_of_app, !elem_of_cons, elem_of_nil. tauto.
Qed.

Lemma move_reachable_spec fuel root s A O :
  mark_inv s A O →
  (∀ y, y ∈ O → closed_at O y) →
  (root = NULL ∨ R root) →
  (length A ≤ fuel)%nat →
  ∃ s' A' O',
    move_reachable fuel cc root s = Some s'
    ∧ mark_inv s' A' O'
    ∧ (∀ y, y ∈ O' → closed_at O' y)
    ∧ (root ≠ NULL → root ∈ O')
    ∧ (∀ y, y ∈ O → y ∈ O')
    ∧ (length A' ≤ length A)%nat.
Proof.
  intros Hi Hcl Hroot Hfuel. unfold move_reachable.
  destruct (decide (root = NULL)) as [Hnull|Hnn].
  { exists s, A, O. split; [done|]. split; [done|]. split; [done|].
    split; [done|]. split; [done|lia]. }
  destruct Hroot as [|HR]; [done|].
  destruct (mark_inv_cell _ _ _ _ Hi HR)
    as (_ & Hin & o & o0 & Ho & Ho0 & Hd & Hscan & Hcol).
  rewrite (load_Some _ _ _ Hnn Ho). simpl.
  destruct (decide (color o = cc)) as [Heq|Hne].
  { exists s, A, O. split; [done|]. split; [done|]. split; [done|].
    split; [intros _; by apply Hcol|]. split; [done|lia]. }
  assert (root ∉ O) as HrO by (intros H; by apply Hne, Hcol).
  apply elem_of_app in Hin as [HrA|]; [|done].
  apply list_elem_of_split in HrA as (A1 & A2 & ->).
  unfold store_color. rewrite (load_Some _ _ _ Hnn Ho). simpl.
  set (h1 := <[root := set_color o cc]> (mem s)).
  destruct (move_object_to_head_spec
              {| mem := h1; src_list := src_list s; dest_list := dest_list s |}
              A1 root A2 O)
    as (s1 & -> & HA1 & HO1 & Hm1); simpl.
  { apply (dll_rep_links (mem s)); [|apply Hi]. intros y _.
    by apply links_set_color. }
  { apply (dll_rep_links (mem s)); [|apply Hi]. intros y _.
    by apply links_set_color. }
  { by eapply mark_inv_nodup. }
  { by eapply mark_inv_len. }
  assert (mark_inv s1 (A1 ++ A2) ([root] ++ O)) as Hi1.
  { apply (mark_inv_move s); try done.
    - intros y Hy. rewrite Hm1. simpl. unfold marks, h1.
      by rewrite lookup_insert_ne.
    - rewrite (marks_data _ _ _ (Hm1 root)). simpl. unfold h1.
      by rewrite lookup_insert_eq, Ho.
    - rewrite (marks_color _ _ _ (Hm1 root)). simpl. unfold h1.
      by rewrite lookup_insert_eq. }
  pose proof (mi_old Hi1) as (_ & _ & Hhd & _).
  simpl in Hhd. rewrite Hhd.
  destruct (scan_loop_spec fuel s1 (A1 ++ A2) [root] O Hi1)
    as (s2 & A' & O' & Hscan2 & Hi2 & Hcl2 & Hsub2 & Hlen2).
  - intros y Hy o' f Ho' Hf. right. by apply (Hcl y Hy o' f).
  - rewrite !length_app in *. simpl in *. lia.
  - simpl in Hscan2. rewrite Hscan2.
    exists s2, A', O'. split; [done|]. split; [done|]. split; [done|].
    split; [intros _; apply Hsub2; by left|].
    split; [intros y Hy; apply Hsub2; by right|].
    rewrite !length_app in *. simpl in *. lia.
Qed.

End Marking.

(** An invariant rule for the [int] counting loop. *)
Lemma for_int_inv {S : Type} (P : nat → S → Prop) (n : nat) (i : Z)
    (body : Z → S → option S) (s : S) :
  i + Z.of_nat n ≤ INT_MAX →
  P O s →
  (∀ k s, (k < n)%nat → P k s →
     ∃ s', body (i + Z.of_nat k) s = Some s' ∧ P (Datatypes.S k) s') →
  ∃ s', for_int n i body s = Some s' ∧ P n s'.
Proof.
  revert P i s. induction n as [|n IH]; intros P i s Hmax H0 Hstep.
  - simpl. eauto.
  - simpl. destruct (Hstep O s) as (s1 & Hb & H1); [lia|done|].
    rewrite Z.add_0_r in Hb. rewrite Hb. simpl.
    rewrite decide_True by lia.
    apply (IH (λ k, P (Datatypes.S k))); [lia|done|].
    intros k s2 Hk Hs2. destruct (Hstep (Datatypes.S k) s2) as (s3 & Hb3 & H3);
      [lia|done|].
    exists s3. split; [|done]. rewrite <- Hb3. f_equal. lia.
Qed.

Lemma stack_set_push_spec (ss : stack_set) (v : Z) :
  stack_ok ss → 1 ≤ size ss ≤ 2 ^ 62 → top ss ≤ 2 ^ 61 →
  ∃ ss', stack_set_push ss v = Some ss'
         ∧ live ss' = live ss ++ [v]
         ∧ top ss' = top ss + 1
         ∧ stack_ok ss' ∧ 1 ≤ size ss' ≤ 2 ^ 62.
Proof.
  intros [Htop Hlen] Hsize Hroom. unfold stack_set_push.
  destruct (decide (top ss = size ss)) as [Hfull|Hnot]; simpl.
  - rewrite !wrap_long_id by lia.
    unfold aset. rewrite length_app, length_replicate.
    rewrite decide_True by lia. simpl.
    eexists. split; [done|]. unfold live, stack_ok. simpl.
    assert (Z.to_nat (top ss) = length (objs ss)) as Hn by lia.
    rewrite length_insert, length_app, length_replicate.
    split; [|split; [done|split; [lia|lia]]].
    replace (Z.to_nat (top ss + 1)) with (Datatypes.S (length (objs ss))) by lia.
    rewrite Hn, (take_ge (objs ss)) by lia.
    rewrite insert_app_r_alt, Nat.sub_diag by lia.
    rewrite take_app, take_ge by lia.
    replace (Datatypes.S (length (objs ss)) - length (objs ss))%nat with 1%nat by lia.
    destruct (Z.to_nat (size ss * 2 - size ss)) as [|m] eqn:Hm; [lia|].
    done.
  - unfold aset. rewrite decide_True by lia. simpl.
    eexists. split; [done|]. unfold live, stack_ok. simpl.
    rewrite !wrap_long_id by lia. rewrite length_insert.
    split; [|split; [done|split; [lia|lia]]].
    replace (Z.to_nat (top ss + 1)) with (Datatypes.S (Z.to_nat (top ss))) by lia.
    erewrite take_S_r; [|apply list_lookup_insert_eq; lia].
    by rewrite take_insert_ge by lia.
Qed.

Lemma reach_data h h' roots x :
  (∀ y, data <$> h' !! y = data <$> h !! y) → reach h roots x → reach h' roots x.
Proof.
  intros Hd. induction 1 as [r Hr Hnn|x o f _ IH Ho Hf].
  - by apply reach_root.
  - specialize (Hd x). rewrite Ho in Hd.
    destruct (h' !! x) as [o'|] eqn:Ho'; [|done]. simpl in Hd.
    apply (reach_field _ _ x o'); [done|done|]. congruence.
Qed.

Lemma with_lists_lists_of st : with_lists st (lists_of st) = st.
Proof. by destruct st. Qed.

Lemma lists_of_with_lists st s : lists_of (with_lists st s) = s.
Proof. by destruct s. Qed.

Lemma live_lookup (ss : stack_set) (k : nat) :
  stack_ok ss → (k < Z.to_nat (top ss))%nat →
  ∃ a, aget (objs ss) (Z.of_nat k) = Some a ∧ live ss !! k = Some a.
Proof.
  intros [Htop Hlen] Hk. rewrite aget_nat. unfold live.
  rewrite lookup_take_lt by done.
  destruct (objs ss !! k) as [a|] eqn:Ha; [by exists a|].
  apply lookup_ge_None in Ha. lia.
Qed.

Lemma mark_roots_spec fuel st cells :
  let R := reach (heap st) (root_objects st) in
  mark_inv R (current_color st) (heap st) cells (lists_of st) cells [] →
  NoDup cells → Z.of_nat (length cells) ≤ 2 ^ 61 →
  (∀ y, R y →
     y ∈ cells ∧ ∃ o, heap st !! y = Some o ∧ scannable (data o)
                      ∧ color o ≠ current_color st) →
  stack_ok (Root_Objects st) → top (Root_Objects st) ≤ INT_MAX →
  (∀ a, a ∈ live (Root_Objects st) → is_Some (pinned st !! a)) →
  (length cells ≤ fuel)%nat →
  ∃ s A' O',
    mark_roots fuel st = Some (with_lists st s)
    ∧ mark_inv R (current_color st) (heap st) cells s A' O'
    ∧ (∀ y, y ∈ O' ↔ R y).
Proof.
  intros R Hi0 Hnd Hlen HR Hok Htop Hpin Hfuel.
  assert (∀ y o f, R y → heap st !! y = Some o → f ∈ fields (data o) → R f)
    as Hclosed by (intros y o f Hy Ho Hf; by apply (reach_field _ _ y o)).
  set (P := λ (k : nat) (t : gc_state),
    ∃ s A' O',
      t = with_lists st s
      ∧ mark_inv R (current_color st) (heap st) cells s A' O'
      ∧ (∀ y, y ∈ O' → closed_at (heap st) O' y)
      ∧ (∀ a r, a ∈ take k (live (Root_Objects st)) →
           pinned st !! a = Some r → r ≠ NULL → r ∈ O')
      ∧ (length A' ≤ length cells)%nat).
  destruct (for_int_inv P (Z.to_nat (top (Root_Objects st) - 0)) 0
              (λ ii st0,
                 next ← aget (objs (Root_Objects st0)) ii;
                 root ← pinned st0 !! next;
                 s ← move_reachable fuel (current_color st0) root (lists_of st0);
                 Some (with_lists st0 s)) st)
    as (t & Hrun & s & A' & O' & -> & Hi & Hcl & Hroots & _).
  - destruct Hok. lia.
  - exists (lists_of st), cells, []. rewrite with_lists_lists_of.
    split; [done|]. split; [done|]. split.
    { intros y Hy. by apply elem_of_nil in Hy. }
    split; [|done]. intros a r Ha. by apply elem_of_nil in Ha.
  - intros k t Hk (s & A' & O' & -> & Hi & Hcl & Hroots & HlenA).
    rewrite Z.add_0_l. cbn [Root_Objects pinned current_color with_lists].
    destruct (live_lookup (Root_Objects st) k Hok) as (a & -> & Ha); [lia|].
    simpl. destruct (Hpin a) as [r Hr]; [by eapply list_elem_of_lookup_2|].
    rewrite Hr. simpl. rewrite lists_of_with_lists.
    destruct (move_reachable_spec R (current_color st) (heap st) cells Hnd Hlen
                HR Hclosed fuel r s A' O' Hi Hcl)
      as (s' & A'' & O'' & -> & Hi' & Hcl' & Hin' & Hsub' & HlenA'); [|lia|].
    { destruct (decide (r = NULL)) as [|Hnn]; [by left|right].
      apply reach_root; [|done]. apply list_elem_of_omap.
      exists a. split; [|done]. by eapply list_elem_of_lookup_2. }
    simpl. eexists. split; [done|]. exists s', A'', O''.
    split; [done|]. split; [done|]. split; [done|]. split; [|lia].
    intros a' r' Ha' Hr' Hnn'.
    erewrite take_S_r in Ha' by done.
    apply elem_of_app in Ha' as [Ha'|Ha'].
    + apply Hsub'. by eapply Hroots.
    + apply list_elem_of_singleton in Ha' as ->.
      assert (r' = r) as -> by congruence. by apply Hin'.
  - exists s, A', O'. split.
    { unfold mark_roots, for_up. exact Hrun. }
    split; [done|]. intros y. split; [by apply (mi_reach Hi)|].
    induction 1 as [r Hr Hnn|x o f _ IH Ho Hf].
    + apply list_elem_of_omap in Hr as (a & Ha & Hr).
      apply (Hroots a r); [|done|done].
      rewrite Z.sub_0_r, take_ge; [done|].
      unfold live. rewrite length_take. lia.
    + by apply (Hcl x IH o f).
Qed.


Lemma with_finalizable_id st :
  with_finalizable st (Finalizable_Objects st) (Finalizable_Objects_Next st)
    (finalize_calls st) (htb_destroyed st) = st.
Proof. by destruct st. Qed.

Lemma with_finalizable_twice st f1 n1 c1 d1 f2 n2 c2 d2 :
  with_finalizable (with_finalizable st f1 n1 c1 d1) f2 n2 c2 d2
  = with_finalizable st f2 n2 c2 d2.
Proof. done. Qed.

Lemma finalize_loop_spec st :
  stack_ok (Finalizable_Objects st) →
  top (Finalizable_Objects st) ≤ 2 ^ 61 →
  (∀ x, x ∈ live (Finalizable_Objects st) →
     x ≠ NULL ∧ ∃ o, heap st !! x = Some o ∧ data o ≠ UNINITIALISED) →
  ∀ n k next calls destroyed,
    (k + n = length (live (Finalizable_Objects st)))%nat →
    stack_ok next → 1 ≤ size next ≤ 2 ^ 62 → top next ≤ Z.of_nat k →
    ∃ next' calls' destroyed',
      finalize_loop n (Z.of_nat k)
        (with_finalizable st (Finalizable_Objects st) next calls destroyed)
      = Some (with_finalizable st (Finalizable_Objects st) next' calls'
                destroyed')
      ∧ live next' = live next
                     ++ filter (marked st) (drop k (live (Finalizable_Objects st)))
      ∧ calls' = calls
                 ++ filter (λ x, ¬ marked st x)
                      (drop k (live (Finalizable_Objects st)))
      ∧ stack_ok next' ∧ 1 ≤ size next' ≤ 2 ^ 62
      ∧ top next' ≤ Z.of_nat (k + n).
Proof.
  intros Hok Htop Hcells.
  assert (Z.of_nat (length (live (Finalizable_Objects st)))
          = top (Finalizable_Objects st)) as HlenF.
  { unfold live. rewrite length_take. destruct Hok. lia. }
  induction n as [|n IH]; intros k next calls destroyed Hk Hnok Hnsize Hntop.
  - simpl. exists next, calls, destroyed. split; [done|].
    rewrite drop_ge by lia. rewrite !filter_nil, !app_nil_r.
    split; [done|]. split; [done|]. split; [done|]. split; [done|]. lia.
  - destruct (live_lookup (Finalizable_Objects st) k Hok) as (x & Hget & Hx); [lia|].
    destruct (Hcells x) as (Hnn & o & Ho & Hinit); [by eapply list_elem_of_lookup_2|].
    rewrite (drop_S _ _ _ Hx).
    cbn [finalize_loop]. cbn [Finalizable_Objects with_finalizable heap].
    rewrite Hget. simpl. rewrite (load_Some _ _ _ Hnn Ho). simpl.
    rewrite wrap_long_id by lia.
    replace (Z.of_nat k + 1) with (Z.of_nat (Datatypes.S k)) by lia.
    destruct (decide (color o ≠ current_color st)) as [Hunm|Hm].
    + (* not reached: finalize *)
      assert (¬ marked st x) as Hnm.
      { unfold marked, color_of. rewrite Ho. simpl. congruence. }
      unfold finalize_object. cbn [heap with_finalizable htb_destroyed
        Finalizable_Objects Finalizable_Objects_Next finalize_calls].
      rewrite (load_Some _ _ _ Hnn Ho). simpl.
      assert (∃ d, match data o with
                   | STRING _ => Some destroyed
                   | VECTOR _ => Some destroyed
                   | HASH_TABLE _ => Some (destroyed ++ [x])
                   | UNINITIALISED => None
                   | _ => Some destroyed
                   end = Some d) as [d ->]
        by (destruct (data o); try done; eauto).
      simpl. rewrite with_finalizable_twice.
      destruct (IH (Datatypes.S k) next (calls ++ [x]) d)
        as (next' & calls' & d' & -> & Hlive & -> & Hok' & Hsize' & Htop');
        [lia|done|done|lia|].
      exists next', (calls ++ filter (λ x, ¬ marked st x)
                       (x :: drop (Datatypes.S k) (live (Finalizable_Objects st)))), d'.
      split; [|split; [|split; [done|split; [done|split; [done|lia]]]]].
      * f_equal. f_equal. rewrite filter_cons_True by done.
        by rewrite <- app_assoc.
      * by rewrite filter_cons_False by (intros H; by apply Hnm).
    + (* reached: keep for the next cycle *)
      apply dec_stable in Hm.
      assert (marked st x) as Hmk.
      { unfold marked, color_of. rewrite Ho. simpl. congruence. }
      cbn [Finalizable_Objects_Next with_finalizable finalize_calls
           htb_destroyed Finalizable_Objects].
      destruct (stack_set_push_spec next x Hnok Hnsize)
        as (next1 & -> & Hlive1 & Htop1 & Hok1 & Hsize1); [lia|].
      simpl. rewrite with_finalizable_twice.
      destruct (IH (Datatypes.S k) next1 calls destroyed)
        as (next' & calls' & d' & -> & Hlive & -> & Hok' & Hsize' & Htop');
        [lia|done|done|lia|].
      exists next', (calls ++ filter (λ x, ¬ marked st x)
                       (x :: drop (Datatypes.S k) (live (Finalizable_Objects st)))), d'.
      split; [|split; [|split; [done|split; [done|split; [done|lia]]]]].
      * f_equal. f_equal. by rewrite filter_cons_False by (intros H; by apply H).
      * rewrite Hlive, Hlive1, filter_cons_True by done.
        by rewrite <- app_assoc.
Qed.


Lemma filter_ext_in {A} (P Q : A → Prop) `{∀ x, Decision (P x)}
    `{∀ x, Decision (Q x)} (l : list A) :
  (∀ x, x ∈ l → (P x ↔ Q x)) → filter P l = filter Q l.
Proof.
  induction l as [|x l IH]; intros Hl; [done|].
  assert (filter P l = filter Q l) as IH' by (apply IH; intros y Hy; apply Hl; by right).
  destruct (decide (P x)) as [HP|HP].
  - rewrite !filter_cons_True; [by rewrite IH'|by apply Hl; [left|]|done].
  - rewrite !filter_cons_False; [done| |done].
    intros HQ. apply HP. apply Hl; [by left|done].
Qed.

Lemma wrap_char_next_mark c :
  wrap_char (wrap_char (wrap_char (c + 1) + 1) + 1) ≠ wrap_char (c + 1).
Proof.
  unfold wrap_char. change (2 ^ 7) with 128. change (2 ^ 8) with 256.
  Z.div_mod_to_equations. lia.
Qed.

Lemma root_objects_reach_data st st' x :
  (∀ y, data <$> heap st' !! y = data <$> heap st !! y) →
  Root_Objects st' = Root_Objects st → pinned st' = pinned st →
  reachable st x → reachable st' x.
Proof.
  intros Hd Hr Hp. unfold reachable, root_objects. rewrite Hr, Hp.
  by apply reach_data.
Qed.

Lemma baker_collect_spec fuel st A O :
  gc_ok st A O → (length (A ++ O) ≤ fuel)%nat →
  ∃ st' A' O',
    baker_collect fuel st = Some (num_objects (Active_Heap_Objects st'), st')
    ∧ collect_post st st' A O A' O'.
Proof.
  intros Hok Hfuel. destruct Hok.
  destruct ok_roots0 as [Hrok Hrtop].
  destruct ok_fin0 as [(Hfok & Hfsize & Hftop) Hfnd].
  destruct ok_fin_next0 as [(Hnok & Hnsize & Hntop) Hn0].
  unfold baker_collect.
  (* merge *)
  destruct (append_to_tail_spec _ _ _ A O ok_active0 ok_old0 ok_disjoint0 ok_cells0)
    as (h1 & active1 & old1 & -> & HA1 & HO1 & Hm1).
  cbn [mbind option_bind].
  set (cc1 := wrap_char (current_color st + 1)).
  set (st1 := with_color (with_lists st {| mem := h1; src_list := active1;
                                          dest_list := old1 |}) cc1).
  assert (∀ y, data <$> heap st1 !! y = data <$> heap st !! y) as Hd1
    by (intros y; by apply marks_data).
  assert (∀ y, reachable st y ↔ reach (heap st1) (root_objects st1) y) as HR1.
  { intros y. split.
    - apply reach_data. intros z. by rewrite Hd1.
    - apply reach_data. intros z. by rewrite Hd1. }
  (* mark *)
  destruct (mark_roots_spec fuel st1 (A ++ O))
    as (s & A' & O' & Hmark & Hi & HO'); try done.
  { split; simpl; try done.
    - by rewrite app_nil_r.
    - intros y Hy. by apply elem_of_nil in Hy.
    - intros y Hy. by apply elem_of_nil in Hy. }
  { intros y Hy. apply HR1 in Hy. destruct (ok_reach0 y Hy) as (Hin & o & Ho & Hsc & Hc).
    split; [done|]. specialize (Hm1 y). unfold marks in Hm1. rewrite Ho in Hm1.
    simpl heap. destruct (h1 !! y) as [o1|]; [|done]. simpl in Hm1.
    injection Hm1 as Hdo Hco. exists o1. split; [done|]. rewrite Hdo, Hco. done. }
  cbv zeta. change (mark_roots fuel _) with (mark_roots fuel st1).
  rewrite Hmark. cbn [mbind option_bind].
  set (st2 := with_lists st1 s).
  (* finalize *)
  assert (∀ y, data <$> heap st2 !! y = data <$> heap st !! y) as Hd2.
  { intros y. simpl. rewrite (mi_data Hi y). apply Hd1. }
  destruct (finalize_loop_spec st2 Hfok Hftop) with
    (n := Z.to_nat (top (Finalizable_Objects st2))) (k := 0%nat)
    (next := Finalizable_Objects_Next st2) (calls := finalize_calls st2)
    (destroyed := htb_destroyed st2)
    as (next' & calls' & d' & Hfin & Hlive' & Hcalls' & Hok' & Hsize' & Htop');
    try done.
  { intros x Hx. destruct (ok_fin_cells0 x Hx) as (Hnn & o & Ho & Hinit & _).
    split; [done|]. specialize (Hd2 x). rewrite Ho in Hd2.
    destruct (heap st2 !! x) as [o2|]; [|done]. simpl in Hd2.
    exists o2. split; [done|]. congruence. }
  { simpl. unfold live. rewrite length_take. destruct Hfok. lia. }
  { simpl. lia. }
  rewrite with_finalizable_id in Hfin. change (Z.of_nat 0) with 0 in Hfin.
  rewrite Hfin. cbn [mbind option_bind].
  rewrite drop_0 in Hlive', Hcalls'.
  assert (live (Finalizable_Objects_Next st2) = []) as Hnl.
  { simpl. unfold live. by rewrite Hn0. }
  rewrite Hnl in Hlive'. simpl in Hlive'.
  (* reached means moved *)
  assert (∀ x, x ∈ live (Finalizable_Objects st) → (marked st2 x ↔ x ∈ O'))
    as Hmarked.
  { intros x Hx. unfold marked, color_of. simpl. split.
    - intros Hc. destruct (decide (x ∈ O')) as [|Hn]; [done|exfalso].
      rewrite (mi_color_rest Hi x Hn) in Hc. simpl in Hc.
      rewrite (marks_color _ _ _ (Hm1 x)) in Hc.
      destruct (ok_fin_cells0 x Hx) as (_ & o & Ho & _ & Hcol).
      rewrite Ho in Hc. simpl in Hc. unfold cc1 in Hc. congruence.
    - intros Hin. by apply (mi_color_old Hi). }
  eexists _, A', O'. split; [reflexivity|].
  split; cbn [heap Active_Heap_Objects Old_Heap_Objects Next_Free_Object
              Root_Objects Finalizable_Objects Finalizable_Objects_Next
              current_color Next_Heap_Extension pinned finalize_calls
              htb_destroyed pool_brk with_next_free with_color
              with_finalizable with_lists]; try done.
  - (* the state is well formed again *)
    split; cbn [heap Active_Heap_Objects Old_Heap_Objects Next_Free_Object
              Root_Objects Finalizable_Objects Finalizable_Objects_Next
              current_color Next_Heap_Extension pinned finalize_calls
              htb_destroyed pool_brk with_next_free with_color
              with_finalizable with_lists]; try done.
    + apply Hi.
    + apply Hi.
    + rewrite (mi_perm Hi). done.
    + rewrite (mi_perm Hi). done.
    + intros x Hx.
      assert (reachable st x) as Hx'.
      { revert Hx. apply root_objects_reach_data; [|done|done].
        intros y. symmetry. apply Hd2. }
      destruct (ok_reach0 x Hx') as (Hin & o & Ho & Hsc & _).
      split; [by rewrite (mi_perm Hi)|].
      assert (x ∈ O') as HxO by (by apply HO', HR1).
      pose proof (mi_color_old Hi x HxO) as Hc.
      pose proof (Hd2 x) as Hd. rewrite Ho in Hd. simpl in Hd.
      simpl in Hc. destruct (mem s !! x) as [o2|] eqn:Ho2; [|done].
      simpl in Hc, Hd. exists o2. split; [exact Ho2|].
      split; [congruence|]. injection Hc as ->. unfold cc1. simpl.
      intros Heq. symmetry in Heq. by apply wrap_char_next_mark in Heq.
    + split; [|rewrite Hlive'; by apply NoDup_filter].
      split; [done|]. split; [done|].
      change (Finalizable_Objects st2) with (Finalizable_Objects st) in Htop'.
      destruct Hfok. lia.
    + intros x Hx. rewrite Hlive' in Hx. apply list_elem_of_filter in Hx as [Hmk Hx].
      destruct (ok_fin_cells0 x Hx) as (Hnn & o & Ho & Hinit & _).
      split; [done|].
      pose proof (Hd2 x) as Hd. rewrite Ho in Hd. simpl in Hd.
      unfold marked, color_of in Hmk. simpl in Hmk.
      destruct (mem s !! x) as [o2|] eqn:Ho2; [|done].
      simpl in Hmk, Hd. exists o2. split; [exact Ho2|].
      split; [congruence|]. injection Hmk as ->. unfold cc1. simpl.
      intros Heq. symmetry in Heq. by apply wrap_char_next_mark in Heq.
    + split; [|done]. unfold stack_fits, stack_ok, clear_stack_set. simpl.
      destruct Hfok as [? ?]. repeat split; try lia.
  - rewrite (mi_perm Hi). done.
  - intros y. rewrite HO'. symmetry. apply HR1.
  - intros y. by apply (mi_color_old Hi).
  - intros y Hy. unfold color_of. simpl.
    rewrite (mi_color_rest Hi y Hy). simpl.
    by apply marks_color.
  - rewrite Hlive'. by apply filter_ext_in.
  - rewrite Hcalls'. f_equal. apply filter_ext_in.
    intros x Hx. specialize (Hmarked x Hx). tauto.
Qed.

Lemma lseg_unique h p l1 l2 n :
  lseg h p l1 n → lseg h p l2 n → length l1 = length l2 →
  hd NULL l1 = hd NULL l2 → l1 = l2.
Proof.
  revert p l2. induction l1 as [|x l1 IH]; intros p [|y l2]; try done.
  simpl. intros (Hx & (o & Ho & _ & Hn) & H1) (Hy & (o' & Ho' & _ & Hn') & H2)
    Hlen Hhd.
  subst y. f_equal. assert (o' = o) as -> by congruence.
  apply (IH x); [done|done|lia|].
  destruct l1, l2; simpl in *; try done; congruence.
Qed.

Lemma dll_rep_unique h d l1 l2 : dll_rep h d l1 → dll_rep h d l2 → l1 = l2.
Proof.
  intros (_ & H1 & Hhd1 & _ & Hn1) (_ & H2 & Hhd2 & _ & Hn2).
  apply (lseg_unique h NULL _ _ NULL); [done|done|lia|congruence].
Qed.

Lemma on_list_iff h d l x : dll_rep h d l → on_list h d x ↔ x ∈ l.
Proof.
  intros Hl. split.
  - intros (l' & Hl' & Hx). by rewrite (dll_rep_unique _ _ _ _ Hl Hl').
  - intros Hx. by exists l.
Qed.

Lemma wrap_char_mark_pred c :
  wrap_char (wrap_char (wrap_char (c + 1) + 1) - 1) = wrap_char (c + 1).
Proof.
  unfold wrap_char. change (2 ^ 7) with 128. change (2 ^ 8) with 256.
  Z.div_mod_to_equations. lia.
Qed.

Lemma wrap_char_two c :
  wrap_char (wrap_char (wrap_char (c + 1) + 1) + 1) = wrap_char (wrap_char (c + 1) + 2).
Proof.
  unfold wrap_char. change (2 ^ 7) with 128. change (2 ^ 8) with 256.
  Z.div_mod_to_equations. lia.
Qed.

Lemma count_occ_filter_NoDup (P : Z → Prop) `{∀ x, Decision (P x)} (l : list Z) x :
  NoDup l → x ∈ l →
  count_occ Z.eq_dec (filter P l) x = if decide (P x) then 1%nat else 0%nat.
Proof.
  intros Hnd Hx.
  assert (NoDup (filter P l)) as Hndf by (by apply NoDup_filter).
  apply NoDup_ListNoDup in Hndf.
  pose proof (proj1 (NoDup_count_occ Z.eq_dec _) Hndf x) as Hle.
  destruct (decide (P x)) as [HP|HP].
  - assert (x ∈ filter P l) as Hin by (by apply list_elem_of_filter).
    apply list_elem_of_In in Hin. apply (count_occ_In Z.eq_dec) in Hin. lia.
  - apply count_occ_not_In. intros Hin. apply list_elem_of_In in Hin.
    apply list_elem_of_filter in Hin as [? _]. done.
Qed.

Lemma reachable_collect st st' A O A' O' x :
  collect_post st st' A O A' O' → reachable st' x ↔ reachable st x.
Proof.
  intros Hp. destruct (cp_roots _ _ _ _ _ _ Hp) as [Hr Hpin].
  unfold reachable, root_objects. rewrite Hr, Hpin. split.
  - apply reach_data. intros y. symmetry. apply (cp_data _ _ _ _ _ _ Hp).
  - apply reach_data. intros y. apply (cp_data _ _ _ _ _ _ Hp).
Qed.


Lemma covers_insert h0 h q o :
  covers h0 h → covers h0 (<[q := o]> h).
Proof.
  intros Hc p Hp. destruct (decide (q = p)) as [->|Hne].
  - rewrite lookup_insert_eq. by eexists.
  - rewrite lookup_insert_ne by done. by apply Hc.
Qed.

Lemma store_next_covers h0 h q v :
  covers h0 h → q ≠ NULL → is_Some (h0 !! q) →
  ∃ h', store_next h q v = Some h' ∧ covers h0 h'.
Proof.
  intros Hc Hq Hs. destruct (Hc q Hs) as [o Ho]. unfold store_next.
  rewrite (load_Some _ _ _ Hq Ho). simpl. eexists. split; [done|].
  by apply covers_insert.
Qed.

Lemma store_prev_covers h0 h q v :
  covers h0 h → q ≠ NULL → is_Some (h0 !! q) →
  ∃ h', store_prev h q v = Some h' ∧ covers h0 h'.
Proof.
  intros Hc Hq Hs. destruct (Hc q Hs) as [o Ho]. unfold store_prev.
  rewrite (load_Some _ _ _ Hq Ho). simpl. eexists. split; [done|].
  by apply covers_insert.
Qed.

Lemma store_color_covers h0 h q v :
  covers h0 h → q ≠ NULL → is_Some (h0 !! q) →
  ∃ h', store_color h q v = Some h' ∧ covers h0 h'.
Proof.
  intros Hc Hq Hs. destruct (Hc q Hs) as [o Ho]. unfold store_color.
  rewrite (load_Some _ _ _ Hq Ho). simpl. eexists. split; [done|].
  by apply covers_insert.
Qed.

Lemma fresh_cells_covers n base h : covers h (fresh_cells n base h).
Proof.
  revert base. induction n as [|n IH]; intros base; simpl; [by intros p Hp|].
  apply covers_insert, IH.
Qed.

Lemma fresh_cells_new n base h p :
  base ≤ p < base + Z.of_nat n → is_Some (fresh_cells n base h !! p).
Proof.
  revert base. induction n as [|n IH]; intros base Hp; simpl; [lia|].
  destruct (decide (base = p)) as [->|Hne].
  - rewrite lookup_insert_eq. by eexists.
  - rewrite lookup_insert_ne by done. apply IH. lia.
Qed.

Lemma extend_heap_spec extension st :
  2 ≤ extension ≤ INT_MAX → 0 < pool_brk st →
  (head (Active_Heap_Objects st) ≠ NULL →
   is_Some (heap st !! head (Active_Heap_Objects st))) →
  0 ≤ num_objects (Active_Heap_Objects st) ≤ 2 ^ 61 →
  ∃ st',
    extend_heap extension st = Some st'
    ∧ Next_Free_Object st' = pool_brk st
    ∧ head (Active_Heap_Objects st') = pool_brk st
    ∧ num_objects (Active_Heap_Objects st')
      = num_objects (Active_Heap_Objects st) + extension
    ∧ is_Some (heap st' !! pool_brk st)
    ∧ current_color st' = current_color st
    ∧ Next_Heap_Extension st' = Next_Heap_Extension st
    ∧ Finalizable_Objects st' = Finalizable_Objects st
    ∧ Old_Heap_Objects st' = Old_Heap_Objects st.
Proof.
  intros Hext Hbrk Hhead Hnum. unfold INT_MAX in Hext.
  unfold extend_heap, MALLOC_objects.
  set (base := pool_brk st).
  set (h0 := fresh_cells (Z.to_nat extension) base (heap st)).
  cbn [heap current_color Active_Heap_Objects with_pool].
  assert (∀ i, 0 ≤ i < extension → base + i ≠ NULL ∧ is_Some (h0 !! (base + i)))
    as Hcell.
  { intros i Hi. split; [unfold NULL, base; lia|].
    apply fresh_cells_new. lia. }
  assert (covers h0 h0) as Hc0 by (by intros p Hp).
  destruct (store_prev_covers h0 h0 (base + 0) NULL Hc0) as (h1 & -> & Hc1);
    [apply Hcell; lia..|]. cbn [mbind option_bind].
  destruct (store_next_covers h0 h1 (base + 0) (base + 1) Hc1) as (h2 & -> & Hc2);
    [apply Hcell; lia..|]. cbn [mbind option_bind].
  destruct (store_color_covers h0 h2 (base + 0) (current_color st) Hc2)
    as (h3 & -> & Hc3); [apply Hcell; lia..|]. cbn [mbind option_bind].
  destruct (for_int_inv (λ _ h, covers h0 h) (Z.to_nat (extension - 1 - 1)) 1
              (λ ii h,
                 h ← store_next h (base + ii) (base + (ii + 1));
                 h ← store_prev h (base + ii) (base + (ii - 1));
                 store_color h (base + ii) (current_color st)) h3)
    as (h4 & Hloop & Hc4); [unfold INT_MAX; lia|done| |].
  { intros k h Hk Hc.
    destruct (store_next_covers h0 h (base + (1 + Z.of_nat k))
                (base + (1 + Z.of_nat k + 1)) Hc) as (ha & -> & Hca);
      [apply Hcell; lia..|]. cbn [mbind option_bind].
    destruct (store_prev_covers h0 ha (base + (1 + Z.of_nat k))
                (base + (1 + Z.of_nat k - 1)) Hca) as (hb & -> & Hcb);
      [apply Hcell; lia..|]. cbn [mbind option_bind].
    apply store_color_covers; [done|apply Hcell; lia..]. }
  unfold for_up. rewrite Hloop. cbn [mbind option_bind].
  destruct (store_next_covers h0 h4 (base + (extension - 1))
              (head (Active_Heap_Objects st)) Hc4) as (h5 & -> & Hc5);
    [apply Hcell; lia..|]. cbn [mbind option_bind].
  destruct (store_prev_covers h0 h5 (base + (extension - 1))
              (base + (extension - 1 - 1)) Hc5) as (h6 & -> & Hc6);
    [apply Hcell; lia..|]. cbn [mbind option_bind].
  assert (∃ h7 active7,
    (if decide (head (Active_Heap_Objects st) ≠ NULL)
     then h ← store_prev h6 (head (Active_Heap_Objects st))
                 (base + (extension - 1));
          Some (h, Active_Heap_Objects st)
     else Some (h6, {| head := head (Active_Heap_Objects st);
                       tail := base + (extension - 1);
                       num_objects := num_objects (Active_Heap_Objects st) |}))
    = Some (h7, active7)
    ∧ covers h0 h7
    ∧ num_objects active7 = num_objects (Active_Heap_Objects st))
    as (h7 & active7 & -> & Hc7 & Hn7).
  { destruct (decide (head (Active_Heap_Objects st) ≠ NULL)) as [Hnn|Hnull].
    - destruct (store_prev_covers h0 h6 (head (Active_Heap_Objects st))
                  (base + (extension - 1)) Hc6) as (h7 & -> & Hc7); [done| |].
      { by apply fresh_cells_covers, Hhead. }
      cbn [mbind option_bind]. by eexists _, _.
    - by eexists _, _. }
  cbn [mbind option_bind].
  destruct (store_color_covers h0 h7 (base + (extension - 1)) (current_color st)
              Hc7) as (h8 & -> & Hc8); [apply Hcell; lia..|].
  cbn [mbind option_bind].
  eexists. split; [done|]. simpl. rewrite Hn7.
  split; [done|]. split; [done|]. split; [apply wrap_long_id; lia|].
  split; [|done].
  replace base with (base + 0) by lia. apply Hc8, Hcell. lia.
Qed.

(** The last steps of [alloc_object]: color the cell at [Next_Free_Object],
    register it for finalization if asked, and advance the free pointer. *)
Lemma alloc_object_take (needs_finalization : bool) (st : gc_state) :
  Next_Free_Object st ≠ NULL →
  is_Some (heap st !! Next_Free_Object st) →
  stack_fits (Finalizable_Objects st) →
  ∃ st',
    rbind (of_option (store_color (heap st) (Next_Free_Object st)
                        (current_color st))) (λ h,
    rbind (if needs_finalization
           then of_option (stack_set_push (Finalizable_Objects st)
                             (Next_Free_Object st))
           else Ok (Finalizable_Objects st)) (λ fin,
    let st1 := with_heap_fin st h fin in
    rbind (of_option (load (heap st1) (Next_Free_Object st))) (λ o,
    Ok (Next_Free_Object st, with_next_free st1 (next o)))))
    = Ok (Next_Free_Object st, st')
    ∧ Next_Heap_Extension st' = Next_Heap_Extension st
    ∧ Active_Heap_Objects st' = Active_Heap_Objects st.
Proof.
  intros Hnn [o Ho] (Hok & Hsize & Htop).
  unfold store_color. rewrite (load_Some _ _ _ Hnn Ho). simpl.
  assert (∃ fin,
    (if needs_finalization
     then of_option (stack_set_push (Finalizable_Objects st) (Next_Free_Object st))
     else Ok (Finalizable_Objects st)) = Ok fin) as [fin ->].
  { destruct needs_finalization; [|by eexists].
    destruct (stack_set_push_spec (Finalizable_Objects st) (Next_Free_Object st)
                Hok Hsize Htop) as (fin & -> & _). by eexists. }
  simpl. rewrite (load_Some _ _ (set_color o (current_color st)) Hnn)
    by apply lookup_insert_eq.
  simpl. by eexists.
Qed.

Lemma dll_rep_head_cell h d x l :
  dll_rep h d (x :: l) → head d = x ∧ x ≠ NULL ∧ is_Some (h !! x).
Proof.
  intros (_ & (Hx & (o & Ho & _) & _) & Hhd & _). split; [done|].
  split; [done|by eexists].
Qed.


End GCFacts.

(** ** Claims about the root stack *)

Module RootStackClaims.
Import StackSet StackSetFacts MoreExamples.

(** On a non-empty root stack (of at most 2^31 entries, so that the [int]
    scan index holds [top - 1]), [pop_root(&r)] succeeds whenever [&r]
    occurs in the stack and ends the process exactly when it is absent. *)
Lemma pop_root_nonempty (roots : stack_set) (root : Z) :
  stack_ok roots → 0 < top roots ≤ 2 ^ 31 →
  (root ∈ live roots →
     ∃ l1 l2 roots',
       live roots = l1 ++ root :: l2 ∧ (root ∉ l2)
       ∧ pop_root roots root = Ok roots'
       ∧ live roots' = l1 ++ l2
       ∧ top roots' = top roots - 1
       ∧ (l2 = [] → objs roots' = objs roots : Prop))
  ∧ (root ∉ live roots → pop_root roots root = Exit 2)
  ∧ ((∃ code, pop_root roots root = Exit code) ↔ root ∉ live roots).
Proof.
  intros Hok Htop.
  assert (root ∈ live roots →
     ∃ l1 l2 roots',
       live roots = l1 ++ root :: l2 ∧ (root ∉ l2)
       ∧ pop_root roots root = Ok roots'
       ∧ live roots' = l1 ++ l2
       ∧ top roots' = top roots - 1
       ∧ (l2 = [] → objs roots' = objs roots : Prop)) as Hpresent.
  { intros Hin.
    destruct (split_last_occurrence _ _ Hin) as (l1 & l2 & Hlive & Hnin).
    destruct (stack_set_pop_present roots root l1 l2)
      as (roots' & Hpop & Hlive' & Htop' & _); [done|lia|done|done|].
    exists l1, l2, roots'. unfold pop_root. rewrite Hpop.
    repeat split; try done.
    intros ->. revert Hpop. unfold stack_set_pop.
    destruct (aget (objs roots) (wrap_long (top roots - 1))) as [x|] eqn:Heqo;
      [|done].
    simpl. destruct (decide (x ≠ root)) as [Hx|Hx]; [|by intros [= <-]].
    exfalso.
    destruct (live_split roots Hok) as [Hobjs Hlen].
    revert Heqo. rewrite wrap_long_id by lia. rewrite Hlive in Hobjs, Hlen.
    rewrite length_app in Hlen. simpl in Hlen.
    replace (top roots - 1) with (Z.of_nat (length l1)) by lia.
    rewrite aget_nat, Hobjs, <- app_assoc, lookup_app_r, Nat.sub_diag by lia.
    simpl. by intros [= ->]. }
  assert (root ∉ live roots → pop_root roots root = Exit 2) as Habsent.
  { intros Hnin.
    destruct (stack_set_pop_absent roots root Hok Htop Hnin) as [ss' Hpop].
    unfold pop_root. by rewrite Hpop. }
  split; [done|]. split; [done|]. split.
  - intros [code Hexit] Hin.
    destruct (Hpresent Hin) as (? & ? & ? & _ & _ & Hpop & _). congruence.
  - intros Hnin. exists 2. by apply Habsent.
Qed.

(** On an empty stack the first test of [stack_set_pop] reads
    [objs[--top]], the slot before the array: nothing guards it. *)
Lemma stack_set_pop_empty (ss : stack_set) (value : Z) :
  top ss = 0 → stack_set_pop ss value = None.
Proof.
  intros Htop. unfold stack_set_pop. rewrite Htop.
  rewrite wrap_long_id by lia. unfold aget.
  by rewrite decide_False by lia.
Qed.

(** C9: for every root stack of at most 2^31 entries (the scan index is
    an [int]).  On a non-empty stack [pop_root(&r)] succeeds whenever
    [&r] occurs in the stack: exactly one occurrence (the topmost) is
    removed, the height drops by one, and when [&r] is on top the array
    is left as it is (fast path); it ends the process (with code 2)
    exactly when [&r] is absent.  On the empty stack [&r] is absent, but
    the process is not ended: the fast-path test reads the slot before
    the array, which no check precedes. *)
Theorem pop_root_present_absent_or_empty (roots : stack_set) (root : Z) :
  stack_ok roots → top roots ≤ 2 ^ 31 →
  (0 < top roots →
     (root ∈ live roots →
        ∃ l1 l2 roots',
          live roots = l1 ++ root :: l2 ∧ (root ∉ l2)
          ∧ pop_root roots root = Ok roots'
          ∧ live roots' = l1 ++ l2
          ∧ top roots' = top roots - 1
          ∧ (l2 = [] → objs roots' = objs roots : Prop))
     ∧ (root ∉ live roots → pop_root roots root = Exit 2)
     ∧ ((∃ code, pop_root roots root = Exit code) ↔ root ∉ live roots))
  ∧ (top roots = 0 →
       (root ∉ live roots)
       ∧ stack_set_pop roots root = None
       ∧ pop_root roots root = Undefined
       ∧ ∀ code, pop_root roots root ≠ Exit code).
Proof.
  intros Hok Htop. split.
  - intros Hpos. apply pop_root_nonempty; [done|lia].
  - intros Hempty.
    pose proof (stack_set_pop_empty roots root Hempty) as Hpop.
    split.
    { unfold live. rewrite Hempty. simpl. apply not_elem_of_nil. }
    split; [done|]. unfold pop_root. rewrite Hpop. by split.
Qed.

(** C10: when the popped value is in the stack but not on top, the pop
    succeeds and the other entries keep their relative order: the slots
    below the removed one are untouched and every entry above it has moved
    down by exactly one slot, so the stack is the old one with that
    occurrence deleted. *)
Theorem stack_set_pop_out_of_order_keeps_order (ss : stack_set) (value : Z) :
  stack_ok ss → top ss ≤ 2 ^ 31 →
  value ∈ live ss → last (live ss) ≠ Some value →
  ∃ l1 l2 ss',
    live ss = l1 ++ value :: l2 ∧ (value ∉ l2) ∧ l2 ≠ []
    ∧ stack_set_pop ss value = Some (true, ss')
    ∧ live ss' = l1 ++ l2
    ∧ top ss' = top ss - 1
    ∧ (∀ i, (i < length l1)%nat → live ss' !! i = live ss !! i)
    ∧ (∀ i, (length l1 ≤ i)%nat → live ss' !! i = live ss !! S i).
Proof.
  intros Hok Htop Hin Hlast.
  destruct (split_last_occurrence _ _ Hin) as (l1 & l2 & Hlive & Hnin).
  destruct (stack_set_pop_present ss value l1 l2)
    as (ss' & Hpop & Hlive' & Htop' & _); [done..|].
  exists l1, l2, ss'. rewrite Hlive', Hlive.
  repeat split; try done.
  - intros ->. apply Hlast. rewrite Hlive. apply last_snoc.
  - intros i Hi. by rewrite !lookup_app_l by done.
  - intros i Hi. rewrite !lookup_app_r by lia.
    by replace (S i - length l1)%nat with (S (i - length l1)) by lia.
Qed.

(** A root stack holding four addresses in a six-slot array. *)
Definition example_roots : stack_set :=
  {| objs := [11; 22; 33; 44; 0; 0]; top := 4; size := 6 |}.

Lemma example_roots_ok : stack_ok example_roots.
Proof. unfold stack_ok. simpl. lia. Defined.

Lemma example_no_roots_ok : stack_ok example_no_roots.
Proof. unfold stack_ok. simpl. lia. Defined.

(** Popping from the stack [gc_init] made does not end the process. *)
Example example_pop_root_empty :
  (11 ∉ live example_no_roots)
  ∧ pop_root example_no_roots 11 = Undefined.
Proof. split; [apply not_elem_of_nil|reflexivity]. Qed.

Lemma pop_root_present_absent_or_empty_witness :
  ((0 < top example_roots →
     (22 ∈ live example_roots →
        ∃ l1 l2 roots',
          live example_roots = l1 ++ 22 :: l2 ∧ (22 ∉ l2)
          ∧ pop_root example_roots 22 = Ok roots'
          ∧ live roots' = l1 ++ l2
          ∧ top roots' = top example_roots - 1
          ∧ (l2 = [] → objs roots' = objs example_roots : Prop))
     ∧ (22 ∉ live example_roots → pop_root example_roots 22 = Exit 2)
     ∧ ((∃ code, pop_root example_roots 22 = Exit code)
        ↔ 22 ∉ live example_roots))
   ∧ (top example_roots = 0 →
        (22 ∉ live example_roots)
        ∧ stack_set_pop example_roots 22 = None
        ∧ pop_root example_roots 22 = Undefined
        ∧ ∀ code, pop_root example_roots 22 ≠ Exit code))
  ∧ ((0 < top example_no_roots →
     (11 ∈ live example_no_roots →
        ∃ l1 l2 roots',
          live example_no_roots = l1 ++ 11 :: l2 ∧ (11 ∉ l2)
          ∧ pop_root example_no_roots 11 = Ok roots'
          ∧ live roots' = l1 ++ l2
          ∧ top roots' = top example_no_roots - 1
          ∧ (l2 = [] → objs roots' = objs example_no_roots : Prop))
     ∧ (11 ∉ live example_no_roots → pop_root example_no_roots 11 = Exit 2)
     ∧ ((∃ code, pop_root example_no_roots 11 = Exit code)
        ↔ 11 ∉ live example_no_roots))
   ∧ (top example_no_roots = 0 →
        (11 ∉ live example_no_roots)
        ∧ stack_set_pop example_no_roots 11 = None
        ∧ pop_root example_no_roots 11 = Undefined
        ∧ ∀ code, pop_root example_no_roots 11 ≠ Exit code)).
Proof.
  split.
  - apply (pop_root_present_absent_or_empty example_roots 22
             example_roots_ok).
    simpl. lia.
  - apply (pop_root_present_absent_or_empty example_no_roots 11
             example_no_roots_ok).
    simpl. lia.
Defined.

Lemma stack_set_pop_out_of_order_keeps_order_witness :
  ∃ l1 l2 ss',
    live example_roots = l1 ++ 22 :: l2 ∧ (22 ∉ l2) ∧ l2 ≠ []
    ∧ stack_set_pop example_roots 22 = Some (true, ss')
    ∧ live ss' = l1 ++ l2
    ∧ top ss' = top example_roots - 1
    ∧ (∀ i, (i < length l1)%nat → live ss' !! i = live example_roots !! i)
    ∧ (∀ i, (length l1 ≤ i)%nat → live ss' !! i = live example_roots !! S i).
Proof.
  apply (stack_set_pop_out_of_order_keeps_order example_roots 22
           example_roots_ok).
  - simpl. lia.
  - vm_compute. apply list_elem_of_In. simpl. tauto.
  - vm_compute. discriminate.
Defined.

End RootStackClaims.

(** ** Claims about the collector *)

Module CollectorClaims.
Import StackSet GC GCInv GCFacts GCExample.

Ltac by_compute :=
  match goal with |- ?P => apply (bool_decide_unpack P); vm_compute; exact I end.

Lemma example_reachable x : reachable example_gc x → x ∈ [1; 2; 3].
Proof.
  unfold reachable. induction 1 as [r Hr Hnn|x o f _ IH Ho Hf].
  - change (r ∈ [1]) in Hr. apply list_elem_of_singleton in Hr as ->. by left.
  - simpl in Ho. rewrite !elem_of_cons, elem_of_nil in IH.
    destruct IH as [->|[->|[->|[]]]]; vm_compute in Ho; injection Ho as <-;
      simpl in Hf; revert Hf; rewrite ?elem_of_cons, ?elem_of_nil; tauto.
Qed.

Lemma example_gc_ok : gc_ok example_gc [4; 5] [1; 2; 3].
Proof.
  split.
  - split; [by_compute|].
    split; [|by vm_compute].
    simpl. repeat split; try done; eexists; (split; [by vm_compute|done]).
  - split; [by_compute|].
    split; [|by vm_compute].
    simpl. repeat split; try done; eexists; (split; [by vm_compute|done]).
  - by_compute.
  - simpl. lia.
  - unfold stack_ok. simpl. unfold INT_MAX. lia.
  - intros a Ha. change (a ∈ [100]) in Ha.
    apply list_elem_of_singleton in Ha as ->.
    by eexists.
  - intros x Hx. apply example_reachable in Hx. split; [simpl; revert Hx; rewrite ?elem_of_cons, ?elem_of_nil; tauto|].
    rewrite !elem_of_cons, elem_of_nil in Hx.
    destruct Hx as [->|[->|[->|[]]]]; eexists; (split; [by vm_compute|]);
      (split; [by split|by vm_compute]).
  - split; [|by_compute].
    unfold stack_fits, stack_ok. simpl. lia.
  - intros x Hx. change (x ∈ [3; 4]) in Hx.
    rewrite !elem_of_cons, elem_of_nil in Hx.
    destruct Hx as [->|[->|[]]]; (split; [done|]); eexists;
      (split; [by vm_compute|]); (split; [done|by vm_compute]).
  - unfold stack_fits, stack_ok. simpl. lia.
Qed.

Example example_collect :
  (λ r, (r.1, Old_Heap_Objects r.2, finalize_calls r.2,
         live (Finalizable_Objects r.2), current_color r.2))
    <$> baker_collect 5 example_gc
  = Some (2, {| head := 3; tail := 1; num_objects := 3 |}, [4], [3], 4).
Proof. vm_compute. reflexivity. Qed.

(** C3: from a well-formed state, [baker_collect] returns; afterwards
    every object reachable from a root through the scanned fields is on
    the Old list and carries [current_color - 1] (as a [char]), the free
    pointer [Next_Free_Object] is the head of the Active list, and the
    returned value is the Active list's object count. *)
Theorem baker_collect_reachable_on_old (fuel : nat) (st : gc_state)
    (A O : list Z) :
  gc_ok st A O → (length (A ++ O) ≤ fuel)%nat →
  ∃ num_free st',
    baker_collect fuel st = Some (num_free, st')
    ∧ (∀ x, reachable st' x →
         on_list (heap st') (Old_Heap_Objects st') x
         ∧ color_of st' x = Some (wrap_char (current_color st' - 1)))
    ∧ Next_Free_Object st' = head (Active_Heap_Objects st')
    ∧ num_free = num_objects (Active_Heap_Objects st')
    ∧ ∃ A', dll_rep (heap st') (Active_Heap_Objects st') A'
            ∧ num_free = Z.of_nat (length A').
Proof.
  intros Hok Hfuel.
  destruct (baker_collect_spec fuel st A O Hok Hfuel) as (st' & A' & O' & Hrun & Hp).
  exists (num_objects (Active_Heap_Objects st')), st'. split; [done|].
  pose proof (cp_ok _ _ _ _ _ _ Hp) as Hok'.
  split; [|split; [apply (cp_next_free _ _ _ _ _ _ Hp)|split; [done|]]].
  - intros x Hx. apply (reachable_collect _ _ _ _ _ _ _ Hp) in Hx.
    apply (cp_old _ _ _ _ _ _ Hp) in Hx. split.
    + exists O'. split; [apply Hok'|done].
    + rewrite (cp_color_old _ _ _ _ _ _ Hp x Hx), (cp_color _ _ _ _ _ _ Hp).
      by rewrite wrap_char_mark_pred.
  - exists A'. split; [apply Hok'|]. apply (ok_active _ _ _ Hok').
Qed.

(** C5: two collections in a row, with nothing allocated in between:
    the second one leaves the same cells on the Old list (their color
    advanced by two) and returns the same free count as the first. *)
Theorem baker_collect_twice_same_old (fuel : nat) (st : gc_state)
    (A O : list Z) :
  gc_ok st A O → (length (A ++ O) ≤ fuel)%nat →
  ∃ n1 st1 n2 st2,
    baker_collect fuel st = Some (n1, st1)
    ∧ baker_collect fuel st1 = Some (n2, st2)
    ∧ (∀ x, on_list (heap st2) (Old_Heap_Objects st2) x
            ↔ on_list (heap st1) (Old_Heap_Objects st1) x)
    ∧ (∀ x, on_list (heap st1) (Old_Heap_Objects st1) x →
            color_of st2 x = ((λ c, wrap_char (c + 2)) <$> color_of st1 x))
    ∧ n2 = n1.
Proof.
  intros Hok Hfuel.
  destruct (baker_collect_spec fuel st A O Hok Hfuel)
    as (st1 & A1 & O1 & Hrun1 & Hp1).
  pose proof (cp_ok _ _ _ _ _ _ Hp1) as Hok1.
  destruct (baker_collect_spec fuel st1 A1 O1 Hok1)
    as (st2 & A2 & O2 & Hrun2 & Hp2).
  { rewrite (cp_perm _ _ _ _ _ _ Hp1). done. }
  pose proof (cp_ok _ _ _ _ _ _ Hp2) as Hok2.
  exists (num_objects (Active_Heap_Objects st1)), st1,
         (num_objects (Active_Heap_Objects st2)), st2.
  split; [done|]. split; [done|].
  assert (∀ x, x ∈ O2 ↔ x ∈ O1) as Hsame.
  { intros x. rewrite (cp_old _ _ _ _ _ _ Hp2), (cp_old _ _ _ _ _ _ Hp1).
    apply (reachable_collect _ _ _ _ _ _ _ Hp1). }
  split; [|split].
  - intros x. rewrite (on_list_iff _ _ O2), (on_list_iff _ _ O1);
      [done|apply Hok1|apply Hok2].
  - intros x Hx. apply (on_list_iff _ _ O1) in Hx; [|apply Hok1].
    rewrite (cp_color_old _ _ _ _ _ _ Hp2 x) by (by apply Hsame).
    rewrite (cp_color_old _ _ _ _ _ _ Hp1 x Hx). simpl.
    by rewrite (cp_color _ _ _ _ _ _ Hp1), wrap_char_two.
  - destruct (ok_active _ _ _ Hok1) as (_ & _ & _ & _ & ->).
    destruct (ok_active _ _ _ Hok2) as (_ & _ & _ & _ & ->).
    assert (O2 ≡ₚ O1) as HpO.
    { apply NoDup_Permutation; [apply Hok2|apply Hok1|done]. }
    pose proof (cp_perm _ _ _ _ _ _ Hp2) as Hperm.
    apply Permutation_length in Hperm, HpO.
    rewrite !length_app in Hperm. lia.
Qed.

(** C7: of the objects on the Finalizable stack, those that do not carry
    the mark color after the mark phase (the unreached ones) get exactly
    one call of [finalize_object] and are on neither finalizable stack
    afterwards; those that carry it (the reached ones) get no call and are
    exactly once on the new Finalizable stack. *)
Theorem baker_collect_finalizes_unreached (fuel : nat) (st : gc_state)
    (A O : list Z) :
  gc_ok st A O → (length (A ++ O) ≤ fuel)%nat →
  ∃ num_free st' calls,
    baker_collect fuel st = Some (num_free, st')
    ∧ finalize_calls st' = finalize_calls st ++ calls
    ∧ ∀ x, x ∈ live (Finalizable_Objects st) →
        (color_of st' x ≠ Some (wrap_char (current_color st + 1)) →
           ¬ reachable st x
           ∧ count_occ Z.eq_dec calls x = 1%nat
           ∧ (x ∉ live (Finalizable_Objects st'))
           ∧ (x ∉ live (Finalizable_Objects_Next st')))
        ∧ (color_of st' x = Some (wrap_char (current_color st + 1)) →
           reachable st x
           ∧ count_occ Z.eq_dec calls x = 0%nat
           ∧ count_occ Z.eq_dec (live (Finalizable_Objects st')) x = 1%nat
           ∧ (x ∉ live (Finalizable_Objects_Next st'))).
Proof.
  intros Hok Hfuel.
  destruct (baker_collect_spec fuel st A O Hok Hfuel) as (st' & A' & O' & Hrun & Hp).
  eexists _, st', _. split; [done|]. split; [apply (cp_calls _ _ _ _ _ _ Hp)|].
  intros x Hx.
  destruct (ok_fin _ _ _ Hok) as [_ Hnd].
  destruct (ok_fin_cells _ _ _ Hok x Hx) as (_ & o & Ho & _ & Hcol).
  rewrite (cp_fin _ _ _ _ _ _ Hp), (cp_fin_next _ _ _ _ _ _ Hp).
  rewrite !count_occ_filter_NoDup by done.
  split.
  - intros Hc.
    assert (x ∉ O') as HxO
      by (intros Hin; by apply Hc, (cp_color_old _ _ _ _ _ _ Hp)).
    split; [by rewrite <- (cp_old _ _ _ _ _ _ Hp)|].
    rewrite decide_True by done. split; [done|]. split.
    + intros [Hin _]%list_elem_of_filter. done.
    + apply not_elem_of_nil.
  - intros Hc.
    assert (x ∈ O') as HxO.
    { destruct (decide (x ∈ O')) as [|Hn]; [done|exfalso].
      rewrite (cp_color_rest _ _ _ _ _ _ Hp x Hn) in Hc.
      unfold color_of in Hc. rewrite Ho in Hc. simpl in Hc. congruence. }
    split; [by rewrite <- (cp_old _ _ _ _ _ _ Hp)|].
    rewrite decide_False by (intros H; by apply H).
    rewrite decide_True by done. split; [done|]. split; [done|].
    apply not_elem_of_nil.
Qed.

Lemma baker_collect_reachable_on_old_witness :
  ∃ num_free st',
    baker_collect 5 example_gc = Some (num_free, st')
    ∧ (∀ x, reachable st' x →
         on_list (heap st') (Old_Heap_Objects st') x
         ∧ color_of st' x = Some (wrap_char (current_color st' - 1)))
    ∧ Next_Free_Object st' = head (Active_Heap_Objects st')
    ∧ num_free = num_objects (Active_Heap_Objects st')
    ∧ ∃ A', dll_rep (heap st') (Active_Heap_Objects st') A'
            ∧ num_free = Z.of_nat (length A').
Proof.
  apply (baker_collect_reachable_on_old 5 example_gc [4; 5] [1; 2; 3]
           example_gc_ok).
  simpl. lia.
Defined.


Lemma baker_collect_twice_same_old_witness :
  ∃ n1 st1 n2 st2,
    baker_collect 5 example_gc = Some (n1, st1)
    ∧ baker_collect 5 st1 = Some (n2, st2)
    ∧ (∀ x, on_list (heap st2) (Old_Heap_Objects st2) x
            ↔ on_list (heap st1) (Old_Heap_Objects st1) x)
    ∧ (∀ x, on_list (heap st1) (Old_Heap_Objects st1) x →
            color_of st2 x = ((λ c, wrap_char (c + 2)) <$> color_of st1 x))
    ∧ n2 = n1.
Proof.
  apply (baker_collect_twice_same_old 5 example_gc [4; 5] [1; 2; 3]
           example_gc_ok).
  simpl. lia.
Defined.

Lemma baker_collect_finalizes_unreached_witness :
  ∃ num_free st' calls,
    baker_collect 5 example_gc = Some (num_free, st')
    ∧ finalize_calls st' = finalize_calls example_gc ++ calls
    ∧ ∀ x, x ∈ live (Finalizable_Objects example_gc) →
        (color_of st' x ≠ Some (wrap_char (current_color example_gc + 1)) →
           ¬ reachable example_gc x
           ∧ count_occ Z.eq_dec calls x = 1%nat
           ∧ (x ∉ live (Finalizable_Objects st'))
           ∧ (x ∉ live (Finalizable_Objects_Next st')))
        ∧ (color_of st' x = Some (wrap_char (current_color example_gc + 1)) →
           reachable example_gc x
           ∧ count_occ Z.eq_dec calls x = 0%nat
           ∧ count_occ Z.eq_dec (live (Finalizable_Objects st')) x = 1%nat
           ∧ (x ∉ live (Finalizable_Objects_Next st'))).
Proof.
  apply (baker_collect_finalizes_unreached 5 example_gc [4; 5] [1; 2; 3]
           example_gc_ok).
  simpl. lia.
Defined.

Lemma example_full_ok : gc_ok example_full [4; 5] [1; 2; 3].
Proof. destruct example_gc_ok. by split. Qed.

(** On the example the collection frees two cells, 1000 / 2 exceeds 2, and
    the heap grows by 1000 cells; the next extension will be 3000. *)
Example example_alloc_extends :
  (λ r, (r.1, num_objects (Active_Heap_Objects r.2),
         Next_Heap_Extension r.2, Next_Free_Object r.2))
    <$> (match alloc_object 5 false example_full with
         | Ok r => Some r
         | _ => None
         end)
  = Some (6, 1002, 3000, 7).
Proof. vm_compute. reflexivity. Qed.

Example example_alloc_fatal :
  alloc_object 5 false example_headless = Exit 2.
Proof. vm_compute. reflexivity. Qed.

End CollectorClaims.

(** ** The interpreter: evaluation and frame lemmas *)

Module VMFacts.
Import GC VM VMInv.

Section VMMonad.
Variable rt : runtime.

Lemma bind_ok {A B} (m : M A) (k : A → M B) st a st' :
  m st = Ok (a, st') → bind m k st = k a st'.
Proof. intros H. unfold bind. by rewrite H. Qed.

Lemma gets_bind {A B} (f : vm → A) (k : A → M B) st :
  bind (gets f) k st = k (f st) st.
Proof. done. Qed.

Lemma modify_bind {B} (f : vm → vm) (k : unit → M B) st :
  bind (modify f) k st = k tt (f st).
Proof. done. Qed.

Lemma ret_bind {A B} (a : A) (k : A → M B) st : bind (ret a) k st = k a st.
Proof. done. Qed.

Lemma bind_inv {A B} (m : M A) (k : A → M B) st b st2 :
  bind m k st = Ok (b, st2) → ∃ a st1, m st = Ok (a, st1) ∧ k a st1 = Ok (b, st2).
Proof.
  unfold bind. destruct (m st) as [[a st1]| |]; [|done..]. intros H. by exists a, st1.
Qed.

Lemma deref_ok st p o :
  p ≠ NULL → objects st !! p = Some o → deref p st = Ok (o, st).
Proof. intros Hp Ho. unfold deref. rewrite decide_False by done. by rewrite Ho. Qed.

Lemma deref_inv st p o st' :
  deref p st = Ok (o, st') → st' = st ∧ p ≠ NULL ∧ objects st !! p = Some o.
Proof.
  unfold deref. destruct (decide (p = NULL)); [done|].
  destruct (objects st !! p) as [o'|]; [|done]. simpl. by intros [= -> ->].
Qed.

Lemma VARRAY_ok st p l :
  p ≠ NULL → objects st !! p = Some (VECTOR l) → VARRAY p st = Ok (l, st).
Proof. intros Hp Ho. unfold VARRAY. by rewrite (bind_ok _ _ _ _ _ (deref_ok _ _ _ Hp Ho)). Qed.

Lemma VARRAY_inv st p l st' :
  VARRAY p st = Ok (l, st') →
  st' = st ∧ p ≠ NULL ∧ objects st !! p = Some (VECTOR l).
Proof.
  unfold VARRAY. intros (o & st1 & Hd & Hk)%bind_inv.
  apply deref_inv in Hd as (-> & Hp & Ho).
  destruct o; try done. unfold ret in Hk. by injection Hk as -> ->.
Qed.

Lemma assign_ok st p o o' :
  p ≠ NULL → objects st !! p = Some o →
  assign p o' st = Ok (tt, set_objects st (<[p := o']> (objects st))).
Proof.
  intros Hp Ho. unfold assign.
  by rewrite (bind_ok _ _ _ _ _ (deref_ok _ _ _ Hp Ho)).
Qed.

Lemma vector_ref_ok st p l i v :
  p ≠ NULL → objects st !! p = Some (VECTOR l) → aget l i = Some v →
  vector_ref p i st = Ok (v, st).
Proof.
  intros Hp Ho Hv. unfold vector_ref.
  rewrite (bind_ok _ _ _ _ _ (VARRAY_ok _ _ _ Hp Ho)). unfold lift. by rewrite Hv.
Qed.

Lemma vector_set_ok st p l i v :
  p ≠ NULL → objects st !! p = Some (VECTOR l) →
  0 ≤ i < Z.of_nat (length l) →
  vector_set p i v st
  = Ok (tt, set_objects st (<[p := VECTOR (<[Z.to_nat i := v]> l)]> (objects st))).
Proof.
  intros Hp Ho Hi. unfold vector_set.
  rewrite (bind_ok _ _ _ _ _ (VARRAY_ok _ _ _ Hp Ho)).
  unfold aset. rewrite decide_True by done.
  unfold lift, bind. by rewrite (assign_ok _ _ _ _ Hp Ho).
Qed.

(** [VPOP] on a stack that holds at least one value. *)
Lemma VPOP_ok st l v :
  stack st ≠ NULL → objects st !! stack st = Some (VECTOR l) →
  0 < stack_top st ≤ Z.of_nat (length l) → stack_top st ≤ 2 ^ 62 →
  l !! Z.to_nat (stack_top st - 1) = Some v →
  VPOP rt st
  = Ok (v, set_stack_top
             (set_objects st
                (<[stack st := VECTOR (<[Z.to_nat (stack_top st - 1)
                                          := the_empty_list rt]> l)]>
                   (objects st)))
             (stack_top st - 1)).
Proof.
  intros Hs Ho Ht Hmax Hv. unfold VPOP, gets, vector_pop, bind.
  rewrite (vector_ref_ok _ _ l _ v Hs Ho) by (unfold aget; by rewrite decide_True by lia).
  rewrite (vector_set_ok _ _ l _ _ Hs Ho) by lia.
  unfold ret, modify. simpl. by rewrite wrap_long_id by lia.
Qed.

Lemma VPOP_inv st v st' :
  VPOP rt st = Ok (v, st') →
  ∃ l, stack st ≠ NULL ∧ objects st !! stack st = Some (VECTOR l)
       ∧ 0 < stack_top st ≤ Z.of_nat (length l)
       ∧ l !! Z.to_nat (stack_top st - 1) = Some v
       ∧ st' = set_stack_top
                 (set_objects st
                    (<[stack st := VECTOR (<[Z.to_nat (stack_top st - 1)
                                              := the_empty_list rt]> l)]>
                       (objects st)))
                 (wrap_long (stack_top st - 1)).
Proof.
  unfold VPOP. unfold gets at 1 2. unfold bind at 1 2.
  intros (old & st1 & Hpop & Hk)%bind_inv.
  unfold bind, modify, ret in Hk. injection Hk as <- <-.
  unfold vector_pop in Hpop.
  apply bind_inv in Hpop as (old' & st2 & Href & Hk).
  apply bind_inv in Hk as ([] & st3 & Hset & Hk).
  unfold ret in Hk. injection Hk as -> ->.
  unfold vector_ref in Href.
  apply bind_inv in Href as (l & st4 & Harr & Hk).
  apply VARRAY_inv in Harr as (-> & Hs & Ho).
  unfold lift in Hk. destruct (aget l (stack_top st - 1)) as [v'|] eqn:Hget; [|done].
  injection Hk as -> <-.
  unfold aget in Hget. destruct (decide (0 ≤ stack_top st - 1)); [|done].
  pose proof (lookup_lt_Some _ _ _ Hget) as Hlt.
  exists l. split; [done|]. split; [done|]. split; [lia|]. split; [done|].
  rewrite (vector_set_ok _ _ l _ _ Hs Ho) in Hset by lia.
  by injection Hset as <-.
Qed.


Lemma LONG_inv st p k st' :
  LONG p st = Ok (k, st') → st' = st ∧ objects st !! p = Some (FIXNUM k).
Proof.
  unfold LONG. intros (o & st1 & Hd & Hk)%bind_inv.
  apply deref_inv in Hd as (-> & Hp & Ho).
  destruct o; try done. unfold ret in Hk. by injection Hk as -> ->.
Qed.

Lemma car_vector_inv st p l a st' :
  objects st !! p = Some (VECTOR l) → car rt p st = Ok (a, st') →
  st' = st ∧ union_car rt (VECTOR l) = Some a.
Proof.
  intros Ho. unfold car. intros (o & st1 & Hd & Hk)%bind_inv.
  apply deref_inv in Hd as (-> & Hp & Ho'). assert (o = VECTOR l) as -> by congruence.
  unfold lift in Hk. destruct (union_car rt (VECTOR l)); [|done].
  by injection Hk as -> ->.
Qed.

End VMMonad.

Ltac vm_simpl :=
  repeat (first [rewrite gets_bind | rewrite modify_bind | rewrite ret_bind];
          cbv beta).

Section VMErrors.
Variable rt : runtime.
Import StackSet.

(** With the three pins of [vm_execute] on top of the root stack,
    [VM_RETURN] unpins them through the fast path and returns. *)
Lemma VM_RETURN_ok (obj : Z) (st : vm) (l : list Z) :
  stack_ok (roots st) → top (roots st) ≤ 2 ^ 31 →
  live (roots st) = l ++ [addr_fn rt; addr_env rt; addr_top rt] →
  ∃ r', VM_RETURN rt obj st = Ok (Return obj, set_roots st r') ∧ live r' = l.
Proof.
  intros Hok Htop Hlive. unfold VM_RETURN.
  destruct (StackSetFacts.stack_set_pop_present (roots st) (addr_top rt)
              (l ++ [addr_fn rt; addr_env rt]) [])
    as (r1 & Hp1 & Hl1 & Ht1 & _ & Hok1); [done|done| |apply not_elem_of_nil|].
  { by rewrite Hlive, <- app_assoc. }
  rewrite app_nil_r in Hl1.
  destruct (StackSetFacts.stack_set_pop_present r1 (addr_env rt)
              (l ++ [addr_fn rt]) [])
    as (r2 & Hp2 & Hl2 & Ht2 & _ & Hok2); [done|lia| |apply not_elem_of_nil|].
  { by rewrite Hl1, <- app_assoc. }
  rewrite app_nil_r in Hl2.
  destruct (StackSetFacts.stack_set_pop_present r2 (addr_fn rt) l [])
    as (r3 & Hp3 & Hl3 & Ht3 & _ & Hok3); [done|lia|done|apply not_elem_of_nil|].
  rewrite app_nil_r in Hl3.
  exists r3. split; [|done].
  unfold bind, VM.pop_root, pop_root. rewrite Hp1. simpl. rewrite Hp2. simpl.
  rewrite Hp3. done.
Qed.

Lemma tag_test_ok st p o :
  p ≠ NULL → objects st !! p = Some o →
  is_compiled_proc p st
  = Ok (match o with COMPILED_PROC _ _ => true | _ => false end, st)
  ∧ is_compiled_syntax_proc p st
    = Ok (match o with COMPILED_SYNTAX_PROC _ _ => true | _ => false end, st)
  ∧ is_primitive_proc p st
    = Ok (match o with PRIMITIVE_PROC _ => true | _ => false end, st).
Proof.
  intros Hp Ho. unfold is_compiled_proc, is_compiled_syntax_proc, is_primitive_proc.
  by rewrite !(bind_ok _ _ _ _ _ (deref_ok _ _ _ Hp Ho)).
Qed.

Lemma not_callable_dispatch (st : vm) (n : Z) :
  not_callable st →
  fcallj_dispatch rt n st = VM_ASSERT_failed rt st
  ∧ callj_dispatch rt n st = VM_ASSERT_failed rt st.
Proof.
  intros (Hp & o & Ho & Hkind).
  destruct (tag_test_ok st _ o Hp Ho) as (Hc & Hs & Hpr).
  unfold fcallj_dispatch, callj_dispatch. vm_simpl.
  rewrite !(bind_ok _ _ _ _ _ Hc), !(bind_ok _ _ _ _ _ Hs).
  destruct o; try done; simpl; by rewrite !(bind_ok _ _ _ _ _ Hpr).
Qed.

End VMErrors.

Section VMFrame.
Variable rt : runtime.

Lemma stack_only_refl st : stack_only st st.
Proof. repeat split; try done. intros l Hl. by exists l. Qed.

Lemma stack_only_same st st' :
  env st' = env st → stack st' = stack st → fn st' = fn st →
  globals st' = globals st → objects st' = objects st → stack_only st st'.
Proof.
  intros He Hs Hf Hg Ho. repeat split; try done.
  - intros p _. by rewrite Ho.
  - intros l Hl. exists l. by rewrite Ho.
Qed.

Lemma stack_only_trans st1 st2 st3 :
  stack_only st1 st2 → stack_only st2 st3 → stack_only st1 st3.
Proof.
  intros (He & Hs & Hf & Hg & Ho & Hv) (He' & Hs' & Hf' & Hg' & Ho' & Hv').
  split; [congruence|]. split; [congruence|]. split; [congruence|].
  split; [congruence|]. split.
  - intros p Hp. rewrite Ho' by congruence. by apply Ho.
  - intros l Hl. destruct (Hv l Hl) as [l' Hl']. rewrite <- Hs in Hl'.
    destruct (Hv' l' Hl') as [l'' Hl'']. exists l''. by rewrite <- Hs.
Qed.

Lemma preserves_bind {A B} (m : M A) (k : A → M B) :
  preserves stack_only m → (∀ a, preserves stack_only (k a)) →
  preserves stack_only (bind m k).
Proof.
  intros Hm Hk st b st' (a & st1 & H1 & H2)%bind_inv.
  eapply stack_only_trans; [by eapply Hm|by eapply Hk].
Qed.

Lemma preserves_ret {A} (a : A) : preserves stack_only (ret a).
Proof. intros st b st' [= _ <-]. apply stack_only_refl. Qed.

Lemma preserves_gets {A} (f : vm → A) : preserves stack_only (gets f).
Proof. intros st b st' [= _ <-]. apply stack_only_refl. Qed.

Lemma preserves_lift {A} (o : option A) : preserves stack_only (lift o).
Proof.
  intros st b st'. unfold lift. destruct o; [|done]. intros [= _ <-].
  apply stack_only_refl.
Qed.

Lemma preserves_undefined {A} : preserves stack_only (@undefined A).
Proof. by intros st b st'. Qed.

Lemma preserves_deref p : preserves stack_only (deref p).
Proof. intros st o st' (-> & _)%deref_inv. apply stack_only_refl. Qed.

Lemma preserves_set_top v : preserves stack_only (modify (λ st, set_top st v)).
Proof. intros st b st' [= _ <-]. by apply stack_only_same. Qed.

Lemma preserves_set_stack_top v :
  preserves stack_only (modify (λ st, set_stack_top st v)).
Proof. intros st b st' [= _ <-]. by apply stack_only_same. Qed.

Lemma preserves_push_root a : preserves stack_only (VM.push_root a).
Proof.
  intros st b st'. unfold VM.push_root. vm_simpl.
  intros (r & st1 & Hl & Hk)%bind_inv. unfold lift in Hl.
  destruct (StackSet.push_root (roots st) a); [|done]. injection Hl as <- <-.
  injection Hk as _ <-. by apply stack_only_same.
Qed.

Lemma preserves_pop_root a : preserves stack_only (VM.pop_root a).
Proof.
  intros st b st'. unfold VM.pop_root.
  destruct (StackSet.pop_root (roots st) a); [|done..]. intros [= _ <-].
  by apply stack_only_same.
Qed.

Ltac pres :=
  repeat (first
    [ apply preserves_push_root | apply preserves_pop_root
    | apply preserves_set_top | apply preserves_set_stack_top
    | apply preserves_ret | apply preserves_gets | apply preserves_lift
    | apply preserves_undefined | apply preserves_deref
    | apply preserves_bind
    | match goal with
      | |- preserves _ (match ?o with _ => _ end) => destruct o
      | |- ∀ _, _ => intro
      end ]).

Lemma preserves_car p : preserves stack_only (car rt p).
Proof. unfold car. pres. Qed.
Lemma preserves_cdr p : preserves stack_only (cdr p).
Proof. unfold cdr. pres. Qed.
Lemma preserves_LONG p : preserves stack_only (LONG p).
Proof. unfold LONG. pres. Qed.
Lemma preserves_ARG1 p : preserves stack_only (ARG1 rt p).
Proof. unfold ARG1. pres. Qed.
Lemma preserves_is_meta p : preserves stack_only (is_meta p).
Proof. unfold is_meta. pres. Qed.
Lemma preserves_METAPROC p : preserves stack_only (METAPROC p).
Proof. unfold METAPROC. pres. Qed.

Lemma preserves_unwrap_meta : preserves stack_only unwrap_meta.
Proof.
  unfold unwrap_meta. pres.
Qed.

(** A write to the stack vector. *)
Lemma stack_only_write st l' :
  (∃ l, objects st !! stack st = Some (VECTOR l)) →
  stack_only st (set_objects st (<[stack st := VECTOR l']> (objects st))).
Proof.
  intros [l Hl]. repeat split; try done; simpl.
  - intros p Hp. by rewrite lookup_insert_ne.
  - intros _ _. rewrite lookup_insert_eq. by eexists.
Qed.

Lemma preserves_VPOP : preserves stack_only (VPOP rt).
Proof.
  intros st v st' (l & Hs & Ho & Ht & Hv & ->)%VPOP_inv.
  eapply stack_only_trans; [apply stack_only_write; by eexists|].
  by apply stack_only_same.
Qed.

Lemma preserves_VPOP_top : preserves stack_only (VPOP_top rt).
Proof. unfold VPOP_top. apply preserves_bind; [apply preserves_VPOP|pres]. Qed.

Lemma assign_inv st p o u st' :
  assign p o st = Ok (u, st') →
  is_Some (objects st !! p) ∧ st' = set_objects st (<[p := o]> (objects st)).
Proof.
  unfold assign. intros (o0 & st1 & Hd & Hk)%bind_inv.
  apply deref_inv in Hd as (-> & Hp & Ho). injection Hk as _ <-.
  split; [by eexists|done].
Qed.

Lemma vector_set_inv st p i v u st' :
  vector_set p i v st = Ok (u, st') →
  ∃ l, objects st !! p = Some (VECTOR l) ∧ 0 ≤ i < Z.of_nat (length l)
       ∧ st' = set_objects st (<[p := VECTOR (<[Z.to_nat i := v]> l)]> (objects st)).
Proof.
  unfold vector_set. intros (l & st1 & Ha & Hk)%bind_inv.
  apply VARRAY_inv in Ha as (-> & Hp & Ho).
  apply bind_inv in Hk as (l' & st2 & Hl & Hk).
  unfold lift, aset in Hl. destruct (decide (0 ≤ i < Z.of_nat (length l))); [|done].
  injection Hl as <- <-. apply assign_inv in Hk as [_ ->]. by exists l.
Qed.

Lemma preserves_VPUSH obj : preserves stack_only (VPUSH rt obj).
Proof.
  intros st u st'. unfold VPUSH. vm_simpl.
  intros ([] & st1 & Hpush & Hk)%bind_inv. injection Hk as _ <-.
  eapply stack_only_trans; [|by apply stack_only_same].
  unfold vector_push in Hpush.
  apply bind_inv in Hpush as (size & st2 & Hsz & Hk).
  unfold VSIZE in Hsz. apply bind_inv in Hsz as (l & st3 & Ha & Hr).
  apply VARRAY_inv in Ha as (-> & Hp & Ho). injection Hr as <- <-.
  apply bind_inv in Hk as ([] & st2 & Hgrow & Hset).
  assert (stack_only st st2 ∧ stack st2 = stack st) as [H2 Hs2].
  { destruct (decide (stack_top st = Z.of_nat (length l))).
    - apply bind_inv in Hgrow as (l0 & st4 & Ha & Hk).
      apply VARRAY_inv in Ha as (-> & _ & _).
      apply assign_inv in Hk as [_ ->]. split; [|done].
      apply stack_only_write. by eexists.
    - injection Hgrow as <-. split; [apply stack_only_refl|done]. }
  eapply stack_only_trans; [exact H2|].
  apply vector_set_inv in Hset as (l2 & Ho2 & _ & ->).
  rewrite <- Hs2. apply stack_only_write. rewrite Hs2. by eexists.
Qed.

Lemma preserves_splat fuel n : preserves stack_only (splat rt fuel n).
Proof.
  revert n. induction fuel as [|fuel IH]; intros n; simpl.
  - pres.
  - apply preserves_bind; [pres|]. intros ?.
    match goal with |- context [is_the_empty_list rt ?t] => destruct (is_the_empty_list rt t) end; [pres|].
    apply preserves_bind; [pres|]. intros ?.
    apply preserves_bind; [apply preserves_VPUSH|]. intros ?.
    apply preserves_bind; [pres|]. intros ?.
    apply preserves_bind; [pres|]. intros ?. apply IH.
Qed.

Lemma preserves_fcallj_callee instr :
  preserves stack_only (fcallj_callee rt instr).
Proof.
  unfold fcallj_callee.
  apply preserves_bind; [apply preserves_VPOP_top|]. intros ?. pres.
Qed.

Lemma preserves_callj_callee fuel instr :
  preserves stack_only (callj_callee rt fuel instr).
Proof.
  unfold callj_callee.
  apply preserves_bind; [apply preserves_VPOP_top|]. intros ?.
  apply preserves_bind; [pres|]. intros ?.
  apply preserves_bind; [pres|]. intros ?.
  apply preserves_bind; [pres|]. intros ?.
  match goal with |- context [decide (?n = -1)] => destruct (decide (n = -1)) end; [|pres].
  apply preserves_bind; [pres|]. intros ?.
  apply preserves_bind; [pres|]. intros ?.
  apply preserves_bind; [apply preserves_VPOP_top|]. intros ?.
  apply preserves_bind; [apply preserves_splat|]. intros ?. pres.
Qed.

End VMFrame.

Section VMCalls.
Variable rt : runtime.

Lemma compiled_tests st t ce :
  compiled st t ce →
  ∃ c cs, is_compiled_proc t st = Ok (c, st)
          ∧ is_compiled_syntax_proc t st = Ok (cs, st)
          ∧ c || cs = true
          ∧ CENV t st = Ok (ce, st).
Proof.
  intros (Hp & b & [Ho|Ho]);
    destruct (tag_test_ok st t _ Hp Ho) as (Hc & Hs & _);
    eexists _, _; (split; [exact Hc|]); (split; [exact Hs|]); (split; [done|]);
    unfold CENV; by rewrite (bind_ok _ _ _ _ _ (deref_ok _ _ _ Hp Ho)).
Qed.

Lemma callj_dispatch_compiled st n ce frame rest :
  compiled st (top st) ce → env st ≠ NULL →
  objects st !! env st = Some (PAIR frame rest) →
  callj_dispatch rt n st
  = Ok (Enter,
        set_objects (set_n_args (set_pc (set_fn st (top st)) 0) n)
          (<[env st := PAIR frame ce]> (objects st))).
Proof.
  intros Hc He Ho.
  destruct (compiled_tests st _ ce Hc) as (c & cs & Hic & Hics & Hor & Hcenv).
  unfold callj_dispatch. vm_simpl.
  rewrite (bind_ok _ _ _ _ _ Hic), (bind_ok _ _ _ _ _ Hics), Hor. vm_simpl.
  assert (CENV (top st) (set_n_args (set_pc (set_fn st (top st)) 0) n)
          = Ok (ce, set_n_args (set_pc (set_fn st (top st)) 0) n)) as Hcenv'.
  { revert Hcenv. unfold CENV, bind, deref. simpl.
    destruct (decide (top st = NULL)); [done|].
    destruct (objects st !! top st) as [o|]; [|done]. simpl.
    destruct o; try done; unfold ret; by intros [= ->]. }
  simpl. rewrite (bind_ok _ _ _ _ _ Hcenv'). vm_simpl. simpl.
  unfold set_cdr.
  set (st1 := set_n_args (set_pc (set_fn st (top st)) 0) n).
  assert (objects st1 !! env st = Some (PAIR frame rest)) as Ho1 by done.
  unfold bind at 1.
  rewrite (bind_ok _ _ _ _ _ (deref_ok st1 _ _ He Ho1)).
  by rewrite (assign_ok st1 _ _ _ He Ho1).
Qed.

Lemma push_pop_root (r : StackSet.stack_set) (a : Z) :
  roots_fit r →
  ∃ r1 r2, StackSet.push_root r a = Some r1
           ∧ StackSet.pop_root r1 a = Ok r2
           ∧ StackSet.live r2 = StackSet.live r.
Proof.
  intros (Hok & Hsize & Htop).
  destruct (GCFacts.stack_set_push_spec r a Hok Hsize)
    as (r1 & Hpush & Hlive1 & Htop1 & Hok1 & _); [lia|].
  destruct (StackSetFacts.stack_set_pop_present r1 a (StackSet.live r) [])
    as (r2 & Hpop & Hlive2 & _); [done|lia|done|apply not_elem_of_nil|].
  exists r1, r2. split; [done|]. unfold StackSet.pop_root. rewrite Hpop.
  split; [done|]. by rewrite Hlive2, app_nil_r.
Qed.

Lemma alloc_fresh (o : payload) (st : vm) :
  ∃ p, alloc o st = Ok (p, set_objects st (<[p := o]> (objects st)))
       ∧ p ≠ NULL ∧ objects st !! p = None.
Proof.
  eexists. split; [done|].
  pose proof (is_fresh ({[NULL]} ∪ dom (objects st))) as Hf.
  apply not_elem_of_union in Hf as [Hn Hd].
  split; [by apply not_elem_of_singleton in Hn|].
  by apply not_elem_of_dom in Hd.
Qed.

Lemma push_root_ok (st : vm) (a : Z) r1 :
  StackSet.push_root (roots st) a = Some r1 →
  VM.push_root a st = Ok (tt, set_roots st r1).
Proof. intros H. unfold VM.push_root. vm_simpl. unfold lift. by rewrite H. Qed.

Lemma pop_root_ok (st : vm) (a : Z) r2 :
  StackSet.pop_root (roots st) a = Ok r2 →
  VM.pop_root a st = Ok (tt, set_roots st r2).
Proof. intros H. unfold VM.pop_root. by rewrite H. Qed.

Lemma fcallj_dispatch_compiled st n ce :
  compiled st (top st) ce → roots_fit (roots st) → -1 ≤ n < 2 ^ 62 →
  ∃ st' newframe,
    fcallj_dispatch rt n st = Ok (Enter, st')
    ∧ newframe ≠ NULL ∧ objects st !! newframe = None
    ∧ env st' ≠ NULL ∧ objects st !! env st' = None ∧ env st' ≠ newframe
    ∧ objects st'
      = <[env st' := PAIR newframe ce]>
          (<[newframe := VECTOR (replicate (Z.to_nat (n + 1)) (the_empty_list rt))]>
             (objects st))
    ∧ fn st' = top st ∧ pc st' = 0 ∧ n_args st' = n ∧ stack st' = stack st
    ∧ StackSet.live (roots st') = StackSet.live (roots st).
Proof.
  intros Hc Hfit Hn.
  destruct (compiled_tests st _ ce Hc) as (c & cs & Hic & Hics & Hor & Hcenv).
  unfold fcallj_dispatch. vm_simpl.
  rewrite (bind_ok _ _ _ _ _ Hic), (bind_ok _ _ _ _ _ Hics), Hor. vm_simpl.
  set (st1 := set_n_args (set_pc (set_fn st (top st)) 0) n).
  assert (CENV (top st) st1 = Ok (ce, st1)) as Hcenv'.
  { revert Hcenv. unfold CENV, bind, deref. simpl.
    destruct (decide (top st = NULL)); [done|].
    destruct (objects st !! top st) as [o|]; [|done]. simpl.
    destruct o; try done; unfold ret; by intros [= ->]. }
  simpl fn. rewrite (bind_ok _ _ _ _ _ Hcenv'). vm_simpl.
  simpl n_args. rewrite wrap_long_id by lia.
  set (st2 := set_env st1 ce).
  destruct (alloc_fresh (VECTOR (replicate (Z.to_nat (n + 1)) (the_empty_list rt)))
              st2) as (newframe & Hal1 & Hnn1 & Hfr1).
  unfold make_vector. rewrite (bind_ok _ _ _ _ _ Hal1).
  destruct (push_pop_root (roots st) (addr_local rt) Hfit)
    as (r1 & r2 & Hpush & Hpop & Hlive).
  set (st3 := set_objects st2 _).
  rewrite (bind_ok _ _ _ _ _ (push_root_ok st3 _ _ Hpush)).
  vm_simpl. simpl env.
  set (st4 := set_roots st3 r1).
  destruct (alloc_fresh (PAIR newframe ce) st4) as (e' & Hal2 & Hnn2 & Hfr2).
  unfold cons. rewrite (bind_ok _ _ _ _ _ Hal2). vm_simpl.
  set (st5 := set_env _ e').
  assert (StackSet.pop_root (roots st5) (addr_local rt) = Ok r2) as Hpop' by done.
  rewrite (bind_ok _ _ _ _ _ (pop_root_ok st5 _ _ Hpop')). unfold ret.
  eexists _, newframe. split; [done|]. simpl.
  simpl in Hfr2, Hfr1.
  split; [done|]. split; [done|]. split; [done|].
  assert (e' ≠ newframe) as Hne.
  { intros ->. by rewrite lookup_insert_eq in Hfr2. }
  split; [by rewrite lookup_insert_ne in Hfr2|].
  repeat split; done.
Qed.

End VMCalls.

Lemma VPOP_top_stack rt st u st' :
  VPOP_top rt st = Ok (u, st') →
  ∃ l, objects st !! stack st = Some (VECTOR l).
Proof.
  unfold VPOP_top. intros H. apply bind_inv in H as (v & st1 & Hpop & _).
  apply VPOP_inv in Hpop as (l & _ & Hl & _). by exists l.
Qed.

Lemma callj_callee_stack rt fuel instr st n st' :
  callj_callee rt fuel instr st = Ok (n, st') →
  ∃ l, objects st !! stack st = Some (VECTOR l).
Proof.
  unfold callj_callee. intros H. apply bind_inv in H as (u & st1 & Hpop & _).
  by apply VPOP_top_stack in Hpop.
Qed.

Lemma fcallj_callee_stack rt instr st n st' :
  fcallj_callee rt instr st = Ok (n, st') →
  ∃ l, objects st !! stack st = Some (VECTOR l).
Proof.
  unfold fcallj_callee. intros H. apply bind_inv in H as (u & st1 & Hpop & _).
  by apply VPOP_top_stack in Hpop.
Qed.

Section VMArgs.
Variable rt : runtime.

Lemma is_list_mono h h' p xs :
  (∀ q a d, h !! q = Some (PAIR a d) → h' !! q = Some (PAIR a d)) →
  is_list rt h p xs → is_list rt h' p xs.
Proof.
  intros Hk. revert p. induction xs as [|x xs IH]; intros p; simpl; [done|].
  intros (Hp & d & Hd & Hl). split; [done|]. exists d. split; [by apply Hk|].
  by apply IH.
Qed.

Lemma replicate_snoc_cons {A} (k : nat) (e : A) (l : list A) :
  replicate k e ++ e :: l = replicate (S k) e ++ l.
Proof. induction k as [|k IH]; simpl; [done|]. by rewrite IH. Qed.

Lemma VPOP_top_holds st below xs x above :
  stack_holds st below (xs ++ [x]) above →
  ∃ st', VPOP_top rt st = Ok (tt, st')
    ∧ top st' = x
    ∧ stack_holds st' below xs (the_empty_list rt :: above)
    ∧ stack st' = stack st ∧ env st' = env st
    ∧ ∀ q, q ≠ stack st → objects st' !! q = objects st !! q.
Proof.
  intros (Hs & Ho & Ht & Hlen).
  assert (length (below ++ xs ++ [x]) = S (length (below ++ xs))) as Hl.
  { rewrite !length_app. simpl. lia. }
  assert (Z.to_nat (stack_top st - 1) = length (below ++ xs)) as Hidx.
  { rewrite Ht, Hl. lia. }
  assert ((below ++ (xs ++ [x]) ++ above) !! length (below ++ xs) = Some x) as Hx.
  { rewrite <- !app_assoc. rewrite (app_assoc below xs).
    rewrite lookup_app_r by lia. by rewrite Nat.sub_diag. }
  eexists. unfold VPOP_top.
  rewrite (bind_ok _ _ _ _ _ (VPOP_ok rt st _ x Hs Ho ltac:(rewrite Ht, Hl, !length_app in *; simpl in *; lia) ltac:(rewrite Ht, !length_app in *; simpl in *; lia) ltac:(by rewrite Hidx))).
  vm_simpl. split; [done|]. split; [done|]. simpl.
  split; [|split; [done|split; [done|]]].
  - split; [done|]. simpl. rewrite lookup_insert_eq. split; [|split].
    + f_equal. f_equal. rewrite Hidx. rewrite <- !app_assoc.
      rewrite (app_assoc below xs). rewrite insert_app_r_alt by lia.
      rewrite Nat.sub_diag. simpl. by rewrite <- app_assoc.
    + rewrite Ht, Hl. lia.
    + rewrite !length_app in *. simpl in *. lia.
  - intros q Hq. by rewrite lookup_insert_ne.
Qed.

Lemma pop_into_spec (V : Z) :
  ∀ (xs : list Z) (st : vm) (below above fv : list Z),
    stack_holds st below xs above →
    V ≠ NULL → V ≠ stack st →
    objects st !! V = Some (VECTOR fv) →
    (length xs ≤ length fv)%nat →
    ∃ st', pop_into rt (length xs) V st = Ok (tt, st')
      ∧ stack_holds st' below [] (replicate (length xs) (the_empty_list rt) ++ above)
      ∧ stack st' = stack st ∧ env st' = env st
      ∧ objects st' !! V = Some (VECTOR (xs ++ drop (length xs) fv))
      ∧ ∀ q, q ≠ stack st → q ≠ V → objects st' !! q = objects st !! q.
Proof.
  induction xs as [|x ys IH] using rev_ind; intros st below above fv Hst HV HVs Ho Hlen.
  - exists st. simpl. rewrite drop_0. done.
  - rewrite length_app in *. simpl in Hlen. rewrite Nat.add_1_r. simpl pop_into.
    destruct (VPOP_top_holds st below ys x above Hst)
      as (st1 & Hpop & Htop & Hst1 & Hs1 & He1 & Hobj1).
    rewrite (bind_ok _ _ _ _ _ Hpop). vm_simpl. rewrite Htop.
    assert (objects st1 !! V = Some (VECTOR fv)) as Ho1 by (by rewrite Hobj1).
    pose proof (vector_set_ok st1 V fv (Z.of_nat (length ys)) x HV Ho1
                  ltac:(lia)) as Hset.
    rewrite (bind_ok _ _ _ _ _ Hset). rewrite Nat2Z.id.
    set (st2 := set_objects st1 _).
    destruct (IH st2 below (the_empty_list rt :: above) (<[length ys := x]> fv))
      as (st' & Hrun & Hst' & Hs' & He' & Ho' & Hobj').
    + destruct Hst1 as (? & Hv & ? & ?). split; [done|]. split; [|done].
      simpl. rewrite lookup_insert_ne by congruence. done.
    + done.
    + simpl. congruence.
    + simpl. by rewrite lookup_insert_eq.
    + rewrite length_insert. lia.
    + exists st'. split; [done|]. split; [by rewrite <- replicate_snoc_cons|].
      split; [by rewrite Hs'|]. split; [by rewrite He'|]. split.
      * rewrite Ho'. f_equal. f_equal. rewrite <- app_assoc. f_equal.
        rewrite (drop_S _ x (length ys)) by (apply list_lookup_insert_eq; lia).
        rewrite drop_insert_lt by lia. done.
      * intros q Hq1 Hq2. rewrite Hobj' by (simpl; congruence).
        simpl. rewrite lookup_insert_ne by done. by apply Hobj1.
Qed.

Lemma excess_loop_spec (V idx : Z) :
  ∀ (xs : list Z) (st : vm) (below above fv : list Z) (p : Z) (rest : list Z)
    (ii : Z),
    stack_holds st below xs above →
    V ≠ NULL → V ≠ stack st →
    objects st !! V = Some (VECTOR fv) →
    0 ≤ idx < Z.of_nat (length fv) →
    fv !! Z.to_nat idx = Some p →
    is_list rt (objects st) p rest →
    objects st !! the_empty_list rt = Some THE_EMPTY_LIST →
    ii + Z.of_nat (length xs) ≤ INT_MAX →
    ∃ st' p',
      for_int_M (length xs) ii
        (λ _, VPOP_top rt ;;;
              t <~ gets top ;;
              r <~ vector_ref V idx ;;
              c <~ cons t r ;;
              vector_set V idx c) st = Ok (tt, st')
      ∧ stack_holds st' below [] (replicate (length xs) (the_empty_list rt) ++ above)
      ∧ stack st' = stack st ∧ env st' = env st
      ∧ objects st' !! V = Some (VECTOR (<[Z.to_nat idx := p']> fv))
      ∧ is_list rt (objects st') p' (xs ++ rest)
      ∧ ∀ q, is_Some (objects st !! q) → q ≠ stack st → q ≠ V →
             objects st' !! q = objects st !! q.
Proof.
  induction xs as [|x ys IH] using rev_ind;
    intros st below above fv p rest ii Hst HV HVs Ho Hidx Hp Hl Hnil Hii.
  - exists st, p. simpl. rewrite list_insert_id by done. done.
  - rewrite length_app in *. simpl in Hii. rewrite Nat.add_1_r.
    simpl for_int_M.
    destruct (VPOP_top_holds st below ys x above Hst)
      as (st1 & Hpop & Htop & Hst1 & Hs1 & He1 & Hobj1).
    unfold bind at 1. rewrite (bind_ok _ _ _ _ _ Hpop). vm_simpl. rewrite Htop.
    assert (objects st1 !! V = Some (VECTOR fv)) as Ho1 by (by rewrite Hobj1).
    assert (aget fv idx = Some p) as Hget.
    { unfold aget. by rewrite decide_True by lia. }
    rewrite (bind_ok _ _ _ _ _ (vector_ref_ok st1 V fv idx p HV Ho1 Hget)).
    destruct (alloc_fresh (PAIR x p) st1) as (c & Hal & Hcn & Hcf).
    unfold cons. rewrite (bind_ok _ _ _ _ _ Hal).
    set (st2 := set_objects st1 _).
    assert (c ≠ V) as HcV by congruence.
    assert (c ≠ stack st) as Hcs.
    { destruct Hst1 as (_ & Hv & _). congruence. }
    assert (objects st2 !! V = Some (VECTOR fv)) as Ho2.
    { simpl. by rewrite lookup_insert_ne. }
    rewrite (vector_set_ok st2 V fv idx c HV Ho2 Hidx).
    set (st3 := set_objects st2 _).
    rewrite decide_True by (unfold INT_MAX in *; lia).
    assert (objects st1 !! the_empty_list rt = Some THE_EMPTY_LIST) as Hnil1.
    { rewrite Hobj1; [done|]. destruct Hst as (_ & Hv & _). congruence. }
    assert (∀ q a d, objects st !! q = Some (PAIR a d) →
                     objects st3 !! q = Some (PAIR a d)) as Hkeep.
    { intros q a d Hq.
      assert (q ≠ stack st) as Hqs.
      { destruct Hst as (_ & Hv & _). congruence. }
      assert (objects st1 !! q = Some (PAIR a d)) as Hq1 by (by rewrite Hobj1).
      simpl. rewrite lookup_insert_ne by congruence.
      rewrite lookup_insert_ne by congruence. done. }
    destruct (IH st3 below (the_empty_list rt :: above)
                (<[Z.to_nat idx := c]> fv) c (x :: rest) (ii + 1))
      as (st' & p' & Hrun & Hst' & Hs' & He' & Ho' & Hl' & Hobj').
    + destruct Hst1 as (? & Hv & ? & ?). split; [done|]. split; [|done].
      simpl. rewrite lookup_insert_ne by congruence.
      rewrite lookup_insert_ne by congruence. done.
    + done.
    + simpl. congruence.
    + simpl. by rewrite lookup_insert_eq.
    + rewrite length_insert. lia.
    + apply list_lookup_insert_eq. lia.
    + simpl. split; [congruence|]. exists p. split.
      * rewrite lookup_insert_ne by done. by rewrite lookup_insert_eq.
      * by apply (is_list_mono (objects st)).
    + simpl. rewrite lookup_insert_ne by congruence.
      rewrite lookup_insert_ne by congruence. done.
    + lia.
    + exists st', p'. split; [done|].
      split; [by rewrite <- replicate_snoc_cons|].
      split; [by rewrite Hs'|]. split; [by rewrite He'|].
      split; [by rewrite Ho', list_insert_insert_eq|].
      split; [by rewrite <- app_assoc|].
      intros q Hq Hq1 Hq2.
      assert (c ≠ q) as Hcq.
      { intros ->. rewrite Hobj1 in Hcf by done. destruct Hq; congruence. }
      rewrite Hobj'.
      * simpl. rewrite !lookup_insert_ne by done. by apply Hobj1.
      * simpl. rewrite !lookup_insert_ne by done. by rewrite Hobj1.
      * simpl. congruence.
      * done.
Qed.

Lemma car_ok st p a d :
  p ≠ NULL → objects st !! p = Some (PAIR a d) → car rt p st = Ok (a, st).
Proof.
  intros Hp Ho. unfold car. by rewrite (bind_ok _ _ _ _ _ (deref_ok _ _ _ Hp Ho)).
Qed.

Lemma VSIZE_ok st p l :
  p ≠ NULL → objects st !! p = Some (VECTOR l) →
  VSIZE p st = Ok (Z.of_nat (length l), st).
Proof.
  intros Hp Ho. unfold VSIZE. by rewrite (bind_ok _ _ _ _ _ (VARRAY_ok _ _ _ Hp Ho)).
Qed.

Lemma set_car_ok st p a d v :
  p ≠ NULL → objects st !! p = Some (PAIR a d) →
  set_car p v st = Ok (tt, set_objects st (<[p := PAIR v d]> (objects st))).
Proof.
  intros Hp Ho. unfold set_car.
  rewrite (bind_ok _ _ _ _ _ (deref_ok _ _ _ Hp Ho)). by apply (assign_ok _ _ _ _ Hp Ho).
Qed.

Lemma stack_holds_split st below xs above (k : nat) :
  stack_holds st below xs above ↔
  stack_holds st (below ++ take k xs) (drop k xs) above.
Proof.
  unfold stack_holds.
  assert ((below ++ take k xs) ++ drop k xs = below ++ xs) as E1.
  { by rewrite <- app_assoc, take_drop. }
  assert ((below ++ take k xs) ++ drop k xs ++ above = below ++ xs ++ above) as E2.
  { by rewrite app_assoc, E1, <- app_assoc. }
  by rewrite E1, E2.
Qed.

(** The frame that [args] and [argsdot] fill: the top frame when it has
    [size] slots, a new vector of [size] slots otherwise. *)
Lemma resize_frame_spec st (size frame rest : Z) (f : list Z) :
  0 < size →
  env st ≠ NULL → objects st !! env st = Some (PAIR frame rest) →
  frame ≠ NULL → objects st !! frame = Some (VECTOR f) →
  ∀ s, objects st !! stack st = Some (VECTOR s) → frame ≠ stack st →
  ∃ st1 vector fv,
    (if decide (size > Z.of_nat (length f)) then
       v <~ make_vector (the_empty_list rt) size ;; set_car (env st) v
     else ret tt) st = Ok (tt, st1)
    ∧ stack st1 = stack st ∧ stack_top st1 = stack_top st ∧ env st1 = env st
    ∧ objects st1 !! env st = Some (PAIR vector rest)
    ∧ vector ≠ NULL ∧ vector ≠ stack st
    ∧ objects st1 !! vector = Some (VECTOR fv)
    ∧ size ≤ Z.of_nat (length fv)
    ∧ ∀ q, is_Some (objects st !! q) → q ≠ env st →
           objects st1 !! q = objects st !! q.
Proof.
  intros Hsz He Hpair Hf Hvec s Hs Hfs.
  destruct (decide (size > Z.of_nat (length f))) as [Hgt|Hle].
  - destruct (alloc_fresh (VECTOR (replicate (Z.to_nat size) (the_empty_list rt)))
                st) as (v & Hal & Hvn & Hvf).
    unfold make_vector. rewrite (bind_ok _ _ _ _ _ Hal).
    set (st0 := set_objects st _).
    assert (v ≠ env st) as Hve by congruence.
    assert (objects st0 !! env st = Some (PAIR frame rest)) as Hpair0.
    { simpl. by rewrite lookup_insert_ne. }
    rewrite (set_car_ok st0 _ _ _ v He Hpair0).
    eexists _, v, _. split; [done|]. simpl.
    split; [done|]. split; [done|]. split; [done|].
    split; [by rewrite lookup_insert_eq|].
    split; [done|]. split; [congruence|].
    split; [by rewrite lookup_insert_ne, lookup_insert_eq|].
    split; [rewrite length_replicate; lia|].
    intros q [o Hq] Hqe. rewrite lookup_insert_ne by done.
    rewrite lookup_insert_ne by congruence. done.
  - exists st, frame, f. split; [done|]. repeat split; try done; lia.
Qed.

End VMArgs.

Lemma LONG_ok st p k :
  p ≠ NULL → objects st !! p = Some (FIXNUM k) → LONG p st = Ok (k, st).
Proof.
  intros Hp Ho. unfold LONG. by rewrite (bind_ok _ _ _ _ _ (deref_ok _ _ _ Hp Ho)).
Qed.

Lemma LONG_inv_strong st p k st' :
  LONG p st = Ok (k, st') →
  st' = st ∧ p ≠ NULL ∧ objects st !! p = Some (FIXNUM k).
Proof.
  unfold LONG. intros (o & st1 & Hd & Hk)%bind_inv.
  apply deref_inv in Hd as (-> & Hp & Ho).
  destruct o; try done. unfold ret in Hk. by injection Hk as -> ->.
Qed.

Lemma car_vector_ok rt st p l a :
  p ≠ NULL → objects st !! p = Some (VECTOR l) →
  union_car rt (VECTOR l) = Some a → car rt p st = Ok (a, st).
Proof.
  intros Hp Ho Hu. unfold car. rewrite (bind_ok _ _ _ _ _ (deref_ok _ _ _ Hp Ho)).
  unfold lift. by rewrite Hu.
Qed.

End VMFacts.

(** ** The pins of [vm_execute] along a run *)

Module PinFacts.
Import GC VM VMInv VMFacts.

Lemma keeps_ret {A} (a : A) : keeps_roots (ret a).
Proof. by intros st b st' [= _ <-]. Qed.

Lemma keeps_gets {A} (f : vm → A) : keeps_roots (gets f).
Proof. by intros st b st' [= _ <-]. Qed.

Lemma keeps_lift {A} (o : option A) : keeps_roots (lift o).
Proof. intros st b st'. unfold lift. destruct o; [|done]. by intros [= _ <-]. Qed.

Lemma keeps_undefined {A} : keeps_roots (@undefined A).
Proof. by intros st b st'. Qed.

Lemma keeps_modify (f : vm → vm) :
  (∀ st, roots (f st) = roots st) → keeps_roots (modify f).
Proof. intros Hf st b st' [= _ <-]. apply Hf. Qed.

Lemma keeps_bind {A B} (m : M A) (k : A → M B) :
  keeps_roots m → (∀ a, keeps_roots (k a)) → keeps_roots (bind m k).
Proof.
  intros Hm Hk st b st' (a & st1 & H1 & H2)%bind_inv.
  rewrite (Hk a _ _ _ H2). by apply (Hm _ _ _ H1).
Qed.

Lemma keeps_deref p : keeps_roots (deref p).
Proof. by intros st o st' (-> & _)%deref_inv. Qed.

Lemma keeps_alloc o : keeps_roots (alloc o).
Proof. by intros st p st' [= _ <-]. Qed.

Lemma keeps_primitive (rt : runtime) f s n t :
  keeps_roots (λ st, match primitive_fn rt f (objects st) s n t with
                     | Some (r, h) => Ok (r, set_objects st h)
                     | None => Undefined
                     end).
Proof.
  intros st r st'. destruct (primitive_fn rt f (objects st) s n t) as [[r' h]|];
    [|done]. by intros [= _ <-].
Qed.

Create HintDb keeps_db.

Ltac keeps :=
  repeat first
    [ progress intros
    | apply keeps_ret | apply keeps_gets | apply keeps_lift
    | apply keeps_undefined | apply keeps_deref | apply keeps_alloc
    | apply keeps_primitive
    | solve [auto with keeps_db]
    | apply keeps_modify; intros; reflexivity
    | match goal with
      | |- keeps_roots (match ?o with _ => _ end) => destruct o
      | |- keeps_roots (let _ := _ in _) => cbv zeta
      end
    | apply keeps_bind ].

Lemma keeps_for_int_M n i body :
  (∀ i, keeps_roots (body i)) → keeps_roots (for_int_M n i body).
Proof.
  intros Hb. revert i. induction n as [|n IH]; intros i; simpl; [keeps|].
  apply keeps_bind; [apply Hb|]. intros _. destruct (decide _); [apply IH|keeps].
Qed.

Lemma keeps_repeat_M n body : keeps_roots body → keeps_roots (repeat_M n body).
Proof.
  intros Hb. induction n as [|n IH]; simpl; [keeps|].
  apply keeps_bind; [apply Hb|]. intros _. apply IH.
Qed.

Lemma keeps_VPOP_top rt : keeps_roots (VPOP_top rt).
Proof. unfold VPOP_top. keeps. Qed.
#[local] Hint Resolve keeps_VPOP_top : keeps_db.

Lemma keeps_vector_set p i v : keeps_roots (vector_set p i v).
Proof. unfold vector_set. keeps. Qed.
#[local] Hint Resolve keeps_vector_set : keeps_db.

Lemma keeps_pop_into rt k v : keeps_roots (pop_into rt k v).
Proof. induction k as [|k IH]; simpl; keeps. Qed.
#[local] Hint Resolve keeps_pop_into : keeps_db.

Lemma keeps_env_walk n e : keeps_roots (env_walk n e).
Proof. revert e. induction n as [|n IH]; intros e; simpl; keeps. Qed.
#[local] Hint Resolve keeps_env_walk : keeps_db.

Lemma keeps_VPUSH rt v : keeps_roots (VPUSH rt v).
Proof. unfold VPUSH. keeps. Qed.
#[local] Hint Resolve keeps_VPUSH : keeps_db.

Lemma keeps_splat rt fuel n : keeps_roots (splat rt fuel n).
Proof.
  revert n. induction fuel as [|fuel IH]; intros n; simpl; keeps.
Qed.
#[local] Hint Resolve keeps_splat : keeps_db.

Lemma keeps_copy_stack n idx v : keeps_roots (copy_stack n idx v).
Proof. revert idx. induction n as [|n IH]; intros idx; simpl; keeps. Qed.
#[local] Hint Resolve keeps_copy_stack : keeps_db.

Lemma keeps_fetch rt : keeps_roots (fetch rt).
Proof. unfold fetch. keeps. Qed.
#[local] Hint Resolve keeps_fetch : keeps_db.

Lemma keeps_fcallj_callee rt instr : keeps_roots (fcallj_callee rt instr).
Proof. unfold fcallj_callee. keeps. Qed.
#[local] Hint Resolve keeps_fcallj_callee : keeps_db.


(** *** The pins across an instruction *)

Lemma hoare_bind {A B} P (m : M A) Q (k : A → M B) R :
  pins_hoare P m Q → (∀ a, pins_hoare (Q a) (k a) R) →
  pins_hoare P (bind m k) R.
Proof.
  intros Hm Hk st b st' (a & st1 & H1 & H2)%bind_inv HP.
  apply (Hk a _ _ _ H2). by apply (Hm _ _ _ H1).
Qed.

Lemma hoare_keep {A} P (m : M A) :
  keeps_roots m → pins_hoare P m (λ _, P).
Proof. intros Hm st a st' Hrun HP. by rewrite (Hm _ _ _ Hrun). Qed.

Lemma stack_set_push_size (ss ss' : StackSet.stack_set) (v : Z) :
  StackSet.stack_ok ss → StackSet.size ss ≤ 2 ^ 61 →
  StackSet.stack_set_push ss v = Some ss' →
  StackSet.size ss'
  = if decide (StackSet.top ss = StackSet.size ss)
    then 2 * StackSet.size ss else StackSet.size ss.
Proof.
  intros Hok Hmax. unfold StackSet.stack_set_push.
  destruct (decide (StackSet.top ss = StackSet.size ss)); simpl.
  - unfold aset. destruct (decide _); [|done]. simpl. intros [= <-]. simpl.
    rewrite wrap_long_id by (destruct Hok; lia). lia.
  - unfold aset. destruct (decide _); [|done]. simpl. by intros [= <-].
Qed.

Lemma hoare_push n l a :
  pins_hoare (pinned (S n) l) (VM.push_root a) (λ _, pinned n (l ++ [a])).
Proof.
  intros st u st'. unfold VM.push_root. vm_simpl.
  intros (r & st1 & Hl & Hk)%bind_inv (Hok & Hlive & Hsize & Htop).
  unfold lift in Hl.
  destruct (StackSet.push_root (roots st) a) as [r1|] eqn:Hpush; [|done].
  injection Hl as <- <-. injection Hk as _ <-.
  unfold StackSet.push_root in Hpush.
  destruct (GCFacts.stack_set_push_spec (roots st) a Hok ltac:(lia)
              ltac:(lia)) as (r' & Hr' & Hlive' & Htop' & Hok' & _).
  pose proof (stack_set_push_size _ _ _ Hok ltac:(lia) Hr') as Hsize'.
  rewrite Hr' in Hpush. injection Hpush as <-. simpl.
  split; [done|]. split; [by rewrite Hlive', Hlive|]. split; [|lia].
  rewrite Hsize'. destruct Hok. destruct (decide _); lia.
Qed.

Lemma hoare_pop n l a :
  pins_hoare (pinned n (l ++ [a])) (VM.pop_root a) (λ _, pinned (S n) l).
Proof.
  intros st u st'. unfold VM.pop_root.
  intros Hrun (Hok & Hlive & Hsize & Htop).
  destruct (StackSetFacts.stack_set_pop_present (roots st) a l [])
    as (r' & Hpop & Hlive' & Htop' & Hsize' & Hok');
    [done|lia|done|apply not_elem_of_nil|].
  unfold StackSet.pop_root in Hrun. rewrite Hpop in Hrun.
  injection Hrun as _ <-. simpl. rewrite app_nil_r in Hlive'.
  split; [done|]. split; [done|]. split; [lia|]. lia.
Qed.

Lemma hoare_ret_same {A} (a : A) P : pins_hoare P (ret a) (λ _, P).
Proof. by intros st b st' [= _ <-]. Qed.

Lemma hoare_ret_Next l : pins_hoare (pinned 2 l) (ret Next) (turn_post l).
Proof. by intros st b st' [= <- <-]. Qed.

Lemma hoare_ret_Enter l : pins_hoare (pinned 2 l) (ret Enter) (turn_post l).
Proof. by intros st b st' [= <- <-]. Qed.

Lemma hoare_VM_RETURN rt P v l : pins_hoare P (VM_RETURN rt v) (turn_post l).
Proof.
  intros st c st'. unfold VM_RETURN.
  intros (? & ? & _ & (? & ? & _ & (? & ? & _ & Hk)%bind_inv)%bind_inv)%bind_inv.
  by injection Hk as <- _.
Qed.

Lemma hoare_undefined {A} P (Q : A → StackSet.stack_set → Prop) :
  pins_hoare P undefined Q.
Proof. by intros st a st'. Qed.

Create HintDb hoare_db.

Ltac hoare :=
  repeat first
    [ progress intros
    | progress cbv beta
    | apply hoare_ret_Next | apply hoare_ret_Enter | apply hoare_ret_same
    | apply hoare_undefined
    | apply hoare_VM_RETURN
    | solve [auto with hoare_db]
    | match goal with
      | |- pins_hoare _ (bind (VM.push_root _) _) _ =>
          eapply hoare_bind; [apply hoare_push|]
      | |- pins_hoare _ (bind (VM.pop_root _) _) _ =>
          eapply hoare_bind; [apply hoare_pop|]
      | |- pins_hoare _ (bind _ _) _ =>
          eapply hoare_bind; [apply hoare_keep; solve [keeps]|]
      | |- pins_hoare _ (bind _ _) _ =>
          eapply hoare_bind; [solve [auto with hoare_db]|]
      | |- pins_hoare _ (match ?o with _ => _ end) _ => destruct o
      | |- pins_hoare _ (let _ := _ in _) _ => cbv zeta
      end ].

Section Instructions.
Variable rt : runtime.
Variable l : list Z.

Lemma hoare_VM_ASSERT_failed P : pins_hoare P (VM_ASSERT_failed rt) (turn_post l).
Proof. apply hoare_VM_RETURN. Qed.

Lemma hoare_RETURN : pins_hoare (pinned 2 l) (RETURN_OPCODE_INSTRUCTIONS rt) (turn_post l).
Proof. unfold RETURN_OPCODE_INSTRUCTIONS. hoare. Qed.

Lemma hoare_args instr : pins_hoare (pinned 2 l) (exec_args rt instr) (turn_post l).
Proof. unfold exec_args, VM_ASSERT_failed. hoare. Qed.

Lemma hoare_argsdot instr : pins_hoare (pinned 2 l) (exec_argsdot rt instr) (turn_post l).
Proof.
  unfold exec_argsdot, VM_ASSERT_failed. hoare.
  all: eapply hoare_bind;
    [apply hoare_keep, keeps_for_int_M; intros; keeps|]; hoare.
Qed.

Lemma hoare_fjump instr : pins_hoare (pinned 2 l) (exec_fjump rt instr) (turn_post l).
Proof. unfold exec_fjump. hoare. Qed.

Lemma hoare_tjump instr : pins_hoare (pinned 2 l) (exec_tjump rt instr) (turn_post l).
Proof. unfold exec_tjump. hoare. Qed.

Lemma hoare_jump instr : pins_hoare (pinned 2 l) (exec_jump rt instr) (turn_post l).
Proof. unfold exec_jump. hoare. Qed.

Lemma hoare_fn instr : pins_hoare (pinned 2 l) (exec_fn rt instr) (turn_post l).
Proof. unfold exec_fn. hoare. Qed.

Lemma hoare_call_primitive pfn n :
  pins_hoare (pinned 2 l) (call_primitive rt pfn n) (turn_post l).
Proof.
  unfold call_primitive. hoare.
  all: eapply hoare_bind;
    [apply hoare_keep, keeps_repeat_M; keeps|]; hoare.
  all: apply hoare_RETURN.
Qed.

Lemma hoare_fcallj instr : pins_hoare (pinned 2 l) (exec_fcallj rt instr) (turn_post l).
Proof.
  unfold exec_fcallj, fcallj_dispatch, VM_ASSERT_failed. hoare.
  all: try apply hoare_call_primitive.
Qed.

Lemma hoare_callj_callee fuel instr :
  pins_hoare (pinned 2 l) (callj_callee rt fuel instr) (λ _, pinned 2 l).
Proof. unfold callj_callee. hoare. Qed.

Lemma hoare_callj fuel instr :
  pins_hoare (pinned 2 l) (exec_callj rt fuel instr) (turn_post l).
Proof.
  unfold exec_callj, callj_dispatch, VM_ASSERT_failed.
  eapply hoare_bind; [apply hoare_callj_callee|]. hoare.
  all: try apply hoare_call_primitive.
Qed.

Lemma hoare_lvar instr : pins_hoare (pinned 2 l) (exec_lvar rt instr) (turn_post l).
Proof. unfold exec_lvar. hoare. Qed.

Lemma hoare_lset instr : pins_hoare (pinned 2 l) (exec_lset rt instr) (turn_post l).
Proof. unfold exec_lset. hoare. Qed.

Lemma hoare_gvar instr : pins_hoare (pinned 2 l) (exec_gvar rt instr) (turn_post l).
Proof. unfold exec_gvar. hoare. Qed.

Lemma hoare_gset instr : pins_hoare (pinned 2 l) (exec_gset rt instr) (turn_post l).
Proof. unfold exec_gset. hoare. Qed.

Lemma hoare_setcc : pins_hoare (pinned 2 l) (exec_setcc rt) (turn_post l).
Proof. unfold exec_setcc. hoare. Qed.

Lemma hoare_cc : pins_hoare (pinned 2 l) (exec_cc rt) (turn_post l).
Proof. unfold exec_cc. hoare. Qed.

Lemma hoare_pop_instr : pins_hoare (pinned 2 l) (exec_pop rt) (turn_post l).
Proof. unfold exec_pop. hoare. Qed.

Lemma hoare_save instr : pins_hoare (pinned 2 l) (exec_save rt instr) (turn_post l).
Proof. unfold exec_save. hoare. Qed.

Lemma hoare_const instr : pins_hoare (pinned 2 l) (exec_const rt instr) (turn_post l).
Proof. unfold exec_const. hoare. Qed.

Lemma hoare_execute fuel instr c :
  pins_hoare (pinned 2 l) (execute rt fuel instr c) (turn_post l).
Proof.
  unfold execute.
  repeat (destruct (decide _);
          [first [apply hoare_args|apply hoare_argsdot|apply hoare_fjump
                 |apply hoare_tjump|apply hoare_jump|apply hoare_fn
                 |apply hoare_fcallj|apply hoare_callj|apply hoare_lvar
                 |apply hoare_lset|apply hoare_gvar|apply hoare_gset
                 |apply hoare_setcc|apply hoare_cc|apply hoare_pop_instr
                 |apply hoare_save|apply hoare_RETURN|apply hoare_const]|]).
  apply hoare_VM_ASSERT_failed.
Qed.

Lemma hoare_vm_begin fuel :
  pins_hoare (pinned 2 l) (vm_begin rt fuel) (turn_post l).
Proof.
  unfold vm_begin. eapply hoare_bind; [apply hoare_keep, keeps_fetch|].
  intros [[instr c]|]; [apply hoare_execute|apply hoare_VM_ASSERT_failed].
Qed.

Lemma hoare_turn fuel entered :
  pins_hoare (pinned 2 l) (turn rt fuel entered) (turn_post l).
Proof.
  destruct entered; [|apply hoare_vm_begin].
  unfold turn, vm_fn_begin. hoare.
  all: first [apply hoare_vm_begin|apply hoare_VM_ASSERT_failed].
Qed.

End Instructions.

End PinFacts.

(** ** Runs of the dispatch loop *)

Module RunFacts.
Import GC VM VMInv VMFacts PinFacts.

Section Run.
Variable rt : runtime.

Lemma reaches_pinned l fuel b st fuel' b' st' :
  reaches rt fuel b st fuel' b' st' →
  pinned 2 l (roots st) → pinned 2 l (roots st').
Proof.
  induction 1 as [|fuel b st st1 fuel' b' st' Hturn _ IH
                  |fuel b st st1 fuel' b' st' Hturn _ IH]; [done|..];
    intros Hp; apply IH; exact (hoare_turn rt l fuel b _ _ _ Hturn Hp).
Qed.

Lemma reaches_run fuel b st fuel' b' st' :
  reaches rt fuel b st fuel' b' st' →
  run rt fuel b st = run rt fuel' b' st'.
Proof.
  induction 1 as [|fuel b st st1 fuel' b' st' Hturn _ IH
                  |fuel b st st1 fuel' b' st' Hturn _ IH]; [done|..];
    simpl; unfold turn in Hturn; by rewrite (bind_ok _ _ _ _ _ Hturn).
Qed.

Lemma vm_enter_pinned l st st0 :
  vm_enter rt st = Ok (tt, st0) → pinned 5 l (roots st) →
  pinned 2 (l ++ [addr_fn rt; addr_env rt; addr_top rt]) (roots st0).
Proof.
  intros Hrun Hp.
  assert (pins_hoare (pinned 5 l) (vm_enter rt)
            (λ _, pinned 2 (((l ++ [addr_fn rt]) ++ [addr_env rt])
                            ++ [addr_top rt]))) as Hh.
  { unfold vm_enter. hoare. apply hoare_push. }
  specialize (Hh _ _ _ Hrun Hp). by rewrite <- !app_assoc in Hh.
Qed.

(** A fetched instruction comes from a compiled procedure. *)
Lemma fetch_compiled st r st1 :
  fetch rt st = Ok (r, st1) →
  ∃ c cs, is_compiled_proc (fn st) st = Ok (c, st)
          ∧ is_compiled_syntax_proc (fn st) st = Ok (cs, st)
          ∧ c || cs = true.
Proof.
  unfold fetch. vm_simpl. intros (b & st2 & Hb & _)%bind_inv.
  unfold BYTECODE in Hb. apply bind_inv in Hb as (o & st3 & Hd & Hk).
  apply deref_inv in Hd as (-> & Hn & Ho).
  unfold is_compiled_proc, is_compiled_syntax_proc.
  rewrite !(bind_ok _ _ _ _ _ (deref_ok _ _ _ Hn Ho)).
  destruct o; try done; by eexists _, _.
Qed.

Lemma turn_fetched fuel entered st r st1 :
  fetch rt st = Ok (r, st1) → turn rt fuel entered st = vm_begin rt fuel st.
Proof.
  intros Hf. destruct entered; [|done]. unfold turn, vm_fn_begin. vm_simpl.
  destruct (fetch_compiled _ _ _ Hf) as (c & cs & Hc & Hcs & Hor).
  rewrite (bind_ok _ _ _ _ _ Hc), (bind_ok _ _ _ _ _ Hcs). by rewrite Hor.
Qed.

Lemma malformed_turn fuel entered st st2 :
  malformed rt fuel entered st st2 →
  turn rt fuel entered st = VM_ASSERT_failed rt st2.
Proof.
  intros Hbad.
  destruct Hbad as [-> (Hn & o & Ho & Hkind)|instr c st1 Hf Hc
    |instr st1 a k Hf Ha Hk Hn|instr st1 a k Hf Ha Hk Hn
    |instr st1 n st2 Hf Hcallee Hnc|instr st1 n st2 Hf Hcallee Hnc].
  { destruct (tag_test_ok st _ o Hn Ho) as (Hc & Hs & _).
    unfold turn, vm_fn_begin. vm_simpl.
    rewrite (bind_ok _ _ _ _ _ Hc), (bind_ok _ _ _ _ _ Hs).
    by destruct o. }
  all: rewrite (turn_fetched _ _ _ _ _ Hf); unfold vm_begin;
    rewrite (bind_ok _ _ _ _ _ Hf).
  - unfold execute, INVALID_BYTECODE, _args_, _argsdot_, _return_, _const_,
      _fn_, _fjump_, _tjump_, _jump_, _fcallj_, _callj_, _lvar_, _save_,
      _gvar_, _lset_, _gset_, _setcc_, _cc_, _pop_ in *.
    repeat (rewrite decide_False by lia). done.
  - unfold execute. rewrite decide_True by done. unfold exec_args.
    rewrite (bind_ok _ _ _ _ _ Ha), (bind_ok _ _ _ _ _ Hk). vm_simpl.
    by rewrite decide_True.
  - unfold execute, _args_, _argsdot_. rewrite decide_False by done.
    rewrite decide_True by done. unfold exec_argsdot.
    rewrite (bind_ok _ _ _ _ _ Ha), (bind_ok _ _ _ _ _ Hk). vm_simpl.
    rewrite decide_True by lia. done.
  - unfold execute, _args_, _argsdot_, _fjump_, _tjump_, _jump_, _fn_, _fcallj_.
    repeat (rewrite decide_False by done). rewrite decide_True by done.
    unfold exec_fcallj. rewrite (bind_ok _ _ _ _ _ Hcallee).
    by apply (not_callable_dispatch rt).
  - unfold execute, _args_, _argsdot_, _fjump_, _tjump_, _jump_, _fn_, _fcallj_,
      _callj_.
    repeat (rewrite decide_False by done). rewrite decide_True by done.
    unfold exec_callj. rewrite (bind_ok _ _ _ _ _ Hcallee).
    by apply (not_callable_dispatch rt).
Qed.

Lemma malformed_pinned l fuel entered st st2 :
  malformed rt fuel entered st st2 →
  pinned 2 l (roots st) → pinned 2 l (roots st2).
Proof.
  intros Hbad Hp.
  destruct Hbad as [_ _|instr c st1 Hf Hc
    |instr st1 a k Hf Ha Hk Hn|instr st1 a k Hf Ha Hk Hn
    |instr st1 n st2 Hf Hcallee Hnc|instr st1 n st2 Hf Hcallee Hnc];
    [done|..]; pose proof (keeps_fetch rt _ _ _ Hf) as Hr;
    try (by rewrite Hr).
  - rewrite (keeps_fcallj_callee rt instr _ _ _ Hcallee). by rewrite Hr.
  - apply (hoare_callj_callee rt l fuel instr _ _ _ Hcallee). by rewrite Hr.
Qed.

(** [pc] at or past the end of the code vector is not caught: with a
    false object that is not nil the assertion passes, and the fetch reads
    [codes[pc]] outside the vector. *)
Lemma pc_past_end_is_not_caught fuel st b e codes :
  fn st ≠ NULL →
  objects st !! fn st = Some (COMPILED_PROC b e) →
  b ≠ NULL → objects st !! b = Some (VECTOR codes) →
  pc st >= Z.of_nat (length codes) →
  false_object rt ≠ NULL →
  vm_begin rt fuel st = Undefined.
Proof.
  intros Hf Hfn Hb Hcodes Hpc Hfalse.
  unfold vm_begin, fetch, BYTECODE, VARRAY, bind, gets, ret.
  rewrite (deref_ok st _ _ Hf Hfn), (deref_ok st _ _ Hb Hcodes).
  rewrite decide_False by tauto.
  unfold lift, aget. destruct (decide (0 ≤ pc st)); [|done].
  rewrite lookup_ge_None_2 by lia. done.
Qed.

End Run.
End RunFacts.

(** ** Claims about the interpreter *)

Module VMClaims.
Import GC VM VMInv VMFacts VMExample MoreExamples PinFacts RunFacts.

Lemma example_pins_ok : StackSet.stack_ok example_pins.
Proof. unfold StackSet.stack_ok. simpl. lia. Defined.

(** C1: [setcc] completes exactly when the two topmost stack slots hold
    [new_stack] and, below it, a fixnum [new_stack_top], and the [car]
    member of the live stack vector can be read.  It pops [new_stack],
    then [new_stack_top], and sets [stack_top] to the fixnum; the new
    live stack is what the [car] member of the old live stack vector (its
    two popped slots cleared) reads as, a value in which the popped
    [new_stack] does not occur.  The live stack is not replaced by the
    popped captured stack. *)
Theorem setcc_takes_car_of_live_stack (rt : runtime) (st : vm) (c : control)
    (st' : vm) :
  stack_top st ≤ 2 ^ 62 →
  exec_setcc rt st = Ok (c, st') ↔
  ∃ l new_stack new_stack_top k s,
    stack st ≠ NULL
    ∧ objects st !! stack st = Some (VECTOR l)
    ∧ 2 ≤ stack_top st ≤ Z.of_nat (length l)
    ∧ l !! Z.to_nat (stack_top st - 1) = Some new_stack
    ∧ l !! Z.to_nat (stack_top st - 2) = Some new_stack_top
    ∧ new_stack_top ≠ NULL
    ∧ objects st !! new_stack_top = Some (FIXNUM k)
    ∧ union_car rt
        (VECTOR (<[Z.to_nat (stack_top st - 2) := the_empty_list rt]>
                   (<[Z.to_nat (stack_top st - 1) := the_empty_list rt]> l)))
      = Some s
    ∧ c = Next
    ∧ st' = {| objects :=
                 <[stack st :=
                     VECTOR (<[Z.to_nat (stack_top st - 2) := the_empty_list rt]>
                               (<[Z.to_nat (stack_top st - 1)
                                  := the_empty_list rt]> l))]> (objects st);
               globals := globals st; roots := roots st; fn := fn st;
               env := env st; top := top st; stack := s; stack_top := k;
               n_args := n_args st; pc := pc st;
               initial_top := initial_top st |}.
Proof.
  intros Hmax. unfold exec_setcc. split.
  - intros (new_stack & st1 & Hpop1 & Hk)%bind_inv.
    apply bind_inv in Hk as (new_stack_top & st2 & Hpop2 & Hk).
    apply (VPOP_inv rt) in Hpop1 as (l & Hs & Ho & Ht & Hv1 & ->).
    apply (VPOP_inv rt) in Hpop2 as (l2 & _ & Ho2 & Ht2 & Hv2 & ->).
    simpl in Ho2, Ht2, Hv2. rewrite lookup_insert_eq in Ho2. injection Ho2 as <-.
    rewrite wrap_long_id in Ht2, Hv2 by lia.
    rewrite length_insert in Ht2.
    replace (stack_top st - 1 - 1) with (stack_top st - 2) in * by lia.
    rewrite list_lookup_insert_ne in Hv2 by lia.
    revert Hk. simpl. rewrite insert_insert_eq.
    rewrite !wrap_long_id by lia.
    replace (stack_top st - 1 - 1) with (stack_top st - 2) by lia.
    unfold gets at 1. unfold bind at 1.
    intros (s' & st3 & Hcar & Hk)%bind_inv.
    apply (car_vector_inv rt _ _ _ _ _ (lookup_insert_eq _ _ _)) in Hcar as [-> Hu].
    simpl in Hu.
    apply bind_inv in Hk as ([] & st4 & Hmod & Hk).
    unfold modify in Hmod. injection Hmod as <-.
    apply bind_inv in Hk as (k & st5 & Hlong & Hk).
    apply LONG_inv_strong in Hlong as (-> & Hnn & Hfix). simpl in Hfix.
    unfold bind, modify, ret in Hk. injection Hk as <- <-.
    exists l, new_stack, new_stack_top, k, s'.
    split; [done|]. split; [done|]. split; [lia|]. split; [done|].
    split; [done|]. split; [done|]. split; [|done].
    destruct (decide (stack st = new_stack_top)) as [Heq|Hne].
    + rewrite <- Heq, lookup_insert_eq in Hfix. done.
    + by rewrite lookup_insert_ne in Hfix.
  - intros (l & new_stack & new_stack_top & k & s & Hs & Ho & Ht & Hv1 & Hv2
            & Hnn & Hfix & Hu & -> & ->).
    rewrite (bind_ok _ _ _ _ _
               (VPOP_ok rt st l new_stack Hs Ho ltac:(lia) Hmax Hv1)).
    set (st1 := set_stack_top _ _).
    assert (objects st1 !! stack st1
            = Some (VECTOR (<[Z.to_nat (stack_top st - 1)
                              := the_empty_list rt]> l))) as Ho1.
    { simpl. by rewrite lookup_insert_eq. }
    assert (stack_top st1 = stack_top st - 1) as Ht1 by done.
    assert (Z.to_nat (stack_top st1 - 1) = Z.to_nat (stack_top st - 2)) as Hi1.
    { rewrite Ht1. f_equal. lia. }
    rewrite (bind_ok _ _ _ _ _
               (VPOP_ok rt st1 _ new_stack_top Hs Ho1
                  ltac:(rewrite Ht1, length_insert; lia) ltac:(rewrite Ht1; lia)
                  ltac:(rewrite Hi1, list_lookup_insert_ne by lia; exact Hv2))).
    vm_simpl. rewrite Hi1. set (st2 := set_stack_top _ _).
    assert (new_stack_top ≠ stack st) as Hne by congruence.
    assert (objects st2 !! stack st2
            = Some (VECTOR (<[Z.to_nat (stack_top st - 2) := the_empty_list rt]>
                              (<[Z.to_nat (stack_top st - 1)
                                 := the_empty_list rt]> l)))) as Ho2.
    { simpl. by rewrite lookup_insert_eq. }
    rewrite (bind_ok _ _ _ _ _ (car_vector_ok rt st2 _ _ s Hs Ho2 Hu)).
    vm_simpl.
    assert (objects (set_stack st2 s) !! new_stack_top = Some (FIXNUM k)) as Hfix2.
    { simpl. rewrite !lookup_insert_ne by done. done. }
    rewrite (bind_ok _ _ _ _ _ (LONG_ok _ _ _ Hnn Hfix2)). vm_simpl.
    unfold ret, st2, st1. cbn [set_stack_top set_stack set_objects objects globals roots fn env top stack stack_top n_args pc initial_top].
    by rewrite insert_insert_eq.
Qed.

Lemma setcc_takes_car_of_live_stack_witness :
  exec_setcc example_rt example_setcc
  = Ok (Next, state_after (exec_setcc example_rt) example_setcc)
  ↔ ∃ l new_stack new_stack_top k s,
      stack example_setcc ≠ NULL
      ∧ objects example_setcc !! stack example_setcc = Some (VECTOR l)
      ∧ 2 ≤ stack_top example_setcc ≤ Z.of_nat (length l)
      ∧ l !! Z.to_nat (stack_top example_setcc - 1) = Some new_stack
      ∧ l !! Z.to_nat (stack_top example_setcc - 2) = Some new_stack_top
      ∧ new_stack_top ≠ NULL
      ∧ objects example_setcc !! new_stack_top = Some (FIXNUM k)
      ∧ union_car example_rt
          (VECTOR (<[Z.to_nat (stack_top example_setcc - 2)
                     := the_empty_list example_rt]>
                     (<[Z.to_nat (stack_top example_setcc - 1)
                        := the_empty_list example_rt]> l)))
        = Some s
      ∧ Next = Next
      ∧ state_after (exec_setcc example_rt) example_setcc
        = {| objects :=
               <[stack example_setcc :=
                   VECTOR (<[Z.to_nat (stack_top example_setcc - 2)
                             := the_empty_list example_rt]>
                             (<[Z.to_nat (stack_top example_setcc - 1)
                                := the_empty_list example_rt]> l))]>
                 (objects example_setcc);
             globals := globals example_setcc; roots := roots example_setcc;
             fn := fn example_setcc; env := env example_setcc;
             top := top example_setcc; stack := s; stack_top := k;
             n_args := n_args example_setcc; pc := pc example_setcc;
             initial_top := initial_top example_setcc |}.
Proof.
  apply (setcc_takes_car_of_live_stack example_rt example_setcc Next
           (state_after (exec_setcc example_rt) example_setcc)).
  simpl. lia.
Defined.

(** On [example_setcc] the live stack becomes the address 99, which is
    neither the popped captured stack 70 nor an object at all. *)
Lemma example_setcc_diverges :
  ∃ st', exec_setcc example_rt example_setcc = Ok (Next, st')
    ∧ stack st' = 99 ∧ stack st' ≠ 70
    ∧ objects st' !! stack st' = None
    ∧ objects st' !! 70 = Some (VECTOR [61; 1; 1; 1])
    ∧ stack_top st' = 1.
Proof.
  exists (state_after (exec_setcc example_rt) example_setcc).
  split; [vm_compute; reflexivity|]. split; [vm_compute; reflexivity|].
  split; [vm_compute; discriminate|]. split; [vm_compute; reflexivity|].
  split; vm_compute; reflexivity.
Qed.

(** C2, as the code has it.  When an execution of [vm_execute] arrives at
    an instruction that fails one of the assertions of the dispatch loop
    (the function register holds no compiled procedure at [vm_fn_begin],
    unknown opcode, argument-count mismatch at [args] or [argsdot], callee
    of [fcallj] or [callj] that is not callable), [vm_execute] takes its
    three pins off the root stack and returns [error_sym] to its caller:
    the process does not exit.  The guard on [pc] is left out: its
    assertion tests the false object and never fails. *)
Theorem malformed_bytecode_returns_error_sym (rt : runtime) (fuel : nat)
    (objects0 : gmap Z payload) (globals0 : gmap Z Z)
    (roots0 : StackSet.stack_set) (fn0 stack0 stack_top0 n_args0 : Z)
    (l : list Z) (st0 : vm) (fuel' : nat) (entered : bool) (st st2 : vm) :
  pinned 5 l roots0 →
  vm_enter rt (vm_start objects0 globals0 roots0 fn0 stack0 stack_top0
                 n_args0) = Ok (tt, st0) →
  reaches rt fuel true st0 (S fuel') entered st →
  malformed rt fuel' entered st st2 →
  ∃ st',
    vm_execute rt fuel objects0 globals0 roots0 fn0 stack0 stack_top0 n_args0
    = Ok (error_sym rt, st')
    ∧ StackSet.live (roots st') = l
    ∧ objects st' = objects st2
    ∧ ∀ code,
        vm_execute rt fuel objects0 globals0 roots0 fn0 stack0 stack_top0
          n_args0 ≠ Exit code.
Proof.
  intros Hroots Henter Hreach Hbad.
  pose proof (vm_enter_pinned rt l _ _ Henter Hroots) as Hp0.
  pose proof (reaches_pinned rt _ _ _ _ _ _ _ Hreach Hp0) as Hp.
  pose proof (malformed_pinned rt _ _ _ _ _ Hbad Hp) as (Hok & Hlive & _ & Htop).
  destruct (VM_RETURN_ok rt (error_sym rt) st2 l Hok ltac:(lia) Hlive)
    as (r' & Hret & Hl).
  assert (vm_execute rt fuel objects0 globals0 roots0 fn0 stack0 stack_top0
            n_args0 = Ok (error_sym rt, set_roots st2 r')) as Hrun.
  { unfold vm_execute. rewrite (bind_ok _ _ _ _ _ Henter).
    rewrite (reaches_run rt _ _ _ _ _ _ Hreach). simpl.
    pose proof (malformed_turn rt _ _ _ _ Hbad) as Hturn.
    unfold turn in Hturn. rewrite (bind_ok _ _ _ _ _
      (eq_trans Hturn Hret)). done. }
  rewrite Hrun. eexists. split; [done|]. split; [done|]. split; [done|]. done.
Qed.

Lemma example_no_pins_fit : pinned 5 [] example_no_pins.
Proof.
  split; [unfold StackSet.stack_ok; simpl; lia|]. split; [done|]. simpl. lia.
Qed.

Lemma example_entry_enters :
  vm_enter example_rt
    (vm_start example_program ∅ example_no_pins 40 10 0 0)
  = Ok (tt, example_entered).
Proof. vm_compute. reflexivity. Qed.

Lemma example_reaches_bad :
  reaches example_rt 2 true example_entered 1 false example_after_const.
Proof.
  apply (reaches_next example_rt 1 true example_entered example_after_const).
  - vm_compute. reflexivity.
  - apply reaches_here.
Qed.

Lemma example_bad_is_malformed :
  malformed example_rt 0 false example_after_const example_at_bad.
Proof.
  apply (bad_opcode example_rt 0 false example_after_const 50
           INVALID_BYTECODE).
  - vm_compute. reflexivity.
  - unfold INVALID_BYTECODE. lia.
Qed.

Lemma malformed_bytecode_returns_error_sym_witness :
  ∃ st',
    vm_execute example_rt 2 example_program ∅ example_no_pins 40 10 0 0
    = Ok (error_sym example_rt, st')
    ∧ StackSet.live (roots st') = []
    ∧ objects st' = objects example_at_bad
    ∧ ∀ code,
        vm_execute example_rt 2 example_program ∅ example_no_pins 40 10 0 0
        ≠ Exit code.
Proof.
  apply (malformed_bytecode_returns_error_sym example_rt 2 example_program ∅
           example_no_pins 40 10 0 0 [] example_entered 0 false
           example_after_const example_at_bad).
  - exact example_no_pins_fit.
  - exact example_entry_enters.
  - exact example_reaches_bad.
  - exact example_bad_is_malformed.
Defined.

(** On this execution the specification's reading fails: the unknown
    opcode makes [vm_execute] return [error_sym]; the process goes on. *)
Lemma malformed_is_not_fatal : ¬ malformed_is_fatal example_rt.
Proof.
  intros H.
  destruct (H 2%nat example_program ∅ example_no_pins 40 10 0 0
              example_entered 0%nat false example_after_const example_at_bad
              example_entry_enters example_reaches_bad
              example_bad_is_malformed) as (code & _ & Hexit).
  vm_compute in Hexit. discriminate.
Qed.

(** C6: a call dispatched to a compiled procedure.  Through [callj] the
    callee runs in the caller's environment cons: the cons is the same
    cell, its car is still the caller's top frame, its cdr is now the
    callee's captured environment, and no other cell but the value stack
    is written.  Through [fcallj] the callee's environment is a cons that
    did not exist before, whose car is a new vector of [n + 1] slots and
    whose cdr is the callee's captured environment; every cell that
    existed before, the value stack apart, is unchanged, so the caller's
    environment cons and frame are. *)
Theorem callj_reuses_env_cons_fcallj_conses_fresh (rt : runtime)
    (fuel : nat) (instr_c : Z) (st_c mid_c : vm) (n_c ce_c frame rest : Z)
    (instr_f : Z) (st_f mid_f : vm) (n_f ce_f : Z) :
  callj_callee rt fuel instr_c st_c = Ok (n_c, mid_c) →
  compiled mid_c (top mid_c) ce_c →
  env st_c ≠ NULL →
  objects st_c !! env st_c = Some (PAIR frame rest) →
  fcallj_callee rt instr_f st_f = Ok (n_f, mid_f) →
  compiled mid_f (top mid_f) ce_f →
  roots_fit (roots mid_f) →
  -1 ≤ n_f < 2 ^ 62 →
  (∃ st', exec_callj rt fuel instr_c st_c = Ok (Enter, st')
     ∧ env st' = env st_c
     ∧ objects st' !! env st' = Some (PAIR frame ce_c)
     ∧ fn st' = top mid_c ∧ pc st' = 0 ∧ n_args st' = n_c
     ∧ ∀ p, p ≠ env st_c → p ≠ stack st_c →
            objects st' !! p = objects st_c !! p)
  ∧ (∃ st' newframe, exec_fcallj rt instr_f st_f = Ok (Enter, st')
       ∧ objects st_f !! env st' = None
       ∧ objects st_f !! newframe = None
       ∧ objects st' !! env st' = Some (PAIR newframe ce_f)
       ∧ objects st' !! newframe
         = Some (VECTOR (replicate (Z.to_nat (n_f + 1)) (the_empty_list rt)))
       ∧ fn st' = top mid_f ∧ pc st' = 0 ∧ n_args st' = n_f
       ∧ ∀ p, p ≠ stack st_f → is_Some (objects st_f !! p) →
              objects st' !! p = objects st_f !! p).
Proof.
  intros Hcc Hcompc Henv Hpair Hcf Hcompf Hfit Hn. split.
  - destruct (callj_callee_stack _ _ _ _ _ _ Hcc) as (l & Hl).
    pose proof (preserves_callj_callee rt fuel instr_c _ _ _ Hcc)
      as (He & Hs & _ & _ & Hobj & _).
    assert (env st_c ≠ stack st_c) as Hne by (intros E; congruence).
    assert (objects mid_c !! env mid_c = Some (PAIR frame rest)) as Hpair'.
    { rewrite He, Hobj; done. }
    eexists. unfold exec_callj. rewrite (bind_ok _ _ _ _ _ Hcc).
    rewrite (callj_dispatch_compiled rt mid_c n_c ce_c frame rest);
      [|done|congruence|done].
    split; [done|]. simpl. rewrite He.
    split; [done|]. split; [by rewrite lookup_insert_eq|].
    split; [done|]. split; [done|]. split; [done|].
    intros p Hp1 Hp2. rewrite lookup_insert_ne by done. by apply Hobj.
  - destruct (fcallj_callee_stack _ _ _ _ _ Hcf) as (l & Hl).
    pose proof (preserves_fcallj_callee rt instr_f _ _ _ Hcf)
      as (He & Hs & _ & _ & Hobj & Hvec).
    destruct (Hvec l Hl) as (l' & Hl').
    assert (∀ p, objects mid_f !! p = None → objects st_f !! p = None) as Hdom.
    { intros p Hp. destruct (decide (p = stack st_f)) as [->|Hps].
      - congruence.
      - by rewrite <- Hobj. }
    destruct (fcallj_dispatch_compiled rt mid_f n_f ce_f Hcompf Hfit Hn)
      as (st' & newframe & Hrun & Hnn & Hfr & Hen & Hefr & Hne & Ho & Hfn & Hpc
          & Hna & _).
    exists st', newframe. unfold exec_fcallj. rewrite (bind_ok _ _ _ _ _ Hcf).
    split; [done|]. split; [by apply Hdom|]. split; [by apply Hdom|].
    rewrite Ho. split; [by rewrite lookup_insert_eq|].
    split; [by rewrite lookup_insert_ne, lookup_insert_eq|].
    split; [done|]. split; [done|]. split; [done|].
    intros p Hps [o Hp].
    assert (objects mid_f !! p = Some o) as Hp' by (by rewrite Hobj).
    rewrite !lookup_insert_ne by congruence. congruence.
Qed.

Lemma callj_reuses_env_cons_fcallj_conses_fresh_witness :
  let st_c := example_call _callj_ in
  let mid_c := state_after (callj_callee example_rt 0 50) st_c in
  let st_f := example_call _fcallj_ in
  let mid_f := state_after (fcallj_callee example_rt 50) st_f in
  (∃ st', exec_callj example_rt 0 50 st_c = Ok (Enter, st')
     ∧ env st' = env st_c
     ∧ objects st' !! env st' = Some (PAIR 12 42)
     ∧ fn st' = top mid_c ∧ pc st' = 0 ∧ n_args st' = 2
     ∧ ∀ p, p ≠ env st_c → p ≠ stack st_c →
            objects st' !! p = objects st_c !! p)
  ∧ (∃ st' newframe, exec_fcallj example_rt 50 st_f = Ok (Enter, st')
       ∧ objects st_f !! env st' = None
       ∧ objects st_f !! newframe = None
       ∧ objects st' !! env st' = Some (PAIR newframe 42)
       ∧ objects st' !! newframe
         = Some (VECTOR (replicate (Z.to_nat (2 + 1)) (the_empty_list example_rt)))
       ∧ fn st' = top mid_f ∧ pc st' = 0 ∧ n_args st' = 2
       ∧ ∀ p, p ≠ stack st_f → is_Some (objects st_f !! p) →
              objects st' !! p = objects st_f !! p).
Proof.
  intros st_c mid_c st_f mid_f.
  apply (callj_reuses_env_cons_fcallj_conses_fresh example_rt 0 50 st_c mid_c
           2 42 12 1 50 st_f mid_f 2 42).
  - vm_compute. reflexivity.
  - split; [vm_compute; discriminate|]. exists 41. left. vm_compute. reflexivity.
  - vm_compute. discriminate.
  - vm_compute. reflexivity.
  - vm_compute. reflexivity.
  - split; [vm_compute; discriminate|]. exists 41. left. vm_compute. reflexivity.
  - replace (roots mid_f) with example_pins by (vm_compute; reflexivity).
    split; [exact example_pins_ok|]. simpl. lia.
  - lia.
Defined.

(** C8: [argsdot] with operand [n], entered with the [n_args] actual
    arguments [args] on top of the stack, the leftmost deepest.  When
    [n ≤ n_args] the instruction completes; afterwards the environment
    cons is the same, slots [0 .. n-1] of its top frame hold the first [n]
    arguments with the leftmost in slot 0, slot [n] holds a proper list
    of the remaining arguments in their order, and the arguments are off
    the stack.  With fewer than [n] arguments the instruction is the
    failed assertion on the number of arguments. *)
Theorem argsdot_binds_required_and_rest (rt : runtime) (instr a n : Z)
    (st : vm) (below args above : list Z) (frame rest : Z) (f : list Z)
    (st_e : vm) :
  ARG1 rt instr st = Ok (a, st) →
  LONG a st = Ok (n, st) →
  n_args st = Z.of_nat (length args) →
  0 ≤ n ≤ n_args st →
  n_args st ≤ INT_MAX →
  stack_holds st below args above →
  env st ≠ NULL → objects st !! env st = Some (PAIR frame rest) →
  frame ≠ NULL → frame ≠ stack st → objects st !! frame = Some (VECTOR f) →
  objects st !! the_empty_list rt = Some THE_EMPTY_LIST →
  ARG1 rt instr st_e = Ok (a, st_e) →
  LONG a st_e = Ok (n, st_e) →
  n_args st_e < n →
  (∃ st' vector f' p,
     exec_argsdot rt instr st = Ok (Next, st')
     ∧ env st' = env st
     ∧ objects st' !! env st' = Some (PAIR vector rest)
     ∧ objects st' !! vector = Some (VECTOR f')
     ∧ take (Z.to_nat n) f' = take (Z.to_nat n) args
     ∧ f' !! Z.to_nat n = Some p
     ∧ is_list rt (objects st') p (drop (Z.to_nat n) args)
     ∧ stack_holds st' below []
         (replicate (length args) (the_empty_list rt) ++ above))
  ∧ exec_argsdot rt instr st_e = VM_ASSERT_failed rt st_e.
Proof.
  intros Harg Hlong Hm Hn Hmax Hst He Hpair Hf Hfs Hvec Hnil Harg_e Hlong_e Hlt.
  split.
  2:{ unfold exec_argsdot. rewrite (bind_ok _ _ _ _ _ Harg_e).
      rewrite (bind_ok _ _ _ _ _ Hlong_e). vm_simpl.
      rewrite decide_True by lia. done. }
  unfold exec_argsdot. rewrite (bind_ok _ _ _ _ _ Harg).
  rewrite (bind_ok _ _ _ _ _ Hlong). vm_simpl.
  rewrite decide_False by lia.
  unfold INT_MAX in Hmax.
  rewrite !wrap_long_id by lia. vm_simpl.
  rewrite (bind_ok _ _ _ _ _ (car_ok rt st _ _ _ He Hpair)).
  rewrite (bind_ok _ _ _ _ _ (VSIZE_ok st _ _ Hf Hvec)).
  pose proof Hst as (Hs & Hstack & Htop & Hlen).
  destruct (resize_frame_spec rt st (n + 1) frame rest f ltac:(lia) He Hpair Hf
              Hvec _ Hstack Hfs)
    as (st1 & V & fv & Hres & Hs1 & Ht1 & He1 & Hpair1 & HV & HVs & HoV & Hsize
        & Hobj1).
  rewrite (bind_ok _ _ _ _ _ Hres).
  assert (env st ≠ stack st) as Hes by congruence.
  assert (the_empty_list rt ≠ stack st) as Hns by congruence.
  assert (the_empty_list rt ≠ env st) as Hne by congruence.
  assert (objects st1 !! stack st = Some (VECTOR (below ++ args ++ above)))
    as Hstack1.
  { rewrite Hobj1; done. }
  rewrite (bind_ok _ _ _ _ _ (car_ok rt st1 _ _ _ He Hpair1)).
  rewrite (bind_ok _ _ _ _ _ (VARRAY_ok st1 _ _ HV HoV)).
  replace (n + 1 - 1) with n by lia.
  rewrite (bind_ok _ _ _ _ _ (vector_set_ok st1 V fv n (the_empty_list rt) HV HoV
                                ltac:(lia))).
  set (st2 := set_objects st1 _).
  set (k := Z.to_nat n).
  assert (Z.to_nat (n_args st - n) = length (drop k args)) as Hexcess.
  { rewrite length_drop. lia. }
  rewrite Hexcess.
  destruct (excess_loop_spec rt V n (drop k args) st2 (below ++ take k args) above
              (<[k := the_empty_list rt]> fv) (the_empty_list rt) [] 0)
    as (st3 & p & Hloop & Hst3 & Hs3 & He3 & HoV3 & Hl3 & Hobj3).
  { apply (proj1 (stack_holds_split st2 below args above k)).
    split; [simpl; congruence|]. simpl.
    rewrite lookup_insert_ne by congruence. rewrite Hs1, Ht1. done. }
  { done. }
  { simpl. congruence. }
  { simpl. by rewrite lookup_insert_eq. }
  { rewrite length_insert. lia. }
  { apply list_lookup_insert_eq. lia. }
  { done. }
  { assert (objects st1 !! the_empty_list rt = Some THE_EMPTY_LIST) as Hnil1.
    { rewrite Hobj1; done. }
    simpl. rewrite lookup_insert_ne by congruence. done. }
  { rewrite length_drop. unfold INT_MAX. lia. }
  rewrite (bind_ok _ _ _ _ _ Hloop).
  replace (Z.to_nat (wrap_int (n - 1) + 1)) with (length (take k args)).
  2:{ rewrite wrap_int_id by lia. rewrite length_take. lia. }
  destruct (pop_into_spec rt V (take k args) st3 below
              (replicate (length (drop k args)) (the_empty_list rt) ++ above)
              (<[k := p]> (<[k := the_empty_list rt]> fv)))
    as (st4 & Hpop & Hst4 & Hs4 & He4 & HoV4 & Hobj4).
  { destruct Hst3 as (H1 & H2 & H3 & H4). rewrite app_nil_r in H3.
    split; [done|]. rewrite <- !app_assoc in *. simpl in H2, H4.
    rewrite length_app. rewrite length_app in H3. done. }
  { done. }
  { rewrite Hs3. simpl. congruence. }
  { done. }
  { rewrite !length_insert, length_take. lia. }
  rewrite (bind_ok _ _ _ _ _ Hpop).
  exists st4, V, (take k args ++ drop (length (take k args))
                    (<[k := p]> (<[k := the_empty_list rt]> fv))), p.
  assert (length (take k args) = k) as Hk by (rewrite length_take; lia).
  split; [done|].
  assert (env st4 = env st) as Eenv by (by rewrite He4, He3).
  assert (V ≠ env st) as HVe by congruence.
  assert (objects st2 !! env st = Some (PAIR V rest)) as Hpair2.
  { simpl. by rewrite lookup_insert_ne. }
  split; [done|].
  split.
  { rewrite Eenv, Hobj4, Hobj3.
    - done.
    - by eexists.
    - simpl. congruence.
    - congruence.
    - rewrite Hs3. simpl. congruence.
    - congruence. }
  split; [done|].
  split; [by apply take_app_length'|].
  split.
  { rewrite lookup_app_r by lia. rewrite Hk, Nat.sub_diag.
    rewrite lookup_drop, Nat.add_0_r. apply list_lookup_insert_eq.
    rewrite length_insert. lia. }
  split.
  { rewrite app_nil_r in Hl3. apply (is_list_mono rt (objects st3)); [|done].
    intros q x d Hq. rewrite Hobj4; [done| |]; rewrite ?Hs3.
    - destruct Hst3 as (_ & Hv & _). congruence.
    - congruence. }
  destruct Hst4 as (H1 & H2 & H3 & H4). split; [done|].
  rewrite !(app_assoc (replicate _ _)), <- replicate_add in H2, H4.
  replace (length (take k args) + length (drop k args))%nat with (length args)
    in H2, H4; [done|].
  rewrite <- length_app, take_drop. done.
Qed.

Lemma argsdot_binds_required_and_rest_witness :
  (∃ st' vector f' p,
     exec_argsdot example_rt 50 (example_argsdot 3) = Ok (Next, st')
     ∧ env st' = env (example_argsdot 3)
     ∧ objects st' !! env st' = Some (PAIR vector 1)
     ∧ objects st' !! vector = Some (VECTOR f')
     ∧ take (Z.to_nat 2) f' = take (Z.to_nat 2) [61; 62; 63]
     ∧ f' !! Z.to_nat 2 = Some p
     ∧ is_list example_rt (objects st') p (drop (Z.to_nat 2) [61; 62; 63])
     ∧ stack_holds st' [] []
         (replicate (length [61; 62; 63]) (the_empty_list example_rt)
            ++ [40; 1; 1]))
  ∧ exec_argsdot example_rt 50 (example_argsdot 1)
    = VM_ASSERT_failed example_rt (example_argsdot 1).
Proof.
  apply (argsdot_binds_required_and_rest example_rt 50 53 2 (example_argsdot 3)
           [] [61; 62; 63] [40; 1; 1] 12 1 [1; 1] (example_argsdot 1)).
  - vm_compute. reflexivity.
  - vm_compute. reflexivity.
  - reflexivity.
  - simpl. lia.
  - unfold INT_MAX. simpl. lia.
  - split; [vm_compute; discriminate|]. split; [vm_compute; reflexivity|].
    split; [reflexivity|]. simpl. lia.
  - vm_compute. discriminate.
  - vm_compute. reflexivity.
  - discriminate.
  - vm_compute. discriminate.
  - vm_compute. reflexivity.
  - vm_compute. reflexivity.
  - vm_compute. reflexivity.
  - vm_compute. reflexivity.
  - simpl. lia.
Defined.

End VMClaims.

(** ** More about the heap: blocks, allocation and the list check *)

Module HeapFacts.
Import StackSet GC GCInv GCFacts GCSetup GCBlock.

Lemma scan_back_shift (l rest : list Z) (last value : Z) :
  value ∉ l →
  scan_back (length l) (l ++ rest) last value
  = Some (false, drop 1 (l ++ [last]) ++ rest).
Proof.
  revert rest last. induction l as [|t l IH] using rev_ind; intros rest last Hnin.
  - done.
  - apply not_elem_of_app in Hnin as [Hnin Ht].
    assert (t ≠ value) as Hne by (intros ->; apply Ht; by left).
    rewrite length_app. simpl. rewrite Nat.add_1_r. simpl.
    rewrite <- app_assoc. simpl.
    rewrite lookup_app_r, Nat.sub_diag by lia. simpl.
    rewrite decide_False by done.
    rewrite insert_app_r_alt, Nat.sub_diag by lia. simpl.
    rewrite (IH (last :: rest) t Hnin).
    f_equal. f_equal.
    destruct l as [|x l]; simpl; [done|].
    rewrite !drop_0, <- !app_assoc. done.
Qed.

Lemma block_cells_S base n :
  block_cells base (S n) = base :: block_cells (base + 1) n.
Proof.
  unfold block_cells. simpl. rewrite Z.add_0_r. f_equal.
  rewrite <- fmap_S_seq, <- list_fmap_compose. apply list_fmap_ext.
  intros _ i _. simpl. lia.
Qed.

Lemma block_cells_elem base n p :
  p ∈ block_cells base n ↔ base ≤ p < base + Z.of_nat n.
Proof.
  unfold block_cells. rewrite list_elem_of_fmap. split.
  - intros (i & -> & Hi%elem_of_seq). lia.
  - intros Hp. exists (Z.to_nat (p - base)). split; [lia|].
    apply elem_of_seq. lia.
Qed.

Lemma block_cells_NoDup base n : NoDup (block_cells base n).
Proof.
  unfold block_cells. apply NoDup_fmap_2; [|apply NoDup_seq].
  intros i j Hij. lia.
Qed.

Lemma block_cells_length base n : length (block_cells base n) = n.
Proof. unfold block_cells. by rewrite length_fmap, length_seq. Qed.

Lemma block_cells_last base n :
  last (block_cells base (S n)) = Some (base + Z.of_nat n).
Proof.
  unfold block_cells. rewrite fmap_last, seq_S, last_snoc. done.
Qed.

Lemma fresh_cells_lookup n base h p :
  fresh_cells n base h !! p
  = if decide (base ≤ p < base + Z.of_nat n) then Some fresh_cell else h !! p.
Proof.
  revert base. induction n as [|n IH]; intros base; simpl.
  - by rewrite decide_False by lia.
  - destruct (decide (base = p)) as [->|Hne].
    + rewrite lookup_insert_eq. by rewrite decide_True by lia.
    + rewrite lookup_insert_ne by done. rewrite IH.
      destruct (decide (base + 1 ≤ p < base + 1 + Z.of_nat n));
        [by rewrite decide_True by lia|by rewrite decide_False by lia].
Qed.

Lemma store_next_at h p o v :
  p ≠ NULL → h !! p = Some o → store_next h p v = Some (<[p := set_next o v]> h).
Proof. intros Hp Ho. unfold store_next. by rewrite (load_Some h p o Hp Ho). Qed.

Lemma store_prev_at h p o v :
  p ≠ NULL → h !! p = Some o → store_prev h p v = Some (<[p := set_prev o v]> h).
Proof. intros Hp Ho. unfold store_prev. by rewrite (load_Some h p o Hp Ho). Qed.

Lemma store_color_at h p o v :
  p ≠ NULL → h !! p = Some o →
  store_color h p v = Some (<[p := set_color o v]> h).
Proof. intros Hp Ho. unfold store_color. by rewrite (load_Some h p o Hp Ho). Qed.

(** A chain of cells of a block, read off a pointwise description of the
    memory. *)
Lemma lseg_block h base n p nx :
  0 < base →
  (∀ i, (i < n)%nat →
     ∃ o, h !! (base + Z.of_nat i) = Some o
          ∧ prev o = (if decide (i = 0%nat) then p else base + Z.of_nat i - 1)
          ∧ next o = (if decide (S i = n) then nx else base + Z.of_nat i + 1)) →
  lseg h p (block_cells base n) nx.
Proof.
  revert base p. induction n as [|n IH]; intros base p Hb Hc; [done|].
  rewrite block_cells_S. simpl.
  split; [unfold NULL; lia|]. split.
  - destruct (Hc 0%nat ltac:(lia)) as (o & Ho & Hp & Hn).
    rewrite Z.add_0_r in Ho. exists o. split; [done|]. split; [done|].
    rewrite Hn. destruct n as [|n]; [by rewrite decide_True|].
    rewrite decide_False by lia. rewrite block_cells_S. simpl. lia.
  - apply IH; [lia|]. intros i Hi.
    destruct (Hc (S i) ltac:(lia)) as (o & Ho & Hp & Hn).
    exists o. split; [rewrite <- Ho; f_equal; lia|].
    rewrite Hp, Hn. rewrite decide_False by lia. split.
    + destruct (decide (i = 0%nat)); lia.
    + destruct (decide (S (S i) = S n)), (decide (S i = n)); lia.
Qed.

Section Extend.

Variable st : gc_state.

Variable extension : Z.

Hypothesis Hext : 2 ≤ extension ≤ INT_MAX.

Hypothesis Hbrk : 0 < pool_brk st.

Hypothesis Hfresh : ∀ p, is_Some (heap st !! p) → p < pool_brk st.

Local Abbreviation base := (pool_brk st).

Local Abbreviation cc := (current_color st).

Local Abbreviation linked_cell := (linked_cell base cc).

Local Abbreviation block_inv := (block_inv st extension).

Lemma block_inv_first :
  ∃ h,
    (h ← store_prev (fresh_cells (Z.to_nat extension) base (heap st))
           (base + 0) NULL;
     h ← store_next h (base + 0) (base + 1);
     store_color h (base + 0) cc) = Some h
    ∧ block_inv 1 h.
Proof.
  unfold INT_MAX in Hext.
  set (h0 := fresh_cells (Z.to_nat extension) base (heap st)).
  assert (h0 !! (base + 0) = Some fresh_cell) as H0.
  { unfold h0. rewrite fresh_cells_lookup. by rewrite decide_True by lia. }
  assert (base + 0 ≠ NULL) as Hnn by (unfold NULL; lia).
  rewrite (store_prev_at _ _ _ _ Hnn H0). cbn [mbind option_bind].
  rewrite (store_next_at _ _ _ _ Hnn (lookup_insert_eq _ _ _)).
  cbn [mbind option_bind].
  rewrite (store_color_at _ _ _ _ Hnn (lookup_insert_eq _ _ _)).
  eexists. split; [done|]. split; [|split].
  - intros i Hi. assert (i = 0) as -> by lia. by rewrite lookup_insert_eq.
  - intros i Hi. rewrite !lookup_insert_ne by lia.
    unfold h0. rewrite fresh_cells_lookup. by rewrite decide_True by lia.
  - intros p Hp. rewrite !lookup_insert_ne by lia.
    unfold h0. rewrite fresh_cells_lookup. by rewrite decide_False by lia.
Qed.

Lemma block_inv_step k h :
  1 ≤ k < extension - 1 → block_inv k h →
  ∃ h',
    (h ← store_next h (base + k) (base + (k + 1));
     h ← store_prev h (base + k) (base + (k - 1));
     store_color h (base + k) cc) = Some h'
    ∧ block_inv (k + 1) h'.
Proof.
  intros Hk (Hdone & Hrest & Hout).
  assert (base + k ≠ NULL) as Hnn by (unfold NULL; lia).
  rewrite (store_next_at _ _ _ _ Hnn (Hrest k ltac:(lia))).
  cbn [mbind option_bind].
  rewrite (store_prev_at _ _ _ _ Hnn (lookup_insert_eq _ _ _)).
  cbn [mbind option_bind].
  rewrite (store_color_at _ _ _ _ Hnn (lookup_insert_eq _ _ _)).
  eexists. split; [done|]. split; [|split].
  - intros i Hi. destruct (decide (i = k)) as [->|Hne].
    + rewrite lookup_insert_eq. unfold linked_cell, set_color, set_prev, set_next.
      simpl. by rewrite decide_False by lia.
    + rewrite !lookup_insert_ne by lia. apply Hdone. lia.
  - intros i Hi. rewrite !lookup_insert_ne by lia. apply Hrest. lia.
  - intros p Hp. rewrite !lookup_insert_ne by lia. by apply Hout.
Qed.

Lemma block_inv_loop h :
  block_inv 1 h →
  ∃ h',
    for_up 1 (extension - 1)
      (λ ii h,
         h ← store_next h (base + ii) (base + (ii + 1));
         h ← store_prev h (base + ii) (base + (ii - 1));
         store_color h (base + ii) cc) h = Some h'
    ∧ block_inv (extension - 1) h'.
Proof.
  intros H1. unfold for_up. unfold INT_MAX in Hext.
  destruct (for_int_inv (λ k h, block_inv (1 + Z.of_nat k) h)
              (Z.to_nat (extension - 1 - 1)) 1
              (λ ii h,
                 h ← store_next h (base + ii) (base + (ii + 1));
                 h ← store_prev h (base + ii) (base + (ii - 1));
                 store_color h (base + ii) cc) h)
    as (h' & Hloop & Hinv); [unfold INT_MAX; lia|done| |].
  - intros k hk Hk Hinv.
    destruct (block_inv_step (1 + Z.of_nat k) hk ltac:(lia) Hinv) as (h' & Hs & Hi).
    exists h'. split; [done|].
    by replace (1 + Z.of_nat (S k)) with (1 + Z.of_nat k + 1) by lia.
  - exists h'. split; [done|].
    by replace (extension - 1) with (1 + Z.of_nat (Z.to_nat (extension - 1 - 1)))
      by lia.
Qed.

End Extend.

Lemma extend_heap_layout (extension : Z) (st : gc_state) (A : list Z) :
  2 ≤ extension ≤ INT_MAX → 0 < pool_brk st →
  (∀ p, is_Some (heap st !! p) → p < pool_brk st) →
  dll_rep (heap st) (Active_Heap_Objects st) A →
  Z.of_nat (length A) + extension ≤ 2 ^ 61 →
  ∃ st',
    extend_heap extension st = Some st'
    ∧ dll_rep (heap st') (Active_Heap_Objects st')
        (block_cells (pool_brk st) (Z.to_nat extension) ++ A)
    ∧ Next_Free_Object st' = pool_brk st
    ∧ pool_brk st' = pool_brk st + extension
    ∧ (∀ x, x ∈ block_cells (pool_brk st) (Z.to_nat extension) →
            color <$> heap st' !! x = Some (current_color st))
    ∧ (∀ y, y ∉ block_cells (pool_brk st) (Z.to_nat extension) →
            marks (heap st') y = marks (heap st) y)
    ∧ Old_Heap_Objects st' = Old_Heap_Objects st
    ∧ current_color st' = current_color st
    ∧ Root_Objects st' = Root_Objects st
    ∧ Finalizable_Objects st' = Finalizable_Objects st
    ∧ Finalizable_Objects_Next st' = Finalizable_Objects_Next st
    ∧ pinned st' = pinned st
    ∧ Next_Heap_Extension st' = Next_Heap_Extension st
    ∧ (∀ y, y ∉ block_cells (pool_brk st) (Z.to_nat extension) → y ∉ A →
            heap st' !! y = heap st !! y).
Proof.
  intros Hext Hbrk Hfresh HA Hlen. pose proof Hext as Hext'. unfold INT_MAX in Hext'.
  set (base := pool_brk st). set (cc := current_color st).
  set (lst := extension - 1).
  destruct HA as (HAnd & HAseg & HAhead & HAtail & HAnum).
  unfold extend_heap, MALLOC_objects.
  cbn [heap current_color Active_Heap_Objects with_pool].
  destruct (block_inv_first st extension Hext Hbrk) as (h1 & Hfirst & Hinv1).
  destruct (store_prev _ (pool_brk st + 0) NULL) as [ha|] eqn:Ea; [|done].
  cbn [mbind option_bind] in Hfirst |- *.
  destruct (store_next ha (pool_brk st + 0) (pool_brk st + 1)) as [hb|] eqn:Eb;
    [|done].
  cbn [mbind option_bind] in Hfirst |- *. rewrite Hfirst.
  cbn [mbind option_bind].
  destruct (block_inv_loop st extension Hext Hbrk h1 Hinv1) as (h4 & Hloop & Hinv4).
  rewrite Hloop. cbn [mbind option_bind].
  destruct Hinv4 as (Hdone & Hrest & Hout).
  assert (base + lst ≠ NULL) as Hnn by (unfold NULL, base, lst; lia).
  fold base lst in Hdone, Hrest, Hout |- *.
  rewrite (store_next_at _ _ _ _ Hnn (Hrest lst ltac:(unfold lst; lia))).
  cbn [mbind option_bind].
  rewrite (store_prev_at _ _ _ _ Hnn (lookup_insert_eq _ _ _)).
  cbn [mbind option_bind].
  set (olast := set_prev (set_next fresh_cell (head (Active_Heap_Objects st)))
                  (base + (lst - 1))).
  set (h6 := <[base + lst := olast]> (<[base + lst := _]> h4)).
  assert (∀ x, x ∈ A → x < base ∧ x ≠ NULL ∧ is_Some (heap st !! x)) as HAcell.
  { intros x Hx. apply list_elem_of_split in Hx as (l1 & l2 & ->).
    apply lseg_middle in HAseg as (Hxn & o & Ho & _).
    split; [apply Hfresh; by eexists|]. split; [done|by eexists]. }
  assert (∃ h7 active7,
    (if decide (head (Active_Heap_Objects st) ≠ NULL)
     then h ← store_prev h6 (head (Active_Heap_Objects st)) (base + lst);
          Some (h, Active_Heap_Objects st)
     else Some (h6, {| head := head (Active_Heap_Objects st);
                       tail := base + lst;
                       num_objects := num_objects (Active_Heap_Objects st) |}))
    = Some (h7, active7)
    ∧ num_objects active7 = num_objects (Active_Heap_Objects st)
    ∧ tail active7 = default (base + lst) (last A)
    ∧ h7 !! (base + lst) = Some olast
    ∧ (∀ i, 0 ≤ i < lst → h7 !! (base + i) = Some (linked_cell base cc i))
    ∧ (∀ p, ¬ (base ≤ p < base + extension) → marks h7 p = marks (heap st) p)
    ∧ (∀ p, ¬ (base ≤ p < base + extension) → p ∉ A → h7 !! p = heap st !! p)
    ∧ lseg h7 (base + lst) A NULL)
    as (h7 & active7 & -> & Hn7 & Ht7 & Hl7 & Hd7 & Hm7 & Hk7 & Hs7).
  { destruct A as [|a A'].
    - simpl in HAhead. rewrite decide_False by (intros H; by apply H).
      eexists _, _. split; [done|]. split; [done|]. split; [done|].
      split; [apply lookup_insert_eq|]. split.
      + intros i Hi. unfold h6. rewrite !lookup_insert_ne by lia. by apply Hdone.
      + split; [|split; [|done]].
        * intros p Hp. unfold marks, h6.
          rewrite !lookup_insert_ne by lia. by rewrite Hout.
        * intros p Hp _. unfold h6.
          rewrite !lookup_insert_ne by lia. by apply Hout.
    - simpl in HAhead. destruct (HAcell a ltac:(left)) as (Hab & Han & [oa Hoa]).
      rewrite HAhead. rewrite decide_True by done.
      assert (h6 !! a = Some oa) as Hoa6.
      { unfold h6. rewrite !lookup_insert_ne by lia. rewrite Hout by lia. done. }
      rewrite (store_prev_at _ _ _ _ Han Hoa6). cbn [mbind option_bind].
      eexists _, _. split; [done|]. split; [done|]. split.
      { rewrite HAtail, last_cons. by destruct (last A'). }
      split; [rewrite lookup_insert_ne by lia; apply lookup_insert_eq|]. split.
      + intros i Hi. unfold h6. rewrite !lookup_insert_ne by lia. by apply Hdone.
      + split; [|split].
        * intros p Hp. unfold marks. destruct (decide (p = a)) as [->|Hne].
          -- rewrite lookup_insert_eq, Hoa. done.
          -- rewrite lookup_insert_ne by done. unfold h6.
             rewrite !lookup_insert_ne by lia. by rewrite Hout.
        * intros p Hp Hpa.
          rewrite lookup_insert_ne by (intros ->; apply Hpa; by left).
          unfold h6. rewrite !lookup_insert_ne by lia. by apply Hout.
        * apply NoDup_cons in HAnd as [Hna HAnd'].
          apply (lseg_links (<[a := set_prev oa (base + lst)]> (heap st))).
          { intros x Hx. unfold links.
            destruct (decide (x = a)) as [->|Hne];
              [by rewrite !lookup_insert_eq|].
            rewrite !lookup_insert_ne by done. unfold h6.
            destruct (HAcell x Hx) as (Hxb & _).
            rewrite !lookup_insert_ne by lia. by rewrite Hout by lia. }
          by apply (lseg_set_head_prev _ NULL). }
  cbn [mbind option_bind].
  rewrite (store_color_at _ _ _ _ Hnn Hl7). cbn [mbind option_bind].
  eexists. split; [done|]. cbn [with_lists with_next_free with_pool heap
    Active_Heap_Objects Old_Heap_Objects Next_Free_Object pool_brk
    current_color head tail num_objects mem src_list dest_list
    Root_Objects Finalizable_Objects Finalizable_Objects_Next pinned
    Next_Heap_Extension].
  set (hf := <[base + lst := set_color olast cc]> h7).
  set (n := Z.to_nat extension).
  assert (∀ i, 0 ≤ i < extension →
            hf !! (base + i)
            = Some {| data := UNINITIALISED; color := cc;
                      next := if decide (i = lst)
                              then head (Active_Heap_Objects st)
                              else base + (i + 1);
                      prev := if decide (i = 0) then NULL else base + (i - 1) |})
    as Hcells.
  { intros i Hi. unfold hf. destruct (decide (i = lst)) as [->|Hne].
    - rewrite lookup_insert_eq. unfold olast, set_color, set_prev, set_next. simpl.
      by rewrite decide_False by (unfold lst; lia).
    - rewrite lookup_insert_ne by lia. rewrite Hd7 by (unfold lst in *; lia). done. }
  split; [|split; [done|split; [lia|split; [|split;
    [|repeat (split; [done|])]]]]].
  - split; [|split; [|split; [|split]]].
    + apply NoDup_app. split; [apply block_cells_NoDup|]. split; [|done].
      intros x Hx%block_cells_elem Hx'. destruct (HAcell x Hx'). unfold base in *. lia.
    + apply lseg_app. split.
      * apply lseg_block; [done|]. intros i Hi.
        eexists. split; [apply (Hcells (Z.of_nat i)); unfold n in Hi; lia|]. simpl. split.
        -- destruct (decide (Z.of_nat i = 0)), (decide (i = 0%nat)); lia.
        -- destruct (decide (Z.of_nat i = lst)), (decide (S i = n));
             unfold lst, n in *; lia.
      * replace n with (S (Z.to_nat lst)) by (unfold n, lst; lia).
        rewrite block_cells_last. simpl.
        rewrite Z2Nat.id by (unfold lst; lia).
        apply (lseg_links h7); [|done].
        intros x Hx. unfold links, hf. destruct (HAcell x Hx).
        rewrite lookup_insert_ne by lia. done.
    + replace n with (S (Z.to_nat lst)) by (unfold n, lst; lia).
      rewrite block_cells_S. simpl. done.
    + rewrite Ht7. replace n with (S (Z.to_nat lst)) by (unfold n, lst; lia).
      destruct A as [|a A'] using rev_ind.
      * rewrite app_nil_r, block_cells_last. simpl. f_equal.
        rewrite Z2Nat.id by (unfold lst; lia). done.
      * rewrite app_assoc, !last_snoc. done.
    + rewrite Hn7, HAnum, length_app, block_cells_length. simpl.
      rewrite wrap_long_id by lia. unfold n. lia.
  - intros x Hx%block_cells_elem.
    replace x with (base + (x - base)) by lia.
    rewrite Hcells by (unfold base in *; lia). done.
  - intros y Hy. unfold marks, hf.
    assert (¬ (base ≤ y < base + extension)) as Hy'.
    { intros H. apply Hy, block_cells_elem. unfold base in *. lia. }
    rewrite lookup_insert_ne by lia. by apply Hm7.
  - intros y Hy HyA. unfold hf.
    assert (¬ (base ≤ y < base + extension)) as Hy'.
    { intros H. apply Hy, block_cells_elem. unfold base in *. lia. }
    rewrite lookup_insert_ne by lia. by apply Hk7.
Qed.

Lemma dll_rep_set_color h d l x o c :
  h !! x = Some o → dll_rep h d l → dll_rep (<[x := set_color o c]> h) d l.
Proof.
  intros Ho. apply dll_rep_links. intros y _. by apply links_set_color.
Qed.

Lemma alloc_object_step (fuel : nat) (needs_finalization : bool)
    (st : gc_state) (pre post : list Z) (x : Z) :
  dll_rep (heap st) (Active_Heap_Objects st) (pre ++ x :: post) →
  Next_Free_Object st = x →
  stack_fits (Finalizable_Objects st) →
  ∃ st',
    alloc_object fuel needs_finalization st = Ok (x, st')
    ∧ Next_Free_Object st' = hd NULL post
    ∧ Active_Heap_Objects st' = Active_Heap_Objects st
    ∧ dll_rep (heap st') (Active_Heap_Objects st') (pre ++ x :: post)
    ∧ color <$> heap st' !! x = Some (current_color st)
    ∧ (∀ y, y ≠ x → heap st' !! y = heap st !! y)
    ∧ (∀ y, data <$> heap st' !! y = data <$> heap st !! y)
    ∧ live (Finalizable_Objects st')
      = live (Finalizable_Objects st) ++ (if needs_finalization then [x] else [])
    ∧ stack_ok (Finalizable_Objects st')
    ∧ 1 ≤ size (Finalizable_Objects st') ≤ 2 ^ 62
    ∧ top (Finalizable_Objects st') ≤ top (Finalizable_Objects st) + 1
    ∧ Old_Heap_Objects st' = Old_Heap_Objects st
    ∧ Root_Objects st' = Root_Objects st
    ∧ pinned st' = pinned st
    ∧ current_color st' = current_color st.
Proof.
  intros HA Hx (Hfok & Hfsize & Hftop).
  pose proof HA as (_ & Hseg & _).
  apply lseg_middle in Hseg as (Hxn & o & Ho & Hprev & Hnext).
  unfold alloc_object. rewrite decide_False by congruence.
  cbv beta iota delta [rbind]. rewrite Hx. unfold store_color.
  rewrite (load_Some _ _ _ Hxn Ho). cbn [mbind option_bind of_option].
  assert (∃ fin,
    (if needs_finalization
     then of_option (stack_set_push (Finalizable_Objects st) x)
     else Ok (Finalizable_Objects st)) = Ok fin
    ∧ live fin = live (Finalizable_Objects st)
                 ++ (if needs_finalization then [x] else [])
    ∧ stack_ok fin ∧ 1 ≤ size fin ≤ 2 ^ 62
    ∧ top fin ≤ top (Finalizable_Objects st) + 1)
    as (fin & -> & Hlive & Hok' & Hsz' & Htop').
  { destruct needs_finalization.
    - destruct (stack_set_push_spec (Finalizable_Objects st) x Hfok Hfsize Hftop)
        as (fin & -> & Hl & Ht & Hok' & Hsz'). exists fin.
      split; [done|]. split; [done|]. split; [done|]. split; [done|]. lia.
    - exists (Finalizable_Objects st). rewrite app_nil_r.
      split; [done|]. split; [done|]. split; [done|]. split; [done|]. lia. }
  cbn [with_heap_fin heap]. unfold load. rewrite decide_False by done.
  rewrite lookup_insert_eq. cbn [of_option].
  eexists. split; [done|].
  cbn [with_next_free with_heap_fin heap Active_Heap_Objects Old_Heap_Objects
       Next_Free_Object Finalizable_Objects Root_Objects pinned current_color
       next set_color].
  split; [done|]. split; [done|]. split; [by apply dll_rep_set_color|].
  split; [by rewrite lookup_insert_eq|].
  split; [intros y Hy; by rewrite lookup_insert_ne|].
  split.
  { intros y. destruct (decide (y = x)) as [->|Hy].
    - by rewrite lookup_insert_eq, Ho.
    - by rewrite lookup_insert_ne. }
  split; [done|]. split; [done|]. split; [done|]. split; [done|]. done.
Qed.

Lemma alloc_objects_spec (fuel : nat)
    (needs_finalization : bool) (cells : list Z) :
  ∀ (st : gc_state) (pre post : list Z),
    dll_rep (heap st) (Active_Heap_Objects st) (pre ++ cells ++ post) →
    Next_Free_Object st = hd NULL (cells ++ post) →
    stack_fits (Finalizable_Objects st) →
    top (Finalizable_Objects st) + Z.of_nat (length cells) ≤ 2 ^ 61 →
    ∃ st',
      alloc_objects fuel (length cells) needs_finalization st = Ok (cells, st')
      ∧ Next_Free_Object st' = hd NULL post
      ∧ dll_rep (heap st') (Active_Heap_Objects st') (pre ++ cells ++ post)
      ∧ NoDup cells
      ∧ Old_Heap_Objects st' = Old_Heap_Objects st
      ∧ (∀ y, data <$> heap st' !! y = data <$> heap st !! y)
      ∧ live (Finalizable_Objects st')
        = live (Finalizable_Objects st)
          ++ (if needs_finalization then cells else []).
Proof.
  induction cells as [|x cells IH]; intros st pre post HA Hx Hfit Hroom.
  - exists st. simpl. split; [done|]. split; [done|]. split; [done|].
    split; [apply NoDup_nil_2|]. split; [done|]. split; [done|].
    by destruct needs_finalization; rewrite app_nil_r.
  - simpl in Hx, Hroom |- *.
    destruct (alloc_object_step fuel needs_finalization st pre (cells ++ post) x
                HA Hx Hfit)
      as (st1 & Hrun & Hnext & Hact & HA1 & _ & _ & Hdata & Hlive & Hok & Hsz
          & Htop & Hold & _).
    rewrite Hrun. cbn [rbind].
    destruct (IH st1 (pre ++ [x]) post) as (st' & Hrun' & Hn' & HA' & Hnd & Hold'
                                            & Hdata' & Hlive').
    { by rewrite <- app_assoc. }
    { done. }
    { split; [done|]. split; [done|]. destruct Hfit as (_ & _ & ?). lia. }
    { lia. }
    rewrite Hrun'. cbn [rbind]. exists st'. split; [done|]. split; [done|].
    split; [by rewrite <- app_assoc in HA'|]. split.
    { apply NoDup_cons. split; [|done]. destruct HA as (Hnd' & _).
      apply NoDup_app in Hnd' as (_ & _ & Hnd').
      apply NoDup_cons in Hnd' as [Hx' _]. intros Hin. apply Hx'.
      apply elem_of_app. by left. }
    split; [congruence|]. split; [intros y; by rewrite Hdata'|].
    rewrite Hlive', Hlive. destruct needs_finalization; [|by rewrite !app_nil_r].
    by rewrite <- app_assoc.
Qed.

Lemma reach_no_roots h x : ¬ reach h [] x.
Proof.
  intros H. induction H as [r Hr _|x o f _ IH _ _]; [|done].
  by apply elem_of_nil in Hr.
Qed.

Lemma assert_gc_true (P : Prop) `{Decision P} :
  P → assert_gc (bool_decide P) = Ok tt.
Proof. intros HP. unfold assert_gc. by rewrite bool_decide_eq_true_2. Qed.

Lemma assert_gc_false (P : Prop) `{Decision P} :
  ¬ P → assert_gc (bool_decide P) = Exit 2.
Proof. intros HP. unfold assert_gc. by rewrite bool_decide_eq_false_2. Qed.

Lemma validate_from_spec h d :
  ∀ (rest pre : list Z) (p c : Z) (fuel : nat),
    dll_rep h d ((pre ++ [p]) ++ c :: rest) →
    Z.of_nat (length ((pre ++ [p]) ++ c :: rest)) ≤ 2 ^ 61 →
    (length rest ≤ fuel)%nat →
    validate_from fuel h d c (if decide (pre = []) then NULL else p)
      (Z.of_nat (length (pre ++ [p])))
    = if decide (pre = [] ∧ rest = []) then Exit 2 else Ok tt.
Proof.
  induction rest as [|c' rest IH]; intros pre p c fuel Hd Hlen Hfuel.
  - (* [c] is the tail *)
    pose proof Hd as (Hnd & Hseg & Hhd & Htl & Hnum).
    rewrite last_snoc in Htl. simpl in Htl.
    apply lseg_middle in Hseg as (Hcn & o & Ho & Hprev & Hnext).
    rewrite last_snoc in Hprev. simpl in Hprev, Hnext.
    assert (p ≠ NULL) as Hpn.
    { apply (dll_rep_not_null h d _ p Hd). rewrite !elem_of_app, list_elem_of_singleton.
      tauto. }
    destruct fuel; simpl; rewrite decide_False by (intros H; by apply H);
      rewrite (load_Some _ _ _ Hcn Ho); cbn [of_option rbind];
      rewrite (assert_gc_true (next o = NULL)) by done; cbn [rbind];
      rewrite (assert_gc_true (prev o ≠ NULL)) by congruence; cbn [rbind].
    all: destruct (decide (pre = [])) as [->|Hpre].
    all: try (rewrite (assert_gc_false (prev o = NULL)) by congruence;
              by rewrite decide_True).
    all: rewrite (assert_gc_true (prev o = p)) by done; cbn [rbind].
    all: rewrite decide_False by tauto.
    all: apply assert_gc_true; rewrite Hnum, wrap_long_id;
      rewrite !length_app in *; simpl in *; lia.
  - pose proof Hd as (Hnd & Hseg & Hhd & Htl & Hnum).
    apply lseg_middle in Hseg as (Hcn & o & Ho & Hprev & Hnext).
    rewrite last_snoc in Hprev. simpl in Hprev, Hnext.
    assert (p ≠ NULL) as Hpn.
    { apply (dll_rep_not_null h d _ p Hd). rewrite !elem_of_app, list_elem_of_singleton.
      tauto. }
    assert (c' ≠ NULL) as Hcn'.
    { apply (dll_rep_not_null h d _ c' Hd). rewrite !elem_of_app, !elem_of_cons.
      tauto. }
    assert (c ≠ tail d) as Hct.
    { rewrite Htl. rewrite last_app, last_cons.
      intros E. apply NoDup_app in Hnd as (_ & _ & Hnd).
      apply NoDup_cons in Hnd as [Hc _]. apply Hc.
      destruct (last (c' :: rest)) as [t|] eqn:Et; simpl in E.
      - subst t. by apply last_Some_elem_of.
      - by rewrite last_cons in Et; destruct (last rest). }
    destruct fuel as [|fuel]; [simpl in Hfuel; lia|]. simpl.
    rewrite decide_True by done.
    rewrite (load_Some _ _ _ Hcn Ho). cbn [of_option rbind].
    rewrite (assert_gc_true (prev o ≠ NULL)) by congruence. cbn [rbind].
    rewrite (assert_gc_true (next o ≠ NULL)) by congruence. cbn [rbind].
    assert ((if decide ((if decide (pre = []) then NULL else p) ≠ NULL)
             then assert_gc (bool_decide
                    (prev o = (if decide (pre = []) then NULL else p)))
             else Ok tt) = Ok tt) as ->.
    { destruct (decide (pre = [])).
      - by rewrite decide_False by (intros H; by apply H).
      - rewrite decide_True by done. by apply assert_gc_true. }
    cbn [rbind]. rewrite Hnext.
    specialize (IH (pre ++ [p]) c c' fuel).
    rewrite decide_False in IH by (by destruct pre).
    rewrite wrap_long_id by (rewrite !length_app in *; simpl in *; lia).
    replace (Z.of_nat (length (pre ++ [p])) + 1)
      with (Z.of_nat (length ((pre ++ [p]) ++ [c])))
      by (rewrite !length_app; simpl; lia).
    rewrite IH.
    + rewrite decide_False by (intros [? ?]; by destruct pre).
      by rewrite decide_False by (intros [? ?]; done).
    + by rewrite <- (app_assoc _ [c]).
    + by rewrite <- (app_assoc _ [c]).
    + simpl in Hfuel. lia.
Qed.

End HeapFacts.

(** ** The allocator's slow path *)

Module AllocatorClaims.
Import StackSet GC GCInv GCFacts GCExample GCSetup GCBlock HeapFacts.
Import CollectorClaims.

(** Once the collection and the extension step have left a free cell,
    [alloc_object] goes on as it does when it finds one on entry. *)
Lemma alloc_object_after_collect fuel nf st freed st1 st2 :
  Next_Free_Object st = NULL →
  baker_collect fuel st = Some (freed, st1) →
  (if decide (freed = 0 ∨ Z.quot (Next_Heap_Extension st1) freed > 2) then
     rbind (of_option (extend_heap (Next_Heap_Extension st1) st1)) (λ s,
     Ok (with_extension s (wrap_long (Next_Heap_Extension s * 3))))
   else Ok st1) = Ok st2 →
  Next_Free_Object st2 ≠ NULL →
  alloc_object fuel nf st = alloc_object fuel nf st2.
Proof.
  intros Hnull Hrun Hstep Hfree. unfold alloc_object at 1.
  rewrite decide_True by done. rewrite Hrun. cbn [of_option rbind].
  rewrite Hstep. cbn [rbind]. rewrite decide_False by done. cbn [rbind].
  unfold alloc_object. by rewrite decide_False by done.
Qed.

(** The steps after the test of the free pointer leave the pending
    extension size and the pool as they are, and never end the process. *)
Lemma alloc_object_fast_regs fuel nf st :
  Next_Free_Object st ≠ NULL →
  (∀ code, alloc_object fuel nf st ≠ Exit code)
  ∧ ∀ x st', alloc_object fuel nf st = Ok (x, st') →
      Next_Heap_Extension st' = Next_Heap_Extension st
      ∧ pool_brk st' = pool_brk st.
Proof.
  intros Hfree. unfold alloc_object. rewrite decide_False by done.
  cbn [rbind].
  destruct (store_color _ _ _) as [h|]; cbn [of_option rbind]; [|done].
  destruct (if nf then _ else _) as [fin| |] eqn:Hfin; cbn [rbind].
  - destruct (load _ _) as [o|]; cbn [of_option rbind]; [|done].
    split; [done|]. by intros x st' [= _ <-].
  - destruct nf; [|done].
    by destruct (stack_set_push _ _).
  - done.
Qed.

(** The only exit of [alloc_object] is the [throw_gc] after the
    extension step. *)
Lemma alloc_object_exit fuel nf st code :
  alloc_object fuel nf st = Exit code ↔
  code = 2 ∧ Next_Free_Object st = NULL
  ∧ ∃ freed st1 st2,
      baker_collect fuel st = Some (freed, st1)
      ∧ ((freed = 0 ∨ Z.quot (Next_Heap_Extension st1) freed > 2)
         ∧ extend_heap (Next_Heap_Extension st1) st1 = Some st2
         ∨ ¬ (freed = 0 ∨ Z.quot (Next_Heap_Extension st1) freed > 2)
           ∧ st2 = st1)
      ∧ Next_Free_Object st2 = NULL.
Proof.
  split.
  - intros Hexit. destruct (decide (Next_Free_Object st = NULL)) as [Hnull|Hfree].
    2:{ by destruct (proj1 (alloc_object_fast_regs fuel nf st Hfree) code). }
    revert Hexit. unfold alloc_object. rewrite decide_True by done.
    destruct (baker_collect fuel st) as [[freed st1]|] eqn:Hrun;
      cbn [of_option rbind]; [|done].
    destruct (decide (freed = 0 ∨ Z.quot (Next_Heap_Extension st1) freed > 2))
      as [Hgrow|Hkeep].
    + destruct (extend_heap (Next_Heap_Extension st1) st1) as [st2|] eqn:Hext;
        cbn [of_option rbind]; [|done].
      destruct (decide (Next_Free_Object (with_extension st2 _) = NULL))
        as [Hstill|Hfree]; cbn [rbind].
      * intros [= <-]. split; [done|]. split; [done|].
        exists freed, st1, st2. split; [done|]. split; [by left|done].
      * intros Hexit. exfalso.
        apply (proj1 (alloc_object_fast_regs fuel nf _ Hfree) code).
        unfold alloc_object. by rewrite decide_False by done.
    + cbn [rbind]. destruct (decide (Next_Free_Object st1 = NULL))
        as [Hstill|Hfree]; cbn [rbind].
      * intros [= <-]. split; [done|]. split; [done|].
        exists freed, st1, st1. split; [done|]. split; [by right|done].
      * intros Hexit. exfalso.
        apply (proj1 (alloc_object_fast_regs fuel nf _ Hfree) code).
        unfold alloc_object. by rewrite decide_False by done.
  - intros (-> & Hnull & freed & st1 & st2 & Hrun & Hcase & Hstill).
    unfold alloc_object. rewrite decide_True by done. rewrite Hrun.
    cbn [of_option rbind].
    destruct Hcase as [[Hgrow Hext]|[Hkeep ->]].
    + rewrite decide_True by done. rewrite Hext. cbn [of_option rbind].
      by rewrite decide_True.
    + rewrite decide_False by done. cbn [rbind]. by rewrite decide_True.
Qed.


Lemma conj_then (P Q R S : Prop) :
  P → Q → (P → Q → R) → S → P ∧ Q ∧ R ∧ S.
Proof. tauto. Qed.

(** C4: when [alloc_object] finds [Next_Free_Object] nil, a collection
    runs first.  If it freed no cell, or if the pending extension size
    divided by the freed count exceeds 2, the heap is extended by the
    pending extension size: the cells of a new block are linked in front
    of the Active list, the first of them is handed out, and the pending
    size is tripled.  Otherwise the heap keeps its size and the first
    freed cell is handed out.  In both cases the lists stay well formed
    and no other cell changes, so from a well-formed heap the call
    returns.  From any state at all, the call ends the process exactly
    when the free pointer is still nil after that step ([throw_gc],
    code 2). *)
Theorem alloc_object_collects_then_extends (fuel : nat)
    (needs_finalization : bool) (st : gc_state) (A O : list Z) :
  gc_ok st A O → (length (A ++ O) ≤ fuel)%nat →
  2 ≤ Next_Heap_Extension st ≤ INT_MAX → 0 < pool_brk st →
  (∀ p, is_Some (heap st !! p) → p < pool_brk st) →
  Z.of_nat (length (A ++ O)) + Next_Heap_Extension st ≤ 2 ^ 61 →
  Next_Free_Object st = NULL →
  ∃ freed st1 A1 O1,
    baker_collect fuel st = Some (freed, st1)
    ∧ gc_ok st1 A1 O1 ∧ freed = Z.of_nat (length A1)
    ∧ (freed = 0 ∨ Z.quot (Next_Heap_Extension st) freed > 2 →
       ∃ st2 st3,
         extend_heap (Next_Heap_Extension st) st1 = Some st2
         ∧ dll_rep (heap st2) (Active_Heap_Objects st2)
             (block_cells (pool_brk st) (Z.to_nat (Next_Heap_Extension st))
              ++ A1)
         ∧ dll_rep (heap st2) (Old_Heap_Objects st2) O1
         ∧ Next_Free_Object st2 = pool_brk st
         ∧ alloc_object fuel needs_finalization st = Ok (pool_brk st, st3)
         ∧ Next_Heap_Extension st3 = 3 * Next_Heap_Extension st
         ∧ pool_brk st3 = pool_brk st + Next_Heap_Extension st
         ∧ Next_Free_Object st3 = pool_brk st + 1
         ∧ dll_rep (heap st3) (Active_Heap_Objects st3)
             (block_cells (pool_brk st) (Z.to_nat (Next_Heap_Extension st))
              ++ A1)
         ∧ dll_rep (heap st3) (Old_Heap_Objects st3) O1
         ∧ (∀ y, y ≠ pool_brk st → heap st3 !! y = heap st2 !! y)
         ∧ (∀ x, x ∈ block_cells (pool_brk st)
                       (Z.to_nat (Next_Heap_Extension st)) →
                 color <$> heap st3 !! x = Some (current_color st1))
         ∧ (∀ y, y ∉ block_cells (pool_brk st)
                       (Z.to_nat (Next_Heap_Extension st)) →
                 marks (heap st3) y = marks (heap st1) y)
         ∧ live (Finalizable_Objects st3)
           = live (Finalizable_Objects st1)
             ++ (if needs_finalization then [pool_brk st] else []))
    ∧ (¬ (freed = 0 ∨ Z.quot (Next_Heap_Extension st) freed > 2) →
       ∃ x A1' st3,
         A1 = x :: A1'
         ∧ alloc_object fuel needs_finalization st = Ok (x, st3)
         ∧ Next_Heap_Extension st3 = Next_Heap_Extension st
         ∧ pool_brk st3 = pool_brk st
         ∧ Next_Free_Object st3 = hd NULL A1'
         ∧ dll_rep (heap st3) (Active_Heap_Objects st3) A1
         ∧ dll_rep (heap st3) (Old_Heap_Objects st3) O1
         ∧ (∀ y, y ≠ x → heap st3 !! y = heap st1 !! y)
         ∧ color <$> heap st3 !! x = Some (current_color st1)
         ∧ (∀ y, data <$> heap st3 !! y = data <$> heap st1 !! y)
         ∧ live (Finalizable_Objects st3)
           = live (Finalizable_Objects st1)
             ++ (if needs_finalization then [x] else []))
    ∧ (∀ code, alloc_object fuel needs_finalization st ≠ Exit code)
    ∧ (∀ st0 code,
         alloc_object fuel needs_finalization st0 = Exit code ↔
         code = 2 ∧ Next_Free_Object st0 = NULL
         ∧ ∃ freed0 st1' st2',
             baker_collect fuel st0 = Some (freed0, st1')
             ∧ ((freed0 = 0 ∨ Z.quot (Next_Heap_Extension st1') freed0 > 2)
                ∧ extend_heap (Next_Heap_Extension st1') st1' = Some st2'
                ∨ ¬ (freed0 = 0
                     ∨ Z.quot (Next_Heap_Extension st1') freed0 > 2)
                  ∧ st2' = st1')
             ∧ Next_Free_Object st2' = NULL).
Proof.
  intros Hok Hfuel Hnhe Hbrk Hfresh Hroom Hnull.
  destruct (baker_collect_spec fuel st A O Hok Hfuel)
    as (st1 & A1 & O1 & Hrun & Hp).
  pose proof (cp_ok _ _ _ _ _ _ Hp) as Hok1.
  destruct (cp_extension _ _ _ _ _ _ Hp) as [Hnhe1 Hbrk1].
  pose proof (ok_active _ _ _ Hok1) as HA1.
  pose proof (ok_old _ _ _ Hok1) as HO1.
  pose proof (ok_disjoint _ _ _ Hok1) as Hdisj1.
  pose proof (ok_fin _ _ _ Hok1) as [Hfin1 _].
  pose proof HA1 as (_ & _ & _ & _ & Hnum1).
  assert (length (A1 ++ O1) = length (A ++ O)) as Hlen1.
  { by rewrite (cp_perm _ _ _ _ _ _ Hp). }
  assert (∀ p, is_Some (heap st1 !! p) → p < pool_brk st1) as Hfresh1.
  { intros p Hp1. rewrite Hbrk1. apply Hfresh.
    pose proof (cp_data _ _ _ _ _ _ Hp p) as Hd.
    destruct Hp1 as [o Ho]. rewrite Ho in Hd.
    destruct (heap st !! p); [by eexists|done]. }
  exists (num_objects (Active_Heap_Objects st1)), st1, A1, O1.
  split; [done|]. split; [done|]. split; [done|].
  apply conj_then; [| | |apply alloc_object_exit].
  - (* not enough was freed: extend, then triple the next extension *)
    intros Hgrow. unfold INT_MAX in Hnhe.
    set (ext := Next_Heap_Extension st) in *.
    set (block := block_cells (pool_brk st) (Z.to_nat ext)).
    destruct (extend_heap_layout ext st1 A1)
      as (st2 & Hext & HA2 & Hnf2 & Hbrk2 & Hcol2 & Hmarks2 & Hold2 & Hcc2
          & Hroots2 & Hfin2 & Hfinn2 & Hpin2 & Hnhe2 & Hkeep2).
    { unfold INT_MAX. lia. }
    { by rewrite Hbrk1. }
    { done. }
    { done. }
    { rewrite length_app in Hlen1, Hroom. rewrite length_app in Hlen1. lia. }
    rewrite Hbrk1 in HA2, Hnf2, Hbrk2, Hcol2, Hmarks2, Hkeep2.
    fold block in HA2, Hcol2, Hmarks2, Hkeep2.
    assert (∀ y, y ∈ O1 → (y ∉ block) ∧ (y ∉ A1)) as HO1out.
    { intros y Hy. split.
      - intros Hb%block_cells_elem.
        assert (is_Some (heap st1 !! y)) as Hs.
        { apply list_elem_of_split in Hy as (l1 & l2 & ->).
          destruct HO1 as (_ & Hseg & _).
          apply lseg_middle in Hseg as (_ & o & Ho & _). by eexists. }
        apply Hfresh1 in Hs. lia.
      - intros Hya. apply NoDup_app in Hdisj1 as (_ & Hd & _).
        by apply (Hd y). }
    assert (dll_rep (heap st2) (Old_Heap_Objects st2) O1) as HO2.
    { rewrite Hold2. apply (dll_rep_links (heap st1)); [|done].
      intros y Hy. unfold links. destruct (HO1out y Hy). by rewrite Hkeep2. }
    set (st2' := with_extension st2 (wrap_long (Next_Heap_Extension st2 * 3))).
    assert (block = pool_brk st :: block_cells (pool_brk st + 1)
                                     (Z.to_nat ext - 1)) as Hblock.
    { unfold block. replace (Z.to_nat ext) with (S (Z.to_nat ext - 1)) by lia.
      rewrite block_cells_S. do 2 f_equal. lia. }
    assert (hd NULL (block_cells (pool_brk st + 1) (Z.to_nat ext - 1) ++ A1)
            = pool_brk st + 1) as Hsecond.
    { replace (Z.to_nat ext - 1)%nat with (S (Z.to_nat ext - 2)) by lia.
      by rewrite block_cells_S. }
    destruct (alloc_object_step fuel needs_finalization st2' []
                (block_cells (pool_brk st + 1) (Z.to_nat ext - 1) ++ A1)
                (pool_brk st))
      as (st3 & Htake & Hnf3 & Hact3 & HA3 & Hcol3 & Hkeep3 & Hdata3 & Hlive3
          & _ & _ & _ & Hold3 & Hroots3 & Hpin3 & Hcc3).
    { simpl. by rewrite Hblock in HA2. }
    { done. }
    { simpl. by rewrite Hfin2. }
    assert (Next_Free_Object st2' ≠ NULL) as Hfree2.
    { simpl. rewrite Hnf2. unfold NULL. lia. }
    destruct (proj2 (alloc_object_fast_regs fuel needs_finalization st2' Hfree2)
                _ _ Htake) as [Hnhe3 Hbrk3].
    exists st2, st3. split; [done|]. split; [done|].
    split; [done|]. split; [done|]. split.
    { rewrite <- Htake.
      apply (alloc_object_after_collect fuel _ st _ st1 st2' Hnull Hrun);
        [|done].
      rewrite Hnhe1. rewrite decide_True by done. by rewrite Hext. }
    split.
    { rewrite Hnhe3. simpl. rewrite Hnhe2, Hnhe1.
      rewrite wrap_long_id; lia. }
    split; [by rewrite Hbrk3|]. split; [by rewrite Hnf3, Hsecond|].
    split; [by rewrite Hblock|]. split.
    { rewrite Hold3. apply (dll_rep_links (heap st2)); [|done].
      intros y Hy. unfold links. rewrite Hkeep3; [done|].
      intros ->. destruct (HO1out _ Hy) as [Hb _]. apply Hb.
      rewrite Hblock. by left. }
    split; [done|]. split.
    { intros x Hx. destruct (decide (x = pool_brk st)) as [->|Hne].
      - rewrite Hcol3. simpl. by rewrite Hcc2.
      - rewrite Hkeep3 by done. by apply Hcol2. }
    split.
    { intros y Hy. rewrite <- Hmarks2 by done. unfold marks.
      rewrite Hkeep3; [done|]. intros ->. apply Hy. rewrite Hblock. by left. }
    rewrite Hlive3. simpl. by rewrite Hfin2.
  - (* enough was freed *)
    intros Hkeep.
    destruct A1 as [|x A1'].
    { exfalso. apply Hkeep. left. by rewrite Hnum1. }
    pose proof (cp_next_free _ _ _ _ _ _ Hp) as Hnf1.
    destruct (dll_rep_head_cell _ _ _ _ HA1) as (Hhd & Hx & Hs).
    destruct (alloc_object_step fuel needs_finalization st1 [] A1' x)
      as (st3 & Htake & Hnf3 & Hact3 & HA3 & Hcol3 & Hkeep3 & Hdata3 & Hlive3
          & _ & _ & _ & Hold3 & Hroots3 & Hpin3 & Hcc3).
    { done. }
    { by rewrite Hnf1. }
    { done. }
    assert (Next_Free_Object st1 ≠ NULL) as Hfree1 by (by rewrite Hnf1, Hhd).
    destruct (proj2 (alloc_object_fast_regs fuel needs_finalization st1 Hfree1)
                _ _ Htake) as [Hnhe3 Hbrk3].
    exists x, A1', st3. split; [done|]. split.
    { rewrite <- Htake.
      apply (alloc_object_after_collect fuel _ st _ st1 st1 Hnull Hrun);
        [|done].
      rewrite Hnhe1. by rewrite decide_False by done. }
    split; [congruence|]. split; [congruence|]. split; [done|].
    split; [done|]. split.
    { rewrite Hold3. apply (dll_rep_links (heap st1)); [|done].
      intros y Hy. unfold links. rewrite Hkeep3; [done|].
      intros ->. apply NoDup_app in Hdisj1 as (_ & Hd & _).
      apply (Hd x); [by left|done]. }
    split; [done|]. split; [done|]. split; [done|]. done.
  - (* both cases return *)
    intros Hcase1 Hcase2 code Hexit.
    destruct (decide (num_objects (Active_Heap_Objects st1) = 0
                      ∨ Z.quot (Next_Heap_Extension st)
                          (num_objects (Active_Heap_Objects st1)) > 2))
      as [Hgrow|Hkeep].
    + destruct (Hcase1 Hgrow) as (? & ? & _ & _ & _ & _ & Hret & _).
      congruence.
    + destruct (Hcase2 Hkeep) as (? & ? & ? & _ & Hret & _). congruence.
Qed.

Lemma example_full_fresh p :
  is_Some (heap example_full !! p) → p < pool_brk example_full.
Proof.
  intros [o Ho]. simpl in *. unfold example_heap in Ho.
  apply elem_of_list_to_map_2 in Ho.
  repeat (inversion Ho as [|? ? ? Ho']; [lia|]; clear Ho; subst;
          rename Ho' into Ho).
  inversion Ho.
Qed.

Lemma alloc_object_collects_then_extends_witness :
  ∃ freed st1 A1 O1,
    baker_collect 5 example_full = Some (freed, st1)
    ∧ gc_ok st1 A1 O1 ∧ freed = Z.of_nat (length A1)
    ∧ (freed = 0 ∨ Z.quot (Next_Heap_Extension example_full) freed > 2 →
       ∃ st2 st3,
         extend_heap (Next_Heap_Extension example_full) st1 = Some st2
         ∧ dll_rep (heap st2) (Active_Heap_Objects st2)
             (block_cells (pool_brk example_full) (Z.to_nat (Next_Heap_Extension example_full))
              ++ A1)
         ∧ dll_rep (heap st2) (Old_Heap_Objects st2) O1
         ∧ Next_Free_Object st2 = pool_brk example_full
         ∧ alloc_object 5 false example_full = Ok (pool_brk example_full, st3)
         ∧ Next_Heap_Extension st3 = 3 * Next_Heap_Extension example_full
         ∧ pool_brk st3 = pool_brk example_full + Next_Heap_Extension example_full
         ∧ Next_Free_Object st3 = pool_brk example_full + 1
         ∧ dll_rep (heap st3) (Active_Heap_Objects st3)
             (block_cells (pool_brk example_full) (Z.to_nat (Next_Heap_Extension example_full))
              ++ A1)
         ∧ dll_rep (heap st3) (Old_Heap_Objects st3) O1
         ∧ (∀ y, y ≠ pool_brk example_full → heap st3 !! y = heap st2 !! y)
         ∧ (∀ x, x ∈ block_cells (pool_brk example_full)
                       (Z.to_nat (Next_Heap_Extension example_full)) →
                 color <$> heap st3 !! x = Some (current_color st1))
         ∧ (∀ y, y ∉ block_cells (pool_brk example_full)
                       (Z.to_nat (Next_Heap_Extension example_full)) →
                 marks (heap st3) y = marks (heap st1) y)
         ∧ live (Finalizable_Objects st3)
           = live (Finalizable_Objects st1)
             ++ (if false then [pool_brk example_full] else []))
    ∧ (¬ (freed = 0 ∨ Z.quot (Next_Heap_Extension example_full) freed > 2) →
       ∃ x A1' st3,
         A1 = x :: A1'
         ∧ alloc_object 5 false example_full = Ok (x, st3)
         ∧ Next_Heap_Extension st3 = Next_Heap_Extension example_full
         ∧ pool_brk st3 = pool_brk example_full
         ∧ Next_Free_Object st3 = hd NULL A1'
         ∧ dll_rep (heap st3) (Active_Heap_Objects st3) A1
         ∧ dll_rep (heap st3) (Old_Heap_Objects st3) O1
         ∧ (∀ y, y ≠ x → heap st3 !! y = heap st1 !! y)
         ∧ color <$> heap st3 !! x = Some (current_color st1)
         ∧ (∀ y, data <$> heap st3 !! y = data <$> heap st1 !! y)
         ∧ live (Finalizable_Objects st3)
           = live (Finalizable_Objects st1)
             ++ (if false then [x] else []))
    ∧ (∀ code, alloc_object 5 false example_full ≠ Exit code)
    ∧ (∀ st0 code,
         alloc_object 5 false st0 = Exit code ↔
         code = 2 ∧ Next_Free_Object st0 = NULL
         ∧ ∃ freed0 st1' st2',
             baker_collect 5 st0 = Some (freed0, st1')
             ∧ ((freed0 = 0 ∨ Z.quot (Next_Heap_Extension st1') freed0 > 2)
                ∧ extend_heap (Next_Heap_Extension st1') st1' = Some st2'
                ∨ ¬ (freed0 = 0
                     ∨ Z.quot (Next_Heap_Extension st1') freed0 > 2)
                  ∧ st2' = st1')
             ∧ Next_Free_Object st2' = NULL).
Proof.
  apply (alloc_object_collects_then_extends 5 false example_full
           [4; 5] [1; 2; 3] example_full_ok).
  - simpl. lia.
  - unfold INT_MAX. simpl. lia.
  - simpl. lia.
  - exact example_full_fresh.
  - simpl. lia.
  - reflexivity.
Defined.

End AllocatorClaims.

(** ** Properties of the root stacks and the collector *)

Module HeapProperties.
Import StackSet GC GCInv GCFacts GCExample GCSetup GCBlock HeapFacts MoreExamples.
Import CollectorClaims.

(** The cells of the example heap lie below its pool break. *)
Lemma example_heap_below p :
  is_Some (heap example_gc !! p) → p < pool_brk example_gc.
Proof.
  intros [o Ho]. simpl in *. destruct (decide (p < 6)); [done|].
  unfold example_heap in Ho. simpl in Ho.
  rewrite !lookup_insert_ne in Ho by lia. by rewrite lookup_empty in Ho.
Qed.

(** X1: [stack_set_push] on a stack with at least one slot stores the value
    on top: the entries below are kept, the height grows by one, and the
    array doubles exactly when it was full.  On a stack of no slots the
    doubling leaves no slot and the store is out of bounds. *)
Theorem stack_set_push_appends_and_doubles (ss : stack_set) (value : Z) :
  stack_ok ss → size ss ≤ 2 ^ 61 →
  (size ss = 0 → stack_set_push ss value = None)
  ∧ (1 ≤ size ss →
     ∃ ss', stack_set_push ss value = Some ss'
       ∧ live ss' = live ss ++ [value]
       ∧ top ss' = top ss + 1
       ∧ size ss' = (if decide (top ss = size ss) then 2 * size ss else size ss)
       ∧ stack_ok ss').
Proof.
  intros Hok Hmax. split.
  - intros H0. destruct Hok as [Htop Hlen]. unfold stack_set_push.
    rewrite decide_True by lia. simpl. rewrite H0. simpl.
    unfold aset. rewrite length_app. simpl.
    rewrite decide_False by lia. done.
  - intros H1.
    destruct (GCFacts.stack_set_push_spec ss value Hok ltac:(lia)
                ltac:(destruct Hok; lia)) as (ss' & Hpush & Hlive & Htop & Hok' & _).
    exists ss'. split; [done|]. split; [done|]. split; [done|]. split; [|done].
    revert Hpush. unfold stack_set_push.
    destruct (decide (top ss = size ss)); simpl.
    + unfold aset. destruct (decide _); [|done]. simpl. intros [= <-]. simpl.
      rewrite wrap_long_id by (destruct Hok; lia). lia.
    + unfold aset. destruct (decide _); [|done]. simpl. by intros [= <-].
Qed.

Lemma stack_set_push_appends_and_doubles_witness :
  (size example_full_roots = 0 → stack_set_push example_full_roots 33 = None)
  ∧ (1 ≤ size example_full_roots →
     ∃ ss', stack_set_push example_full_roots 33 = Some ss'
       ∧ live ss' = live example_full_roots ++ [33]
       ∧ top ss' = top example_full_roots + 1
       ∧ size ss'
         = (if decide (top example_full_roots = size example_full_roots)
            then 2 * size example_full_roots else size example_full_roots)
       ∧ stack_ok ss').
Proof.
  apply (stack_set_push_appends_and_doubles example_full_roots 33).
  - unfold stack_ok. simpl. lia.
  - simpl. lia.
Defined.

(** X2: [push_root(&r)] followed by [pop_root(&r)] gives back the entries
    that were pinned before, whether or not [&r] was among them. *)
Theorem push_root_then_pop_root_restores (roots : stack_set) (root : Z) :
  stack_ok roots → 1 ≤ size roots ≤ 2 ^ 61 → top roots < 2 ^ 31 →
  ∃ roots1 roots2,
    push_root roots root = Some roots1
    ∧ pop_root roots1 root = Ok roots2
    ∧ live roots2 = live roots
    ∧ top roots2 = top roots
    ∧ stack_ok roots2.
Proof.
  intros Hok Hsize Htop.
  destruct (GCFacts.stack_set_push_spec roots root Hok ltac:(lia)
              ltac:(lia)) as (r1 & Hpush & Hlive & Htop1 & Hok1 & _).
  destruct (StackSetFacts.stack_set_pop_present r1 root (live roots) [])
    as (r2 & Hpop & Hlive2 & Htop2 & _ & Hok2);
    [done|lia|done|apply not_elem_of_nil|].
  exists r1, r2. split; [done|]. unfold pop_root. rewrite Hpop.
  split; [done|]. split; [by rewrite Hlive2, app_nil_r|]. split; [lia|done].
Qed.

Lemma push_root_then_pop_root_restores_witness :
  ∃ roots1 roots2,
    push_root example_full_roots 11 = Some roots1
    ∧ pop_root roots1 11 = Ok roots2
    ∧ live roots2 = live example_full_roots
    ∧ top roots2 = top example_full_roots
    ∧ stack_ok roots2.
Proof.
  apply (push_root_then_pop_root_restores example_full_roots 11).
  - unfold stack_ok. simpl. lia.
  - simpl. lia.
  - simpl. lia.
Defined.

(** X3: [stack_set_pop] of a value the stack does not hold reports
    failure, and has by then lowered the height by one and moved every
    entry down one slot: the bottom entry is lost. *)
Theorem stack_set_pop_absent_drops_bottom (ss : stack_set) (value : Z) :
  stack_ok ss → 0 < top ss ≤ 2 ^ 31 →
  value ∉ live ss →
  ∃ ss', stack_set_pop ss value = Some (false, ss')
    ∧ top ss' = top ss - 1
    ∧ live ss' = drop 1 (live ss).
Proof.
  intros Hok Hint Hnin.
  destruct (StackSetFacts.live_split ss Hok) as [Hobjs Hlen].
  set (rest := drop (Z.to_nat (top ss)) (objs ss)) in *.
  destruct (live ss) as [|t l _] using rev_ind; [simpl in Hlen; lia|].
  apply not_elem_of_app in Hnin as [Hnin Ht].
  assert (t ≠ value) as Hne by (intros ->; apply Ht; by left).
  rewrite length_app in Hlen. simpl in Hlen.
  unfold stack_set_pop.
  rewrite wrap_long_id by lia.
  replace (top ss - 1) with (Z.of_nat (length l)) by lia.
  rewrite aget_nat, Hobjs, <- app_assoc. simpl.
  rewrite lookup_app_r, Nat.sub_diag by lia. simpl.
  rewrite decide_True by done.
  rewrite wrap_int_id by lia.
  replace (Z.to_nat (Z.of_nat (length l) - 1 + 1)) with (length l) by lia.
  rewrite (scan_back_shift l (t :: rest) t value Hnin). simpl.
  eexists. split; [done|]. split; [done|].
  unfold live. simpl. rewrite Nat2Z.id.
  apply take_app_length'. rewrite length_drop, length_app. simpl. lia.
Qed.

Lemma stack_set_pop_absent_drops_bottom_witness :
  ∃ ss', stack_set_pop example_full_roots 99 = Some (false, ss')
    ∧ top ss' = top example_full_roots - 1
    ∧ live ss' = drop 1 (live example_full_roots).
Proof.
  apply (stack_set_pop_absent_drops_bottom example_full_roots 99).
  - unfold stack_ok. simpl. lia.
  - simpl. lia.
  - apply (bool_decide_unpack _). vm_compute. exact I.
Defined.

(** X4: [move_object_to_head] takes a cell out of a well-formed source
    list, wherever it stands in it, and makes it the head of a
    well-formed destination list that shares no cell with the source.
    Both lists are well formed afterwards, with their counts adjusted, and
    no payload or color has changed. *)
Theorem move_object_to_head_relinks (s : lists) (A1 A2 O : list Z) (obj : Z) :
  dll_rep (mem s) (src_list s) (A1 ++ obj :: A2) →
  dll_rep (mem s) (dest_list s) O →
  NoDup ((A1 ++ obj :: A2) ++ O) →
  Z.of_nat (length ((A1 ++ obj :: A2) ++ O)) ≤ 2 ^ 61 →
  ∃ s', move_object_to_head obj s = Some s'
    ∧ dll_rep (mem s') (src_list s') (A1 ++ A2)
    ∧ dll_rep (mem s') (dest_list s') (obj :: O)
    ∧ num_objects (src_list s') = num_objects (src_list s) - 1
    ∧ num_objects (dest_list s') = num_objects (dest_list s) + 1
    ∧ ∀ y, marks (mem s') y = marks (mem s) y.
Proof.
  intros Hsrc Hdest Hnd Hlen.
  destruct (move_object_to_head_spec s A1 obj A2 O Hsrc Hdest Hnd Hlen)
    as (s' & Hrun & Hsrc' & Hdest' & Hmarks).
  exists s'. split; [done|]. split; [done|]. split; [done|].
  destruct Hsrc as (_ & _ & _ & _ & Hn), Hdest as (_ & _ & _ & _ & Hm).
  destruct Hsrc' as (_ & _ & _ & _ & Hn'), Hdest' as (_ & _ & _ & _ & Hm').
  rewrite Hn, Hn', Hm, Hm'. rewrite !length_app. simpl.
  split; [lia|]. split; [lia|done].
Qed.

Lemma move_object_to_head_relinks_witness :
  ∃ s', move_object_to_head 5 example_lists = Some s'
    ∧ dll_rep (mem s') (src_list s') ([4] ++ [])
    ∧ dll_rep (mem s') (dest_list s') (5 :: [1; 2; 3])
    ∧ num_objects (src_list s') = num_objects (src_list example_lists) - 1
    ∧ num_objects (dest_list s') = num_objects (dest_list example_lists) + 1
    ∧ ∀ y, marks (mem s') y = marks (mem example_lists) y.
Proof.
  apply (move_object_to_head_relinks example_lists [4] [] [1; 2; 3] 5).
  - exact (ok_active _ _ _ example_gc_ok).
  - exact (ok_old _ _ _ example_gc_ok).
  - exact (ok_disjoint _ _ _ example_gc_ok).
  - simpl. lia.
Defined.

(** X5: [append_to_tail(dest, src)] on two well-formed lists without a
    common cell leaves in [dest] the cells of [dest] followed by those of
    [src], and leaves [src] empty; either list may be empty.  No payload
    or color changes. *)
Theorem append_to_tail_concatenates (h : gmap Z object)
    (dest src : doubly_linked_list) (A O : list Z) :
  dll_rep h dest A → dll_rep h src O → NoDup (A ++ O) →
  Z.of_nat (length (A ++ O)) ≤ 2 ^ 61 →
  ∃ h' dest' src',
    append_to_tail h dest src = Some (h', dest', src')
    ∧ dll_rep h' dest' (A ++ O)
    ∧ dll_rep h' src' []
    ∧ num_objects dest' = num_objects dest + num_objects src
    ∧ num_objects src' = 0
    ∧ ∀ y, marks h' y = marks h y.
Proof.
  intros Hd Hs Hnd Hlen.
  destruct (append_to_tail_spec h dest src A O Hd Hs Hnd Hlen)
    as (h' & dest' & src' & Hrun & Hd' & Hs' & Hmarks).
  exists h', dest', src'. split; [done|]. split; [done|]. split; [done|].
  destruct Hd as (_ & _ & _ & _ & Hn), Hs as (_ & _ & _ & _ & Hm).
  destruct Hd' as (_ & _ & _ & _ & Hn'), Hs' as (_ & _ & _ & _ & Hm').
  rewrite Hn, Hn', Hm, Hm'. rewrite !length_app. simpl.
  split; [lia|]. split; [lia|done].
Qed.

Lemma append_to_tail_concatenates_witness :
  ∃ h' dest' src',
    append_to_tail example_heap (Old_Heap_Objects example_gc)
      (Active_Heap_Objects example_gc) = Some (h', dest', src')
    ∧ dll_rep h' dest' ([1; 2; 3] ++ [4; 5])
    ∧ dll_rep h' src' []
    ∧ num_objects dest'
      = num_objects (Old_Heap_Objects example_gc)
        + num_objects (Active_Heap_Objects example_gc)
    ∧ num_objects src' = 0
    ∧ ∀ y, marks h' y = marks example_heap y.
Proof.
  apply (append_to_tail_concatenates example_heap (Old_Heap_Objects example_gc)
           (Active_Heap_Objects example_gc) [1; 2; 3] [4; 5]).
  - exact (ok_old _ _ _ example_gc_ok).
  - exact (ok_active _ _ _ example_gc_ok).
  - apply (bool_decide_unpack _). vm_compute. exact I.
  - simpl. lia.
Defined.

(** X6: a collection keeps exactly the reachable objects: afterwards the
    Old list holds the objects that were reachable from the roots and no
    other, every other cell is on the Active list, free for reuse, and
    the two lists together hold the cells they held before. *)
Theorem baker_collect_keeps_exactly_the_reachable (fuel : nat) (st : gc_state)
    (A O : list Z) :
  gc_ok st A O → (length (A ++ O) ≤ fuel)%nat →
  ∃ num_free st' A' O',
    baker_collect fuel st = Some (num_free, st')
    ∧ dll_rep (heap st') (Active_Heap_Objects st') A'
    ∧ dll_rep (heap st') (Old_Heap_Objects st') O'
    ∧ A' ++ O' ≡ₚ A ++ O
    ∧ (∀ y, y ∈ O' ↔ reachable st y)
    ∧ (∀ y, y ∈ A ++ O → ¬ reachable st y → y ∈ A')
    ∧ num_free = Z.of_nat (length A').
Proof.
  intros Hok Hfuel.
  destruct (baker_collect_spec fuel st A O Hok Hfuel) as (st' & A' & O' & Hrun & Hpost).
  exists (num_objects (Active_Heap_Objects st')), st', A', O'.
  pose proof (ok_active _ _ _ (cp_ok _ _ _ _ _ _ Hpost)) as HA.
  split; [done|]. split; [done|].
  split; [exact (ok_old _ _ _ (cp_ok _ _ _ _ _ _ Hpost))|].
  split; [exact (cp_perm _ _ _ _ _ _ Hpost)|].
  split; [exact (cp_old _ _ _ _ _ _ Hpost)|].
  split; [|by destruct HA as (_ & _ & _ & _ & ?)].
  intros y Hy Hnr. rewrite <- (cp_perm _ _ _ _ _ _ Hpost) in Hy.
  apply elem_of_app in Hy as [Hy|Hy]; [done|].
  by apply (cp_old _ _ _ _ _ _ Hpost) in Hy.
Qed.

Lemma baker_collect_keeps_exactly_the_reachable_witness :
  ∃ num_free st' A' O',
    baker_collect 5%nat example_gc = Some (num_free, st')
    ∧ dll_rep (heap st') (Active_Heap_Objects st') A'
    ∧ dll_rep (heap st') (Old_Heap_Objects st') O'
    ∧ A' ++ O' ≡ₚ [4; 5] ++ [1; 2; 3]
    ∧ (∀ y, y ∈ O' ↔ reachable example_gc y)
    ∧ (∀ y, y ∈ [4; 5] ++ [1; 2; 3] → ¬ reachable example_gc y → y ∈ A')
    ∧ num_free = Z.of_nat (length A').
Proof.
  apply (baker_collect_keeps_exactly_the_reachable 5 example_gc [4; 5]
           [1; 2; 3] example_gc_ok).
  simpl. lia.
Defined.

(** X7: a collection changes links, colors and list headers only: no
    payload changes, the root stack and the pinned references are as
    before, and so are the pending extension size and the pool. *)
Theorem baker_collect_keeps_payloads_and_roots (fuel : nat) (st : gc_state)
    (A O : list Z) :
  gc_ok st A O → (length (A ++ O) ≤ fuel)%nat →
  ∃ num_free st',
    baker_collect fuel st = Some (num_free, st')
    ∧ (∀ y, data <$> heap st' !! y = data <$> heap st !! y)
    ∧ Root_Objects st' = Root_Objects st
    ∧ pinned st' = pinned st
    ∧ Next_Heap_Extension st' = Next_Heap_Extension st
    ∧ pool_brk st' = pool_brk st
    ∧ ∀ y, reachable st' y ↔ reachable st y.
Proof.
  intros Hok Hfuel.
  destruct (baker_collect_spec fuel st A O Hok Hfuel) as (st' & A' & O' & Hrun & Hpost).
  exists (num_objects (Active_Heap_Objects st')), st'.
  split; [done|]. split; [exact (cp_data _ _ _ _ _ _ Hpost)|].
  destruct (cp_roots _ _ _ _ _ _ Hpost) as [Hr Hp].
  destruct (cp_extension _ _ _ _ _ _ Hpost) as [He Hb].
  split; [done|]. split; [done|]. split; [done|]. split; [done|].
  intros y. by apply (reachable_collect st st' A O A' O').
Qed.

Lemma baker_collect_keeps_payloads_and_roots_witness :
  ∃ num_free st',
    baker_collect 5%nat example_gc = Some (num_free, st')
    ∧ (∀ y, data <$> heap st' !! y = data <$> heap example_gc !! y)
    ∧ Root_Objects st' = Root_Objects example_gc
    ∧ pinned st' = pinned example_gc
    ∧ Next_Heap_Extension st' = Next_Heap_Extension example_gc
    ∧ pool_brk st' = pool_brk example_gc
    ∧ ∀ y, reachable st' y ↔ reachable example_gc y.
Proof.
  apply (baker_collect_keeps_payloads_and_roots 5 example_gc [4; 5]
           [1; 2; 3] example_gc_ok).
  simpl. lia.
Defined.

(** X8: a collection re-establishes what it relies on: from a well-formed
    state it leaves a well-formed state, with the color advanced by two
    (as a [char]), so that collections can follow one another. *)
Theorem baker_collect_keeps_heap_well_formed (fuel : nat) (st : gc_state)
    (A O : list Z) :
  gc_ok st A O → (length (A ++ O) ≤ fuel)%nat →
  ∃ num_free st' A' O',
    baker_collect fuel st = Some (num_free, st')
    ∧ gc_ok st' A' O'
    ∧ (length (A' ++ O') ≤ fuel)%nat
    ∧ current_color st' = wrap_char (wrap_char (current_color st + 1) + 1).
Proof.
  intros Hok Hfuel.
  destruct (baker_collect_spec fuel st A O Hok Hfuel) as (st' & A' & O' & Hrun & Hpost).
  exists (num_objects (Active_Heap_Objects st')), st', A', O'.
  split; [done|]. split; [exact (cp_ok _ _ _ _ _ _ Hpost)|].
  split; [|exact (cp_color _ _ _ _ _ _ Hpost)].
  by rewrite (cp_perm _ _ _ _ _ _ Hpost).
Qed.

Lemma baker_collect_keeps_heap_well_formed_witness :
  ∃ num_free st' A' O',
    baker_collect 5%nat example_gc = Some (num_free, st')
    ∧ gc_ok st' A' O'
    ∧ (length (A' ++ O') ≤ 5%nat)%nat
    ∧ current_color st' = wrap_char (wrap_char (current_color example_gc + 1) + 1).
Proof.
  apply (baker_collect_keeps_heap_well_formed 5 example_gc [4; 5]
           [1; 2; 3] example_gc_ok).
  simpl. lia.
Defined.

(** X9: [extend_heap(extension)], for [extension >= 2], puts the cells of
    a new block in front of the Active list in address order: the list is
    well formed, it holds the new cells followed by the old ones, the free
    pointer is the first new cell, every new cell carries the current
    color, and no payload or color of an old cell has changed. *)
Theorem extend_heap_prepends_block (extension : Z) (st : gc_state) (A : list Z) :
  2 ≤ extension ≤ INT_MAX → 0 < pool_brk st →
  (∀ p, is_Some (heap st !! p) → p < pool_brk st) →
  dll_rep (heap st) (Active_Heap_Objects st) A →
  Z.of_nat (length A) + extension ≤ 2 ^ 61 →
  ∃ st',
    extend_heap extension st = Some st'
    ∧ dll_rep (heap st') (Active_Heap_Objects st')
        (block_cells (pool_brk st) (Z.to_nat extension) ++ A)
    ∧ Next_Free_Object st' = pool_brk st
    ∧ pool_brk st' = pool_brk st + extension
    ∧ (∀ x, x ∈ block_cells (pool_brk st) (Z.to_nat extension) →
            color <$> heap st' !! x = Some (current_color st))
    ∧ (∀ y, y ∉ block_cells (pool_brk st) (Z.to_nat extension) →
            marks (heap st') y = marks (heap st) y)
    ∧ Old_Heap_Objects st' = Old_Heap_Objects st
    ∧ current_color st' = current_color st.
Proof.
  intros Hext Hbrk Hfresh HA Hlen.
  destruct (extend_heap_layout extension st A Hext Hbrk Hfresh HA Hlen)
    as (st' & H1 & H2 & H3 & H4 & H5 & H6 & H7 & H8 & _).
  exists st'. repeat (split; [done|]). done.
Qed.

Lemma extend_heap_prepends_block_witness :
  ∃ st',
    extend_heap 2 example_gc = Some st'
    ∧ dll_rep (heap st') (Active_Heap_Objects st')
        (block_cells (pool_brk example_gc) (Z.to_nat 2) ++ [4; 5])
    ∧ Next_Free_Object st' = pool_brk example_gc
    ∧ pool_brk st' = pool_brk example_gc + 2
    ∧ (∀ x, x ∈ block_cells (pool_brk example_gc) (Z.to_nat 2) →
            color <$> heap st' !! x = Some (current_color example_gc))
    ∧ (∀ y, y ∉ block_cells (pool_brk example_gc) (Z.to_nat 2) →
            marks (heap st') y = marks (heap example_gc) y)
    ∧ Old_Heap_Objects st' = Old_Heap_Objects example_gc
    ∧ current_color st' = current_color example_gc.
Proof.
  apply (extend_heap_prepends_block 2 example_gc [4; 5]).
  - unfold INT_MAX. lia.
  - simpl. lia.
  - exact example_heap_below.
  - exact (ok_active _ _ _ example_gc_ok).
  - simpl. lia.
Defined.

(** X10: [extend_heap(1)] does not give a well-formed list: the only new
    cell becomes the head of the Active list with its [prev] set to
    [&new_heap[-1]], the address before the block, not to nil. *)
Theorem extend_heap_of_one_cell_is_ill_formed (st : gc_state) :
  1 < pool_brk st →
  (∀ p, is_Some (heap st !! p) → p < pool_brk st) →
  (head (Active_Heap_Objects st) ≠ NULL →
   is_Some (heap st !! head (Active_Heap_Objects st))) →
  ∃ st' o,
    extend_heap 1 st = Some st'
    ∧ head (Active_Heap_Objects st') = pool_brk st
    ∧ heap st' !! pool_brk st = Some o
    ∧ prev o = pool_brk st - 1
    ∧ ∀ l, ¬ dll_rep (heap st') (Active_Heap_Objects st') l.
Proof.
  intros Hbrk Hfresh Hhead.
  set (base := pool_brk st).
  assert (base + 0 ≠ NULL) as Hnn by (unfold NULL, base; lia).
  assert (∃ st' o, extend_heap 1 st = Some st'
            ∧ head (Active_Heap_Objects st') = base
            ∧ heap st' !! base = Some o ∧ prev o = base - 1)
    as (st' & o & Hrun & Hh & Ho & Hp).
  { unfold extend_heap, MALLOC_objects.
    cbn [heap current_color Active_Heap_Objects with_pool].
    change (Z.to_nat 1) with 1%nat. cbn [fresh_cells]. fold base.
    replace (base + 0) with base in * by lia.
    rewrite (store_prev_at _ _ _ _ Hnn (lookup_insert_eq _ _ _)).
    cbn [mbind option_bind].
    rewrite (store_next_at _ _ _ _ Hnn (lookup_insert_eq _ _ _)).
    cbn [mbind option_bind].
    rewrite (store_color_at _ _ _ _ Hnn (lookup_insert_eq _ _ _)).
    cbn [mbind option_bind].
    unfold for_up. change (Z.to_nat (1 - 1 - 1)) with 0%nat. cbn [for_int].
    cbn [mbind option_bind].
    replace (base + (1 - 1)) with base by lia.
    rewrite (store_next_at _ _ _ _ Hnn (lookup_insert_eq _ _ _)).
    cbn [mbind option_bind].
    rewrite (store_prev_at _ _ _ _ Hnn (lookup_insert_eq _ _ _)).
    cbn [mbind option_bind].
    rewrite !insert_insert_eq.
    destruct (decide (head (Active_Heap_Objects st) ≠ NULL)) as [Hne|He].
    - destruct (Hhead Hne) as [oh Hoh].
      assert (head (Active_Heap_Objects st) ≠ base) as Hhb.
      { intros E. specialize (Hfresh _ (Hhead Hne)). unfold base in E. lia. }
      rewrite (store_prev_at _ _ oh _ Hne) by (by rewrite lookup_insert_ne).
      cbn [mbind option_bind].
      rewrite (store_color_at _ _ _ _ Hnn)
        by (rewrite lookup_insert_ne by done; apply lookup_insert_eq).
      cbn [mbind option_bind].
      eexists _, _. split; [done|]. split; [done|].
      cbn [with_lists heap mem]. split; [apply lookup_insert_eq|]. simpl. lia.
    - cbn [mbind option_bind].
      rewrite (store_color_at _ _ _ _ Hnn (lookup_insert_eq _ _ _)).
      cbn [mbind option_bind].
      eexists _, _. split; [done|]. split; [done|].
      cbn [with_lists heap mem]. split; [apply lookup_insert_eq|]. simpl. lia. }
  exists st', o. split; [done|]. split; [done|]. split; [done|]. split; [done|].
  intros l (_ & Hseg & Hhd & _).
  destruct l as [|x l]; simpl in Hhd.
  - rewrite Hh in Hhd. unfold NULL, base in Hhd. lia.
  - simpl in Hseg. destruct Hseg as (_ & (o' & Ho' & Hp' & _) & _).
    rewrite Hh in Hhd. subst x. rewrite Ho in Ho'. injection Ho' as <-.
    rewrite Hp in Hp'. unfold NULL, base in Hp'. lia.
Qed.

Lemma extend_heap_of_one_cell_is_ill_formed_witness :
  ∃ st' o,
    extend_heap 1 example_gc = Some st'
    ∧ head (Active_Heap_Objects st') = pool_brk example_gc
    ∧ heap st' !! pool_brk example_gc = Some o
    ∧ prev o = pool_brk example_gc - 1
    ∧ ∀ l, ¬ dll_rep (heap st') (Active_Heap_Objects st') l.
Proof.
  apply (extend_heap_of_one_cell_is_ill_formed example_gc).
  - simpl. lia.
  - exact example_heap_below.
  - intros _. apply (bool_decide_unpack _). vm_compute. exact I.
Defined.

(** X11: while [Next_Free_Object] points into the Active list,
    [alloc_object] runs no collection: it returns that cell, gives it the
    current color, registers it for finalization if asked, and moves the
    free pointer to the next cell of the list (nil after the last one).
    The lists, every payload and every other cell are as before. *)
Theorem alloc_object_takes_next_free_cell (fuel : nat)
    (needs_finalization : bool) (st : gc_state) (pre post : list Z) (x : Z) :
  dll_rep (heap st) (Active_Heap_Objects st) (pre ++ x :: post) →
  Next_Free_Object st = x →
  stack_fits (Finalizable_Objects st) →
  ∃ st',
    alloc_object fuel needs_finalization st = Ok (x, st')
    ∧ Next_Free_Object st' = hd NULL post
    ∧ Active_Heap_Objects st' = Active_Heap_Objects st
    ∧ dll_rep (heap st') (Active_Heap_Objects st') (pre ++ x :: post)
    ∧ color <$> heap st' !! x = Some (current_color st)
    ∧ (∀ y, y ≠ x → heap st' !! y = heap st !! y)
    ∧ (∀ y, data <$> heap st' !! y = data <$> heap st !! y)
    ∧ live (Finalizable_Objects st')
      = live (Finalizable_Objects st) ++ (if needs_finalization then [x] else [])
    ∧ stack_ok (Finalizable_Objects st')
    ∧ Old_Heap_Objects st' = Old_Heap_Objects st
    ∧ Root_Objects st' = Root_Objects st
    ∧ pinned st' = pinned st
    ∧ current_color st' = current_color st.
Proof.
  intros HA Hx Hfit.
  destruct (alloc_object_step fuel needs_finalization st pre post x HA Hx Hfit)
    as (st' & H1 & H2 & H3 & H4 & H5 & H6 & H7 & H8 & H9 & _ & _ & H10 & H11
        & H12 & H13).
  exists st'. repeat (split; [done|]). done.
Qed.

Lemma alloc_object_takes_next_free_cell_witness :
  ∃ st',
    alloc_object 0%nat true example_gc = Ok (5, st')
    ∧ Next_Free_Object st' = hd NULL []
    ∧ Active_Heap_Objects st' = Active_Heap_Objects example_gc
    ∧ dll_rep (heap st') (Active_Heap_Objects st') ([4] ++ 5 :: [])
    ∧ color <$> heap st' !! 5 = Some (current_color example_gc)
    ∧ (∀ y, y ≠ 5 → heap st' !! y = heap example_gc !! y)
    ∧ (∀ y, data <$> heap st' !! y = data <$> heap example_gc !! y)
    ∧ live (Finalizable_Objects st')
      = live (Finalizable_Objects example_gc) ++ (if true then [5] else [])
    ∧ stack_ok (Finalizable_Objects st')
    ∧ Old_Heap_Objects st' = Old_Heap_Objects example_gc
    ∧ Root_Objects st' = Root_Objects example_gc
    ∧ pinned st' = pinned example_gc
    ∧ current_color st' = current_color example_gc.
Proof.
  apply (alloc_object_takes_next_free_cell 0 true example_gc [4] [] 5).
  - exact (ok_active _ _ _ example_gc_ok).
  - reflexivity.
  - unfold stack_fits, stack_ok. simpl. lia.
Defined.

(** X12: between two collections the allocator hands out the free cells in
    list order, each once: [n] calls in a row return the [n] cells that
    follow [Next_Free_Object] on the Active list, without a collection,
    and leave the free pointer on the cell after them. *)
Theorem alloc_objects_follow_the_active_list (fuel : nat)
    (needs_finalization : bool) (cells : list Z) :
  ∀ (st : gc_state) (pre post : list Z),
    dll_rep (heap st) (Active_Heap_Objects st) (pre ++ cells ++ post) →
    Next_Free_Object st = hd NULL (cells ++ post) →
    stack_fits (Finalizable_Objects st) →
    top (Finalizable_Objects st) + Z.of_nat (length cells) ≤ 2 ^ 61 →
    ∃ st',
      alloc_objects fuel (length cells) needs_finalization st = Ok (cells, st')
      ∧ Next_Free_Object st' = hd NULL post
      ∧ dll_rep (heap st') (Active_Heap_Objects st') (pre ++ cells ++ post)
      ∧ NoDup cells
      ∧ Old_Heap_Objects st' = Old_Heap_Objects st
      ∧ (∀ y, data <$> heap st' !! y = data <$> heap st !! y)
      ∧ live (Finalizable_Objects st')
        = live (Finalizable_Objects st)
          ++ (if needs_finalization then cells else []).
Proof. apply alloc_objects_spec. Qed.

(** X13: [gc_init] leaves a well-formed heap whose 1000 cells are all on
    the Active list, in address order, with nothing pinned and the free
    pointer on the first cell; the first 1000 allocations then return
    these cells one after the other without a collection, and leave no
    free cell. *)
Theorem gc_init_heap_is_all_free (pool_start : Z) (pinned0 : gmap Z Z)
    (fuel : nat) :
  0 < pool_start →
  ∃ st,
    gc_init pool_start pinned0 = Some st
    ∧ gc_ok st (block_cells pool_start 1000) []
    ∧ Next_Free_Object st = pool_start
    ∧ live (Root_Objects st) = []
    ∧ current_color st = 0
    ∧ ∃ st',
        alloc_objects fuel 1000 false st
        = Ok (block_cells pool_start 1000, st')
        ∧ Next_Free_Object st' = NULL.
Proof.
  intros Hstart. unfold gc_init.
  set (empty := {| head := NULL; tail := NULL; num_objects := 0 |}).
  set (st0 := {| heap := ∅; Active_Heap_Objects := empty |}).
  destruct (extend_heap_layout 1000 st0 [])
    as (st1 & Hrun & HA & Hnf & Hbrk & Hcol & Hmarks & Hold & Hcc & Hr & Hf & Hfn
        & Hp & _).
  { unfold INT_MAX. lia. }
  { done. }
  { intros p [o Ho]. simpl in Ho. by rewrite lookup_empty in Ho. }
  { split; [apply NoDup_nil_2|]. done. }
  { simpl. lia. }
  rewrite Hrun. cbn [mbind option_bind]. rewrite app_nil_r in HA.
  change (Z.to_nat 1000) with 1000%nat in *.
  assert (head (Active_Heap_Objects st1) = pool_start) as Hhead.
  { destruct HA as (_ & _ & Hh & _). rewrite Hh. rewrite block_cells_S. done. }
  simpl in Hr, Hf, Hfn, Hp, Hcc, Hold.
  assert (stack_fits (make_stack_set 400)) as Hfit.
  { unfold stack_fits, stack_ok, make_stack_set. simpl. lia. }
  eexists. split; [done|].
  set (st := with_next_free st1 (head (Active_Heap_Objects st1))).
  assert (∀ x, ¬ reachable st x) as Hnr.
  { intros x. unfold reachable, root_objects. simpl. rewrite Hr. simpl.
    apply reach_no_roots. }
  split; [|split; [by rewrite <- Hhead|split; [simpl; by rewrite Hr|split;
    [simpl; by rewrite Hcc|]]]].
  - split; unfold st;
      cbn [heap Active_Heap_Objects Old_Heap_Objects Root_Objects
           Finalizable_Objects Finalizable_Objects_Next current_color pinned
           with_next_free].
    + done.
    + rewrite Hold. split; [apply NoDup_nil_2|]. done.
    + rewrite ?app_nil_r. apply block_cells_NoDup.
    + rewrite ?app_nil_r, block_cells_length. lia.
    + rewrite Hr. unfold stack_ok, INT_MAX. simpl. lia.
    + rewrite Hr. intros a Ha. by apply elem_of_nil in Ha.
    + intros x Hx. by apply Hnr in Hx.
    + rewrite Hf. split; [done|]. apply NoDup_nil_2.
    + rewrite Hf. intros x Hx. by apply elem_of_nil in Hx.
    + rewrite Hfn. split; [done|]. done.
  - destruct (alloc_objects_spec fuel false
                (block_cells pool_start 1000) st [] [])
      as (st' & Hal & Hnext & _).
    + by rewrite app_nil_l, app_nil_r.
    + rewrite app_nil_r. unfold st. cbn [Next_Free_Object with_next_free].
      rewrite Hhead. by rewrite block_cells_S.
    + unfold st. cbn [Finalizable_Objects with_next_free]. by rewrite Hf.
    + unfold st. cbn [Finalizable_Objects with_next_free].
      rewrite Hf, block_cells_length. cbn [top make_stack_set]. lia.
    + rewrite block_cells_length in Hal. exists st'. done.
Qed.

Lemma gc_init_heap_is_all_free_witness :
  ∃ st,
    gc_init 1 ∅ = Some st
    ∧ gc_ok st (block_cells 1 1000) []
    ∧ Next_Free_Object st = 1
    ∧ live (Root_Objects st) = []
    ∧ current_color st = 0
    ∧ ∃ st',
        alloc_objects 0%nat 1000 false st
        = Ok (block_cells 1 1000, st')
        ∧ Next_Free_Object st' = NULL.
Proof.
  apply (gc_init_heap_is_all_free 1 ∅ 0). lia.
Defined.

Lemma alloc_objects_follow_the_active_list_witness :
  ∃ st',
      alloc_objects 0%nat (length [4; 5]) true example_free = Ok ([4; 5], st')
      ∧ Next_Free_Object st' = hd NULL []
      ∧ dll_rep (heap st') (Active_Heap_Objects st') ([] ++ [4; 5] ++ [])
      ∧ NoDup [4; 5]
      ∧ Old_Heap_Objects st' = Old_Heap_Objects example_free
      ∧ (∀ y, data <$> heap st' !! y = data <$> heap example_free !! y)
      ∧ live (Finalizable_Objects st')
        = live (Finalizable_Objects example_free)
          ++ (if true then [4; 5] else []).
Proof.
  apply (alloc_objects_follow_the_active_list 0 true [4; 5] example_free [] []).
  - exact (ok_active _ _ _ example_gc_ok).
  - reflexivity.
  - unfold stack_fits, stack_ok. simpl. lia.
  - simpl. lia.
Defined.

(** X14: [debug_validate] accepts every well-formed list except those of
    exactly two cells: on a two-cell list the loop does not run, [last]
    is still nil, and the check [iter->prev == last] of the tail fails,
    which ends the process with code 2. *)
Theorem debug_validate_rejects_two_cell_lists (fuel : nat)
    (h : gmap Z object) (d : doubly_linked_list) (l : list Z) :
  dll_rep h d l →
  Z.of_nat (length l) ≤ 2 ^ 61 → (length l ≤ fuel)%nat →
  debug_validate fuel h d
  = if decide (length l = 2%nat) then Exit 2 else Ok tt.
Proof.
  intros Hd Hlen Hfuel. pose proof Hd as (Hnd & Hseg & Hhd & Htl & Hnum).
  unfold debug_validate.
  destruct l as [|x [|y l]].
  - simpl in *. rewrite decide_True by tauto.
    rewrite Hhd, Htl, Hnum. done.
  - simpl in *. destruct Hseg as (Hxn & (o & Ho & Hp & Hn) & _).
    rewrite decide_False by (rewrite Hhd, Htl; tauto).
    rewrite Hhd, Htl. rewrite (load_Some _ _ _ Hxn Ho). cbn [of_option rbind].
    rewrite (assert_gc_true (prev o = NULL)) by done. cbn [rbind].
    rewrite decide_True by done. rewrite Hnum.
    rewrite (assert_gc_true (1 = 1)) by done. cbn [rbind].
    rewrite (assert_gc_true (next o = NULL)) by done. cbn [rbind]. done.
  - assert (x ≠ NULL) as Hxn.
    { apply (dll_rep_not_null h d _ x Hd). left. }
    assert (y ≠ NULL) as Hyn.
    { apply (dll_rep_not_null h d _ y Hd). right. left. }
    assert (tail d ≠ NULL ∧ tail d ≠ x) as [Htn Htx].
    { rewrite Htl. change (x :: y :: l) with ([x] ++ y :: l).
      rewrite last_app. destruct (last (y :: l)) as [t|] eqn:Et.
      - simpl. apply last_Some_elem_of in Et. split.
        + apply (dll_rep_not_null h d _ t Hd). by right.
        + intros ->. apply NoDup_cons in Hnd as [Hx _]. done.
      - by rewrite last_cons in Et; destruct (last l). }
    simpl in Hhd. destruct Hseg as (_ & (o & Ho & Hp & Hn) & _). simpl in Hn.
    rewrite decide_False by (rewrite Hhd; tauto).
    rewrite Hhd. rewrite (load_Some _ _ _ Hxn Ho). cbn [of_option rbind].
    rewrite (assert_gc_true (prev o = NULL)) by done. cbn [rbind].
    rewrite decide_False by congruence.
    rewrite (assert_gc_true (next o ≠ NULL)) by congruence. cbn [rbind].
    rewrite Hn.
    pose proof (validate_from_spec h d l [] x y fuel) as Hloop.
    rewrite decide_True in Hloop by done.
    change (Z.of_nat (length ([] ++ [x]))) with 1 in Hloop.
    change (([] ++ [x]) ++ y :: l) with (x :: y :: l) in Hloop.
    rewrite Hloop; [|done|exact Hlen|simpl in Hfuel; lia].
    destruct l as [|z l].
    + by rewrite !decide_True.
    + rewrite decide_False by (intros [_ ?]; done).
      by rewrite decide_False by (simpl; lia).
Qed.

Lemma debug_validate_rejects_two_cell_lists_witness :
  debug_validate 2%nat example_heap (Active_Heap_Objects example_gc)
  = if decide (length [4; 5] = 2%nat) then Exit 2 else Ok tt.
Proof.
  apply (debug_validate_rejects_two_cell_lists 2 example_heap
           (Active_Heap_Objects example_gc) [4; 5]).
  - exact (ok_active _ _ _ example_gc_ok).
  - simpl. lia.
  - simpl. lia.
Defined.

End HeapProperties.

(** ** More about the interpreter: the stack vector, frames and pins *)

Module InterpreterFacts.
Import GC VM VMInv VMFacts VMShape.

Lemma grown_size_small n : 0 ≤ n ≤ 1 → grown_size n = n.
Proof.
  intros Hn. unfold grown_size.
  assert (n = 0 ∨ n = 1) as [-> | ->] by lia; done.
Qed.

Lemma grown_size_grows n : 2 ≤ n → n < grown_size n.
Proof.
  intros Hn. unfold grown_size.
  rewrite Z.quot_div_nonneg by lia.
  assert (n + 1 ≤ n * 9 / 5) by (apply Z.div_le_lower_bound; lia). lia.
Qed.

(** [vector_push] at the end of a full vector. *)
Lemma vector_push_full_ok (rt : runtime) (st : vm) (s thing : Z)
    (l : list Z) :
  s ≠ NULL → objects st !! s = Some (VECTOR l) →
  (Z.of_nat (length l) ≤ 1 →
   vector_push rt s thing (Z.of_nat (length l)) st = Undefined)
  ∧ (2 ≤ Z.of_nat (length l) →
     vector_push rt s thing (Z.of_nat (length l)) st
     = Ok (tt,
           set_objects st
             (<[s := VECTOR
                       (l ++ thing
                          :: replicate
                               (Z.to_nat (grown_size (Z.of_nat (length l))
                                          - Z.of_nat (length l) - 1))
                               (the_empty_list rt))]> (objects st)))).
Proof.
  intros Hs Ho.
  assert (vector_push rt s thing (Z.of_nat (length l)) st
          = vector_set s (Z.of_nat (length l)) thing
              (set_objects st
                 (<[s := VECTOR
                           (l ++ replicate
                                   (Z.to_nat (grown_size (Z.of_nat (length l))
                                              - Z.of_nat (length l)))
                                   (the_empty_list rt))]> (objects st)))) as ->.
  { unfold vector_push, bind. rewrite (VSIZE_ok st s l Hs Ho).
    rewrite decide_True by done.
    rewrite (VARRAY_ok st s l Hs Ho). by rewrite (assign_ok st s _ _ Hs Ho). }
  set (st1 := set_objects st _).
  assert (objects st1 !! s
          = Some (VECTOR (l ++ replicate
                                 (Z.to_nat (grown_size (Z.of_nat (length l))
                                            - Z.of_nat (length l)))
                                 (the_empty_list rt)))) as Ho1.
  { simpl. apply lookup_insert_eq. }
  split.
  - intros Hn. unfold vector_set, bind. rewrite (VARRAY_ok st1 s _ Hs Ho1).
    rewrite grown_size_small by lia. rewrite Z.sub_diag. simpl.
    unfold lift, aset. rewrite app_nil_r. by rewrite decide_False by lia.
  - intros Hn. pose proof (grown_size_grows _ Hn) as Hg.
    rewrite (vector_set_ok st1 s _ _ _ Hs Ho1)
      by (rewrite length_app, length_replicate; lia).
    unfold st1. simpl. rewrite insert_insert_eq. do 4 f_equal.
    rewrite Nat2Z.id, insert_app_r_alt, Nat.sub_diag by lia. f_equal.
    replace (Z.to_nat (grown_size (Z.of_nat (length l)) - Z.of_nat (length l)))
      with (S (Z.to_nat (grown_size (Z.of_nat (length l))
                         - Z.of_nat (length l) - 1))) by lia.
    done.
Qed.

(** [VPUSH] on a stack that has a free slot. *)
Lemma VPUSH_ok rt st l obj :
  stack st ≠ NULL → objects st !! stack st = Some (VECTOR l) →
  0 ≤ stack_top st < Z.of_nat (length l) → stack_top st ≤ 2 ^ 62 →
  VPUSH rt obj st
  = Ok (tt, set_stack_top
              (set_objects st
                 (<[stack st := VECTOR (<[Z.to_nat (stack_top st) := obj]> l)]>
                    (objects st)))
              (stack_top st + 1)).
Proof.
  intros Hs Ho Ht Hmax. unfold VPUSH, gets, vector_push, bind.
  rewrite (VSIZE_ok st _ l Hs Ho). rewrite decide_False by lia.
  unfold ret. rewrite (vector_set_ok st _ l _ _ Hs Ho) by lia.
  unfold modify. simpl. by rewrite wrap_long_id by lia.
Qed.

Lemma vector_pop_ok (rt : runtime) (st : vm) (s t : Z) (l : list Z) (v : Z) :
  s ≠ NULL → objects st !! s = Some (VECTOR l) →
  0 < t ≤ Z.of_nat (length l) → l !! Z.to_nat (t - 1) = Some v →
  vector_pop rt s t st
  = Ok (v, set_objects st
             (<[s := VECTOR (<[Z.to_nat (t - 1) := the_empty_list rt]> l)]>
                (objects st))).
Proof.
  intros Hs Ho Ht Hv. unfold vector_pop.
  rewrite (bind_ok _ _ _ _ _ (vector_ref_ok st s l (t - 1) v Hs Ho
             ltac:(unfold aget; by rewrite decide_True by lia))).
  by rewrite (bind_ok _ _ _ _ _ (vector_set_ok st s l (t - 1) _ Hs Ho ltac:(lia))).
Qed.

Lemma keeps_scalars_refl h : keeps_scalars h h.
Proof. by intros q o Hq _. Qed.

Lemma keeps_scalars_trans h1 h2 h3 :
  keeps_scalars h1 h2 → keeps_scalars h2 h3 → keeps_scalars h1 h3.
Proof. intros H12 H23 q o Hq Ho. apply H23; [|done]. by apply H12. Qed.

Lemma keeps_scalars_vector h p l l' :
  h !! p = Some (VECTOR l) → keeps_scalars h (<[p := VECTOR l']> h).
Proof.
  intros Hp q o Hq Ho. destruct (decide (q = p)) as [->|Hne].
  - rewrite Hp in Hq. injection Hq as <-. by destruct (Ho l).
  - by rewrite lookup_insert_ne.
Qed.

Lemma keeps_scalars_fresh h p o :
  h !! p = None → keeps_scalars h (<[p := o]> h).
Proof.
  intros Hp q o' Hq _. rewrite lookup_insert_ne; [done|]. congruence.
Qed.

Lemma instr_is_keeps h h' instr op a1 a2 :
  keeps_scalars h h' → instr_is h instr op a1 a2 → instr_is h' instr op a1 a2.
Proof.
  intros Hk (Hi & d1 & d2 & d3 & H0 & Hd1 & H1 & Hd2 & H2).
  split; [done|]. exists d1, d2, d3.
  repeat split; try done; by apply Hk.
Qed.

Lemma fixnum_at_keeps h h' p k :
  keeps_scalars h h' → fixnum_at h p k → fixnum_at h' p k.
Proof. intros Hk [Hp Ho]. split; [done|]. by apply Hk. Qed.

Lemma env_chain_keeps h h' e frames rest :
  keeps_scalars h h' → env_chain h e frames rest → env_chain h' e frames rest.
Proof.
  intros Hk. revert e. induction frames as [|f fs IH]; intros e; simpl; [done|].
  intros (He & d & Hd & Hc). split; [done|]. exists d. split; [by apply Hk|].
  by apply IH.
Qed.

Section VMVars.

Variable rt : runtime.

Lemma cdr_ok st p a d :
  p ≠ NULL → objects st !! p = Some (PAIR a d) → cdr p st = Ok (d, st).
Proof.
  intros Hp Ho. unfold cdr. by rewrite (bind_ok _ _ _ _ _ (deref_ok _ _ _ Hp Ho)).
Qed.

Lemma ARG1_ok st instr op a1 a2 :
  instr_is (objects st) instr op a1 a2 → ARG1 rt instr st = Ok (a1, st).
Proof.
  intros (Hi & d1 & d2 & d3 & H0 & Hd1 & H1 & Hd2 & H2). unfold ARG1.
  rewrite (bind_ok _ _ _ _ _ (cdr_ok st _ _ _ Hi H0)).
  by apply (car_ok rt st _ _ d2).
Qed.

Lemma ARG2_ok st instr op a1 a2 :
  instr_is (objects st) instr op a1 a2 → ARG2 rt instr st = Ok (a2, st).
Proof.
  intros (Hi & d1 & d2 & d3 & H0 & Hd1 & H1 & Hd2 & H2). unfold ARG2.
  rewrite (bind_ok _ _ _ _ _ (cdr_ok st _ _ _ Hi H0)).
  rewrite (bind_ok _ _ _ _ _ (cdr_ok st _ _ _ Hd1 H1)).
  by apply (car_ok rt st _ _ d3).
Qed.

Lemma fixnum_LONG st p k : fixnum_at (objects st) p k → LONG p st = Ok (k, st).
Proof. intros [Hp Ho]. by apply LONG_ok. Qed.

(** Walking [i] conses down the environment leads to the cons whose car
    is the frame number [i]. *)
Lemma env_walk_frame st frames rest :
  ∀ (i : nat) (e f : Z),
    env_chain (objects st) e frames rest → frames !! i = Some f →
    ∃ next d, env_walk i e st = Ok (next, st)
              ∧ next ≠ NULL ∧ objects st !! next = Some (PAIR f d).
Proof.
  induction frames as [|f0 fs IH]; intros i e f Hc Hi; [done|].
  simpl in Hc. destruct Hc as (He & d & Hd & Hc).
  destruct i as [|i]; simpl in Hi |- *.
  - injection Hi as <-. by exists e, d.
  - rewrite (bind_ok _ _ _ _ _ (cdr_ok st _ _ _ He Hd)). by apply IH.
Qed.

End VMVars.

Lemma cons_fresh (a d : Z) (st : vm) :
  ∃ p, cons a d st = Ok (p, set_objects st (<[p := PAIR a d]> (objects st)))
       ∧ p ≠ NULL ∧ objects st !! p = None.
Proof. apply alloc_fresh. Qed.

(** [save k] on a stack with a free slot. *)
Lemma exec_save_ok (rt : runtime) (st : vm) (instr op a1 a2 : Z) (l : list Z) :
  instr_is (objects st) instr op a1 a2 →
  roots_fit (roots st) →
  stack st ≠ NULL → objects st !! stack st = Some (VECTOR l) →
  0 ≤ stack_top st < Z.of_nat (length l) → stack_top st ≤ 2 ^ 62 →
  ∃ c1 c2 r2,
    exec_save rt instr st
    = Ok (Next,
          set_roots
            (set_stack_top
               (set_objects st
                  (<[stack st := VECTOR (<[Z.to_nat (stack_top st) := c2]> l)]>
                     (<[c2 := PAIR a1 c1]>
                        (<[c1 := PAIR (fn st) (env st)]> (objects st)))))
               (stack_top st + 1)) r2)
    ∧ c1 ≠ NULL ∧ objects st !! c1 = None
    ∧ c2 ≠ NULL ∧ objects st !! c2 = None ∧ c1 ≠ c2
    ∧ StackSet.live r2 = StackSet.live (roots st).
Proof.
  intros Hinstr Hfit Hs Hl Ht Hmax.
  destruct (cons_fresh (fn st) (env st) st) as (c1 & Hc1 & Hc1n & Hc1f).
  set (st1 := set_objects st (<[c1 := PAIR (fn st) (env st)]> (objects st))) in *.
  destruct (push_pop_root (roots st) (addr_local rt) Hfit)
    as (r1 & r2 & Hpush & Hpop & Hlive).
  set (st2 := set_roots st1 r1).
  destruct (cons_fresh a1 c1 st2) as (c2 & Hc2 & Hc2n & Hc2f).
  set (st3 := set_objects st2 (<[c2 := PAIR a1 c1]> (objects st2))) in *.
  assert (c1 ≠ c2) as Hne.
  { intros <-. simpl in Hc2f. by rewrite lookup_insert_eq in Hc2f. }
  assert (objects st !! c2 = None) as Hc2f'.
  { simpl in Hc2f. by rewrite lookup_insert_ne in Hc2f. }
  assert (keeps_scalars (objects st) (objects st2)) as Hk.
  { by apply keeps_scalars_fresh. }
  assert (objects st3 !! stack st3 = Some (VECTOR l)) as Hl3.
  { simpl. rewrite !lookup_insert_ne by congruence. done. }
  exists c1, c2, r2. split; [|done].
  unfold exec_save, bind, gets. rewrite Hc1.
  rewrite (push_root_ok st1 _ _ Hpush). fold st2.
  rewrite (ARG1_ok rt st2 _ _ _ _ (instr_is_keeps _ _ _ _ _ _ Hk Hinstr)).
  rewrite Hc2. fold st3. rewrite (VPUSH_ok rt st3 l c2 Hs Hl3 Ht Hmax).
  match goal with |- context [VM.pop_root ?a ?s] =>
    rewrite (pop_root_ok s a r2 Hpop) end.
  done.
Qed.

(** [RETURN_OPCODE_INSTRUCTIONS] when more than the result is on the
    stack: the slot under the result holds a return address
    [(pc . (fn . env))]. *)
Lemma RETURN_continue_ok (rt : runtime) (st : vm) (l : list Z)
    (val ra a c1 f e k : Z) :
  stack st ≠ NULL → objects st !! stack st = Some (VECTOR l) →
  2 ≤ stack_top st ≤ Z.of_nat (length l) → stack_top st ≤ 2 ^ 62 →
  stack_top st ≠ initial_top st + 1 →
  l !! Z.to_nat (stack_top st - 1) = Some val →
  l !! Z.to_nat (stack_top st - 2) = Some ra →
  ra ≠ NULL → objects st !! ra = Some (PAIR a c1) →
  c1 ≠ NULL → objects st !! c1 = Some (PAIR f e) →
  fixnum_at (objects st) a k →
  RETURN_OPCODE_INSTRUCTIONS rt st
  = Ok (Enter,
        set_stack_top
          (set_objects (set_env (set_pc (set_fn st f) k) e)
             (<[stack st :=
                  VECTOR (<[Z.to_nat (stack_top st - 2) := val]>
                            (<[Z.to_nat (stack_top st - 1)
                               := the_empty_list rt]> l))]> (objects st)))
          (stack_top st - 1)).
Proof.
  intros Hs Hl Ht Hmax Hinit Hval Hra Hran Hrao Hc1n Hc1o [Han Hao].
  assert (ra ≠ stack st ∧ c1 ≠ stack st ∧ a ≠ stack st) as (Hras & Hc1s & Has).
  { repeat split; congruence. }
  unfold RETURN_OPCODE_INSTRUCTIONS. vm_simpl. rewrite decide_False by done.
  rewrite (bind_ok _ _ _ _ _ (VPOP_ok rt st l val Hs Hl ltac:(lia) Hmax Hval)).
  set (st1 := set_stack_top _ _).
  assert (objects st1 !! stack st1
          = Some (VECTOR (<[Z.to_nat (stack_top st - 1) := the_empty_list rt]> l)))
    as Hl1 by (simpl; apply lookup_insert_eq).
  rewrite (bind_ok _ _ _ _ _ (VPOP_ok rt st1 _ ra Hs Hl1
             ltac:(simpl; rewrite length_insert; lia) ltac:(simpl; lia)
             ltac:(simpl; rewrite list_lookup_insert_ne by lia;
                   by replace (stack_top st - 1 - 1) with (stack_top st - 2)
                     by lia))).
  set (st2 := set_stack_top _ _).
  assert (∀ q, q ≠ stack st → objects st2 !! q = objects st !! q) as Hoff.
  { intros q Hq. simpl. by rewrite !lookup_insert_ne. }
  assert (∀ (s : vm) q o, objects s = objects st2 → q ≠ stack st →
            objects st !! q = Some o → objects s !! q = Some o) as Hget.
  { intros s q o -> Hq Ho. by rewrite Hoff. }
  rewrite (bind_ok _ _ _ _ _ (cdr_ok st2 _ _ _ Hran (Hget st2 _ _ eq_refl Hras Hrao))).
  rewrite (bind_ok _ _ _ _ _ (car_ok rt st2 _ _ _ Hc1n (Hget st2 _ _ eq_refl Hc1s Hc1o))).
  vm_simpl.
  rewrite (bind_ok _ _ _ _ _ (car_ok rt (set_fn st2 f) _ _ _ Hran
                                (Hget _ _ _ eq_refl Hras Hrao))).
  rewrite (bind_ok _ _ _ _ _ (LONG_ok (set_fn st2 f) _ _ Han
                                (Hget _ _ _ eq_refl Has Hao))).
  vm_simpl.
  rewrite (bind_ok _ _ _ _ _ (cdr_ok (set_pc (set_fn st2 f) k) _ _ _ Hran
                                (Hget _ _ _ eq_refl Hras Hrao))).
  rewrite (bind_ok _ _ _ _ _ (cdr_ok (set_pc (set_fn st2 f) k) _ _ _ Hc1n
                                (Hget _ _ _ eq_refl Hc1s Hc1o))).
  vm_simpl.
  set (st3 := set_env _ e).
  assert (objects st3 !! stack st3
          = Some (VECTOR (<[Z.to_nat (stack_top st - 2) := the_empty_list rt]>
                            (<[Z.to_nat (stack_top st - 1)
                               := the_empty_list rt]> l)))) as Hl3.
  { simpl. rewrite insert_insert_eq, lookup_insert_eq.
    by replace (stack_top st - 1 - 1) with (stack_top st - 2) by lia. }
  rewrite (bind_ok _ _ _ _ _ (VPUSH_ok rt st3 _ val Hs Hl3
             ltac:(simpl; rewrite !length_insert; lia) ltac:(simpl; lia))).
  unfold ret. f_equal. f_equal. unfold st3, st2, st1. simpl.
  rewrite !insert_insert_eq.
  replace (stack_top st - 1 - 1) with (stack_top st - 2) by lia.
  rewrite list_insert_insert_eq.
  replace (stack_top st - 2 + 1) with (stack_top st - 1) by lia. done.
Qed.

Lemma set_objects_id (st : vm) : set_objects st (objects st) = st.
Proof. by destruct st. Qed.

(** The copy loop of [cc]. *)
Lemma copy_stack_spec (st : vm) (new_stack : Z) (l : list Z) :
  stack st ≠ NULL → new_stack ≠ NULL → new_stack ≠ stack st →
  objects st !! stack st = Some (VECTOR l) →
  Z.of_nat (length l) ≤ 2 ^ 62 →
  ∀ (n idx : nat) (ns : list Z),
    (idx + n ≤ length l)%nat → length ns = length l →
    objects st !! new_stack = Some (VECTOR ns) →
    copy_stack n (Z.of_nat idx) new_stack st
    = Ok (tt,
          set_objects st
            (<[new_stack :=
                 VECTOR (take idx ns ++ take n (drop idx l)
                         ++ drop (idx + n) ns)]> (objects st))).
Proof.
  intros Hs Hn Hns Hl Hmax n. revert st Hs Hns Hl.
  induction n as [|n IH]; intros st Hs Hns Hl idx ns Hidx Hlen Hnew.
  - simpl. rewrite Nat.add_0_r, take_drop. rewrite insert_id by done.
    by rewrite set_objects_id.
  - simpl. vm_simpl.
    destruct (lookup_lt_is_Some_2 l idx ltac:(lia)) as [v Hv].
    rewrite (bind_ok _ _ _ _ _ (vector_ref_ok st _ l (Z.of_nat idx) v Hs Hl
               ltac:(by rewrite aget_nat))).
    rewrite (bind_ok _ _ _ _ _ (vector_set_ok st _ ns (Z.of_nat idx) v Hn Hnew ltac:(lia))).
    rewrite Nat2Z.id. set (st1 := set_objects st _).
    rewrite wrap_long_id by lia.
    replace (Z.of_nat idx + 1) with (Z.of_nat (S idx)) by lia.
    rewrite (IH st1 Hs Hns ltac:(simpl; by rewrite lookup_insert_ne)
               (S idx) (<[idx := v]> ns) ltac:(lia)
               ltac:(by rewrite length_insert)
               ltac:(simpl; apply lookup_insert_eq)).
    unfold st1. simpl. rewrite insert_insert_eq. do 4 f_equal.
    rewrite (take_S_r _ _ v) by (apply list_lookup_insert_eq; lia).
    rewrite take_insert_ge by lia. rewrite <- app_assoc. f_equal.
    rewrite (drop_S l v idx Hv). simpl. f_equal. f_equal.
    rewrite drop_insert_lt by lia. by rewrite Nat.add_succ_r.
Qed.

Lemma push2_pop2 (r : StackSet.stack_set) (a b : Z) :
  roots_fit2 r →
  ∃ r1 r2 r3 r4,
    StackSet.push_root r a = Some r1
    ∧ StackSet.push_root r1 b = Some r2
    ∧ StackSet.pop_root r2 b = Ok r3
    ∧ StackSet.pop_root r3 a = Ok r4
    ∧ StackSet.live r4 = StackSet.live r.
Proof.
  intros (Hok & Hsize & Htop).
  destruct (GCFacts.stack_set_push_spec r a Hok ltac:(lia) ltac:(lia))
    as (r1 & Hpush1 & Hlive1 & Htop1 & Hok1 & Hsz1).
  destruct (GCFacts.stack_set_push_spec r1 b Hok1 Hsz1 ltac:(lia))
    as (r2 & Hpush2 & Hlive2 & Htop2 & Hok2 & Hsz2).
  destruct (StackSetFacts.stack_set_pop_present r2 b (StackSet.live r ++ [a]) [])
    as (r3 & Hpop3 & Hlive3 & Htop3 & _ & Hok3);
    [done|lia|by rewrite Hlive2, Hlive1|apply not_elem_of_nil|].
  rewrite app_nil_r in Hlive3.
  destruct (StackSetFacts.stack_set_pop_present r3 a (StackSet.live r) [])
    as (r4 & Hpop4 & Hlive4 & _);
    [done|lia|done|apply not_elem_of_nil|].
  rewrite app_nil_r in Hlive4.
  exists r1, r2, r3, r4. unfold StackSet.push_root, StackSet.pop_root.
  rewrite Hpush1, Hpush2, Hpop3, Hpop4. done.
Qed.

Lemma make_fixnum_fresh (k : Z) (st : vm) :
  ∃ p, make_fixnum k st = Ok (p, set_objects st (<[p := FIXNUM k]> (objects st)))
       ∧ p ≠ NULL ∧ objects st !! p = None.
Proof. apply alloc_fresh. Qed.

Lemma make_vector_fresh (fill n : Z) (st : vm) :
  ∃ p, make_vector fill n st
       = Ok (p, set_objects st
                  (<[p := VECTOR (replicate (Z.to_nat n) fill)]> (objects st)))
       ∧ p ≠ NULL ∧ objects st !! p = None.
Proof. apply alloc_fresh. Qed.

Lemma make_compiled_proc_fresh (b e : Z) (st : vm) :
  ∃ p, make_compiled_proc b e st
       = Ok (p, set_objects st (<[p := COMPILED_PROC b e]> (objects st)))
       ∧ p ≠ NULL ∧ objects st !! p = None.
Proof. apply alloc_fresh. Qed.

Ltac look :=
  simpl; repeat first [ rewrite lookup_insert_eq
                      | rewrite lookup_insert_ne by congruence ]; try done.

Lemma off_stack_refl st : off_stack st st.
Proof. by repeat split. Qed.

Lemma off_stack_trans st1 st2 st3 :
  off_stack st1 st2 → off_stack st2 st3 → off_stack st1 st3.
Proof.
  intros (Hs & He & Hf & Hr & Ho) (Hs' & He' & Hf' & Hr' & Ho').
  repeat split; try congruence.
  intros q Hq. rewrite Ho' by congruence. by apply Ho.
Qed.

Lemma off_stack_keeps st st' l :
  objects st !! stack st = Some (VECTOR l) → off_stack st st' →
  keeps_scalars (objects st) (objects st').
Proof.
  intros Hl (_ & _ & _ & _ & Ho) q o Hq Hv.
  destruct (decide (q = stack st)) as [->|Hne].
  - rewrite Hl in Hq. injection Hq as <-. by destruct (Hv l).
  - by rewrite Ho.
Qed.

Lemma is_list_keeps rt h h' p xs :
  keeps_scalars h h' → is_list rt h p xs → is_list rt h' p xs.
Proof.
  intros Hk. apply is_list_mono. intros q a d Hq. by apply Hk.
Qed.

Lemma VPOP_top_off rt st below xs x above :
  stack_holds st below (xs ++ [x]) above →
  ∃ st', VPOP_top rt st = Ok (tt, st')
    ∧ top st' = x
    ∧ stack_holds st' below xs (the_empty_list rt :: above)
    ∧ off_stack st st'.
Proof.
  intros (Hs & Ho & Ht & Hlen).
  assert (length (below ++ xs ++ [x]) = S (length (below ++ xs))) as Hl.
  { rewrite !length_app. simpl. lia. }
  assert (Z.to_nat (stack_top st - 1) = length (below ++ xs)) as Hidx.
  { rewrite Ht, Hl. lia. }
  assert ((below ++ (xs ++ [x]) ++ above) !! length (below ++ xs) = Some x) as Hx.
  { rewrite <- !app_assoc. rewrite (app_assoc below xs).
    rewrite lookup_app_r by lia. by rewrite Nat.sub_diag. }
  eexists. unfold VPOP_top.
  rewrite (bind_ok _ _ _ _ _
             (VPOP_ok rt st _ x Hs Ho
                ltac:(rewrite Ht, Hl, !length_app in *; simpl in *; lia)
                ltac:(rewrite Ht, !length_app in *; simpl in *; lia)
                ltac:(by rewrite Hidx))).
  vm_simpl. split; [done|]. split; [done|]. simpl. split.
  - split; [done|]. simpl. rewrite lookup_insert_eq. split; [|split].
    + f_equal. f_equal. rewrite Hidx. rewrite <- !app_assoc.
      rewrite (app_assoc below xs). rewrite insert_app_r_alt by lia.
      rewrite Nat.sub_diag. simpl. by rewrite <- app_assoc.
    + rewrite Ht, Hl. lia.
    + rewrite !length_app in *. simpl in *. lia.
  - repeat split; try done. intros q Hq. simpl. by rewrite lookup_insert_ne.
Qed.

Lemma VPUSH_off rt st below xs r above v :
  stack_holds st below xs (r :: above) →
  ∃ st', VPUSH rt v st = Ok (tt, st')
    ∧ top st' = top st
    ∧ stack_holds st' below (xs ++ [v]) above
    ∧ off_stack st st'.
Proof.
  intros (Hs & Ho & Ht & Hlen).
  assert (length (below ++ xs ++ r :: above)
          = S (length (below ++ xs) + length above)) as Hl.
  { rewrite !length_app. simpl. lia. }
  eexists.
  rewrite (VPUSH_ok rt st _ v Hs Ho ltac:(lia) ltac:(lia)).
  split; [done|]. split; [done|]. split.
  - split; [done|]. simpl. rewrite lookup_insert_eq. split; [|split].
    + f_equal. f_equal. rewrite Ht, Nat2Z.id.
      rewrite (app_assoc below xs). rewrite insert_app_r_alt by lia.
      rewrite Nat.sub_diag. simpl. by rewrite <- !app_assoc.
    + rewrite Ht, !length_app. simpl. lia.
    + rewrite !length_app in *. simpl in *. lia.
  - repeat split; try done. intros q Hq. simpl. by rewrite lookup_insert_ne.
Qed.

Lemma splat_spec rt (below : list Z) :
  ∀ (xs : list Z) (fuel : nat) (st : vm) (done room : list Z) (n p : Z),
    stack_holds st below done room → top st = p →
    is_list rt (objects st) p xs →
    objects st !! NULL = None →
    (length xs ≤ length room)%nat → (length xs ≤ fuel)%nat →
    0 ≤ n → n + Z.of_nat (length xs) < 2 ^ 63 →
    ∃ st', splat rt fuel n st = Ok (n + Z.of_nat (length xs), st')
      ∧ top st' = the_empty_list rt
      ∧ stack_holds st' below (done ++ xs) (drop (length xs) room)
      ∧ off_stack st st'.
Proof.
  induction xs as [|x xs IH]; intros fuel st done room n p Hst Htop Hlist Hnull
    Hroom Hfuel Hn Hmax.
  - simpl in Hlist. subst p. exists st.
    destruct fuel; simpl; unfold bind, gets; rewrite Hlist;
      unfold is_the_empty_list; rewrite bool_decide_eq_true_2 by done;
      unfold ret; rewrite Z.add_0_r, app_nil_r, drop_0;
      (split; [done|]); (split; [done|]); (split; [done|]);
      apply off_stack_refl.
  - simpl in Hlist. destruct Hlist as (Hp & d & Hd & Hrest).
    destruct fuel as [|fuel]; [simpl in Hfuel; lia|].
    destruct room as [|r room]; [simpl in Hroom; lia|].
    assert (p ≠ NULL) as Hpn by (intros ->; congruence).
    pose proof Hst as (Hs & Hl & _).
    simpl splat. unfold bind at 1. unfold gets at 1. rewrite Htop.
    unfold is_the_empty_list. rewrite bool_decide_eq_false_2 by done.
    rewrite (bind_ok _ _ _ _ _ (car_ok rt st p x d Hpn Hd)).
    destruct (VPUSH_off rt st below done r room x Hst)
      as (st1 & Hpush & Htop1 & Hst1 & Hoff1).
    rewrite (bind_ok _ _ _ _ _ Hpush).
    pose proof (off_stack_keeps _ _ _ Hl Hoff1) as Hk.
    assert (objects st1 !! p = Some (PAIR x d)) as Hd1 by (by apply Hk).
    rewrite (bind_ok _ _ _ _ _ (cdr_ok st1 p x d Hpn Hd1)).
    vm_simpl. rewrite wrap_long_id by (simpl in Hmax; lia).
    destruct (IH fuel (set_top st1 d) (done ++ [x]) room (n + 1) d)
      as (st2 & Hrun & Htop2 & Hst2 & Hoff2).
    + exact Hst1.
    + done.
    + simpl. by apply (is_list_keeps rt (objects st)).
    + simpl. destruct Hoff1 as (_ & _ & _ & _ & Ho). rewrite Ho; [done|].
      intros E. by rewrite <- E in Hs.
    + simpl in Hroom. lia.
    + simpl in Hfuel. lia.
    + lia.
    + simpl in Hmax. lia.
    + exists st2. rewrite Hrun. split.
      { do 2 f_equal. simpl. lia. }
      split; [done|]. split.
      { by rewrite <- app_assoc in Hst2. }
      apply (off_stack_trans _ st1); [done|]. exact Hoff2.
Qed.

Lemma unwrap_meta_plain st o :
  top st ≠ NULL → objects st !! top st = Some o →
  (∀ f m, o ≠ META_PROC f m) →
  unwrap_meta st = Ok (tt, st).
Proof.
  intros Hn Ho Hm. unfold unwrap_meta, is_meta, bind, gets, ret.
  rewrite (deref_ok st _ o Hn Ho).
  destruct o; try done. by destruct (Hm proc meta).
Qed.

Lemma VPOP_off rt st below xs x above :
  stack_holds st below (xs ++ [x]) above →
  ∃ st', VPOP rt st = Ok (x, st')
    ∧ top st' = top st
    ∧ stack_holds st' below xs (the_empty_list rt :: above)
    ∧ off_stack st st'.
Proof.
  intros (Hs & Ho & Ht & Hlen).
  assert (length (below ++ xs ++ [x]) = S (length (below ++ xs))) as Hl.
  { rewrite !length_app. simpl. lia. }
  assert (Z.to_nat (stack_top st - 1) = length (below ++ xs)) as Hidx.
  { rewrite Ht, Hl. lia. }
  assert ((below ++ (xs ++ [x]) ++ above) !! length (below ++ xs) = Some x) as Hx.
  { rewrite <- !app_assoc. rewrite (app_assoc below xs).
    rewrite lookup_app_r by lia. by rewrite Nat.sub_diag. }
  eexists.
  rewrite (VPOP_ok rt st _ x Hs Ho
             ltac:(rewrite Ht, Hl, !length_app in *; simpl in *; lia)
             ltac:(rewrite Ht, !length_app in *; simpl in *; lia)
             ltac:(by rewrite Hidx)).
  split; [done|]. split; [done|]. simpl. split.
  - split; [done|]. simpl. rewrite lookup_insert_eq. split; [|split].
    + f_equal. f_equal. rewrite Hidx. rewrite <- !app_assoc.
      rewrite (app_assoc below xs). rewrite insert_app_r_alt by lia.
      rewrite Nat.sub_diag. simpl. by rewrite <- app_assoc.
    + rewrite Ht, Hl. lia.
    + rewrite !length_app in *. simpl in *. lia.
  - repeat split; try done. intros q Hq. simpl. by rewrite lookup_insert_ne.
Qed.

(** The loop that unwinds the arguments of a primitive. *)
Lemma unwind_spec rt (below : list Z) :
  ∀ (xs : list Z) (st : vm) (above : list Z),
    stack_holds st below xs above →
    ∃ st', repeat_M (length xs) (_ <~ VPOP rt ;; ret tt) st = Ok (tt, st')
      ∧ top st' = top st
      ∧ stack_holds st' below []
          (replicate (length xs) (the_empty_list rt) ++ above)
      ∧ off_stack st st'.
Proof.
  induction xs as [|x xs IH] using rev_ind; intros st above Hst.
  - exists st. simpl. split; [done|]. split; [done|]. split; [done|].
    apply off_stack_refl.
  - rewrite length_app, Nat.add_1_r. simpl repeat_M.
    destruct (VPOP_off rt st below xs x above Hst)
      as (st1 & Hpop & Htop1 & Hst1 & Hoff1).
    rewrite (bind_ok _ _ _ _ _ (bind_ok _ _ _ _ _ Hpop)).
    destruct (IH st1 (the_empty_list rt :: above) Hst1)
      as (st2 & Hrun & Htop2 & Hst2 & Hoff2).
    exists st2. split; [done|]. split; [congruence|]. split.
    + by rewrite replicate_snoc_cons in Hst2.
    + by apply (off_stack_trans _ st1).
Qed.

End InterpreterFacts.

(** ** Properties of the interpreter *)

Module InterpreterProperties.
Import GC VM VMInv VMFacts VMShape VMExample MoreExamples InterpreterFacts.


(** X15: [vector_push] at the end of a full vector grows it to 1.8 times
    its size, rounded down, keeps the old slots, stores the value in the
    first new slot and fills the others with the empty list.  A full
    vector of one slot (or none) does not grow, and the store is out of
    bounds.  (Vectors of at most [2 ^ 30] slots: the new size fits the
    [int] index of the fill loop.) *)
Theorem vector_push_on_full_vector (rt : runtime) (st : vm) (s thing : Z)
    (l : list Z) :
  s ≠ NULL → objects st !! s = Some (VECTOR l) →
  Z.of_nat (length l) ≤ 2 ^ 30 →
  (Z.of_nat (length l) ≤ 1 →
   vector_push rt s thing (Z.of_nat (length l)) st = Undefined)
  ∧ (2 ≤ Z.of_nat (length l) →
     vector_push rt s thing (Z.of_nat (length l)) st
     = Ok (tt,
           set_objects st
             (<[s := VECTOR
                       (l ++ thing
                          :: replicate
                               (Z.to_nat (grown_size (Z.of_nat (length l))
                                          - Z.of_nat (length l) - 1))
                               (the_empty_list rt))]> (objects st)))).
Proof. intros Hs Ho _. by apply vector_push_full_ok. Qed.

(** X16: [vector_push] at index [top] followed by [vector_pop] at
    [top + 1] returns the pushed value, whether or not the push had to
    grow the vector.  The slots below [top] are as before, and slot [top]
    holds the empty list afterwards, not the value: the pop clears the
    slot it reads. *)
Theorem vector_push_then_vector_pop (rt : runtime) (st : vm) (s thing top : Z)
    (l : list Z) :
  s ≠ NULL → objects st !! s = Some (VECTOR l) →
  Z.of_nat (length l) ≤ 2 ^ 30 →
  0 ≤ top ≤ Z.of_nat (length l) →
  (top = Z.of_nat (length l) → 2 ≤ top) →
  (vector_push rt s thing top ;;; vector_pop rt s (top + 1)) st
  = Ok (thing,
        set_objects st
          (<[s := VECTOR
                    (<[Z.to_nat top := the_empty_list rt]>
                       (if decide (top = Z.of_nat (length l))
                        then l ++ replicate (Z.to_nat (grown_size top - top))
                                    (the_empty_list rt)
                        else l))]> (objects st))).
Proof.
  intros Hs Ho _ Ht Hfull.
  destruct (decide (top = Z.of_nat (length l))) as [->|Hne].
  - destruct (vector_push_full_ok rt st s thing l Hs Ho) as [_ Hpush].
    rewrite (bind_ok _ _ _ _ _ (Hpush (Hfull eq_refl))).
    set (st1 := set_objects st _).
    pose proof (grown_size_grows _ (Hfull eq_refl)) as Hg.
    rewrite (vector_pop_ok rt st1 s _ _ thing Hs ltac:(apply lookup_insert_eq)).
    + unfold st1. simpl. rewrite insert_insert_eq. do 4 f_equal.
      replace (Z.of_nat (length l) + 1 - 1) with (Z.of_nat (length l)) by lia.
      rewrite Nat2Z.id, !insert_app_r_alt, Nat.sub_diag by lia. f_equal.
      replace (Z.to_nat (grown_size (Z.of_nat (length l)) - Z.of_nat (length l)))
        with (S (Z.to_nat (grown_size (Z.of_nat (length l))
                           - Z.of_nat (length l) - 1))) by lia.
      done.
    + rewrite length_app. simpl. lia.
    + replace (Z.of_nat (length l) + 1 - 1) with (Z.of_nat (length l)) by lia.
      rewrite Nat2Z.id, lookup_app_r, Nat.sub_diag by lia. done.
  - assert (vector_push rt s thing top st
            = Ok (tt, set_objects st
                        (<[s := VECTOR (<[Z.to_nat top := thing]> l)]>
                           (objects st)))) as Hpush.
    { unfold vector_push, bind. rewrite (VSIZE_ok st s l Hs Ho).
      rewrite decide_False by done. unfold ret.
      by rewrite (vector_set_ok st s l _ _ Hs Ho) by lia. }
    rewrite (bind_ok _ _ _ _ _ Hpush). set (st1 := set_objects st _).
    rewrite (vector_pop_ok rt st1 s _ _ thing Hs ltac:(apply lookup_insert_eq)).
    + unfold st1. simpl. rewrite insert_insert_eq. do 4 f_equal.
      replace (top + 1 - 1) with top by lia.
      by rewrite list_insert_insert_eq.
    + rewrite length_insert. lia.
    + replace (top + 1 - 1) with top by lia.
      apply list_lookup_insert_eq. lia.
Qed.

Lemma vector_push_then_vector_pop_witness :
  (vector_push example_rt 10 63 4 ;;; vector_pop example_rt 10 (4 + 1)) example_stack
  = Ok (63,
        set_objects example_stack
          (<[10 := VECTOR
                    (<[Z.to_nat 4 := the_empty_list example_rt]>
                       (if decide (4 = Z.of_nat (length [61; 62; 1; 1]))
                        then [61; 62; 1; 1] ++ replicate (Z.to_nat (grown_size 4 - 4))
                                    (the_empty_list example_rt)
                        else [61; 62; 1; 1]))]> (objects example_stack))).
Proof.
  apply (vector_push_then_vector_pop example_rt example_stack 10 63 4
           [61; 62; 1; 1]).
  - done.
  - vm_compute. reflexivity.
  - simpl. lia.
  - simpl. lia.
  - simpl. lia.
Defined.

Lemma vector_push_on_full_vector_witness :
  (Z.of_nat (length [61; 62; 1; 1]) ≤ 1 →
   vector_push example_rt 10 63 (Z.of_nat (length [61; 62; 1; 1])) example_stack = Undefined)
  ∧ (2 ≤ Z.of_nat (length [61; 62; 1; 1]) →
     vector_push example_rt 10 63 (Z.of_nat (length [61; 62; 1; 1])) example_stack
     = Ok (tt,
           set_objects example_stack
             (<[10 := VECTOR
                       ([61; 62; 1; 1] ++ 63
                          :: replicate
                               (Z.to_nat (grown_size (Z.of_nat (length [61; 62; 1; 1]))
                                          - Z.of_nat (length [61; 62; 1; 1]) - 1))
                               (the_empty_list example_rt))]> (objects example_stack)))).
Proof.
  apply (vector_push_on_full_vector example_rt example_stack 10 63
           [61; 62; 1; 1]).
  - done.
  - vm_compute. reflexivity.
  - simpl. lia.
Defined.

(** X17: [lset i j] stores the value on top of the stack, without popping
    it, into slot [j] of frame number [i] of the environment, and an
    [lvar i j] that follows pushes that same value. *)
Theorem lset_then_lvar_reads_back (rt : runtime) (st : vm)
    (instr op a1 a2 i j : Z)
    (frames : list Z) (rest f : Z) (fv l : list Z) (v : Z) :
  instr_is (objects st) instr op a1 a2 →
  fixnum_at (objects st) a1 i → fixnum_at (objects st) a2 j →
  0 ≤ i ≤ INT_MAX → 0 ≤ j ≤ INT_MAX →
  env_chain (objects st) (env st) frames rest →
  frames !! Z.to_nat i = Some f →
  f ≠ NULL → objects st !! f = Some (VECTOR fv) →
  j < Z.of_nat (length fv) →
  stack st ≠ NULL → stack st ≠ f → objects st !! stack st = Some (VECTOR l) →
  0 < stack_top st < Z.of_nat (length l) → stack_top st < 2 ^ 62 →
  l !! Z.to_nat (stack_top st - 1) = Some v →
  (exec_lset rt instr ;;; exec_lvar rt instr) st
  = Ok (Next,
        set_stack_top
          (set_objects st
             (<[stack st := VECTOR (<[Z.to_nat (stack_top st) := v]> l)]>
                (<[f := VECTOR (<[Z.to_nat j := v]> fv)]> (objects st))))
          (stack_top st + 1)).
Proof.
  intros Hinstr Ha1 Ha2 Hi Hj Hchain Hf Hfn Hfv Hjlen Hs Hsf Hl Ht Hmax Hv.
  unfold INT_MAX in *.
  destruct (env_walk_frame st frames rest _ _ f Hchain Hf)
    as (next & d & Hwalk & Hnn & Hnext).
  assert (exec_lset rt instr st
          = Ok (Next, set_objects st
                        (<[f := VECTOR (<[Z.to_nat j := v]> fv)]> (objects st))))
    as Hset.
  { unfold exec_lset, bind. rewrite (ARG1_ok rt st _ _ _ _ Hinstr).
    rewrite (fixnum_LONG st _ _ Ha1). rewrite (ARG2_ok rt st _ _ _ _ Hinstr).
    rewrite (fixnum_LONG st _ _ Ha2). unfold gets. cbv beta iota.
    rewrite !wrap_int_id by lia. rewrite Hwalk.
    rewrite (vector_ref_ok st _ l _ v Hs Hl)
      by (unfold aget; by rewrite decide_True by lia).
    rewrite (car_ok rt st _ _ _ Hnn Hnext).
    by rewrite (vector_set_ok st _ fv _ v Hfn Hfv) by lia. }
  rewrite (bind_ok _ _ _ _ _ Hset).
  set (st1 := set_objects st _).
  assert (keeps_scalars (objects st) (objects st1)) as Hk.
  { by apply (keeps_scalars_vector _ _ fv). }
  destruct (env_walk_frame st1 frames rest _ _ f
              (env_chain_keeps _ _ _ _ _ Hk Hchain) Hf)
    as (next1 & d1 & Hwalk1 & Hnn1 & Hnext1).
  assert (objects st1 !! f = Some (VECTOR (<[Z.to_nat j := v]> fv))) as Hfv1.
  { simpl. apply lookup_insert_eq. }
  assert (objects st1 !! stack st1 = Some (VECTOR l)) as Hl1.
  { simpl. by rewrite lookup_insert_ne. }
  unfold exec_lvar, bind.
  rewrite (ARG1_ok rt st1 _ _ _ _ (instr_is_keeps _ _ _ _ _ _ Hk Hinstr)).
  rewrite (fixnum_LONG st1 _ _ (fixnum_at_keeps _ _ _ _ Hk Ha1)).
  rewrite (ARG2_ok rt st1 _ _ _ _ (instr_is_keeps _ _ _ _ _ _ Hk Hinstr)).
  rewrite (fixnum_LONG st1 _ _ (fixnum_at_keeps _ _ _ _ Hk Ha2)).
  unfold gets. cbv beta iota. rewrite !wrap_int_id by lia.
  change (env st1) with (env st). rewrite Hwalk1.
  rewrite (car_ok rt st1 _ _ _ Hnn1 Hnext1).
  rewrite (vector_ref_ok st1 _ _ _ v Hfn Hfv1).
  2:{ unfold aget. rewrite decide_True by lia. apply list_lookup_insert_eq. lia. }
  rewrite (VPUSH_ok rt st1 l v Hs Hl1) by (simpl; lia).
  done.
Qed.

Lemma lset_then_lvar_reads_back_witness :
  (exec_lset example_rt 50 ;;; exec_lvar example_rt 50) example_lset
  = Ok (Next,
        set_stack_top
          (set_objects example_lset
             (<[stack example_lset
                := VECTOR (<[Z.to_nat (stack_top example_lset) := 61]>
                             [61; 1; 1; 1])]>
                (<[12 := VECTOR (<[Z.to_nat 1 := 61]> [1; 1])]> (objects example_lset))))
          (stack_top example_lset + 1)).
Proof.
  apply (lset_then_lvar_reads_back example_rt example_lset 50 51 53 55 0 1
           [12] 1 12 [1; 1] [61; 1; 1; 1] 61).
  - split; [done|]. exists 52, 54, 1.
    repeat split; try done; vm_compute; reflexivity.
  - split; [done|]. vm_compute. reflexivity.
  - split; [done|]. vm_compute. reflexivity.
  - unfold INT_MAX. lia.
  - unfold INT_MAX. lia.
  - split; [done|]. exists 1. split; [|done]. vm_compute. reflexivity.
  - reflexivity.
  - done.
  - vm_compute. reflexivity.
  - simpl. lia.
  - done.
  - done.
  - vm_compute. reflexivity.
  - simpl. lia.
  - simpl. lia.
  - reflexivity.
Defined.



(** X19: when only the result is left above [initial_top], the return
    instructions take the pins [&top], [&env] and [&fn] off the root stack
    and hand the result to the caller of [vm_execute]. *)
Theorem return_of_last_value_leaves_vm (rt : runtime) (st : vm) (l : list Z)
    (pins : list Z) (val : Z) :
  stack st ≠ NULL → objects st !! stack st = Some (VECTOR l) →
  stack_top st = initial_top st + 1 →
  0 < stack_top st ≤ Z.of_nat (length l) → stack_top st ≤ 2 ^ 62 →
  l !! Z.to_nat (stack_top st - 1) = Some val →
  StackSet.stack_ok (roots st) → StackSet.top (roots st) ≤ 2 ^ 31 →
  StackSet.live (roots st) = pins ++ [addr_fn rt; addr_env rt; addr_top rt] →
  ∃ st',
    RETURN_OPCODE_INSTRUCTIONS rt st = Ok (Return val, st')
    ∧ StackSet.live (roots st') = pins
    ∧ stack_top st' = initial_top st
    ∧ objects st' !! stack st
      = Some (VECTOR (<[Z.to_nat (initial_top st) := the_empty_list rt]> l)).
Proof.
  intros Hs Hl Hinit Ht Hmax Hval Hok Htop Hlive.
  unfold RETURN_OPCODE_INSTRUCTIONS. vm_simpl. rewrite decide_True by done.
  rewrite (bind_ok _ _ _ _ _ (VPOP_ok rt st l val Hs Hl Ht Hmax Hval)).
  set (st1 := set_stack_top _ _).
  destruct (VM_RETURN_ok rt val st1 pins Hok Htop Hlive) as (r' & Hret & Hl').
  rewrite Hret. eexists. split; [done|]. split; [done|]. simpl.
  split; [lia|]. rewrite lookup_insert_eq. do 3 f_equal. lia.
Qed.

Lemma return_of_last_value_leaves_vm_witness :
  ∃ st',
    RETURN_OPCODE_INSTRUCTIONS example_rt example_return = Ok (Return 61, st')
    ∧ StackSet.live (roots st') = []
    ∧ stack_top st' = initial_top example_return
    ∧ objects st' !! stack example_return
      = Some (VECTOR (<[Z.to_nat (initial_top example_return)
                        := the_empty_list example_rt]> [61; 1; 1; 1])).
Proof.
  apply (return_of_last_value_leaves_vm example_rt example_return
           [61; 1; 1; 1] [] 61).
  - done.
  - vm_compute. reflexivity.
  - reflexivity.
  - simpl. lia.
  - simpl. lia.
  - reflexivity.
  - unfold StackSet.stack_ok. simpl. lia.
  - simpl. lia.
  - reflexivity.
Defined.

(** X20: a return undoes a save.  [save k] pushes the return address
    [(k . (fn . env))]; whatever the callee then does to [fn], [env] and
    [pc], once it has left its result on top of that address the return
    instructions restore [fn] and [env], set [pc] to [k], and leave the
    result in the slot the address occupied. *)
Theorem return_restores_what_save_stashed (rt : runtime) (st : vm)
    (instr op a1 a2 k : Z) (l : list Z)
    (callee_fn callee_env callee_pc val : Z) :
  instr_is (objects st) instr op a1 a2 →
  fixnum_at (objects st) a1 k →
  roots_fit (roots st) →
  stack st ≠ NULL → objects st !! stack st = Some (VECTOR l) →
  0 ≤ stack_top st → stack_top st + 1 < Z.of_nat (length l) →
  stack_top st < 2 ^ 61 →
  initial_top st ≠ stack_top st + 1 →
  ∃ st',
    (exec_save rt instr ;;;
     modify (λ s, set_pc (set_env (set_fn s callee_fn) callee_env) callee_pc) ;;;
     VPUSH rt val ;;;
     RETURN_OPCODE_INSTRUCTIONS rt) st = Ok (Enter, st')
    ∧ fn st' = fn st ∧ env st' = env st ∧ pc st' = k
    ∧ stack st' = stack st ∧ stack_top st' = stack_top st + 1
    ∧ objects st' !! stack st
      = Some (VECTOR (<[Z.to_nat (stack_top st) := val]>
                        (<[Z.to_nat (stack_top st + 1)
                           := the_empty_list rt]> l)))
    ∧ (∀ q, is_Some (objects st !! q) → q ≠ stack st →
            objects st' !! q = objects st !! q)
    ∧ StackSet.live (roots st') = StackSet.live (roots st).
Proof.
  intros Hinstr [Han Hao] Hfit Hs Hl Ht0 Ht1 Hmax Hinit.
  destruct (exec_save_ok rt st instr op a1 a2 l Hinstr Hfit Hs Hl ltac:(lia)
              ltac:(lia))
    as (c1 & c2 & r2 & Hsave & Hc1n & Hc1f & Hc2n & Hc2f & Hne & Hlive).
  rewrite (bind_ok _ _ _ _ _ Hsave). vm_simpl.
  set (st1 := set_pc _ callee_pc).
  assert (c1 ≠ stack st ∧ c2 ≠ stack st ∧ a1 ≠ stack st ∧ a1 ≠ c1 ∧ a1 ≠ c2)
    as (Hc1s & Hc2s & Has & Hac1 & Hac2).
  { repeat split; congruence. }
  assert (objects st1 !! stack st1
          = Some (VECTOR (<[Z.to_nat (stack_top st) := c2]> l))) as Hl1.
  { simpl. apply lookup_insert_eq. }
  rewrite (bind_ok _ _ _ _ _ (VPUSH_ok rt st1 _ val Hs Hl1
             ltac:(simpl; rewrite length_insert; lia) ltac:(simpl; lia))).
  set (st2 := set_stack_top _ _).
  set (l2 := <[Z.to_nat (stack_top st + 1) := val]>
               (<[Z.to_nat (stack_top st) := c2]> l)).
  assert (objects st2 !! stack st2 = Some (VECTOR l2)) as Hl2.
  { simpl. apply lookup_insert_eq. }
  rewrite (RETURN_continue_ok rt st2 l2 val c2 a1 c1 (fn st) (env st) k Hs Hl2).
  - eexists. split; [done|]. simpl.
    split; [done|]. split; [done|]. split; [done|]. split; [done|].
    split; [lia|]. split.
    + rewrite lookup_insert_eq. do 2 f_equal. unfold l2.
      replace (stack_top st + 1 + 1 - 2) with (stack_top st) by lia.
      replace (stack_top st + 1 + 1 - 1) with (stack_top st + 1) by lia.
      rewrite list_insert_insert_eq.
      rewrite (list_insert_insert_ne _ (Z.to_nat (stack_top st + 1))) by lia.
      by rewrite list_insert_insert_eq.
    + split; [|done]. intros q [o Hq] Hqs.
      rewrite !lookup_insert_ne by congruence. done.
  - simpl. unfold l2. rewrite !length_insert. lia.
  - simpl. lia.
  - simpl. lia.
  - simpl. unfold l2. replace (stack_top st + 1 + 1 - 1) with (stack_top st + 1) by lia.
    apply list_lookup_insert_eq. rewrite length_insert. lia.
  - simpl. unfold l2. replace (stack_top st + 1 + 1 - 2) with (stack_top st) by lia.
    rewrite list_lookup_insert_ne by lia. apply list_lookup_insert_eq. lia.
  - done.
  - simpl. rewrite !lookup_insert_ne by congruence. apply lookup_insert_eq.
  - done.
  - simpl. rewrite !lookup_insert_ne by congruence. apply lookup_insert_eq.
  - split; [done|]. simpl. rewrite !lookup_insert_ne by congruence. done.
Qed.

Lemma return_restores_what_save_stashed_witness :
  ∃ st',
    (exec_save example_rt 50 ;;;
     modify (λ s, set_pc (set_env (set_fn s 40) 42) 7) ;;;
     VPUSH example_rt 63 ;;;
     RETURN_OPCODE_INSTRUCTIONS example_rt) example_stack = Ok (Enter, st')
    ∧ fn st' = fn example_stack ∧ env st' = env example_stack ∧ pc st' = 2
    ∧ stack st' = stack example_stack ∧ stack_top st' = stack_top example_stack + 1
    ∧ objects st' !! stack example_stack
      = Some (VECTOR (<[Z.to_nat (stack_top example_stack) := 63]>
                        (<[Z.to_nat (stack_top example_stack + 1)
                           := the_empty_list example_rt]> [61; 62; 1; 1])))
    ∧ (∀ q, is_Some (objects example_stack !! q) → q ≠ stack example_stack →
            objects st' !! q = objects example_stack !! q)
    ∧ StackSet.live (roots st') = StackSet.live (roots example_stack).
Proof.
  apply (return_restores_what_save_stashed example_rt example_stack 50 51 53 1
           2 [61; 62; 1; 1] 40 42 7 63).
  - split; [done|]. exists 52, 54, 1.
    repeat split; try done; vm_compute; reflexivity.
  - split; [done|]. vm_compute. reflexivity.
  - unfold roots_fit, StackSet.stack_ok. simpl. lia.
  - done.
  - vm_compute. reflexivity.
  - simpl. lia.
  - simpl. lia.
  - simpl. lia.
  - simpl. lia.
Defined.

(** X21: [cc] snapshots the value stack.  It pushes a new compiled
    procedure whose code is [cc_bytecode] and whose environment is one
    frame holding a new vector and the fixnum [stack_top]; the new vector
    has the size of the live stack, repeats its slots below [stack_top]
    and has the empty list above.  All five objects are new, so what is
    pushed or popped later does not change the snapshot. *)
Theorem cc_captures_a_copy_of_the_stack (rt : runtime) (st : vm) (l : list Z) :
  stack st ≠ NULL → objects st !! stack st = Some (VECTOR l) →
  0 ≤ stack_top st < Z.of_nat (length l) →
  Z.of_nat (length l) ≤ 2 ^ 62 →
  roots_fit2 (roots st) →
  ∃ st' cc_fn cc_env frame new_stack k,
    exec_cc rt st = Ok (Next, st')
    ∧ objects st' !! cc_fn = Some (COMPILED_PROC (cc_bytecode rt) cc_env)
    ∧ objects st' !! cc_env = Some (PAIR frame (the_empty_list rt))
    ∧ objects st' !! frame = Some (VECTOR [new_stack; k])
    ∧ objects st' !! k = Some (FIXNUM (stack_top st))
    ∧ objects st' !! new_stack
      = Some (VECTOR (take (Z.to_nat (stack_top st)) l
                      ++ replicate (length l - Z.to_nat (stack_top st))
                           (the_empty_list rt)))
    ∧ objects st !! cc_fn = None ∧ objects st !! cc_env = None
    ∧ objects st !! frame = None ∧ objects st !! k = None
    ∧ objects st !! new_stack = None
    ∧ stack st' = stack st ∧ stack_top st' = stack_top st + 1
    ∧ objects st' !! stack st
      = Some (VECTOR (<[Z.to_nat (stack_top st) := cc_fn]> l))
    ∧ (∀ q, is_Some (objects st !! q) → q ≠ stack st →
            objects st' !! q = objects st !! q)
    ∧ StackSet.live (roots st') = StackSet.live (roots st).
Proof.
  intros Hs Hl Ht Hmax Hfit.
  assert (stack_top st ≤ 2 ^ 62) as Hmax0 by lia.
  destruct (push2_pop2 (roots st) (addr_local rt) (addr_local2 rt) Hfit)
    as (r1 & r2 & r3 & r4 & Hpush1 & Hpush2 & Hpop3 & Hpop4 & Hlive).
  unfold exec_cc.
  destruct (make_vector_fresh (the_empty_list rt) 2 st) as (frame & Hmk1 & Hfn & Hff).
  rewrite (bind_ok _ _ _ _ _ Hmk1). set (st1 := set_objects st _).
  rewrite (bind_ok _ _ _ _ _ (push_root_ok st1 _ r1 Hpush1)). vm_simpl.
  set (st2 := set_roots st1 r1).
  assert (frame ≠ stack st) as Hfs by congruence.
  assert (objects st2 !! stack st = Some (VECTOR l)) as Hl2 by look.
  rewrite (bind_ok _ _ _ _ _ (VSIZE_ok st2 _ l Hs Hl2)).
  destruct (make_vector_fresh (the_empty_list rt) (Z.of_nat (length l)) st2)
    as (ns & Hmk2 & Hnn & Hnf).
  rewrite Nat2Z.id in Hmk2.
  rewrite (bind_ok _ _ _ _ _ Hmk2). set (st3 := set_objects st2 _).
  assert (ns ≠ frame) as Hnfr.
  { intros ->. simpl in Hnf. by rewrite lookup_insert_eq in Hnf. }
  assert (objects st !! ns = None) as Hnf0.
  { simpl in Hnf. by rewrite lookup_insert_ne in Hnf. }
  assert (ns ≠ stack st) as Hnss by congruence.
  rewrite (bind_ok _ _ _ _ _ (push_root_ok st3 _ r2 Hpush2)). vm_simpl.
  set (st4 := set_roots st3 r2).
  change 0 with (Z.of_nat 0) at 1.
  rewrite (bind_ok _ _ _ _ _
             (copy_stack_spec st4 ns l Hs Hnn Hnss ltac:(look) Hmax
                (Z.to_nat (stack_top st)) 0
                (replicate (length l) (the_empty_list rt)) ltac:(lia)
                ltac:(apply length_replicate) ltac:(look))).
  rewrite take_0, drop_0, app_nil_l, Nat.add_0_l, drop_replicate.
  set (copy := take (Z.to_nat (stack_top st)) l ++ _).
  set (st5 := set_objects st4 _).
  rewrite (bind_ok _ _ _ _ _
             (vector_set_ok st5 frame _ 0 ns Hfn ltac:(look) ltac:(simpl; lia))).
  set (st6 := set_objects st5 _).
  destruct (make_fixnum_fresh (stack_top st) st6) as (k & Hmk3 & Hkn & Hkf).
  rewrite (bind_ok _ _ _ _ _ Hmk3). set (st7 := set_objects st6 _).
  assert (k ≠ frame ∧ k ≠ ns) as [Hkfr Hkns].
  { split; intros ->; simpl in Hkf; revert Hkf; look. }
  assert (objects st !! k = None) as Hkf0.
  { simpl in Hkf. revert Hkf. look. }
  rewrite (bind_ok _ _ _ _ _
             (vector_set_ok st7 frame _ 1 k Hfn ltac:(look) ltac:(simpl; lia))).
  set (st8 := set_objects st7 _).
  rewrite (bind_ok _ _ _ _ _ (pop_root_ok st8 _ r3 Hpop3)).
  set (st9 := set_roots st8 r3).
  destruct (cons_fresh frame (the_empty_list rt) st9) as (ce & Hmk4 & Hcn & Hcf).
  rewrite (bind_ok _ _ _ _ _ Hmk4). set (st10 := set_objects st9 _).
  assert (ce ≠ frame ∧ ce ≠ ns ∧ ce ≠ k) as (Hcfr & Hcns & Hck).
  { repeat split; intros ->; simpl in Hcf; revert Hcf; look. }
  assert (objects st !! ce = None) as Hcf0.
  { simpl in Hcf. revert Hcf. look. }
  destruct (make_compiled_proc_fresh (cc_bytecode rt) ce st10)
    as (cf & Hmk5 & Hpn & Hpf).
  rewrite (bind_ok _ _ _ _ _ Hmk5). set (st11 := set_objects st10 _).
  assert (cf ≠ frame ∧ cf ≠ ns ∧ cf ≠ k ∧ cf ≠ ce) as (Hpfr & Hpns & Hpk & Hpc).
  { repeat split; intros ->; simpl in Hpf; revert Hpf; look. }
  assert (objects st !! cf = None) as Hpf0.
  { simpl in Hpf. revert Hpf. look. }
  rewrite (bind_ok _ _ _ _ _ (pop_root_ok st11 _ r4 Hpop4)).
  set (st12 := set_roots st11 r4).
  assert (cf ≠ stack st ∧ ce ≠ stack st ∧ k ≠ stack st) as (Hps & Hcs & Hks).
  { repeat split; congruence. }
  assert (objects st12 !! stack st12 = Some (VECTOR l)) as Hl12 by look.
  assert (stack_top st12 ≤ 2 ^ 62) as Hmax12 by exact Hmax0.
  rewrite (bind_ok _ _ _ _ _ (VPUSH_ok rt st12 l cf Hs Hl12 Ht Hmax12)).
  unfold ret. exists (set_stack_top
    (set_objects st12
       (<[stack st12 := VECTOR (<[Z.to_nat (stack_top st12) := cf]> l)]>
          (objects st12))) (stack_top st12 + 1)), cf, ce, frame, ns, k.
  split; [done|].
  split; [look|]. split; [look|]. split; [look|]. split; [look|].
  split; [look|].
  repeat (split; [done|]). split; [look|]. split; [|done].
  intros q [o Hq] Hqs.
  assert (q ≠ frame ∧ q ≠ ns ∧ q ≠ k ∧ q ≠ ce ∧ q ≠ cf) as (? & ? & ? & ? & ?).
  { repeat split; congruence. }
  look.
Qed.

Lemma cc_captures_a_copy_of_the_stack_witness :
  ∃ st' cc_fn cc_env frame new_stack k,
    exec_cc example_rt example_stack = Ok (Next, st')
    ∧ objects st' !! cc_fn = Some (COMPILED_PROC (cc_bytecode example_rt) cc_env)
    ∧ objects st' !! cc_env = Some (PAIR frame (the_empty_list example_rt))
    ∧ objects st' !! frame = Some (VECTOR [new_stack; k])
    ∧ objects st' !! k = Some (FIXNUM (stack_top example_stack))
    ∧ objects st' !! new_stack
      = Some (VECTOR (take (Z.to_nat (stack_top example_stack)) [61; 62; 1; 1]
                      ++ replicate (length [61; 62; 1; 1] - Z.to_nat (stack_top example_stack))
                           (the_empty_list example_rt)))
    ∧ objects example_stack !! cc_fn = None ∧ objects example_stack !! cc_env = None
    ∧ objects example_stack !! frame = None ∧ objects example_stack !! k = None
    ∧ objects example_stack !! new_stack = None
    ∧ stack st' = stack example_stack ∧ stack_top st' = stack_top example_stack + 1
    ∧ objects st' !! stack example_stack
      = Some (VECTOR (<[Z.to_nat (stack_top example_stack) := cc_fn]> [61; 62; 1; 1]))
    ∧ (∀ q, is_Some (objects example_stack !! q) → q ≠ stack example_stack →
            objects st' !! q = objects example_stack !! q)
    ∧ StackSet.live (roots st') = StackSet.live (roots example_stack).
Proof.
  apply (cc_captures_a_copy_of_the_stack example_rt example_stack
           [61; 62; 1; 1]).
  - done.
  - vm_compute. reflexivity.
  - simpl. lia.
  - simpl. lia.
  - unfold roots_fit2, StackSet.stack_ok. simpl. lia.
Defined.

(** X22: the [apply] case of [callj] (operand -1).  With the callee on top
    of the stack and a proper list of arguments below it, the instruction
    takes both off the stack and pushes the elements of the list in list
    order, the first one into the slot the list occupied; the number of
    arguments it passes on is the length of the list, the callee is in
    [top] again, and the pin on it is released. *)
Theorem callj_apply_spreads_the_argument_list (rt : runtime) (fuel : nat)
    (instr op a1 a2 : Z) (st : vm) (below above xs : list Z) (lst callee : Z)
    (o : payload) :
  instr_is (objects st) instr op a1 a2 →
  fixnum_at (objects st) a1 (-1) →
  stack_holds st below [lst; callee] above →
  objects st !! NULL = None →
  objects st !! callee = Some o →
  (∀ f m, o ≠ META_PROC f m) → (∀ l, o ≠ VECTOR l) →
  is_list rt (objects st) lst xs →
  (length xs ≤ length above + 2)%nat → (length xs ≤ fuel)%nat →
  roots_fit (roots st) →
  ∃ st',
    callj_callee rt fuel instr st = Ok (Z.of_nat (length xs), st')
    ∧ top st' = callee
    ∧ stack_holds st' below xs
        (drop (length xs) (the_empty_list rt :: the_empty_list rt :: above))
    ∧ env st' = env st ∧ fn st' = fn st
    ∧ StackSet.live (roots st') = StackSet.live (roots st)
    ∧ ∀ q, q ≠ stack st → objects st' !! q = objects st !! q.
Proof.
  intros Hinstr Ha1 Hst Hnull Ho Hmeta Hvec Hlist Hroom Hfuel Hfit.
  pose proof Hst as (Hs & Hl & _ & Hlen).
  assert (callee ≠ NULL) as Hcn by (intros ->; congruence).
  destruct (push_pop_root (roots st) (addr_local rt) Hfit)
    as (r1 & r2 & Hpush & Hpop & Hlive).
  unfold callj_callee.
  destruct (VPOP_top_off rt st below [lst] callee above Hst)
    as (st1 & Hpop1 & Htop1 & Hst1 & Hoff1).
  rewrite (bind_ok _ _ _ _ _ Hpop1).
  pose proof (off_stack_keeps _ _ _ Hl Hoff1) as Hk1.
  rewrite (bind_ok _ _ _ _ _
             (unwrap_meta_plain st1 o ltac:(by rewrite Htop1)
                ltac:(rewrite Htop1; by apply Hk1) Hmeta)).
  rewrite (bind_ok _ _ _ _ _
             (ARG1_ok rt st1 _ _ _ _ (instr_is_keeps _ _ _ _ _ _ Hk1 Hinstr))).
  rewrite (bind_ok _ _ _ _ _
             (fixnum_LONG st1 _ _ (fixnum_at_keeps _ _ _ _ Hk1 Ha1))).
  rewrite decide_True by done. vm_simpl.
  destruct Hoff1 as (Hs1 & He1 & Hf1 & Hr1 & Ho1).
  rewrite (bind_ok _ _ _ _ _ (push_root_ok st1 _ r1 ltac:(by rewrite Hr1))).
  set (st2 := set_roots st1 r1).
  destruct (VPOP_top_off rt st2 below [] lst (the_empty_list rt :: above) Hst1)
    as (st3 & Hpop3 & Htop3 & Hst3 & Hoff3).
  rewrite (bind_ok _ _ _ _ _ Hpop3).
  pose proof Hst1 as (_ & Hl1 & _).
  pose proof (off_stack_keeps st2 st3 _ Hl1 Hoff3) as Hk3.
  destruct (splat_spec rt below xs fuel st3 []
              (the_empty_list rt :: the_empty_list rt :: above) 0 lst)
    as (st4 & Hrun & Htop4 & Hst4 & Hoff4).
  { exact Hst3. }
  { done. }
  { apply (is_list_keeps rt (objects st2)); [done|].
    by apply (is_list_keeps rt (objects st)). }
  { destruct Hoff3 as (_ & _ & _ & _ & Ho3).
    rewrite Ho3 by (intros E; simpl in E; congruence).
    simpl. rewrite Ho1 by congruence. done. }
  { simpl. lia. }
  { done. }
  { done. }
  { rewrite !length_app in Hlen. simpl in Hlen. lia. }
  rewrite (bind_ok _ _ _ _ _ Hrun). vm_simpl.
  destruct Hoff3 as (Hs3 & He3 & Hf3 & Hr3 & Ho3).
  destruct Hoff4 as (Hs4 & He4 & Hf4 & Hr4 & Ho4).
  rewrite (bind_ok _ _ _ _ _
             (pop_root_ok (set_top st4 (top st1)) _ r2
                ltac:(simpl; by rewrite Hr4, Hr3))).
  unfold ret. eexists. split; [by rewrite Z.add_0_l|].
  simpl. split; [done|]. split; [exact Hst4|].
  split; [rewrite He4, He3; exact He1|].
  split; [rewrite Hf4, Hf3; exact Hf1|]. split; [done|].
  assert (stack st2 = stack st) as Hs2 by exact Hs1.
  assert (stack st3 = stack st) as Hs3' by (by rewrite Hs3).
  intros q Hq. rewrite Ho4 by (by rewrite Hs3').
  rewrite Ho3 by (by rewrite Hs2). simpl. by apply Ho1.
Qed.

Lemma callj_apply_spreads_the_argument_list_witness :
  ∃ st',
    callj_callee example_rt 2%nat 50 example_apply = Ok (Z.of_nat (length [61; 62]), st')
    ∧ top st' = 40
    ∧ stack_holds st' [] [61; 62]
        (drop (length [61; 62]) (the_empty_list example_rt :: the_empty_list example_rt :: [1; 1]))
    ∧ env st' = env example_apply ∧ fn st' = fn example_apply
    ∧ StackSet.live (roots st') = StackSet.live (roots example_apply)
    ∧ ∀ q, q ≠ stack example_apply → objects st' !! q = objects example_apply !! q.
Proof.
  apply (callj_apply_spreads_the_argument_list example_rt 2 50 51 53 1
           example_apply [] [1; 1] [61; 62] 80 40 (COMPILED_PROC 41 42)).
  - split; [done|]. exists 52, 54, 1.
    repeat split; try done; vm_compute; reflexivity.
  - split; [done|]. vm_compute. reflexivity.
  - split; [done|]. split; [vm_compute; reflexivity|]. simpl. lia.
  - vm_compute. reflexivity.
  - vm_compute. reflexivity.
  - discriminate.
  - discriminate.
  - split; [done|]. exists 81. split; [vm_compute; reflexivity|].
    split; [done|]. exists 1. split; [vm_compute; reflexivity|]. done.
  - simpl. lia.
  - simpl. lia.
  - unfold roots_fit, StackSet.stack_ok. simpl. lia.
Defined.

(** X23: the call of a primitive, from [fcallj] or [callj].  With the [n]
    arguments on top of the stack, the primitive is handed the stack, [n]
    and [stack_top]; if it leaves the stack vector as it is, its [n]
    arguments are then taken off the stack and its result is pushed in
    their place, the pin on the primitive is released, and the return
    instructions run from there. *)
Theorem primitive_call_replaces_arguments_by_result (rt : runtime) (st : vm)
    (pfn f r : Z) (h : gmap Z payload) (below args above : list Z) :
  pfn ≠ NULL → objects st !! pfn = Some (PRIMITIVE_PROC f) →
  stack_holds st below args above →
  primitive_fn rt f (objects st) (stack st) (Z.of_nat (length args))
    (stack_top st) = Some (r, h) →
  h !! stack st = objects st !! stack st →
  (1 ≤ length args + length above)%nat →
  roots_fit (roots st) →
  ∃ st1,
    call_primitive rt pfn (Z.of_nat (length args)) st
    = RETURN_OPCODE_INSTRUCTIONS rt st1
    ∧ top st1 = r
    ∧ stack_holds st1 below [r]
        (drop 1 (replicate (length args) (the_empty_list rt) ++ above))
    ∧ (∀ q, q ≠ stack st → objects st1 !! q = h !! q)
    ∧ StackSet.live (roots st1) = StackSet.live (roots st)
    ∧ fn st1 = fn st ∧ env st1 = env st.
Proof.
  intros Hpn Hpfn Hst Hprim Hkeep Hroom Hfit.
  pose proof Hst as (Hs & Hl & Ht & Hlen).
  destruct (push_pop_root (roots st) (addr_local rt) Hfit)
    as (r1 & r2 & Hpush & Hpop & Hlive).
  unfold call_primitive.
  rewrite (bind_ok _ _ _ _ _ (push_root_ok st _ r1 Hpush)).
  set (st_a := set_roots st r1).
  rewrite (bind_ok _ _ _ _ _ (deref_ok st_a pfn _ Hpn Hpfn)).
  vm_simpl. unfold bind at 1. simpl objects. simpl stack. simpl stack_top.
  rewrite Hprim. vm_simpl.
  set (st_c := set_top (set_objects st_a h) r).
  assert (stack_holds st_c below args above) as Hst_c.
  { split; [done|]. split; [|done]. simpl. by rewrite Hkeep. }
  destruct (unwind_spec rt below args st_c above Hst_c)
    as (st_d & Hrun & Htop_d & Hst_d & Hoff_d).
  rewrite Nat2Z.id.
  rewrite (bind_ok _ _ _ _ _ Hrun). vm_simpl. rewrite Htop_d. simpl top.
  destruct (replicate (length args) (the_empty_list rt) ++ above)
    as [|r0 room] eqn:Hrep.
  { apply (f_equal length) in Hrep.
    rewrite length_app, length_replicate in Hrep. simpl in Hrep. lia. }
  destruct (VPUSH_off rt st_d below [] r0 room r Hst_d)
    as (st_e & Hpush_e & Htop_e & Hst_e & Hoff_e).
  rewrite (bind_ok _ _ _ _ _ Hpush_e).
  destruct Hoff_d as (Hs_d & He_d & Hf_d & Hr_d & Ho_d).
  destruct Hoff_e as (Hs_e & He_e & Hf_e & Hr_e & Ho_e).
  rewrite (bind_ok _ _ _ _ _
             (pop_root_ok st_e _ r2 ltac:(by rewrite Hr_e, Hr_d))).
  exists (set_roots st_e r2). split; [done|]. simpl.
  split; [by rewrite Htop_e, Htop_d|]. split; [exact Hst_e|].
  assert (stack st_d = stack st) as Hs_d' by exact Hs_d.
  split.
  { intros q Hq. rewrite Ho_e by (by rewrite Hs_d').
    by rewrite Ho_d by exact Hq. }
  split; [done|]. split.
  - rewrite Hf_e. exact Hf_d.
  - rewrite He_e. exact He_d.
Qed.

Lemma primitive_call_replaces_arguments_by_result_witness :
  ∃ st1,
    call_primitive example_rt_prim 45 (Z.of_nat (length [61; 62])) example_prim
    = RETURN_OPCODE_INSTRUCTIONS example_rt_prim st1
    ∧ top st1 = 62
    ∧ stack_holds st1 [] [62]
        (drop 1 (replicate (length [61; 62]) (the_empty_list example_rt_prim) ++ [1; 1]))
    ∧ (∀ q, q ≠ stack example_prim → objects st1 !! q = (objects example_prim) !! q)
    ∧ StackSet.live (roots st1) = StackSet.live (roots example_prim)
    ∧ fn st1 = fn example_prim ∧ env st1 = env example_prim.
Proof.
  apply (primitive_call_replaces_arguments_by_result example_rt_prim
           example_prim 45 7 62 (objects example_prim) [] [61; 62] [1; 1]).
  - done.
  - vm_compute. reflexivity.
  - split; [done|]. split; [vm_compute; reflexivity|]. simpl. lia.
  - reflexivity.
  - reflexivity.
  - simpl. lia.
  - unfold roots_fit, StackSet.stack_ok. simpl. lia.
Defined.

End InterpreterProperties.
